(** * Grayscale image compression: RLE + adaptive Huffman codec

    A shallow embedding of the codec engines of the repository
    (differential model, RLE compressor and decompressor, adaptive
    Huffman coder and decoder, and the pipeline of [main]) together
    with the properties that the specification states about them.

    Bytes ([uint8_t]) and machine integers ([uint32_t], [size_t]) are
    modelled as [Z] with their wrap-around written out; buffers are
    lists of bytes; the Huffman tree is an arena of [Node] records whose
    pointers are positions in the arena. *)

From Stdlib Require Import ZArith List Lia Bool Arith.
Import ListNotations.

Local Open Scope Z_scope.

(** ** Machine integers *)

Definition u8 (x : Z) : Z := x mod 256.
Definition u16 (x : Z) : Z := x mod 65536.
Definition u32 (x : Z) : Z := x mod 4294967296.
Definition u64 (x : Z) : Z := x mod 18446744073709551616.

(** A byte is a [Z] in the range of [uint8_t]. *)
Definition is_byte (b : Z) : Prop := 0 <= b < 256.
Definition bytes (l : list Z) : Prop := Forall is_byte l.

(** ** Outcomes of code that may touch memory it does not own

    A read past the end of an input buffer, a dereference of a null
    pointer and a loop that would not end have no defined result in the
    source; the embedding reports them as faults. *)

Inductive fault : Type := OutOfBounds | NullPointer | OutOfFuel.

Inductive result (A : Type) : Type :=
| Ret (a : A)
| Fault (f : fault).
Arguments Ret {A} a.
Arguments Fault {A} f.

Definition bind {A B : Type} (m : result A) (k : A -> result B) : result B :=
  match m with
  | Ret a => k a
  | Fault f => Fault f
  end.

Notation "x <- m ;; k" := (bind m (fun x => k))
  (at level 61, m at next level, right associativity).
Notation "' p <- m ;; k" := (bind m (fun p => k))
  (at level 61, p pattern, m at next level, right associativity).

(** [buffer[i]] for an input buffer of [length buffer] bytes. *)
Definition read (buffer : list Z) (i : nat) : result Z :=
  match nth_error buffer i with
  | Some b => Ret b
  | None => Fault OutOfBounds
  end.

(** [buffer[i] = v] inside the allocation. *)
Fixpoint store {A : Type} (l : list A) (i : nat) (v : A) : list A :=
  match l, i with
  | [], _ => []
  | _ :: r, O => v :: r
  | x :: r, S j => x :: store r j v
  end.

(** A loop whose body may fault: [f] on the elements of [l] in order. *)
Fixpoint fold_result {A B : Type} (f : A -> B -> result A) (l : list B) (a : A)
  : result A :=
  match l with
  | [] => Ret a
  | b :: rest => a1 <- f a b ;; fold_result f rest a1
  end.

(** ** rle.hpp: constants shared by the RLE compressor and decompressor *)

Module Rle.
Definition SCANNING_MASK : Z := 128.
Definition MODEL_MASK : Z := 64.
Definition HEIGHT_COUNT_MASK : Z := 7.
Definition WIDTH_COUNT_MASK : Z := 56.
Definition FIRST_BIT_MASK : Z := 1.
Definition UINT8_T_SIZE : Z := 8.
Definition UINT8_T_PADDING : Z := 0.
Definition MAX_COUNTER_VAL : Z := 255.
End Rle.

(** ** data_worker.cpp: the differential model *)

Module DataWorker.

(** The loop of [Preprocess] from position 1 on: [prev] is
    [buffer[i - 1]], the difference is stored in a [uint8_t]. *)
Fixpoint Preprocess_loop (prev : Z) (buffer : list Z) : list Z :=
  match buffer with
  | [] => []
  | x :: rest => u8 (x - prev) :: Preprocess_loop x rest
  end.

(** [DataWorker::Preprocess]: the content of the class buffer
    ([buff_size] bytes) after the call. *)
Definition Preprocess (buffer : list Z) : list Z :=
  match buffer with
  | [] => []
  | x :: rest => x :: Preprocess_loop x rest
  end.

(** The loop of [Depreprocess] from position 1 on: [prev] is
    [orig_image[i - 1]]. *)
Fixpoint Depreprocess_loop (prev : Z) (buffer : list Z) : list Z :=
  match buffer with
  | [] => []
  | y :: rest => let o := u8 (prev + y) in o :: Depreprocess_loop o rest
  end.

(** [DataWorker::Depreprocess]: the [size] bytes of [buffer] after the
    call. *)
Definition Depreprocess (buffer : list Z) : list Z :=
  match buffer with
  | [] => []
  | y :: rest => y :: Depreprocess_loop y rest
  end.

End DataWorker.
(** ** rle_compressor.cpp

    The members of the class and the locals [group], [group_vec] that
    the scanning functions hand to [appendToBuff] are kept in one
    record.  The block behind [encoded_buff] has [encoded_alloc] bytes;
    the record holds the bytes written so far, so [encoded_index] is
    their number.  A write at a position that is not below
    [encoded_alloc] is outside the block: a fault. *)

Module RleCompressor.
Import Rle.

(** [set_bit(byte, index)]: [byte |= (1UL << index)] on a [uint8_t]. *)
Definition set_bit (byte index : Z) : Z := u8 (Z.lor byte (Z.shiftl 1 index)).

Record packer : Type := {
  encoded_buff : list Z;
  encoded_alloc : Z;
  alloc_size : Z;
  group_vec : list Z;
  group : Z
}.

Definition encoded_index (p : packer) : Z := Z.of_nat (length (encoded_buff p)).

(** The constructor; [alloc_size] is computed on [uint32_t] values. *)
Definition init (width height : Z) : packer :=
  let size := u32 (width * height) in
  {| encoded_buff := []; encoded_alloc := 0;
     alloc_size := u32 (size + size / 8 + 1);
     group_vec := []; group := 0 |}.

Definition with_alloc (p : packer) (alloc : Z) : packer :=
  {| encoded_buff := encoded_buff p; encoded_alloc := alloc;
     alloc_size := alloc_size p; group_vec := group_vec p; group := group p |}.

Definition with_group (p : packer) (vec : list Z) (g : Z) : packer :=
  {| encoded_buff := encoded_buff p; encoded_alloc := encoded_alloc p;
     alloc_size := alloc_size p; group_vec := vec; group := g |}.

(** [RleCompressor::ReallocateBuffer]: the new block has the new
    [encoded_alloc] bytes and the bytes written so far are copied to it.
    [alloc_size * 0.25 + 1] is computed on doubles and converted to
    [size_t]; [alloc_size] has 32 bits, so that is
    [alloc_size / 4 + 1]. *)
Definition ReallocateBuffer (p : packer) : packer :=
  with_alloc p
    (if encoded_alloc p =? 0 then alloc_size p
     else u64 (encoded_alloc p + (alloc_size p / 4 + 1))).

(** [encoded_buff[encoded_index++] = b] *)
Definition push (p : packer) (b : Z) : result packer :=
  if encoded_index p <? encoded_alloc p then
    Ret {| encoded_buff := encoded_buff p ++ [b];
           encoded_alloc := encoded_alloc p; alloc_size := alloc_size p;
           group_vec := group_vec p; group := group p |}
  else Fault OutOfBounds.

Fixpoint push_all (p : packer) (bs : list Z) : result packer :=
  match bs with
  | [] => Ret p
  | b :: rest => p1 <- push p b ;; push_all p1 rest
  end.

(** [RleCompressor::appendToBuff]. *)
Definition appendToBuff (p : packer) (val : Z) (counter end_push : bool)
           (settings : option Z) : result packer :=
  let p0 :=
    if encoded_alloc p <=? u64 (encoded_index p + (UINT8_T_SIZE + 1))
    then ReallocateBuffer p else p in
  match settings with
  | Some s => push p0 s
  | None =>
      let group1 :=
        if counter then set_bit (group p0) (Z.of_nat (length (group_vec p0)))
        else group p0 in
      let vec1 := if end_push then group_vec p0 else group_vec p0 ++ [val] in
      if (Z.of_nat (length vec1) =? UINT8_T_SIZE) || end_push then
        p1 <- push_all p0 (group1 :: vec1) ;;
        Ret (with_group p1 [] 0)
      else Ret (with_group p0 vec1 group1)
  end.

(** The [while (counter > 0)] loop of [appendCounterValue]: the bytes
    pushed on [counter_values], least significant first.  A [size_t]
    has eight bytes, so the body runs at most eight times. *)
Fixpoint counter_loop (fuel : nat) (counter : Z) : list Z :=
  match fuel with
  | O => []
  | S f =>
      if 0 <? counter then
        Z.land counter MAX_COUNTER_VAL :: counter_loop f (Z.shiftr counter 8)
      else []
  end.

(** The vector [counter_values] of [appendCounterValue] for
    [counter > 1]. *)
Definition counter_values (counter : Z) : list Z :=
  (if counter =? 2 then [0] else []) ++ counter_loop 8 (u64 (counter - 2)).

(** [RleCompressor::appendCounterValue]: the new state and the value
    left in [counter]. *)
Definition appendCounterValue (p : packer) (val counter : Z)
  : result (packer * Z) :=
  if 1 <? counter then
    p1 <- fold_result (fun q c => appendToBuff q c true false None)
                      (rev (counter_values counter)) p ;;
    p2 <- appendToBuff p1 val false false None ;;
    Ret (p2, 1)
  else
    p2 <- appendToBuff p val false false None ;;
    Ret (p2, counter).

(** State of a scan: the compressor with the open group, the pixel of
    the current run and its length. *)
Record scan : Type := {
  pk : packer;
  pixel : Z;
  counter : Z
}.

(** The body shared by both scanning loops, for the pixel [b] read from
    the image. *)
Definition scan_step (s : scan) (b : Z) : result scan :=
  if b =? pixel s then
    Ret {| pk := pk s; pixel := pixel s; counter := u64 (counter s + 1) |}
  else
    '(p, c) <- appendCounterValue (pk s) (pixel s) (counter s) ;;
    Ret {| pk := p; pixel := b; counter := c |}.

(** What both scanning functions do after their loop: flush the last
    run, then push the group that is not full yet. *)
Definition scan_finish (s : scan) : result packer :=
  '(p, _) <- appendCounterValue (pk s) (pixel s) (counter s) ;;
  if (0 <? Z.of_nat (length (group_vec p))) then
    appendToBuff p UINT8_T_PADDING false true None
  else Ret p.

(** [RleCompressor::HorizontalScanning] on the compressor [p]; its
    locals [group] and [group_vec] start empty.  The image has
    [width * height] bytes. *)
Definition HorizontalScanning (buffer : list Z) (p : packer) (width height : Z)
  : result packer :=
  let size := u64 (width * height) in
  let s0 := {| pk := with_group p [] 0; pixel := nth 0 buffer 0; counter := 1 |} in
  s <- fold_result (fun s i => scan_step s (nth i buffer 0))
                   (seq 1 (Z.to_nat size - 1)) s0 ;;
  scan_finish s.

(** The positions [(x, y)] in the order of the nested loops of
    [VerticalScanning]. *)
Definition vertical_positions (width height : Z) : list (nat * nat) :=
  flat_map (fun x => map (fun y => (x, y)) (seq 0 (Z.to_nat height)))
           (seq 0 (Z.to_nat width)).

(** [RleCompressor::VerticalScanning]; [pixel] is not initialised
    before position (0, 0) sets it. *)
Definition VerticalScanning (buffer : list Z) (p : packer) (width height : Z)
  : result packer :=
  let s0 := {| pk := with_group p [] 0; pixel := 0; counter := 1 |} in
  s <- fold_result
         (fun s '(x, y) =>
            if (x =? 0)%nat && (y =? 0)%nat then
              Ret {| pk := pk s; pixel := nth 0 buffer 0; counter := counter s |}
            else scan_step s (nth (y * Z.to_nat width + x) buffer 0))
         (vertical_positions width height) s0 ;;
  scan_finish s.

(** The loops that split [width] and [height] into bytes, least
    significant first, without the last byte; a [uint32_t] has four
    bytes. *)
Fixpoint size_loop (fuel : nat) (v : Z) : list Z * Z :=
  match fuel with
  | O => ([], v)
  | S f =>
      if MAX_COUNTER_VAL <? v then
        let '(l, last) := size_loop f (Z.shiftr v 8) in
        (Z.land v MAX_COUNTER_VAL :: l, last)
      else ([], v)
  end.

(** The vectors [vec_w], [vec_h] of [appendSettingsToBuff]. *)
Definition size_vec (v : Z) : list Z :=
  let '(l, last) := size_loop 4 v in l ++ [Z.land last MAX_COUNTER_VAL].

(** The bytes that [appendSettingsToBuff] pushes, in their order: the
    settings byte with the two counts, the width and the height. *)
Definition header_bytes (settings width height : Z) : list Z :=
  let vec_w := size_vec (u32 width) in
  let vec_h := size_vec (u32 height) in
  let count_w := Z.of_nat (length vec_w) - 1 in
  let count_h := Z.of_nat (length vec_h) - 1 in
  let settings1 := u8 (Z.lor settings (Z.shiftl count_w 3)) in
  let settings2 := u8 (Z.lor settings1 count_h) in
  settings2 :: rev vec_w ++ rev vec_h.

(** [RleCompressor::appendSettingsToBuff]: one call of
    [ReallocateBuffer] when the block is shorter than the header and
    one byte, then the pushes. *)
Definition appendSettingsToBuff (p : packer) (settings width height : Z)
  : result packer :=
  let count_w := Z.of_nat (length (size_vec (u32 width))) - 1 in
  let count_h := Z.of_nat (length (size_vec (u32 height))) - 1 in
  let p1 :=
    if encoded_alloc p <? 1 + (count_w + 1 + count_h + 1) + 1
    then ReallocateBuffer p else p in
  push_all p1 (header_bytes settings width height).

Definition horizontal_settings (input_preprocessing : bool) : Z :=
  if input_preprocessing then Z.lor SCANNING_MASK MODEL_MASK else SCANNING_MASK.

Definition vertical_settings (input_preprocessing : bool) : Z :=
  if input_preprocessing then MODEL_MASK else 0.

(** [RleCompressor::SequenceScanning]; [GetBuffer()] up to [GetSize()]
    is [encoded_buff] of the result. *)
Definition SequenceScanning (p : packer) (buffer : list Z) (width height : Z)
           (input_preprocessing : bool) : result packer :=
  p1 <- appendSettingsToBuff p (horizontal_settings input_preprocessing)
                             width height ;;
  HorizontalScanning buffer p1 width height.

(** [RleCompressor::AdaptiveScanning]: the horizontal stream is kept
    aside, the members are cleared and the vertical stream is written
    to a block of its own; the members are set back to the horizontal
    stream when that one is shorter. *)
Definition AdaptiveScanning (p : packer) (buffer : list Z) (width height : Z)
           (input_preprocessing : bool) : result packer :=
  p1 <- appendSettingsToBuff p (horizontal_settings input_preprocessing)
                             width height ;;
  tmp <- HorizontalScanning buffer p1 width height ;;
  let cleared :=
    {| encoded_buff := []; encoded_alloc := 0; alloc_size := alloc_size tmp;
       group_vec := group_vec tmp; group := group tmp |} in
  p2 <- appendSettingsToBuff cleared (vertical_settings input_preprocessing)
                             width height ;;
  vertical <- VerticalScanning buffer p2 width height ;;
  if encoded_index vertical <=? encoded_index tmp then Ret vertical
  else Ret tmp.

End RleCompressor.

(** ** rle_decompressor.cpp

    [buffer] is the memory behind the pointer the decompressor is given
    and [size] the number of bytes it is told to decode
    ([size <= length buffer]); a read outside [buffer] is a fault. *)

Module RleDecompressor.
Import Rle.

(** The cursor of [GetValCount]: the member [index] and the references
    [bit_index] and [byte] that the caller keeps between calls. *)
Record reader : Type := {
  index : nat;
  bit_index : Z;
  byte : Z
}.

Inductive inner_exit : Type :=
| Found (count val : Z) (r : reader)          (* [return true] *)
| GroupDone (count : Z) (count_bit : bool) (r : reader).
                                              (* [bit_index] reached 8 *)

(** The loop [while (bit_index < UINT8_T_SIZE)] of [GetValCount]; a
    group byte has eight bits. *)
Fixpoint GetValCount_bits (fuel : nat) (buffer : list Z) (r : reader)
         (count : Z) (count_bit : bool) : result inner_exit :=
  if bit_index r <? UINT8_T_SIZE then
    match fuel with
    | O => Fault OutOfFuel
    | S f =>
        let next := u8 (bit_index r + 1) in
        if negb (Z.land (byte r) (Z.shiftl FIRST_BIT_MASK (bit_index r)) =? 0) then
          b <- read buffer (index r) ;;
          GetValCount_bits f buffer
            {| index := S (index r); bit_index := next; byte := byte r |}
            (u64 (Z.shiftl (Z.lor count b) UINT8_T_SIZE)) true
        else
          let count1 :=
            if count_bit then u64 (Z.shiftr count UINT8_T_SIZE + 2) else 1 in
          v <- read buffer (index r) ;;
          Ret (Found count1 v
                 {| index := S (index r); bit_index := next; byte := byte r |})
    end
  else Ret (GroupDone count count_bit r).

(** The loop [while (this->index < this->size)] of [GetValCount]. *)
Fixpoint GetValCount_loop (fuel : nat) (buffer : list Z) (size : nat)
         (r : reader) (count : Z) (count_bit : bool)
  : result (option (Z * Z) * reader) :=
  match fuel with
  | O => Fault OutOfFuel
  | S f =>
      if (index r <? size)%nat then
        r1 <- (if bit_index r =? 0 then
                 b <- read buffer (index r) ;;
                 Ret {| index := S (index r); bit_index := bit_index r; byte := b |}
               else Ret r) ;;
        e <- GetValCount_bits 8 buffer r1 count count_bit ;;
        match e with
        | Found c v r2 => Ret (Some (c, v), r2)
        | GroupDone c cb r2 =>
            GetValCount_loop f buffer size
              {| index := index r2; bit_index := 0; byte := byte r2 |} c cb
        end
      else Ret (None, r)
  end.

(** [RleDecompressor::GetValCount]: [Some (count, val)] when it returns
    true, [None] when it returns false.  Every turn of the outer loop
    but the first consumes a byte. *)
Definition GetValCount (buffer : list Z) (size : nat) (r : reader)
  : result (option (Z * Z) * reader) :=
  GetValCount_loop (size + 2) buffer size r 0 false.

(** The members that hold the decompressed image.  [dec_buffer] is the
    allocation of [dec_buffer_alloc] bytes. *)
Record image : Type := {
  dec_buffer : list Z;
  dec_buffer_alloc : Z;
  dec_buffer_index : Z
}.

(** [memset(dec_buffer + dec_buffer_index, val, n)]. *)
Definition memset (dec : list Z) (at_ : Z) (val : Z) (n : Z) : list Z :=
  firstn (Z.to_nat at_) dec ++ repeat val (Z.to_nat n)
    ++ skipn (Z.to_nat at_ + Z.to_nat n) dec.

(** The loop of [DecompressHorizontally]; every pair consumes a byte of
    the input. *)
Fixpoint DecompressHorizontally_loop (fuel : nat) (buffer : list Z) (size : nat)
         (r : reader) (im : image) : result image :=
  match fuel with
  | O => Fault OutOfFuel
  | S f =>
      '(pair_, r1) <- GetValCount buffer size r ;;
      match pair_ with
      | None => Ret im
      | Some (count, val) =>
          if dec_buffer_alloc im <? u64 (dec_buffer_index im + count) then
            let tmp := u64 (dec_buffer_alloc im - dec_buffer_index im) in
            Ret {| dec_buffer :=
                     if 0 <? tmp
                     then memset (dec_buffer im) (dec_buffer_index im) val tmp
                     else dec_buffer im;
                   dec_buffer_alloc := dec_buffer_alloc im;
                   dec_buffer_index := dec_buffer_alloc im |}
          else
            DecompressHorizontally_loop f buffer size r1
              {| dec_buffer :=
                   memset (dec_buffer im) (dec_buffer_index im) val count;
                 dec_buffer_alloc := dec_buffer_alloc im;
                 dec_buffer_index := u64 (dec_buffer_index im + count) |}
      end
  end.

(** [RleDecompressor::DecompressHorizontally], from the first payload
    byte. *)
Definition DecompressHorizontally (buffer : list Z) (size : nat)
           (index0 : nat) (im : image) : result (bool * image) :=
  im1 <- DecompressHorizontally_loop (S size) buffer size
           {| index := index0; bit_index := 0; byte := 0 |} im ;;
  Ret (dec_buffer_index im1 =? dec_buffer_alloc im1, im1).

(** The cursor of [DecompressVertically]. *)
Record cursor : Type := { cx : Z; cy : Z }.

(** The loop [for (i = 0; i < count; i++)] of [DecompressVertically];
    the flag is [false] at its [return false]. *)
Fixpoint DecompressVertically_run (n : nat) (val width height image_size : Z)
         (c : cursor) (im : image) : result (bool * cursor * image) :=
  match n with
  | O => Ret (true, c, im)
  | S n' =>
      let i := u64 (cy c * width + cx c) in
      let im0 := {| dec_buffer := dec_buffer im;
                    dec_buffer_alloc := dec_buffer_alloc im;
                    dec_buffer_index := i |} in
      if image_size <=? i then Ret (false, c, im0)
      else if (Z.to_nat i <? length (dec_buffer im))%nat then
        let im1 := {| dec_buffer := store (dec_buffer im) (Z.to_nat i) val;
                      dec_buffer_alloc := dec_buffer_alloc im;
                      dec_buffer_index := i |} in
        let y1 := u64 (cy c + 1) in
        let c1 := if y1 =? height then {| cx := u64 (cx c + 1); cy := 0 |}
                  else {| cx := cx c; cy := y1 |} in
        DecompressVertically_run n' val width height image_size c1 im1
      else Fault OutOfBounds
  end.

(** The loop [while (this->GetValCount(...))] of [DecompressVertically];
    every pair consumes a byte of the input. *)
Fixpoint DecompressVertically_loop (fuel : nat) (buffer : list Z) (size : nat)
         (width height image_size : Z) (r : reader) (c : cursor) (im : image)
  : result (bool * image) :=
  match fuel with
  | O => Fault OutOfFuel
  | S f =>
      '(pair_, r1) <- GetValCount buffer size r ;;
      match pair_ with
      | None => Ret (true, im)
      | Some (count, val) =>
          '(go_on, c1, im1) <- DecompressVertically_run (Z.to_nat count) val width
                                 height image_size c im ;;
          if go_on then
            DecompressVertically_loop f buffer size width height image_size
              r1 c1 im1
          else Ret (false, im1)
      end
  end.

(** [RleDecompressor::DecompressVertically]. *)
Definition DecompressVertically (buffer : list Z) (size : nat) (index0 : nat)
           (width height : Z) (im : image) : result (bool * image) :=
  let image_size := u64 (width * height) in
  '(completed, im1) <-
    DecompressVertically_loop (S size) buffer size width height image_size
      {| index := index0; bit_index := 0; byte := 0 |}
      {| cx := 0; cy := 0 |} im ;;
  if negb completed then Ret (false, im1)
  else if negb (dec_buffer_index im1 =? u64 (image_size - 1)) then Ret (false, im1)
  else Ret (true, {| dec_buffer := dec_buffer im1;
                     dec_buffer_alloc := dec_buffer_alloc im1;
                     dec_buffer_index := image_size |}).

(** One of the two loops of [GetSize]: for the positions [i] of [ixs],
    [v |= buffer[i + 1]] and, when [i + 1 < limit], [v <<= 8] on a
    [uint32_t]. *)
Fixpoint GetSize_loop (buffer : list Z) (ixs : list nat) (limit : nat) (v : Z)
  : result Z :=
  match ixs with
  | [] => Ret v
  | i :: rest =>
      b <- read buffer (S i) ;;
      let v1 := Z.lor v b in
      GetSize_loop buffer rest limit
        (if (S i <? limit)%nat then u32 (Z.shiftl v1 8) else v1)
  end.

Definition count_w (settings : Z) : Z :=
  u8 (Z.shiftr (Z.land settings WIDTH_COUNT_MASK) 3 + 1).
Definition count_h (settings : Z) : Z :=
  u8 (Z.land settings HEIGHT_COUNT_MASK + 1).

(** [RleDecompressor::GetSize(width, height)]: [None] is its
    [return false], otherwise the width, the height and the new
    [index]. *)
Definition GetSize (buffer : list Z) (size : nat) : result (option (Z * Z * nat)) :=
  settings <- read buffer 0 ;;
  let cw := count_w settings in
  let ch := count_h settings in
  let count := u8 (cw + ch) in
  if Z.of_nat size <? ch + cw then Ret None
  else
    width <- GetSize_loop buffer (seq 0 (Z.to_nat cw)) (Z.to_nat cw) 0 ;;
    height <- GetSize_loop buffer
                (seq (Z.to_nat cw) (Z.to_nat count - Z.to_nat cw))
                (Z.to_nat count) 0 ;;
    Ret (Some (width, height, Z.to_nat (cw + ch + 1))).

(** What the caller of [Decompress] sees: the returned flag, the
    reference [convert_from_model], and [GetBuffer()] up to
    [GetSize()]. *)
Record decompressed : Type := {
  ok : bool;
  convert_from_model : bool;
  out_size : Z;
  out : list Z
}.

Definition finish (model : bool) (r : bool * image) : decompressed :=
  {| ok := fst r; convert_from_model := model;
     out_size := dec_buffer_index (snd r);
     out := firstn (Z.to_nat (dec_buffer_index (snd r))) (dec_buffer (snd r)) |}.

(** [RleDecompressor::Decompress(convert_from_model)];
    [convert_from_model] is [false] at the call in [main].  The source
    does not initialise the block it allocates for the image; here its
    bytes start as 0.  A byte of the block is reported without having
    been written only by the vertical reconstruction of a frame of one
    pixel that holds no pair; there the 0 stands for a byte that the
    source leaves undetermined. *)
Definition Decompress (buffer : list Z) (size : nat) : result decompressed :=
  if (size =? 0)%nat then
    Ret {| ok := false; convert_from_model := false; out_size := 0; out := [] |}
  else
    settings <- read buffer 0 ;;
    let horizontal_decompress := negb (Z.land settings SCANNING_MASK =? 0) in
    let model := negb (Z.land settings MODEL_MASK =? 0) in
    o <- GetSize buffer size ;;
    match o with
    | None =>
        Ret {| ok := false; convert_from_model := model; out_size := 0; out := [] |}
    | Some (width, height, index0) =>
        let alloc := u32 (width * height) in
        let im := {| dec_buffer := repeat 0 (Z.to_nat alloc);
                     dec_buffer_alloc := alloc; dec_buffer_index := 0 |} in
        if horizontal_decompress then
          r <- DecompressHorizontally buffer size index0 im ;;
          Ret (finish model r)
        else
          r <- DecompressVertically buffer size index0 width height im ;;
          Ret (finish model r)
    end.

End RleDecompressor.

(** ** huffman.hpp: the node structure and the tree procedures

    [HuffmanCoder] and [HuffmanDecoder] each carry their own copy of
    [InitTree], [GenNode], [FindHighestBlockNode], [SwapNodes] and of the
    loop that updates the tree; the copies differ only in the type of
    the temporary of [SwapNodes] ([int32_t] in the coder, [uint16_t] in
    the decoder), so they are embedded once.  A pointer to a [Node] is
    the position of the node in the arena [nodes], in the order of the
    calls of [GenNode]; [nullptr] is [None]. *)

Module Huffman.

Definition N_VALUES : Z := 256.
Definition ALLOC_SIZE : Z := 512.
Definition BITS_IN_BYTE : Z := 8.
Definition PADDING_BITS_MASK : Z := 7.
Definition SETTINGS_BIT_CHECK : Z := 8.

Record Node : Type := {
  left : option nat;
  right : option nat;
  parent : option nat;
  index : Z;
  weight : Z;
  val : Z
}.

Record tree : Type := {
  nodes : list Node;
  root : nat;
  NYT : nat
}.

(** [*p] *)
Definition deref (t : tree) (p : nat) : result Node :=
  match nth_error (nodes t) p with
  | Some n => Ret n
  | None => Fault NullPointer
  end.

(** [*p = n] *)
Definition assign (t : tree) (p : nat) (n : Node) : tree :=
  {| nodes := store (nodes t) p n; root := root t; NYT := NYT t |}.

Definition with_left (n : Node) (l : option nat) : Node :=
  {| left := l; right := right n; parent := parent n;
     index := index n; weight := weight n; val := val n |}.
Definition with_right (n : Node) (r : option nat) : Node :=
  {| left := left n; right := r; parent := parent n;
     index := index n; weight := weight n; val := val n |}.
Definition with_parent (n : Node) (p : option nat) : Node :=
  {| left := left n; right := right n; parent := p;
     index := index n; weight := weight n; val := val n |}.
Definition with_index (n : Node) (i : Z) : Node :=
  {| left := left n; right := right n; parent := parent n;
     index := i; weight := weight n; val := val n |}.
Definition with_weight (n : Node) (w : Z) : Node :=
  {| left := left n; right := right n; parent := parent n;
     index := index n; weight := w; val := val n |}.

(** The node that [GenNode] allocates. *)
Definition GenNode : Node :=
  {| left := None; right := None; parent := None;
     index := 0; weight := 0; val := 0 |}.

(** [InitTree]: the root is the first NYT node, with index
    [N_VALUES * 2 + 1]. *)
Definition InitTree : tree :=
  {| nodes := [with_index GenNode (N_VALUES * 2 + 1)]; root := O; NYT := O |}.

Definition eqb_ptr (a b : option nat) : bool :=
  match a, b with
  | Some x, Some y => (x =? y)%nat
  | None, None => true
  | _, _ => false
  end.

(** The part of [AddSymbol] that both classes share: the NYT node gets
    a right child for [symbol] (index - 1, weight 1) and a left child,
    the new NYT (index - 2); its own weight is incremented.  Returns
    the tree, the new leaf and the old NYT node. *)
Definition AddSymbol (t : tree) (symbol : Z) : result (tree * nat * nat) :=
  nyt <- deref t (NYT t) ;;
  let r := length (nodes t) in
  let l := S r in
  let right_node :=
    {| left := None; right := None; parent := Some (NYT t);
       index := index nyt - 1; weight := u64 (0 + 1); val := symbol |} in
  let left_node :=
    {| left := None; right := None; parent := Some (NYT t);
       index := index nyt - 2; weight := 0; val := 0 |} in
  let nyt1 :=
    {| left := Some l; right := Some r; parent := parent nyt;
       index := index nyt; weight := u64 (weight nyt + 1); val := val nyt |} in
  Ret ({| nodes := store (nodes t) (NYT t) nyt1 ++ [right_node; left_node];
          root := root t; NYT := l |}, r, NYT t).

(** [FindPathToRoot]: the bits pushed on [path], from [node] upwards. *)
Fixpoint FindPathToRoot (fuel : nat) (t : tree) (tmp : nat) : result (list Z) :=
  match fuel with
  | O => Fault OutOfFuel
  | S f =>
      n <- deref t tmp ;;
      match parent n with
      | None => Ret []
      | Some p =>
          pn <- deref t p ;;
          rest <- FindPathToRoot f t p ;;
          Ret ((if eqb_ptr (right pn) (Some tmp) then 1 else 0) :: rest)
      end
  end.

(** The loop of [FindHighestBlockNode] on the part of [queue] from
    position [i] on (earlier entries are not read again); [None] when
    the queue is used up. *)
Fixpoint FindHighestBlockNode_loop (fuel : nat) (t : tree) (queue : list nat)
         (node_index node_weight : Z) : result (option nat) :=
  match fuel with
  | O => Fault OutOfFuel
  | S f =>
      match queue with
      | [] => Ret None
      | tmp :: rest =>
          n <- deref t tmp ;;
          if (node_index <=? index n) && (weight n =? node_weight) then
            Ret (Some tmp)
          else
            let q1 := match right n with Some r => rest ++ [r] | None => rest end in
            let q2 := match left n with Some l => q1 ++ [l] | None => q1 end in
            FindHighestBlockNode_loop f t q2 node_index node_weight
      end
  end.

(** [FindHighestBlockNode].  Every node of a tree enters the queue
    once. *)
Definition FindHighestBlockNode (t : tree) (node : nat) : result nat :=
  n <- deref t node ;;
  o <- FindHighestBlockNode_loop (S (length (nodes t))) t [root t]
         (index n) (weight n) ;;
  Ret (match o with Some h => h | None => node end).

(** [IsExternalNode] for a node that is not null. *)
Definition IsExternalNode (n : Node) : bool :=
  match left n, right n with
  | None, None => true
  | _, _ => false
  end.

(** [p->right = c] when [side], otherwise [p->left = c]. *)
Definition set_child (t : tree) (p : nat) (side : bool) (c : nat) : result tree :=
  n <- deref t p ;;
  Ret (assign t p (if side then with_right n (Some c) else with_left n (Some c))).

(** [SwapNodes(node1, node2)]; [tmp_type] is the conversion to the type
    of [tmp_index]. *)
Definition SwapNodes (tmp_type : Z -> Z) (t : tree) (node1 node2 : nat)
  : result tree :=
  n1 <- deref t node1 ;;
  n2 <- deref t node2 ;;
  let tmp_index := tmp_type (index n1) in
  let node1_parent := parent n1 in
  let node2_parent := parent n2 in
  let t1 := assign t node1 (with_index n1 (index n2)) in
  n2' <- deref t1 node2 ;;
  let t2 := assign t1 node2 (with_index n2' tmp_index) in
  match node1_parent, node2_parent with
  | Some p1, Some p2 =>
      pn1 <- deref t2 p1 ;;
      pn2 <- deref t2 p2 ;;
      let node1_side := negb (eqb_ptr (left pn1) (Some node1)) in
      let node2_side := negb (eqb_ptr (left pn2) (Some node2)) in
      t3 <- set_child t2 p1 node1_side node2 ;;
      t4 <- set_child t3 p2 node2_side node1 ;;
      m1 <- deref t4 node1 ;;
      let t5 := assign t4 node1 (with_parent m1 node2_parent) in
      m2 <- deref t5 node2 ;;
      Ret (assign t5 node2 (with_parent m2 node1_parent))
  | _, _ => Fault NullPointer
  end.

(** The loop [while (true)] that follows every symbol in [Encode] and
    in [Decode]; it climbs one level per turn. *)
Fixpoint update (fuel : nat) (tmp_type : Z -> Z) (t : tree) (node : nat)
  : result tree :=
  match fuel with
  | O => Fault OutOfFuel
  | S f =>
      highest_node <- FindHighestBlockNode t node ;;
      n <- deref t node ;;
      t1 <- (if negb (highest_node =? node)%nat
                && negb (eqb_ptr (Some highest_node) (parent n))
             then SwapNodes tmp_type t highest_node node
             else Ret t) ;;
      n1 <- deref t1 node ;;
      let t2 := assign t1 node (with_weight n1 (u64 (weight n1 + 1))) in
      if (root t2 =? node)%nat then Ret t2
      else
        match parent n1 with
        | Some p => update f tmp_type t2 p
        | None => Fault NullPointer
        end
  end.

Definition update_tree (tmp_type : Z -> Z) (t : tree) (node : nat) : result tree :=
  update (S (length (nodes t))) tmp_type t node.

(** [buffer[i] |= v] *)
Definition or_at (buffer : list Z) (i : nat) (v : Z) : result (list Z) :=
  match nth_error buffer i with
  | Some b => Ret (store buffer i (u8 (Z.lor b v)))
  | None => Fault OutOfBounds
  end.

End Huffman.

(** ** huffman_coder.cpp *)

Module HuffmanCoder.
Import Huffman.

(** The members of the class; [alloc] is the length of [buffer], and
    the empty [buffer] is the null pointer of the constructor. *)
Record coder : Type := {
  tr : tree;
  leaf_nodes : list (option nat);
  buffer : list Z;
  byte_index : Z;
  bit_index : Z
}.

Definition alloc (c : coder) : Z := Z.of_nat (length (buffer c)).

Definition with_tree (c : coder) (t : tree) : coder :=
  {| tr := t; leaf_nodes := leaf_nodes c; buffer := buffer c;
     byte_index := byte_index c; bit_index := bit_index c |}.

(** [HuffmanCoder::ReallocateBuffer] *)
Definition ReallocateBuffer (c : coder) : coder :=
  if alloc c <=? byte_index c + 20 then
    let kept :=
      match buffer c with
      | [] => []
      | _ => firstn (Z.to_nat (byte_index c + 1)) (buffer c)
      end in
    {| tr := tr c; leaf_nodes := leaf_nodes c;
       buffer := kept ++ repeat 0 (Z.to_nat (alloc c + ALLOC_SIZE) - length kept);
       byte_index := byte_index c; bit_index := bit_index c |}
  else c.

(** The constructor. *)
Definition init : coder :=
  ReallocateBuffer
    {| tr := InitTree; leaf_nodes := repeat None (Z.to_nat N_VALUES);
       buffer := []; byte_index := 0; bit_index := 0 |}.

(** One turn of the loop of [AddBits] for the bit [b]. *)
Definition AddBits_step (c : coder) (b : Z) : result coder :=
  buf <- (if b =? 1
          then or_at (buffer c) (Z.to_nat (byte_index c))
                     (Z.shiftl 1 (bit_index c))
          else Ret (buffer c)) ;;
  let bit1 := u8 (bit_index c + 1) in
  Ret (if BITS_IN_BYTE <=? bit1 then
         {| tr := tr c; leaf_nodes := leaf_nodes c; buffer := buf;
            byte_index := u64 (byte_index c + 1); bit_index := 0 |}
       else
         {| tr := tr c; leaf_nodes := leaf_nodes c; buffer := buf;
            byte_index := byte_index c; bit_index := bit1 |}).

Fixpoint AddBits_loop (c : coder) (bits : list Z) : result coder :=
  match bits with
  | [] => Ret c
  | b :: rest => c1 <- AddBits_step c b ;; AddBits_loop c1 rest
  end.

(** [HuffmanCoder::AddBits]: the bits go out in reverse order. *)
Definition AddBits (c : coder) (bits : list Z) : result coder :=
  match bits with
  | [] => Ret c
  | _ => AddBits_loop (ReallocateBuffer c) (rev bits)
  end.

(** [HuffmanCoder::AddByte] *)
Definition AddByte (c : coder) (byte : Z) : result coder :=
  AddBits c
    (map (fun i => if negb (Z.land byte (Z.shiftl 1 i) =? 0) then 1 else 0)
         [0; 1; 2; 3; 4; 5; 6; 7]).

(** [HuffmanCoder::FindSymbol] *)
Definition FindSymbol (c : coder) (symbol : Z) : result (option nat) :=
  match nth_error (leaf_nodes c) (Z.to_nat symbol) with
  | Some p => Ret p
  | None => Fault OutOfBounds
  end.

(** [HuffmanCoder::AddSymbol] *)
Definition AddSymbol (c : coder) (symbol : Z) : result (coder * nat) :=
  '(t, leaf, old) <- Huffman.AddSymbol (tr c) symbol ;;
  Ret ({| tr := t;
          leaf_nodes := store (leaf_nodes c) (Z.to_nat symbol) (Some leaf);
          buffer := buffer c; byte_index := byte_index c;
          bit_index := bit_index c |}, old).

Definition path_to_root (c : coder) (node : nat) : result (list Z) :=
  FindPathToRoot (length (nodes (tr c))) (tr c) node.

(** The body of the loop of [Encode] for the byte [b]. *)
Definition Encode_step (c : coder) (b : Z) : result coder :=
  found <- FindSymbol c b ;;
  '(c3, node) <-
    match found with
    | None =>
        path <- path_to_root c (NYT (tr c)) ;;
        c1 <- AddBits c path ;;
        '(c2, node) <- AddSymbol c1 b ;;
        c3 <- AddByte c2 b ;;
        Ret (c3, node)
    | Some node =>
        path <- path_to_root c node ;;
        c1 <- AddBits c path ;;
        Ret (c1, node)
    end ;;
  t <- update_tree (fun i => i) (tr c3) node ;;
  Ret (with_tree c3 t).

Fixpoint Encode_loop (c : coder) (input : list Z) : result coder :=
  match input with
  | [] => Ret c
  | b :: rest => c1 <- Encode_step c b ;; Encode_loop c1 rest
  end.

(** [HuffmanCoder::GetSize] *)
Definition GetSize (c : coder) : Z :=
  if bit_index c =? 0 then byte_index c else u64 (byte_index c + 1).

(** [HuffmanCoder::CompareWithRLE]: the coder and the settings byte.
    [input] holds the [size] bytes of the buffer that was encoded. *)
Definition CompareWithRLE (c : coder) (input : list Z) : coder * Z :=
  let size := Z.of_nat (length input) in
  if size <? GetSize c then
    ({| tr := tr c; leaf_nodes := leaf_nodes c;
        buffer := input ++ skipn (length input) (buffer c);
        byte_index := size; bit_index := 0 |}, 0)
  else
    let settings := u8 (if bit_index c =? 0 then 0 else 8 - bit_index c) in
    (c, u8 (Z.lor settings SETTINGS_BIT_CHECK)).

(** [HuffmanCoder::Encode] on a fresh coder, for the [size] bytes
    [input]. *)
Definition Encode (input : list Z) : result (coder * Z) :=
  c <- Encode_loop init input ;;
  Ret (CompareWithRLE c input).

(** [GetBuffer()] up to [GetSize()]. *)
Definition output (c : coder) : list Z :=
  firstn (Z.to_nat (GetSize c)) (buffer c).

End HuffmanCoder.

(** ** huffman_decoder.cpp *)

Module HuffmanDecoder.
Import Huffman.

(** The members of the class; [alloc] is the length of [buffer]. *)
Record decoder : Type := {
  tr : tree;
  buffer : list Z;
  write_byte_index : Z;
  read_byte_index : Z;
  read_bit_index : Z
}.

Definition alloc (d : decoder) : Z := Z.of_nat (length (buffer d)).

(** The constructor. *)
Definition init : decoder :=
  {| tr := InitTree; buffer := []; write_byte_index := 0;
     read_byte_index := 0; read_bit_index := 0 |}.

Definition with_tree (d : decoder) (t : tree) : decoder :=
  {| tr := t; buffer := buffer d; write_byte_index := write_byte_index d;
     read_byte_index := read_byte_index d; read_bit_index := read_bit_index d |}.

(** [HuffmanDecoder::ReallocateBuffer] *)
Definition ReallocateBuffer (d : decoder) : decoder :=
  if alloc d <=? write_byte_index d + 20 then
    let kept := firstn (Z.to_nat (write_byte_index d)) (buffer d) in
    {| tr := tr d;
       buffer := kept ++ repeat 0 (Z.to_nat (alloc d + ALLOC_SIZE) - length kept);
       write_byte_index := write_byte_index d;
       read_byte_index := read_byte_index d;
       read_bit_index := read_bit_index d |}
  else d.

(** [HuffmanDecoder::AddSymbolToBuffer] *)
Definition AddSymbolToBuffer (d : decoder) (symbol : Z) : decoder :=
  let d1 := ReallocateBuffer d in
  {| tr := tr d1;
     buffer := store (buffer d1) (Z.to_nat (write_byte_index d1)) symbol;
     write_byte_index := u64 (write_byte_index d1 + 1);
     read_byte_index := read_byte_index d1;
     read_bit_index := read_bit_index d1 |}.

(** [HuffmanDecoder::NextBit]: [None] when it sets [end_of_buffer]. *)
Definition NextBit (d : decoder) (input : list Z) (size : Z)
  : result (option bool * decoder) :=
  if read_byte_index d =? size then Ret (None, d)
  else
    b <- read input (Z.to_nat (read_byte_index d)) ;;
    let res := negb (Z.land b (Z.shiftl 1 (read_bit_index d)) =? 0) in
    let bit1 := u8 (read_bit_index d + 1) in
    Ret (Some res,
         if BITS_IN_BYTE <=? bit1 then
           {| tr := tr d; buffer := buffer d;
              write_byte_index := write_byte_index d;
              read_byte_index := u64 (read_byte_index d + 1);
              read_bit_index := 0 |}
         else
           {| tr := tr d; buffer := buffer d;
              write_byte_index := write_byte_index d;
              read_byte_index := read_byte_index d;
              read_bit_index := bit1 |}).

(** The loop of [ReadSymbol] for the positions [ixs]; [None] is its
    [return false]. *)
Fixpoint ReadSymbol_loop (ixs : list Z) (d : decoder) (input : list Z) (size : Z)
         (symbol : Z) : result (option Z * decoder) :=
  match ixs with
  | [] => Ret (Some symbol, d)
  | i :: rest =>
      '(bit, d1) <- NextBit d input size ;;
      match bit with
      | None => Ret (None, d1)
      | Some b =>
          ReadSymbol_loop rest d1 input size
            (if b then u8 (Z.lor symbol (Z.shiftl 1 (7 - i))) else symbol)
      end
  end.

(** [HuffmanDecoder::ReadSymbol] *)
Definition ReadSymbol (d : decoder) (input : list Z) (size : Z)
  : result (option Z * decoder) :=
  ReadSymbol_loop [0; 1; 2; 3; 4; 5; 6; 7] d input size 0.

(** [HuffmanDecoder::IsEnd] *)
Definition IsEnd (d : decoder) (size padding_bits : Z) : bool :=
  (read_bit_index d + padding_bits =? 9) && (size =? read_byte_index d + 1).

(** [HuffmanDecoder::AddSymbol] *)
Definition AddSymbol (d : decoder) (symbol : Z) : result (decoder * nat) :=
  let d1 := AddSymbolToBuffer d symbol in
  '(t, _, old) <- Huffman.AddSymbol (tr d1) symbol ;;
  Ret (with_tree d1 t, old).

(** The loop [while (!end_of_buffer)] of [Decode]; [node] is the
    position in the tree.  A turn reads a bit, or handles a leaf and
    goes back to the root. *)
Fixpoint Decode_loop (fuel : nat) (d : decoder) (input : list Z) (size : Z)
         (padding_bits : Z) (node : nat) : result (bool * decoder) :=
  match fuel with
  | O => Fault OutOfFuel
  | S f =>
      if IsEnd d size padding_bits then Ret (true, d)
      else
        n <- deref (tr d) node ;;
        if negb (IsExternalNode n) then
          '(bit, d1) <- NextBit d input size ;;
          match bit with
          | None => Ret (true, d1)
          | Some move_right =>
              match (if move_right then right n else left n) with
              | None => Ret (false, d1)
              | Some child => Decode_loop f d1 input size padding_bits child
              end
          end
        else
          r <- (if (node =? NYT (tr d))%nat then
                  '(s, d1) <- ReadSymbol d input size ;;
                  match s with
                  | None => Ret (None, d1)
                  | Some symbol =>
                      '(d2, old) <- AddSymbol d1 symbol ;;
                      Ret (Some old, d2)
                  end
                else Ret (Some node, AddSymbolToBuffer d (val n))) ;;
          match r with
          | (None, d1) => Ret (false, d1)
          | (Some node1, d1) =>
              t <- update_tree u16 (tr d1) node1 ;;
              Decode_loop f (with_tree d1 t) input size padding_bits (root t)
          end
  end.

(** [HuffmanDecoder::Decode(buffer, size)] on a fresh decoder. *)
Definition Decode (input : list Z) (size : Z) : result (bool * decoder) :=
  settings <- (if 1 <? size then read input 0 else Ret 0) ;;
  if (1 <? size) && negb (Z.land settings SETTINGS_BIT_CHECK =? 0) then
    let padding_bits := Z.land settings PADDING_BITS_MASK in
    let d := {| tr := tr init; buffer := buffer init;
                write_byte_index := write_byte_index init;
                read_byte_index := u64 (read_byte_index init + 1);
                read_bit_index := read_bit_index init |} in
    Decode_loop (S (S (16 * Z.to_nat size))) d input size padding_bits (root (tr d))
  else
    let n := Z.to_nat (u64 (size - 1)) in
    if (n <=? length input - 1)%nat then
      Ret (true,
           {| tr := tr init; buffer := firstn n (skipn 1 input);
              write_byte_index := u64 (size - 1);
              read_byte_index := read_byte_index init;
              read_bit_index := read_bit_index init |})
    else Fault OutOfBounds.

(** [GetSize()] *)
Definition GetSize (d : decoder) : Z := write_byte_index d.

End HuffmanDecoder.

(** ** main.cpp: the two pipelines

    [LoadRawImage] computes the height from the size of the file and the
    width; [WriteEncodedData] writes the settings byte before the
    buffer of the coder; [WriteRawImage] runs [Depreprocess] when the RLE
    header asks for it. *)

Module Main.

(** The bytes of the output file of [huff_codec -c -w width [-m] [-a]]. *)
(** The RLE stage of the compressor: the differential model when [-m]
    is given, the constructor of [RleCompressor], the scan, and
    [GetBuffer()] up to [GetSize()]. *)
Definition rle_stage (x : list Z) (width : Z) (model adaptive : bool)
  : result (list Z) :=
  let height := u32 (Z.of_nat (length x) / width) in
  let pixels := if model then DataWorker.Preprocess x else x in
  let rle_compressor := RleCompressor.init width height in
  p <- (if adaptive
        then RleCompressor.AdaptiveScanning rle_compressor pixels width height model
        else RleCompressor.SequenceScanning rle_compressor pixels width height
                                            model) ;;
  Ret (RleCompressor.encoded_buff p).

Definition compress (x : list Z) (width : Z) (model adaptive : bool)
  : result (list Z) :=
  frame <- rle_stage x width model adaptive ;;
  '(c, settings) <- HuffmanCoder.Encode frame ;;
  Ret (settings :: HuffmanCoder.output c).

(** The bytes of the output file of [huff_codec -d], or [None] when
    the program exits with -1. *)
Definition decompress (file : list Z) : result (option (list Z)) :=
  '(decoded, d) <- HuffmanDecoder.Decode file (Z.of_nat (length file)) ;;
  if negb decoded then Ret None
  else
    r <- RleDecompressor.Decompress (HuffmanDecoder.buffer d)
           (Z.to_nat (HuffmanDecoder.GetSize d)) ;;
    if negb (RleDecompressor.ok r) then Ret None
    else
      Ret (Some (if RleDecompressor.convert_from_model r
                 then DataWorker.Depreprocess (RleDecompressor.out r)
                 else RleDecompressor.out r)).

Definition round_trip (x : list Z) (width : Z) (model adaptive : bool)
  : result (option (list Z)) :=
  file <- compress x width model adaptive ;;
  decompress file.

End Main.

(** ** The tree properties of the specification, as decidable checks *)

Module TreeCheck.
Import Huffman.

(** The nodes in the order of the breadth-first search of
    [FindHighestBlockNode] (right child before left child), from the
    queue [queue] on. *)
Fixpoint bfs (fuel : nat) (t : tree) (queue : list nat) : list nat :=
  match fuel, queue with
  | S f, tmp :: rest =>
      match nth_error (nodes t) tmp with
      | Some n =>
          let q1 := match right n with Some r => rest ++ [r] | None => rest end in
          let q2 := match left n with Some l => q1 ++ [l] | None => q1 end in
          tmp :: bfs f t q2
      | None => []
      end
  | _, _ => []
  end.

Definition bfs_order (t : tree) : list nat :=
  bfs (S (length (nodes t))) t [root t].

Definition node_at (t : tree) (p : nat) : Node := nth p (nodes t) GenNode.

Fixpoint strictly_decreasing (l : list Z) : bool :=
  match l with
  | a :: (b :: _) as rest => (b <? a) && strictly_decreasing rest
  | _ => true
  end.

(** (a) the indices strictly decrease in breadth-first order *)
Definition indices_decrease (t : tree) : bool :=
  strictly_decreasing (map (fun p => index (node_at t p)) (bfs_order t)).

(** (b) a node of higher weight has a higher index *)
Definition weights_ordered (t : tree) : bool :=
  forallb (fun a =>
    forallb (fun b =>
      implb (weight (node_at t b) <? weight (node_at t a))
            (index (node_at t b) <? index (node_at t a)))
      (bfs_order t))
    (bfs_order t).

(** (c) an internal node has both children *)
Definition both_children (t : tree) : bool :=
  forallb (fun p =>
    match left (node_at t p), right (node_at t p) with
    | Some _, Some _ | None, None => true
    | _, _ => false
    end) (bfs_order t).

(** (d) the NYT node, and no other node, has weight 0 *)
Definition one_zero_weight (t : tree) : bool :=
  forallb (fun p => Bool.eqb (weight (node_at t p) =? 0) (p =? NYT t)%nat)
          (bfs_order t)
  && existsb (fun p => (p =? NYT t)%nat) (bfs_order t).

(** The tree of the coder after the bytes of [input]. *)
Definition coder_tree (input : list Z) : result tree :=
  c <- HuffmanCoder.Encode_loop HuffmanCoder.init input ;;
  Ret (HuffmanCoder.tr c).

(** Index and weight of the nodes in breadth-first order. *)
Definition profile (t : tree) : list (Z * Z) :=
  map (fun p => (index (node_at t p), weight (node_at t p))) (bfs_order t).

End TreeCheck.

(** ** The RLE stream of the specification

    The definitions of this module follow the words of the
    specification (data model, "RLE payload" and "Run encoding"), not
    the source; the theorems below compare the source with them. *)

Module Format.

(** A payload byte comes with its class, [(byte, class)]: [true] for a
    counter fragment, [false] for a literal value. *)

(** The group byte of a group: bit [i], least significant first, is 1
    when the [i]-th payload byte is a counter fragment. *)
Fixpoint group_bits (classes : list bool) : Z :=
  match classes with
  | [] => 0
  | c :: rest => (if c then 1 else 0) + 2 * group_bits rest
  end.

(** A group: the group byte, then the payload bytes it classifies. *)
Definition render (chunk : list (Z * bool)) : list Z :=
  group_bits (map snd chunk) :: map fst chunk.

(** The payload for a sequence of classified bytes: a group ends when
    eight payload bytes have been classified; the last group holds the
    bytes that are left, without padding.  [pend] are the bytes of the
    group that is open. *)
Fixpoint pack_from (pend : list (Z * bool)) (es : list (Z * bool)) : list Z :=
  match es with
  | [] => match pend with [] => [] | _ => render pend end
  | e :: rest =>
      if (length (pend ++ [e]) =? 8)%nat
      then render (pend ++ [e]) ++ pack_from [] rest
      else pack_from (pend ++ [e]) rest
  end.

Definition pack (es : list (Z * bool)) : list Z := pack_from [] es.

(** The value of big-endian base-256 digits. *)
Definition be_value (digits : list Z) : Z :=
  fold_left (fun acc d => acc * 256 + d) digits 0.

(** The runs [(n, v)] of a pixel sequence, in order; [pixel] and
    [counter] describe the run that is open. *)
Fixpoint runs_from (pixel counter : Z) (rest : list Z) : list (Z * Z) :=
  match rest with
  | [] => [(counter, pixel)]
  | b :: rest' =>
      if b =? pixel then runs_from pixel (counter + 1) rest'
      else (counter, pixel) :: runs_from b 1 rest'
  end.

Definition runs (pixels : list Z) : list (Z * Z) :=
  match pixels with
  | [] => []
  | a :: rest => runs_from a 1 rest
  end.

(** The pixels that the pairs [(count, value)] stand for. *)
Definition expand (pairs : list (Z * Z)) : list Z :=
  flat_map (fun cv => repeat (snd cv) (Z.to_nat (fst cv))) pairs.

Definition total (pairs : list (Z * Z)) : Z :=
  fold_right (fun cv acc => fst cv + acc) 0 pairs.

End Format.

(** ** What the source passes on, read off its calls *)

Module Trace.
Import Rle.

(** One call [appendToBuff(group_vec, group, val, counter, false,
    NO_SETTINGS)]. *)
Definition emit (p : RleCompressor.packer) (e : (Z * bool))
  : result RleCompressor.packer :=
  RleCompressor.appendToBuff p (fst e) (snd e) false None.

(** The arguments [(val, counter)] of the calls of [appendToBuff] that
    [appendCounterValue] makes for a run of [n] bytes [v]. *)
Definition run_bytes (n v : Z) : list (Z * bool) :=
  if 1 <? n then
    map (fun c => (c, true)) (rev (RleCompressor.counter_values n)) ++ [(v, false)]
  else [(v, false)].

Definition run_bytes_of (nv : Z * Z) : list (Z * bool) :=
  run_bytes (fst nv) (snd nv).

(** The pixels in the order of [VerticalScanning]. *)
Definition column_major (buffer : list Z) (width height : Z) : list Z :=
  map (fun xy => nth (snd xy * Z.to_nat width + fst xy) buffer 0)
      (RleCompressor.vertical_positions width height).

(** All pairs that [GetValCount] returns from the cursor [r] on, until
    it returns false. *)
Fixpoint all_pairs (fuel : nat) (buffer : list Z) (size : nat)
         (r : RleDecompressor.reader) : result (list (Z * Z)) :=
  match fuel with
  | O => Fault OutOfFuel
  | S f =>
      '(o, r1) <- RleDecompressor.GetValCount buffer size r ;;
      match o with
      | None => Ret []
      | Some cv => rest <- all_pairs f buffer size r1 ;; Ret (cv :: rest)
      end
  end.

End Trace.

(** ** Notions used in the proofs *)

Module Notions.
Import Rle RleCompressor RleDecompressor Format Trace.

Definition u64_max : Z := 18446744073709551616.

(** The open group of [p] holds the classified bytes [pend]. *)
Definition holds (p : packer) (pend : list (Z * bool)) : Prop :=
  group_vec p = map fst pend
  /\ group p = group_bits (map snd pend)
  /\ (length pend < 8)%nat.

(** The body of the loops of [VerticalScanning], and its first turn. *)
Definition is_origin (xy : nat * nat) : bool :=
  (fst xy =? 0)%nat && (snd xy =? 0)%nat.

Definition vertical_body (buffer : list Z) (width : Z) (s : scan) (xy : nat * nat)
  : result scan :=
  let '(x, y) := xy in
  if (x =? 0)%nat && (y =? 0)%nat then
    Ret {| pk := pk s; pixel := nth 0 buffer 0; counter := counter s |}
  else scan_step s (nth (y * Z.to_nat width + x) buffer 0).

(** What [ReallocateBuffer] adds to a block that exists. *)
Definition growth (p : packer) : Z := alloc_size p / 4 + 1.

(** The block of [p] has room for what the open group needs: a block
    exists, and behind the bytes written there are ten bytes or more,
    or as many as the calls that filled the open group have added. *)
Definition roomy (p : packer) : Prop :=
  0 < encoded_alloc p
  /\ 0 <= alloc_size p
  /\ (encoded_index p + 10 <= encoded_alloc p
      \/ encoded_index p + Z.of_nat (length (group_vec p)) * growth p
         <= encoded_alloc p).

(** The stream of the horizontal scan of an image, and of the vertical
    one: the header, then the groups of the runs. *)
Definition horizontal_stream (x : list Z) (W H : Z) (m : bool) : list Z :=
  header_bytes (horizontal_settings m) W H ++ pack (flat_map run_bytes_of (runs x)).

Definition vertical_stream (x : list Z) (W H : Z) (m : bool) : list Z :=
  header_bytes (vertical_settings m) W H
  ++ pack (flat_map run_bytes_of (runs (column_major x W H))).

(** The stream that the RLE stage hands on: with the adaptive scan the
    shorter of the two, the vertical one when they are equally long. *)
Definition chosen_stream (x : list Z) (W H : Z) (m a : bool) : list Z :=
  if a then
    if (length (vertical_stream x W H m) <=? length (horizontal_stream x W H m))%nat
    then vertical_stream x W H m else horizontal_stream x W H m
  else horizontal_stream x W H m.

(** A stream that ends with a group that is not full: after [header]
    it holds the groups of the classified bytes [es]; when these do
    not fill the last group, that group is the group byte followed by
    the [k < 8] payload bytes that are left, and by nothing else. *)
Definition last_group_unpadded (stream header : list Z) (es : list (Z * bool))
  : Prop :=
  stream = header ++ pack es
  /\ ((length es mod 8 <> 0)%nat ->
      exists front last,
        es = front ++ last
        /\ length front = (8 * (length es / 8))%nat
        /\ length last = (length es mod 8)%nat
        /\ stream = header ++ pack front ++ group_bits (map snd last) :: map fst last
        /\ (forall i, Z.testbit (group_bits (map snd last)) (Z.of_nat i)
                      = nth i (map snd last) false)
        /\ length stream
           = (length header + 9 * (length es / 8) + 1 + length es mod 8)%nat).

(** Big-endian base-256 digits read after the value [acc]. *)
Definition be_from (acc : Z) (digits : list Z) : Z :=
  fold_left (fun a d => a * 256 + d) digits acc.

(** The [k]-th classified byte of [es]; past the end the class is
    "value", as for the unused bits of the last group byte. *)
Definition entry (es : list (Z * bool)) (k : nat) : Z * bool := nth k es (0, false).

(** The [j]-th group of [es] and its group byte. *)
Definition chunk (es : list (Z * bool)) (j : nat) : list (Z * bool) :=
  firstn 8 (skipn (8 * j) es).

Definition group_byte (es : list (Z * bool)) (j : nat) : Z :=
  group_bits (map snd (chunk es j)).

(** Cursors of [GetValCount] on the stream [out ++ pack es]: the group
    byte of entry [k] has been read and [k] is the next entry. *)
Definition loaded (out : list Z) (es : list (Z * bool)) (r : reader) (k : nat)
  : Prop :=
  index r = (length out + k + k / 8 + 1)%nat
  /\ bit_index r = Z.of_nat (k mod 8)
  /\ byte r = group_byte es (k / 8).

(** The cursor between two calls of [GetValCount], before entry [k]:
    at the start of a group its group byte has not been read. *)
Definition at_entry (out : list Z) (es : list (Z * bool)) (r : reader) (k : nat)
  : Prop :=
  ((k mod 8 = 0)%nat /\ index r = (length out + k + k / 8)%nat
   /\ (bit_index r = 0 \/ bit_index r = 8))
  \/ ((k mod 8 <> 0)%nat /\ loaded out es r k).

(** The entries from [k] on are the fragments [digits], then the value
    [v]. *)
Definition run_at (es : list (Z * bool)) (k : nat) (digits : list Z) (v : Z)
  : Prop :=
  (k + length digits < length es)%nat
  /\ (forall i, (i < length digits)%nat -> entry es (k + i) = (nth i digits 0, true))
  /\ entry es (k + length digits) = (v, false).

(** The settings byte before the counts are added: the scanning flag
    and the model flag. *)
Definition scan_settings (horizontal model : bool) : Z :=
  Z.lor (if horizontal then SCANNING_MASK else 0) (if model then MODEL_MASK else 0).

End Notions.

(** ** The vertical reconstruction, pixel by pixel *)

Module Reconstruction.
Import Rle RleDecompressor.

(** The cursor of [DecompressVertically] after [k] pixels: column
    [k / height], row [k mod height]. *)
Definition cursor_at (height : Z) (k : nat) : cursor :=
  {| cx := Z.of_nat k / height; cy := Z.of_nat k mod height |}.

(** The position in the image of the [k]-th pixel of the stream. *)
Definition place (width height : Z) (k : nat) : nat :=
  Z.to_nat (Z.of_nat k mod height * width + Z.of_nat k / height).

(** [DecompressVertically_run] for pixels that need not be equal: the
    body of its loop, once for every pixel of [pixels]. *)
Fixpoint vertical_pixels (pixels : list Z) (width height image_size : Z)
         (c : cursor) (im : image) : result (bool * cursor * image) :=
  match pixels with
  | [] => Ret (true, c, im)
  | val :: rest =>
      let i := u64 (cy c * width + cx c) in
      let im0 := {| dec_buffer := dec_buffer im;
                    dec_buffer_alloc := dec_buffer_alloc im;
                    dec_buffer_index := i |} in
      if image_size <=? i then Ret (false, c, im0)
      else if (Z.to_nat i <? length (dec_buffer im))%nat then
        let im1 := {| dec_buffer := store (dec_buffer im) (Z.to_nat i) val;
                      dec_buffer_alloc := dec_buffer_alloc im;
                      dec_buffer_index := i |} in
        let y1 := u64 (cy c + 1) in
        let c1 := if y1 =? height then {| cx := u64 (cx c + 1); cy := 0 |}
                  else {| cx := cx c; cy := y1 |} in
        vertical_pixels rest width height image_size c1 im1
      else Fault OutOfBounds
  end.

(** The image after the pixels [pixels] were stored from the [k]-th
    place on. *)
Fixpoint stored (width height : Z) (pixels : list Z) (k : nat) (dec : list Z)
  : list Z :=
  match pixels with
  | [] => dec
  | p :: rest => stored width height rest (S k) (store dec (place width height k) p)
  end.

End Reconstruction.

(** ** Bit positions in a buffer *)

Module Bits.

(** The position of the bit [bit_index] of the byte [byte_index]. *)
Definition position (byte_index bit_index : Z) : Z := 8 * byte_index + bit_index.

(** The bit at position [p] of a buffer, least significant bit of a
    byte first; outside the buffer it is 0. *)
Definition bit_at (buffer : list Z) (p : Z) : bool :=
  Z.testbit (nth (Z.to_nat (p / 8)) buffer 0) (p mod 8).

(** No bit is set from position [p] on. *)
Definition clean_from (buffer : list Z) (p : Z) : Prop :=
  forall q, p <= q -> bit_at buffer q = false.

(** The cursor of the coder. *)
Definition cursor_of (c : HuffmanCoder.coder) : Z :=
  position (HuffmanCoder.byte_index c) (HuffmanCoder.bit_index c).

(** What the bit writer relies on between two calls: the cursor is
    inside the allocation, and no bit is set from the cursor on. *)
Definition writable (c : HuffmanCoder.coder) : Prop :=
  0 <= HuffmanCoder.bit_index c < 8
  /\ 0 <= HuffmanCoder.byte_index c < HuffmanCoder.alloc c
  /\ HuffmanCoder.byte_index c < 2 ^ 60
  /\ clean_from (HuffmanCoder.buffer c) (cursor_of c).

(** The cursor of the decoder in its input. *)
Definition reader_of (d : HuffmanDecoder.decoder) : Z :=
  position (HuffmanDecoder.read_byte_index d) (HuffmanDecoder.read_bit_index d).

(** The symbol that the loop of [ReadSymbol] builds from the bits
    [f j], [f (j + 1)], ... for the positions [ixs]. *)
Fixpoint read_bits (f : Z -> bool) (ixs : list Z) (j : Z) (acc : Z) : Z :=
  match ixs with
  | [] => acc
  | i :: rest =>
      read_bits f rest (j + 1)
                (if f j then u8 (Z.lor acc (Z.shiftl 1 (7 - i))) else acc)
  end.

End Bits.

(** ** Pointers and code words in the Huffman tree *)

Module Codes.
Import Huffman.

(** [p] points into the arena. *)
Definition inside (t : tree) (p : nat) : Prop := (p < length (nodes t))%nat.

(** [p->left], [p->right] and [p->parent]; null outside the arena. *)
Definition left_of (t : tree) (p : nat) : option nat :=
  match nth_error (nodes t) p with Some n => left n | None => None end.
Definition right_of (t : tree) (p : nat) : option nat :=
  match nth_error (nodes t) p with Some n => right n | None => None end.
Definition parent_of (t : tree) (p : nat) : option nat :=
  match nth_error (nodes t) p with Some n => parent n | None => None end.

(** [p->val]. *)
Definition val_of (t : tree) (p : nat) : option Z :=
  match nth_error (nodes t) p with Some n => Some (val n) | None => None end.

(** The child that the loop of [Decode] moves to for a bit. *)
Definition child_of (t : tree) (p : nat) (move_right : bool) : option nat :=
  if move_right then right_of t p else left_of t p.

(** The node that the loop of [Decode] reaches from [node] with the
    bits [w]; nothing when a child is missing on the way. *)
Fixpoint walk (t : tree) (node : nat) (w : list bool) : option nat :=
  match w with
  | [] => Some node
  | b :: rest =>
      match child_of t node b with
      | Some c => walk t c rest
      | None => None
      end
  end.

(** A bit as [AddBits] takes it. *)
Definition bit_of (b : bool) : Z := if b then 1 else 0.

(** The pointers of the tree agree with each other: the root has no
    parent and is the only such node, the NYT node has no children, a
    node has both children or none, its two children differ, and [c] is
    a child of [p] exactly when the parent of [c] is [p]. *)
Record linked (t : tree) : Prop := {
  root_inside : inside t (root t);
  root_top : forall p, inside t p -> (parent_of t p = None <-> p = root t);
  nyt_inside : inside t (NYT t);
  nyt_leaf : left_of t (NYT t) = None;
  both_or_none : forall p, left_of t p = None <-> right_of t p = None;
  sides_differ : forall p c, left_of t p = Some c -> right_of t p <> Some c;
  child_parent :
    forall p c, left_of t p = Some c \/ right_of t p = Some c ->
                inside t c /\ parent_of t c = Some p;
  parent_child :
    forall c p, parent_of t c = Some p ->
                inside t p /\ (left_of t p = Some c \/ right_of t p = Some c)
}.

(** [t'] has the arena, the root, the NYT pointer and the symbols of
    [t]. *)
Definition frame (t t' : tree) : Prop :=
  length (nodes t') = length (nodes t)
  /\ root t' = root t
  /\ NYT t' = NYT t
  /\ forall x, val_of t' x = val_of t x.

(** The exchange of the pointers [a] and [b]. *)
Definition exchange (a b x : nat) : nat :=
  if (x =? a)%nat then b else if (x =? b)%nat then a else x.

(** The table [leaf_nodes] of the coder: the entry of a symbol is null
    or points to a leaf that carries the symbol and is not the NYT
    node. *)
Definition labelled (c : HuffmanCoder.coder) : Prop :=
  length (HuffmanCoder.leaf_nodes c) = 256%nat
  /\ forall s p,
      nth_error (HuffmanCoder.leaf_nodes c) s = Some (Some p) ->
      val_of (HuffmanCoder.tr c) p = Some (Z.of_nat s)
      /\ left_of (HuffmanCoder.tr c) p = None
      /\ p <> NYT (HuffmanCoder.tr c).

(** The decoder with its cursor [k] bits further in the input. *)
Definition advance (d : HuffmanDecoder.decoder) (k : Z) : HuffmanDecoder.decoder :=
  {| HuffmanDecoder.tr := HuffmanDecoder.tr d;
     HuffmanDecoder.buffer := HuffmanDecoder.buffer d;
     HuffmanDecoder.write_byte_index := HuffmanDecoder.write_byte_index d;
     HuffmanDecoder.read_byte_index := (Bits.reader_of d + k) / 8;
     HuffmanDecoder.read_bit_index := (Bits.reader_of d + k) mod 8 |}.

End Codes.

(** ** The coder and the decoder side by side *)

Module Sync.
Import Huffman Codes.

(** The indices of the nodes lie between the lowest index that
    [AddSymbol] has given out and the index of the first node. *)
Definition indexed (t : tree) : Prop :=
  Forall (fun n => 514 - Z.of_nat (length (nodes t)) <= index n <= 513)
         (nodes t).

(** What the coder keeps from one symbol to the next: its buffer is
    writable, the tree is linked, the table of leaves is labelled, the
    indices are in their range, and the root has children as soon as
    there is a second node. *)
Definition coder_ok (c : HuffmanCoder.coder) : Prop :=
  Bits.writable c
  /\ linked (HuffmanCoder.tr c)
  /\ labelled c
  /\ indexed (HuffmanCoder.tr c)
  /\ ((1 < length (nodes (HuffmanCoder.tr c)))%nat ->
      left_of (HuffmanCoder.tr c) (root (HuffmanCoder.tr c)) <> None).

(** The decoder has written the symbols [out] and stands, with the tree
    of the coder [c], where the coder stands, one byte further (the
    settings byte of the file). *)
Definition synced (c : HuffmanCoder.coder) (d : HuffmanDecoder.decoder)
           (out : list Z) : Prop :=
  HuffmanDecoder.tr d = HuffmanCoder.tr c
  /\ Bits.reader_of d = Bits.cursor_of c + 8
  /\ 0 <= HuffmanDecoder.read_bit_index d < 8
  /\ 0 <= HuffmanDecoder.read_byte_index d
  /\ HuffmanDecoder.write_byte_index d = Z.of_nat (length out)
  /\ (length out <= length (HuffmanDecoder.buffer d))%nat
  /\ firstn (length out) (HuffmanDecoder.buffer d) = out.

(** The bits of a byte as [AddByte] writes them, bit 7 first. *)
Definition byte_bits (b : Z) : list bool :=
  map (fun j => Z.testbit b (7 - j)) [0; 1; 2; 3; 4; 5; 6; 7].

(** [IsEnd] for a decoder whose cursor stands at the bit [q] of its
    input. *)
Definition end_at (size padding_bits q : Z) : bool :=
  (q mod 8 + padding_bits =? 9) && (size =? q / 8 + 1).

End Sync.

(** * Properties *)

(** ** Machine arithmetic *)

Lemma u8_range (x : Z) : 0 <= u8 x < 256.
Proof. unfold u8. apply Z.mod_pos_bound. lia. Qed.

Lemma u8_small (x : Z) : 0 <= x < 256 -> u8 x = x.
Proof. intros H. unfold u8. apply Z.mod_small. exact H. Qed.

Lemma u64_range (x : Z) : 0 <= u64 x < 18446744073709551616.
Proof. unfold u64. apply Z.mod_pos_bound. lia. Qed.

Lemma u64_small (x : Z) : 0 <= x < 18446744073709551616 -> u64 x = x.
Proof. intros H. unfold u64. apply Z.mod_small. exact H. Qed.

Lemma u32_range (x : Z) : 0 <= u32 x < 4294967296.
Proof. unfold u32. apply Z.mod_pos_bound. lia. Qed.

Lemma u32_small (x : Z) : 0 <= x < 4294967296 -> u32 x = x.
Proof. intros H. unfold u32. apply Z.mod_small. exact H. Qed.

(** ** The differential model *)

Section Differential.
Import DataWorker.

Lemma u8_add_sub (prev x : Z) :
  is_byte prev -> is_byte x -> u8 (prev + u8 (x - prev)) = x.
Proof.
  unfold is_byte, u8. intros Hp Hx.
  rewrite Zplus_mod_idemp_r.
  replace (prev + (x - prev)) with x by ring.
  apply Z.mod_small. exact Hx.
Qed.

Lemma Depreprocess_loop_inverse (xs : list Z) :
  forall prev, is_byte prev -> bytes xs ->
               Depreprocess_loop prev (Preprocess_loop prev xs) = xs.
Proof.
  induction xs as [|x xs IH]; intros prev Hp Hxs; simpl.
  - reflexivity.
  - inversion Hxs as [|? ? Hx Hrest]; subst.
    rewrite (u8_add_sub prev x Hp Hx).
    f_equal. apply IH; assumption.
Qed.


Lemma bytes_intro (l : list Z) :
  forallb (fun b => (0 <=? b) && (b <? 256)) l = true -> bytes l.
Proof.
  intros H. apply Forall_forall. intros b Hb.
  rewrite forallb_forall in H. specialize (H b Hb).
  apply andb_true_iff in H. destruct H as [H1 H2].
  apply Z.leb_le in H1. apply Z.ltb_lt in H2. split; assumption.
Qed.


End Differential.

(** ** The Huffman stage *)

Section HuffmanStage.
Import Huffman.

(** C10: for a buffer of size 1, whatever its only byte,
    [HuffmanDecoder::Decode] takes the branch that copies the payload,
    returns true, and reports an empty output. *)
Theorem Decode_size_one (b : Z) :
  exists d,
    HuffmanDecoder.Decode [b] 1 = Ret (true, d)
    /\ HuffmanDecoder.GetSize d = 0
    /\ HuffmanDecoder.buffer d = []
    /\ HuffmanDecoder.tr d = InitTree.
Proof.
  eexists. unfold HuffmanDecoder.Decode. simpl.
  repeat split; reflexivity.
Qed.

Lemma AddBits_step_bit_index (c c1 : HuffmanCoder.coder) (b : Z) :
  HuffmanCoder.AddBits_step c b = Ret c1 ->
  0 <= HuffmanCoder.bit_index c1 < 8.
Proof.
  unfold HuffmanCoder.AddBits_step. intros H.
  destruct (if b =? 1 then _ else _) as [buf|]; simpl in H; [|discriminate].
  pose proof (u8_range (HuffmanCoder.bit_index c + 1)) as Hr.
  unfold BITS_IN_BYTE in H.
  destruct (8 <=? u8 (HuffmanCoder.bit_index c + 1)) eqn:E;
    inversion H; subst; simpl.
  - lia.
  - apply Z.leb_gt in E. lia.
Qed.

Lemma AddBits_loop_bit_index (bits : list Z) :
  forall c c1,
    0 <= HuffmanCoder.bit_index c < 8 ->
    HuffmanCoder.AddBits_loop c bits = Ret c1 ->
    0 <= HuffmanCoder.bit_index c1 < 8.
Proof.
  induction bits as [|b bits IH]; intros c c1 Hc H; simpl in H.
  - inversion H; subst. exact Hc.
  - destruct (HuffmanCoder.AddBits_step c b) as [c2|] eqn:E; simpl in H;
      [|discriminate].
    apply (IH c2 c1); [|exact H].
    apply (AddBits_step_bit_index c c2 b E).
Qed.

Lemma ReallocateBuffer_bit_index (c : HuffmanCoder.coder) :
  HuffmanCoder.bit_index (HuffmanCoder.ReallocateBuffer c)
  = HuffmanCoder.bit_index c.
Proof.
  unfold HuffmanCoder.ReallocateBuffer.
  destruct (_ <=? _); reflexivity.
Qed.

Lemma AddBits_bit_index (bits : list Z) (c c1 : HuffmanCoder.coder) :
  0 <= HuffmanCoder.bit_index c < 8 ->
  HuffmanCoder.AddBits c bits = Ret c1 ->
  0 <= HuffmanCoder.bit_index c1 < 8.
Proof.
  intros Hc H. unfold HuffmanCoder.AddBits in H.
  destruct bits as [|b bits].
  - inversion H; subst. exact Hc.
  - apply (AddBits_loop_bit_index _ _ _ ltac:(rewrite ReallocateBuffer_bit_index; exact Hc) H).
Qed.

Lemma Encode_step_bit_index (c c1 : HuffmanCoder.coder) (b : Z) :
  0 <= HuffmanCoder.bit_index c < 8 ->
  HuffmanCoder.Encode_step c b = Ret c1 ->
  0 <= HuffmanCoder.bit_index c1 < 8.
Proof.
  intros Hc H. unfold HuffmanCoder.Encode_step in H.
  destruct (HuffmanCoder.FindSymbol c b) as [found|]; simpl in H; [|discriminate].
  destruct found as [node|].
  - destruct (HuffmanCoder.path_to_root c node) as [path|]; simpl in H;
      [|discriminate].
    destruct (HuffmanCoder.AddBits c path) as [c2|] eqn:E; simpl in H;
      [|discriminate].
    destruct (update_tree _ _ _) as [t|]; simpl in H; [|discriminate].
    inversion H; subst; simpl.
    apply (AddBits_bit_index path c c2 Hc E).
  - destruct (HuffmanCoder.path_to_root c _) as [path|]; simpl in H;
      [|discriminate].
    destruct (HuffmanCoder.AddBits c path) as [c2|] eqn:E; simpl in H;
      [|discriminate].
    pose proof (AddBits_bit_index path c c2 Hc E) as H2.
    unfold HuffmanCoder.AddSymbol in H.
    destruct (Huffman.AddSymbol _ _) as [[[t leaf] old]|]; simpl in H;
      [|discriminate].
    destruct (HuffmanCoder.AddByte _ _) as [c3|] eqn:E3; simpl in H;
      [|discriminate].
    destruct (update_tree _ _ _) as [t'|]; simpl in H; [|discriminate].
    inversion H; subst; simpl.
    unfold HuffmanCoder.AddByte in E3.
    refine (AddBits_bit_index _ _ _ _ E3). simpl. exact H2.
Qed.

Lemma Encode_loop_bit_index (input : list Z) :
  forall c c1,
    0 <= HuffmanCoder.bit_index c < 8 ->
    HuffmanCoder.Encode_loop c input = Ret c1 ->
    0 <= HuffmanCoder.bit_index c1 < 8.
Proof.
  induction input as [|b input IH]; intros c c1 Hc H; simpl in H.
  - inversion H; subst. exact Hc.
  - destruct (HuffmanCoder.Encode_step c b) as [c2|] eqn:E; simpl in H;
      [|discriminate].
    apply (IH c2 c1); [|exact H].
    apply (Encode_step_bit_index c c2 b Hc E).
Qed.

Lemma settings_byte (k : Z) :
  0 <= k < 8 ->
  u8 (Z.lor (u8 (if k =? 0 then 0 else 8 - k)) SETTINGS_BIT_CHECK)
  = Z.lor 8 ((8 - k) mod 8).
Proof.
  intros Hk.
  assert (k = 0 \/ k = 1 \/ k = 2 \/ k = 3 \/ k = 4 \/ k = 5 \/ k = 6 \/ k = 7)
    as Hc by lia.
  repeat (destruct Hc as [Hc|Hc]; [subst k; reflexivity|]).
  subst k; reflexivity.
Qed.

Lemma firstn_app_exact {A : Type} (l r : list A) : firstn (length l) (l ++ r) = l.
Proof.
  induction l as [|a l IH]; simpl.
  - destruct r; reflexivity.
  - f_equal. exact IH.
Qed.

(** The cursor of the coder does not go below the start of its
    buffer. *)
Lemma AddBits_step_byte_index (c c1 : HuffmanCoder.coder) (b : Z) :
  0 <= HuffmanCoder.byte_index c ->
  HuffmanCoder.AddBits_step c b = Ret c1 ->
  0 <= HuffmanCoder.byte_index c1.
Proof.
  unfold HuffmanCoder.AddBits_step. intros Hc H.
  destruct (if b =? 1 then _ else _) as [buf|]; simpl in H; [|discriminate].
  pose proof (u64_range (HuffmanCoder.byte_index c + 1)) as Hr.
  destruct (BITS_IN_BYTE <=? u8 (HuffmanCoder.bit_index c + 1));
    inversion H; subst; simpl; lia.
Qed.

Lemma AddBits_loop_byte_index (bits : list Z) :
  forall c c1,
    0 <= HuffmanCoder.byte_index c ->
    HuffmanCoder.AddBits_loop c bits = Ret c1 ->
    0 <= HuffmanCoder.byte_index c1.
Proof.
  induction bits as [|b bits IH]; intros c c1 Hc H; simpl in H.
  - inversion H; subst. exact Hc.
  - destruct (HuffmanCoder.AddBits_step c b) as [c2|] eqn:E; simpl in H;
      [|discriminate].
    apply (IH c2 c1); [|exact H].
    apply (AddBits_step_byte_index c c2 b Hc E).
Qed.

Lemma AddBits_byte_index (bits : list Z) (c c1 : HuffmanCoder.coder) :
  0 <= HuffmanCoder.byte_index c ->
  HuffmanCoder.AddBits c bits = Ret c1 ->
  0 <= HuffmanCoder.byte_index c1.
Proof.
  intros Hc H. unfold HuffmanCoder.AddBits in H.
  destruct bits as [|b bits].
  - inversion H; subst. exact Hc.
  - apply (AddBits_loop_byte_index (rev (b :: bits))
                                   (HuffmanCoder.ReallocateBuffer c) c1);
      [|exact H].
    unfold HuffmanCoder.ReallocateBuffer.
    destruct (HuffmanCoder.alloc c <=? HuffmanCoder.byte_index c + 20);
      exact Hc.
Qed.

Lemma Encode_step_byte_index (c c1 : HuffmanCoder.coder) (b : Z) :
  0 <= HuffmanCoder.byte_index c ->
  HuffmanCoder.Encode_step c b = Ret c1 ->
  0 <= HuffmanCoder.byte_index c1.
Proof.
  intros Hc H. unfold HuffmanCoder.Encode_step in H.
  destruct (HuffmanCoder.FindSymbol c b) as [found|]; simpl in H; [|discriminate].
  destruct found as [node|].
  - destruct (HuffmanCoder.path_to_root c node) as [path|]; simpl in H;
      [|discriminate].
    destruct (HuffmanCoder.AddBits c path) as [c2|] eqn:E; simpl in H;
      [|discriminate].
    destruct (update_tree _ _ _) as [t|]; simpl in H; [|discriminate].
    inversion H; subst; simpl.
    apply (AddBits_byte_index path c c2 Hc E).
  - destruct (HuffmanCoder.path_to_root c _) as [path|]; simpl in H;
      [|discriminate].
    destruct (HuffmanCoder.AddBits c path) as [c2|] eqn:E; simpl in H;
      [|discriminate].
    pose proof (AddBits_byte_index path c c2 Hc E) as H2.
    unfold HuffmanCoder.AddSymbol in H.
    destruct (Huffman.AddSymbol _ _) as [[[t leaf] old]|]; simpl in H;
      [|discriminate].
    destruct (HuffmanCoder.AddByte _ _) as [c3|] eqn:E3; simpl in H;
      [|discriminate].
    destruct (update_tree _ _ _) as [t'|]; simpl in H; [|discriminate].
    inversion H; subst; simpl.
    unfold HuffmanCoder.AddByte in E3.
    refine (AddBits_byte_index _ _ _ _ E3). simpl. exact H2.
Qed.

Lemma Encode_loop_byte_index (input : list Z) :
  forall c c1,
    0 <= HuffmanCoder.byte_index c ->
    HuffmanCoder.Encode_loop c input = Ret c1 ->
    0 <= HuffmanCoder.byte_index c1.
Proof.
  induction input as [|b input IH]; intros c c1 Hc H; simpl in H.
  - inversion H; subst. exact Hc.
  - destruct (HuffmanCoder.Encode_step c b) as [c2|] eqn:E; simpl in H;
      [|discriminate].
    apply (IH c2 c1); [|exact H].
    apply (Encode_step_byte_index c c2 b Hc E).
Qed.

(** C3: when [HuffmanCoder::Encode] has run on [input], with [c0] the
    coder at the end of its loop and the encoded size [enc_size] its
    [byte_index], plus one when [bit_index] is not 0 (computed on
    [uint64_t], as [GetSize] does): if [enc_size] is greater than the
    size of the input, the output buffer starts with a copy of the
    input, the cursor is at byte [size] and bit 0, and the settings
    byte is 0x00; otherwise the coder is left as it is and the settings
    byte is 0x08 or'ed with [(8 - bit_index) mod 8].  In both cases the
    reported size, [byte_index] plus one when [bit_index] is not 0 at
    the end, is at most the size of the input. *)
Theorem Encode_settings (input : list Z) (c : HuffmanCoder.coder) (settings : Z) :
  HuffmanCoder.Encode input = Ret (c, settings) ->
  let size := Z.of_nat (length input) in
  exists c0,
    HuffmanCoder.Encode_loop HuffmanCoder.init input = Ret c0
    /\ let enc_size :=
         if HuffmanCoder.bit_index c0 =? 0 then HuffmanCoder.byte_index c0
         else u64 (HuffmanCoder.byte_index c0 + 1) in
       let out_size :=
         if HuffmanCoder.bit_index c =? 0 then HuffmanCoder.byte_index c
         else u64 (HuffmanCoder.byte_index c + 1) in
       (HuffmanCoder.byte_index c0 + 1 < 18446744073709551616 ->
        enc_size = HuffmanCoder.byte_index c0
                   + (if HuffmanCoder.bit_index c0 =? 0 then 0 else 1))
       /\ (size < enc_size ->
           firstn (length input) (HuffmanCoder.buffer c) = input
           /\ HuffmanCoder.output c = input
           /\ HuffmanCoder.byte_index c = size
           /\ HuffmanCoder.bit_index c = 0
           /\ settings = 0)
       /\ (enc_size <= size ->
           c = c0
           /\ settings = Z.lor 8 ((8 - HuffmanCoder.bit_index c0) mod 8))
       /\ HuffmanCoder.GetSize c = out_size
       /\ out_size <= size.
Proof.
  intros H size. unfold HuffmanCoder.Encode in H.
  destruct (HuffmanCoder.Encode_loop HuffmanCoder.init input) as [c0|] eqn:E;
    simpl in H; [|discriminate].
  exists c0. split; [reflexivity|].
  assert (0 <= HuffmanCoder.bit_index c0 < 8) as Hbit.
  { apply (Encode_loop_bit_index input HuffmanCoder.init c0); [|exact E].
    unfold HuffmanCoder.init. rewrite ReallocateBuffer_bit_index. simpl. lia. }
  assert (0 <= HuffmanCoder.byte_index c0) as Hbyte.
  { apply (Encode_loop_byte_index input HuffmanCoder.init c0); [|exact E].
    vm_compute. discriminate. }
  cbv zeta.
  split.
  { intros Hnw. destruct (HuffmanCoder.bit_index c0 =? 0); [lia|].
    apply u64_small. lia. }
  unfold HuffmanCoder.CompareWithRLE in H. fold size in H.
  unfold HuffmanCoder.GetSize in *.
  destruct (size <? (if HuffmanCoder.bit_index c0 =? 0
                     then HuffmanCoder.byte_index c0
                     else u64 (HuffmanCoder.byte_index c0 + 1))) eqn:Hcmp.
  - apply Z.ltb_lt in Hcmp. inversion H; subst c settings; clear H.
    cbn [HuffmanCoder.bit_index HuffmanCoder.byte_index HuffmanCoder.buffer
         Z.eqb].
    split; [|split; [|split]].
    + intros _. split; [|split; [|split; [|split]]]; try reflexivity.
      * apply firstn_app_exact.
      * unfold HuffmanCoder.output, HuffmanCoder.GetSize.
        cbn [HuffmanCoder.bit_index HuffmanCoder.byte_index HuffmanCoder.buffer
             Z.eqb].
        unfold size. rewrite Nat2Z.id. apply firstn_app_exact.
    + intros Hle. lia.
    + reflexivity.
    + lia.
  - apply Z.ltb_ge in Hcmp. inversion H; subst c settings; clear H.
    split; [|split; [|split]].
    + intros Hlt. lia.
    + intros _. split; [reflexivity|]. apply settings_byte. exact Hbit.
    + reflexivity.
    + exact Hcmp.
Qed.

Lemma Encode_settings_witness :
  (exists c,
      HuffmanCoder.Encode [5; 6] = Ret (c, 0)
      /\ HuffmanCoder.output c = [5; 6]
      /\ HuffmanCoder.byte_index c = 2
      /\ HuffmanCoder.bit_index c = 0)
  /\ (exists c,
         HuffmanCoder.Encode [0; 1; 1; 0; 0] = Ret (c, 9)
         /\ HuffmanCoder.byte_index c = 2
         /\ HuffmanCoder.bit_index c = 7
         /\ HuffmanCoder.GetSize c = 3).
Proof.
  split.
  - destruct (HuffmanCoder.Encode [5; 6]) as [[c settings]|f] eqn:E;
      [|vm_compute in E; discriminate].
    destruct (Encode_settings [5; 6] c settings E)
      as [c0 [H0 [_ [Hcopy _]]]].
    destruct Hcopy as [_ [Hout [Hby [Hbi Hs]]]].
    { vm_compute in H0. inversion H0; subst c0. vm_compute. reflexivity. }
    exists c. subst settings.
    split; [reflexivity|]. split; [exact Hout|]. split; [exact Hby|exact Hbi].
  - destruct (HuffmanCoder.Encode [0; 1; 1; 0; 0]) as [[c settings]|f] eqn:E;
      [|vm_compute in E; discriminate].
    destruct (Encode_settings [0; 1; 1; 0; 0] c settings E)
      as [c0 [H0 [_ [_ [Hhuff [Hget _]]]]]].
    destruct Hhuff as [Hc Hs].
    { vm_compute in H0. inversion H0; subst c0. vm_compute. discriminate. }
    assert (HuffmanCoder.byte_index c0 = 2 /\ HuffmanCoder.bit_index c0 = 7)
      as [Hby Hbi].
    { vm_compute in H0. inversion H0; subst c0. split; reflexivity. }
    exists c. subst c. rewrite Hbi in Hs. subst settings.
    split; [reflexivity|]. split; [exact Hby|]. split; [exact Hbi|].
    rewrite Hget, Hbi, Hby. reflexivity.
Defined.

End HuffmanStage.

(** ** The tree after a symbol, and the round trip of the pipeline *)

Section Evaluation.
Import Huffman TreeCheck.

(** C2 at the inputs 0 1 2 3 0 0 and 0 1 2 3 0 0 3: after the fifth
    symbol all four properties hold; after the sixth the indices no
    longer decrease in breadth-first order (505 is followed by 508);
    after the seventh a node of weight 2 has index 506 while nodes of
    weight 1 have the indices 508 and 507.  Both children of every
    internal node are present and only the NYT node has weight 0 in
    all three trees.  In the tree after the sixth symbol the leaf of
    the byte 3 (index 506, weight 1) is met first by the search of
    [FindHighestBlockNode], which returns it, although the leaf of the
    byte 2 has the same weight and the index 508. *)
Theorem sibling_order_lost :
  (exists t, coder_tree [0; 1; 2; 3; 0] = Ret t
             /\ indices_decrease t = true /\ weights_ordered t = true
             /\ both_children t = true /\ one_zero_weight t = true)
  /\ (exists t, coder_tree [0; 1; 2; 3; 0; 0] = Ret t
                /\ profile t = [(513, 7); (512, 4); (511, 3); (510, 2); (509, 2);
                                (506, 1); (505, 0); (508, 1); (507, 1)]
                /\ indices_decrease t = false
                /\ both_children t = true /\ one_zero_weight t = true
                /\ (val (node_at t 7), index (node_at t 7), weight (node_at t 7))
                   = (3, 506, 1)
                /\ (val (node_at t 5), index (node_at t 5), weight (node_at t 5))
                   = (2, 508, 1)
                /\ FindHighestBlockNode t 7 = Ret 7%nat)
  /\ (exists t, coder_tree [0; 1; 2; 3; 0; 0; 3] = Ret t
                /\ profile t = [(513, 8); (512, 5); (511, 3); (510, 3); (509, 2);
                                (506, 2); (505, 0); (508, 1); (507, 1)]
                /\ weights_ordered t = false
                /\ both_children t = true /\ one_zero_weight t = true).
Proof.
  split; [|split].
  - destruct (coder_tree [0; 1; 2; 3; 0]) as [t|] eqn:E;
      [|vm_compute in E; discriminate].
    exists t. split; [reflexivity|].
    vm_compute in E. inversion E; subst t.
    repeat split; vm_compute; reflexivity.
  - destruct (coder_tree [0; 1; 2; 3; 0; 0]) as [t|] eqn:E;
      [|vm_compute in E; discriminate].
    exists t. split; [reflexivity|].
    vm_compute in E. inversion E; subst t.
    repeat split; vm_compute; reflexivity.
  - destruct (coder_tree [0; 1; 2; 3; 0; 0; 3]) as [t|] eqn:E;
      [|vm_compute in E; discriminate].
    exists t. split; [reflexivity|].
    vm_compute in E. inversion E; subst t.
    repeat split; vm_compute; reflexivity.
Qed.

(** C1 at the image 0 0 1 1 1 of width 5, without the model and with
    adaptive scanning: the compressor writes the six bytes
    09 00 40 03 BC 7A; the Huffman decoder returns the RLE frame
    00 05 01 05 00 00 01 01 followed by one more byte 00, and the RLE
    decompressor fails on it, so the program exits with -1. *)
Theorem round_trip_fails :
  Main.compress [0; 0; 1; 1; 1] 5 false true = Ret [9; 0; 64; 3; 188; 122]
  /\ Main.rle_stage [0; 0; 1; 1; 1] 5 false true
     = Ret [0; 5; 1; 5; 0; 0; 1; 1]
  /\ (exists d,
        HuffmanDecoder.Decode [9; 0; 64; 3; 188; 122] 6 = Ret (true, d)
        /\ firstn (Z.to_nat (HuffmanDecoder.GetSize d)) (HuffmanDecoder.buffer d)
           = [0; 5; 1; 5; 0; 0; 1; 1; 0])
  /\ Main.decompress [9; 0; 64; 3; 188; 122] = Ret None
  /\ Main.round_trip [0; 0; 1; 1; 1] 5 false true = Ret None.
Proof.
  split; [vm_compute; reflexivity|].
  split; [vm_compute; reflexivity|].
  split.
  - destruct (HuffmanDecoder.Decode [9; 0; 64; 3; 188; 122] 6)
      as [[b d]|] eqn:E; [|vm_compute in E; discriminate].
    vm_compute in E. inversion E; subst b d.
    eexists. split; [reflexivity|]. vm_compute. reflexivity.
  - split; vm_compute; reflexivity.
Qed.

End Evaluation.

(** ** The RLE compressor *)

Section RleCompressorFacts.
Import Rle RleCompressor Format Trace Notions.

Lemma group_bits_range (cs : list bool) :
  0 <= group_bits cs < 2 ^ Z.of_nat (length cs).
Proof.
  induction cs as [|c cs IH].
  - simpl. lia.
  - cbn [group_bits length]. rewrite Nat2Z.inj_succ, Z.pow_succ_r by lia.
    destruct c; lia.
Qed.

Lemma group_bits_app (cs : list bool) (c : bool) :
  group_bits (cs ++ [c])
  = group_bits cs + (if c then 2 ^ Z.of_nat (length cs) else 0).
Proof.
  induction cs as [|a cs IH].
  - simpl. destruct c; reflexivity.
  - cbn [group_bits length app]. rewrite IH.
    rewrite Nat2Z.inj_succ, Z.pow_succ_r by lia.
    destruct c; ring.
Qed.

Lemma lor_pow2_above (g k : Z) :
  0 <= k -> 0 <= g < 2 ^ k -> Z.lor g (Z.shiftl 1 k) = g + 2 ^ k.
Proof.
  intros Hk Hg.
  rewrite Z.shiftl_1_l.
  pose proof (Z.add_lor_land g (2 ^ k)) as Hadd.
  assert (Z.land g (2 ^ k) = 0) as Hland; [|lia].
  destruct (Z.eq_dec g 0) as [->|Hg0]; [apply Z.land_0_l|].
  apply Z.bits_inj'. intros i Hi.
  rewrite Z.land_spec, Z.bits_0.
  destruct (Z.eq_dec i k) as [->|Hne].
  - rewrite (Z.bits_above_log2 g k); [reflexivity|lia|].
    apply Z.log2_lt_pow2; lia.
  - rewrite Z.pow2_bits_false by lia. apply andb_false_r.
Qed.

(** *** Loops that may fault *)

Lemma bind_Ret {A B : Type} (m : result A) (k : A -> result B) (r : B) :
  bind m k = Ret r -> exists a, m = Ret a /\ k a = Ret r.
Proof.
  destruct m as [a|f]; cbn [bind]; intros H; [|discriminate].
  exists a. split; [reflexivity|exact H].
Qed.

Lemma fold_result_app {A B : Type} (f : A -> B -> result A) (l1 l2 : list B) :
  forall a,
    fold_result f (l1 ++ l2) a = (a1 <- fold_result f l1 a ;; fold_result f l2 a1).
Proof.
  induction l1 as [|b l1 IH]; intros a; [reflexivity|].
  cbn [app fold_result]. destruct (f a b) as [a1|e]; cbn [bind]; [apply IH|reflexivity].
Qed.

Lemma fold_result_map {A B C : Type} (f : A -> B -> result A) (g : C -> B)
      (l : list C) :
  forall a, fold_result (fun s i => f s (g i)) l a = fold_result f (map g l) a.
Proof.
  induction l as [|c l IH]; intros a; [reflexivity|].
  cbn [map fold_result]. destruct (f a (g c)) as [a1|e]; cbn [bind];
    [apply IH|reflexivity].
Qed.

(** *** Writes inside the block *)

Lemma push_all_lands (bs : list Z) :
  forall p,
    encoded_index p + Z.of_nat (length bs) <= encoded_alloc p ->
    push_all p bs
    = Ret {| encoded_buff := encoded_buff p ++ bs;
             encoded_alloc := encoded_alloc p; alloc_size := alloc_size p;
             group_vec := group_vec p; group := group p |}.
Proof.
  induction bs as [|b bs IH]; intros p Hroom.
  - cbn [push_all]. rewrite app_nil_r. destruct p; reflexivity.
  - cbn [push_all length] in *. rewrite Nat2Z.inj_succ in Hroom.
    unfold push. replace (encoded_index p <? encoded_alloc p) with true
      by (symmetry; apply Z.ltb_lt; lia).
    cbn [bind]. rewrite IH.
    + cbn [encoded_buff encoded_alloc alloc_size group_vec group].
      rewrite <- app_assoc. reflexivity.
    + unfold encoded_index in *. cbn [encoded_buff encoded_alloc].
      rewrite length_app, Nat2Z.inj_add. cbn [length]. lia.
Qed.

Lemma growth_positive (p : packer) : 0 <= alloc_size p -> 1 <= growth p.
Proof.
  intros H. unfold growth.
  assert (0 <= alloc_size p / 4) by (apply Z.div_pos; lia). lia.
Qed.

(** The test at the head of [appendToBuff] and the call of
    [ReallocateBuffer] it guards. *)
Lemma room_after_check (p : packer) :
  roomy p ->
  encoded_index p + 9 + growth p < u64_max ->
  let p0 :=
    if encoded_alloc p <=? u64 (encoded_index p + (UINT8_T_SIZE + 1))
    then ReallocateBuffer p else p in
  encoded_buff p0 = encoded_buff p
  /\ group_vec p0 = group_vec p /\ group p0 = group p
  /\ alloc_size p0 = alloc_size p
  /\ 0 < encoded_alloc p0
  /\ (encoded_index p + 10 <= encoded_alloc p0
      \/ encoded_index p + (Z.of_nat (length (group_vec p)) + 1) * growth p
         <= encoded_alloc p0).
Proof.
  intros [Ha [Hs Hroom]] Hmax p0. subst p0.
  unfold u64_max, UINT8_T_SIZE in *.
  pose proof (growth_positive p Hs) as Hg.
  assert (0 <= encoded_index p) as Hi by (unfold encoded_index; lia).
  rewrite u64_small by lia.
  destruct (encoded_alloc p <=? encoded_index p + (8 + 1)) eqn:E.
  - apply Z.leb_le in E.
    unfold ReallocateBuffer, with_alloc.
    cbn [encoded_buff group_vec group alloc_size encoded_alloc].
    replace (encoded_alloc p =? 0) with false by (symmetry; apply Z.eqb_neq; lia).
    fold (growth p). rewrite u64_small by lia.
    repeat split; try reflexivity; [lia|].
    right. destruct Hroom as [H|H]; [lia|].
    rewrite Z.mul_add_distr_r. lia.
  - apply Z.leb_gt in E. repeat split; try reflexivity; [exact Ha|]. left. lia.
Qed.

Lemma holds_empty (p : packer) : holds (with_group p [] 0) [].
Proof. repeat split. simpl. lia. Qed.

(** One call of [appendToBuff] for a classified byte: it returns, and
    the group is written when it is full. *)
Lemma emit_step (p : packer) (pend : list (Z * bool)) (e : Z * bool) :
  holds p pend ->
  roomy p ->
  encoded_index p + 9 + growth p < u64_max ->
  (2 <= growth p \/ (length pend + 1 < 8)%nat) ->
  exists p',
    emit p e = Ret p'
    /\ roomy p'
    /\ alloc_size p' = alloc_size p
    /\ if (length (pend ++ [e]) =? 8)%nat then
         encoded_buff p' = encoded_buff p ++ render (pend ++ [e])
         /\ holds p' []
       else
         encoded_buff p' = encoded_buff p /\ holds p' (pend ++ [e]).
Proof.
  intros [Hvec [Hgrp Hlen]] Hroomy Hmax Hg.
  destruct e as [b c].
  assert (group1 :
            (if c then set_bit (group p) (Z.of_nat (length (group_vec p)))
             else group p) = group_bits (map snd (pend ++ [(b, c)]))).
  { rewrite map_app. cbn [map snd]. rewrite group_bits_app.
    rewrite Hvec, Hgrp, !length_map.
    destruct c; [|rewrite Z.add_0_r; reflexivity].
    unfold set_bit.
    pose proof (group_bits_range (map snd pend)) as Hr.
    rewrite length_map in Hr.
    rewrite lor_pow2_above by lia.
    apply u8_small.
    assert (2 ^ Z.of_nat (length pend) <= 2 ^ 7) as Hp
        by (apply Z.pow_le_mono_r; lia).
    change (2 ^ 7) with 128 in Hp. lia. }
  assert (vec1 : group_vec p ++ [b] = map fst (pend ++ [(b, c)])).
  { rewrite map_app, Hvec. reflexivity. }
  assert (Hlen1 : length (group_vec p ++ [b]) = length (pend ++ [(b, c)])).
  { rewrite vec1, length_map. reflexivity. }
  assert (Hj : length (group_vec p) = length pend)
    by (rewrite Hvec, length_map; reflexivity).
  pose proof (room_after_check p Hroomy Hmax) as Hcheck. cbv zeta in Hcheck.
  unfold emit, appendToBuff. cbn [fst snd].
  set (p0 := if encoded_alloc p <=? u64 (encoded_index p + (UINT8_T_SIZE + 1))
             then ReallocateBuffer p else p) in *.
  destruct Hcheck as [Hb0 [Hv0 [Hg0 [Hs0 [Ha0 Hroom0]]]]].
  destruct Hroomy as [_ [Hs _]].
  rewrite Hv0, Hg0, orb_false_r. unfold UINT8_T_SIZE.
  destruct (length (pend ++ [(b, c)]) =? 8)%nat eqn:E.
  - apply Nat.eqb_eq in E.
    replace (Z.of_nat (length (group_vec p ++ [b])) =? 8) with true
      by (symmetry; apply Z.eqb_eq; rewrite Hlen1, E; reflexivity).
    assert (length pend = 7%nat) as H7
        by (rewrite length_app in E; simpl in E; lia).
    assert (encoded_index p0 + Z.of_nat (length ((if c
              then set_bit (group p) (Z.of_nat (length (group_vec p)))
              else group p) :: group_vec p ++ [b])) <= encoded_alloc p0) as Hfit.
    { cbn [length]. rewrite Hlen1, E. unfold encoded_index in *. rewrite Hb0.
      rewrite Hj, H7 in Hroom0. destruct Hroom0 as [H|H]; [lia|].
      destruct Hg as [Hg|Hg]; [|lia]. lia. }
    rewrite (push_all_lands _ p0 Hfit). cbn [bind].
    eexists. split; [reflexivity|].
    unfold with_group.
    cbn [encoded_buff encoded_alloc alloc_size group_vec group].
    split; [|split; [exact Hs0|split]].
    + unfold roomy, encoded_index in *.
      cbn [encoded_buff encoded_alloc alloc_size group_vec group length].
      rewrite Hs0. split; [exact Ha0|]. split; [exact Hs|]. right.
      rewrite Hb0 in *. rewrite Z.mul_0_l, Z.add_0_r.
      rewrite length_app, Nat2Z.inj_add. exact Hfit.
    + rewrite Hb0. unfold render. rewrite group1, vec1. reflexivity.
    + repeat split. simpl. lia.
  - apply Nat.eqb_neq in E.
    replace (Z.of_nat (length (group_vec p ++ [b])) =? 8) with false
      by (symmetry; apply Z.eqb_neq; rewrite Hlen1; lia).
    eexists. split; [reflexivity|].
    unfold with_group.
    cbn [encoded_buff encoded_alloc alloc_size group_vec group].
    split; [|split; [exact Hs0|split; [exact Hb0|]]].
    + unfold roomy, encoded_index, growth in *.
      cbn [encoded_buff encoded_alloc alloc_size group_vec group].
      rewrite Hs0, Hb0. split; [exact Ha0|]. split; [exact Hs|].
      rewrite length_app. cbn [length]. rewrite Nat2Z.inj_add.
      exact Hroom0.
    + repeat split.
      * exact vec1.
      * exact group1.
      * rewrite length_app in *. simpl in *. lia.
Qed.

Lemma pack_from_cons (pend : list (Z * bool)) (e : Z * bool) (rest : list (Z * bool)) :
  pack_from pend (e :: rest)
  = if (length (pend ++ [e]) =? 8)%nat
    then render (pend ++ [e]) ++ pack_from [] rest
    else pack_from (pend ++ [e]) rest.
Proof. reflexivity. Qed.

(** The calls of [appendToBuff] for the classified bytes [es] return
    when the block is roomy, and write the groups that get full. *)
Lemma emit_fold (es : list (Z * bool)) :
  forall p pend,
    holds p pend ->
    roomy p ->
    Z.of_nat (length (encoded_buff p ++ pack_from pend es)) + 9 + growth p
    < u64_max ->
    (2 <= growth p \/ (length pend + length es < 8)%nat) ->
    exists p' pend',
      fold_result emit es p = Ret p'
      /\ holds p' pend'
      /\ roomy p'
      /\ alloc_size p' = alloc_size p
      /\ encoded_buff p' ++ pack_from pend' []
         = encoded_buff p ++ pack_from pend es.
Proof.
  induction es as [|e es IH]; intros p pend Hp Hroomy Hmax Hg.
  - exists p, pend. split; [reflexivity|]. split; [exact Hp|].
    split; [exact Hroomy|]. split; reflexivity.
  - cbn [fold_result]. rewrite pack_from_cons in *.
    assert (encoded_index p + 9 + growth p < u64_max) as Hmax1.
    { unfold encoded_index. rewrite length_app, Nat2Z.inj_add in Hmax. lia. }
    assert (2 <= growth p \/ (length pend + 1 < 8)%nat) as Hg1
        by (cbn [length] in Hg; lia).
    destruct (emit_step p pend e Hp Hroomy Hmax1 Hg1) as [p1 [He [Hr1 [Hs1 Hstep]]]].
    rewrite He. cbn [bind].
    assert (growth p1 = growth p) as Hgr by (unfold growth; rewrite Hs1; reflexivity).
    destruct (length (pend ++ [e]) =? 8)%nat eqn:E.
    + destruct Hstep as [Hbuf Hh].
      destruct (IH p1 [] Hh Hr1) as [p' [pend' [Hf [Hh' [Hr' [Hs' Heq]]]]]].
      * rewrite Hgr, Hbuf, <- app_assoc. exact Hmax.
      * rewrite Hgr. cbn [length] in *. lia.
      * exists p', pend'. split; [exact Hf|]. split; [exact Hh'|].
        split; [exact Hr'|]. split; [congruence|].
        rewrite Heq, Hbuf, <- app_assoc. reflexivity.
    + destruct Hstep as [Hbuf Hh].
      destruct (IH p1 (pend ++ [e]) Hh Hr1) as [p' [pend' [Hf [Hh' [Hr' [Hs' Heq]]]]]].
      * rewrite Hgr, Hbuf. exact Hmax.
      * rewrite Hgr. rewrite length_app. cbn [length] in *. lia.
      * exists p', pend'. split; [exact Hf|]. split; [exact Hh'|].
        split; [exact Hr'|]. split; [congruence|].
        rewrite Heq, Hbuf. reflexivity.
Qed.

(** The calls that [appendCounterValue] makes, whatever the block. *)
Lemma appendCounterValue_emits (p : packer) (v n : Z) :
  1 <= n ->
  appendCounterValue p v n
  = (p' <- fold_result emit (run_bytes n v) p ;; Ret (p', 1)).
Proof.
  intros Hn. unfold appendCounterValue, run_bytes.
  destruct (1 <? n) eqn:E.
  - rewrite fold_result_app, <- fold_result_map.
    change (fun (s : packer) (i : Z) => emit s (i, true))
      with (fun (q : packer) (c : Z) => appendToBuff q c true false None).
    destruct (fold_result _ (rev (counter_values n)) p) as [p1|f]; cbn [bind];
      [|reflexivity].
    cbn [fold_result]. unfold emit at 1. cbn [fst snd].
    destruct (appendToBuff p1 v false false None); reflexivity.
  - apply Z.ltb_ge in E. assert (n = 1) by lia. subst n.
    cbn [fold_result]. unfold emit. cbn [fst snd].
    destruct (appendToBuff p v false false None); reflexivity.
Qed.

(** The last step of both scans: the group that is not full is written
    as it is, and the padding value is not. *)
Lemma flush_open_group (p : packer) (pend : list (Z * bool)) :
  holds p pend ->
  roomy p ->
  encoded_index p + 9 + growth p < u64_max ->
  exists p',
    (if 0 <? Z.of_nat (length (group_vec p))
     then appendToBuff p UINT8_T_PADDING false true None
     else Ret p) = Ret p'
    /\ encoded_buff p' = encoded_buff p ++ pack_from pend []
    /\ alloc_size p' = alloc_size p.
Proof.
  intros [Hvec [Hgrp Hlen]] Hroomy Hmax.
  assert (Hj : length (group_vec p) = length pend)
    by (rewrite Hvec, length_map; reflexivity).
  rewrite Hj.
  destruct pend as [|e pend].
  - exists p. simpl. rewrite app_nil_r. repeat split.
  - replace (0 <? Z.of_nat (length (e :: pend))) with true
      by (symmetry; apply Z.ltb_lt; simpl; lia).
    pose proof (room_after_check p Hroomy Hmax) as Hcheck. cbv zeta in Hcheck.
    unfold appendToBuff.
    set (p0 := if encoded_alloc p <=? u64 (encoded_index p + (UINT8_T_SIZE + 1))
               then ReallocateBuffer p else p) in *.
    destruct Hcheck as [Hb0 [Hv0 [Hg0 [Hs0 [Ha0 Hroom0]]]]].
    destruct Hroomy as [_ [Hs _]].
    pose proof (growth_positive p Hs) as Hgp.
    rewrite orb_true_r.
    assert (encoded_index p0 + Z.of_nat (length (group p0 :: group_vec p0))
            <= encoded_alloc p0) as Hfit.
    { cbn [length]. rewrite Hv0, Hj. unfold encoded_index in *. rewrite Hb0.
      rewrite Hj in Hroom0. cbn [length] in *. destruct Hroom0 as [H|H]; [lia|].
      nia. }
    rewrite (push_all_lands _ p0 Hfit). cbn [bind].
    eexists. split; [reflexivity|]. unfold with_group.
    cbn [encoded_buff alloc_size pack_from]. split; [|exact Hs0].
    unfold render. rewrite Hb0, Hg0, Hv0, Hvec, Hgrp. reflexivity.
Qed.

(** The loop of a scan over the pixels [bs]: the runs that it flushes
    and the calls it makes for them, whatever the block. *)
Lemma scan_steps (bs : list Z) :
  forall px c,
    1 <= c ->
    c + Z.of_nat (length bs) < u64_max ->
    exists flushed c' px',
      runs_from px c bs = flushed ++ [(c', px')]
      /\ 1 <= c' <= c + Z.of_nat (length bs)
      /\ forall p,
          fold_result scan_step bs {| pk := p; pixel := px; counter := c |}
          = (p' <- fold_result emit (flat_map run_bytes_of flushed) p ;;
             Ret {| pk := p'; pixel := px'; counter := c' |}).
Proof.
  unfold u64_max.
  induction bs as [|b bs IH]; intros px c Hc Hlen.
  - exists [], c, px. cbn. repeat split; lia.
  - cbn [length] in *. rewrite Nat2Z.inj_succ in *.
    cbn [runs_from].
    destruct (b =? px) eqn:E.
    + destruct (IH px (c + 1)) as [flushed [c' [px' [H1 [H2 H3]]]]]; try lia.
      exists flushed, c', px'. split; [exact H1|]. split; [lia|].
      intros p. cbn [fold_result]. unfold scan_step. cbn [pixel pk counter].
      rewrite E, u64_small by lia. cbn [bind]. apply H3.
    + destruct (IH b 1) as [flushed [c' [px' [H1 [H2 H3]]]]]; try lia.
      exists ((c, px) :: flushed), c', px'.
      split; [rewrite H1; reflexivity|]. split; [lia|].
      intros p. cbn [fold_result]. unfold scan_step. cbn [pixel pk counter].
      rewrite E, appendCounterValue_emits by exact Hc.
      cbn [flat_map]. rewrite fold_result_app.
      unfold run_bytes_of at 1. cbn [fst snd].
      destruct (fold_result emit (run_bytes c px) p) as [p1|f]; cbn [bind];
        [|reflexivity].
      apply H3.
Qed.

(** A scan on a roomy block with an empty group, that reads the pixel
    [a] first and then the pixels [bs], returns and has written the
    groups of the runs of [a :: bs]. *)
Lemma scan_refines (p0 : packer) (a : Z) (bs : list Z) :
  Z.of_nat (length (a :: bs)) < u64_max ->
  holds p0 [] ->
  roomy p0 ->
  let es := flat_map run_bytes_of (runs (a :: bs)) in
  Z.of_nat (length (encoded_buff p0 ++ pack es)) + 9 + growth p0 < u64_max ->
  (2 <= growth p0 \/ (length es < 8)%nat) ->
  exists p',
    (s <- fold_result scan_step bs {| pk := p0; pixel := a; counter := 1 |} ;;
     scan_finish s) = Ret p'
    /\ encoded_buff p' = encoded_buff p0 ++ pack es
    /\ alloc_size p' = alloc_size p0.
Proof.
  intros Hlen Hh Hroomy es Hmax Hg.
  cbn [length] in Hlen. rewrite Nat2Z.inj_succ in Hlen.
  destruct (scan_steps bs a 1 ltac:(lia) ltac:(lia))
    as [flushed [c' [px' [H1 [H2 H3]]]]].
  rewrite H3.
  assert (es = flat_map run_bytes_of flushed ++ run_bytes c' px') as Hes.
  { unfold es. cbn [runs]. rewrite H1, flat_map_app. cbn [flat_map].
    rewrite app_nil_r. reflexivity. }
  destruct (emit_fold es p0 [] Hh Hroomy Hmax ltac:(simpl; lia))
    as [q [pend' [Hf [Hq [Hrq [Hsq Heq]]]]]].
  rewrite Hes, fold_result_app in Hf.
  destruct (fold_result emit (flat_map run_bytes_of flushed) p0) as [p1|f];
    cbn [bind] in *; [|discriminate].
  unfold scan_finish. cbn [pk pixel counter].
  rewrite appendCounterValue_emits by lia. rewrite Hf. cbn [bind].
  destruct (flush_open_group q pend' Hq Hrq) as [p' [Hfl [Hb Hs]]].
  { assert (growth q = growth p0) as -> by (unfold growth; rewrite Hsq; reflexivity).
    assert (length (encoded_buff q) <= length (encoded_buff p0 ++ pack es))%nat.
    { unfold pack. rewrite <- Heq, length_app. lia. }
    unfold encoded_index. lia. }
  exists p'. split; [exact Hfl|]. split; [|congruence].
  rewrite Hb. unfold pack. exact Heq.
Qed.

Lemma map_nth_seq_tail (l : list Z) (d : Z) :
  map (fun i => nth i l d) (seq 1 (length l - 1)) = tl l.
Proof.
  destruct l as [|a l]; [reflexivity|].
  cbn [length tl]. rewrite Nat.sub_succ, Nat.sub_0_r.
  rewrite <- seq_shift, map_map. cbn [nth].
  clear a. induction l as [|b l IH]; [reflexivity|].
  cbn [length seq map nth]. f_equal.
  rewrite <- seq_shift, map_map. cbn [nth]. exact IH.
Qed.

(** [HorizontalScanning] on a block that is not full returns, and has
    written the groups of the runs of the image after the bytes that
    were there. *)
Lemma HorizontalScanning_refines (buffer : list Z) (p : packer) (width height : Z) :
  buffer <> [] ->
  Z.of_nat (length buffer) = width * height ->
  width * height < u64_max ->
  0 < encoded_alloc p -> 0 <= alloc_size p ->
  encoded_index p <= encoded_alloc p ->
  let es := flat_map run_bytes_of (runs buffer) in
  Z.of_nat (length (encoded_buff p ++ pack es)) + 9 + growth p < u64_max ->
  (2 <= growth p \/ (length es < 8)%nat) ->
  exists p',
    HorizontalScanning buffer p width height = Ret p'
    /\ encoded_buff p' = encoded_buff p ++ pack es
    /\ alloc_size p' = alloc_size p.
Proof.
  intros Hne Hlen Hmax Ha Hs Hi es Hbound Hg. unfold HorizontalScanning.
  rewrite u64_small by (unfold u64_max in Hmax; lia).
  rewrite <- Hlen, Nat2Z.id.
  rewrite (fold_result_map scan_step (fun i => nth i buffer 0)).
  rewrite map_nth_seq_tail.
  destruct buffer as [|a bs]; [contradiction|].
  cbn [nth tl].
  apply (scan_refines (with_group p [] 0) a bs).
  - rewrite Hlen. exact Hmax.
  - apply holds_empty.
  - unfold roomy, encoded_index in *.
    cbn [encoded_buff encoded_alloc alloc_size group_vec length with_group].
    split; [exact Ha|]. split; [exact Hs|]. right. lia.
  - exact Hbound.
  - exact Hg.
Qed.

End RleCompressorFacts.

Section RleCompressorSize.
Import Rle RleCompressor Format Trace Notions.

(** *** Vertical scanning *)

Lemma vertical_fold_rest (buffer : list Z) (width : Z) (l : list (nat * nat)) :
  forall s,
    forallb (fun xy => negb (is_origin xy)) l = true ->
    fold_result (vertical_body buffer width) l s
    = fold_result scan_step
        (map (fun xy => nth (snd xy * Z.to_nat width + fst xy) buffer 0) l) s.
Proof.
  induction l as [|[x y] l IH]; intros s H; [reflexivity|].
  cbn [forallb] in H. apply andb_true_iff in H. destruct H as [H1 H2].
  cbn [fold_result map].
  assert (vertical_body buffer width s (x, y)
          = scan_step s (nth (y * Z.to_nat width + x) buffer 0)) as ->.
  { unfold vertical_body, is_origin in *. cbn [fst snd] in *.
    destruct ((x =? 0)%nat && (y =? 0)%nat); [discriminate|reflexivity]. }
  cbn [fst snd].
  destruct (scan_step s (nth (y * Z.to_nat width + x) buffer 0)) as [s1|f];
    cbn [bind]; [apply IH; exact H2|reflexivity].
Qed.

Lemma vertical_positions_shape (width height : Z) :
  1 <= width -> 1 <= height ->
  exists rest,
    vertical_positions width height = (0%nat, 0%nat) :: rest
    /\ forallb (fun xy => negb (is_origin xy)) rest = true.
Proof.
  intros Hw Hh. unfold vertical_positions.
  destruct (Z.to_nat width) as [|w] eqn:Ew; [lia|].
  destruct (Z.to_nat height) as [|h] eqn:Eh; [lia|].
  set (row := fun x : nat => map (fun y : nat => (x, y)) (seq 0 (S h))).
  change (flat_map row (seq 0 (S w)))
    with (row 0%nat ++ flat_map row (seq 1 w)).
  unfold row at 1.
  change (map (fun y : nat => (0%nat, y)) (seq 0 (S h)))
    with ((0%nat, 0%nat) :: map (fun y : nat => (0%nat, y)) (seq 1 h)).
  rewrite <- app_comm_cons.
  eexists. split; [reflexivity|].
  rewrite forallb_app. apply andb_true_iff. split.
  - apply forallb_forall. intros [x y] Hin.
    apply in_map_iff in Hin. destruct Hin as [y' [Heq Hy]].
    inversion Heq; subst. apply in_seq in Hy.
    unfold is_origin. cbn [fst snd].
    destruct y; [lia|]. reflexivity.
  - apply forallb_forall. intros [x y] Hin.
    apply in_flat_map in Hin. destruct Hin as [x' [Hx Hin]].
    apply in_seq in Hx. unfold row in Hin.
    apply in_map_iff in Hin. destruct Hin as [y' [Heq Hy]].
    inversion Heq; subst.
    unfold is_origin. cbn [fst snd].
    destruct x; [lia|]. reflexivity.
Qed.

Lemma vertical_positions_length (width height : Z) :
  0 <= width -> 0 <= height ->
  Z.of_nat (length (vertical_positions width height)) = width * height.
Proof.
  intros Hw Hh. unfold vertical_positions.
  assert (forall l : list nat,
             length (flat_map (fun x => map (fun y => (x, y))
                                            (seq 0 (Z.to_nat height))) l)
             = (length l * Z.to_nat height)%nat) as Hl.
  { induction l as [|a l IH]; [reflexivity|].
    cbn [flat_map length]. rewrite length_app, length_map, length_seq, IH.
    reflexivity. }
  rewrite Hl, length_seq. lia.
Qed.

Lemma column_major_length (buffer : list Z) (width height : Z) :
  0 <= width -> 0 <= height ->
  Z.of_nat (length (column_major buffer width height)) = width * height.
Proof.
  intros Hw Hh. unfold column_major. rewrite length_map.
  apply vertical_positions_length; assumption.
Qed.

(** [VerticalScanning] on a block that is not full returns, and has
    written the groups of the runs of the image read column by column
    after the bytes that were there. *)
Lemma VerticalScanning_refines (buffer : list Z) (p : packer) (width height : Z) :
  1 <= width -> 1 <= height -> width * height < u64_max ->
  0 < encoded_alloc p -> 0 <= alloc_size p ->
  encoded_index p <= encoded_alloc p ->
  let es := flat_map run_bytes_of (runs (column_major buffer width height)) in
  Z.of_nat (length (encoded_buff p ++ pack es)) + 9 + growth p < u64_max ->
  (2 <= growth p \/ (length es < 8)%nat) ->
  exists p',
    VerticalScanning buffer p width height = Ret p'
    /\ encoded_buff p' = encoded_buff p ++ pack es
    /\ alloc_size p' = alloc_size p.
Proof.
  intros Hw Hh Hmax Ha Hs Hi es Hbound Hg. unfold VerticalScanning.
  change (fun (s : scan) '(x, y) =>
            if (x =? 0)%nat && (y =? 0)%nat
            then Ret {| pk := pk s; pixel := nth 0 buffer 0; counter := counter s |}
            else scan_step s (nth (y * Z.to_nat width + x) buffer 0))
    with (vertical_body buffer width).
  pose proof (column_major_length buffer width height ltac:(lia) ltac:(lia)) as Hlen.
  subst es. unfold column_major in *.
  destruct (vertical_positions_shape width height Hw Hh) as [rest [Hshape Hrest]].
  rewrite Hshape in *. cbn [fold_result map].
  unfold vertical_body at 1. cbn [Nat.eqb andb pk counter bind].
  rewrite (vertical_fold_rest buffer width rest _ Hrest).
  cbn [fst snd Nat.mul Nat.add] in *.
  apply (scan_refines (with_group p [] 0)).
  - cbn [length map] in *. lia.
  - apply holds_empty.
  - unfold roomy, encoded_index in *.
    cbn [encoded_buff encoded_alloc alloc_size group_vec length with_group].
    split; [exact Ha|]. split; [exact Hs|]. right. lia.
  - exact Hbound.
  - exact Hg.
Qed.

(** *** Sizes *)

Lemma pack_from_length (es : list (Z * bool)) :
  forall pend,
    (length pend < 8)%nat ->
    let n := Z.of_nat (length pend + length es) in
    Z.of_nat (length (pack_from pend es)) = n + (n + 7) / 8.
Proof.
  induction es as [|e es IH]; intros pend Hp n; subst n.
  - rewrite Nat.add_0_r. destruct pend as [|a pend]; [reflexivity|].
    cbn [pack_from]. unfold render. cbn [length]. rewrite length_map.
    cbn [length] in *.
    set (k := length pend) in *.
    assert (0 <= Z.of_nat k < 7) as Hk by lia.
    replace ((Z.of_nat (S k) + 7) / 8) with 1.
    + lia.
    + apply Z.div_unique with (r := Z.of_nat (S k) + 7 - 8); lia.
  - rewrite pack_from_cons.
    destruct (length (pend ++ [e]) =? 8)%nat eqn:E.
    + apply Nat.eqb_eq in E.
      rewrite length_app. unfold render at 1. cbn [length].
      rewrite length_map, E.
      specialize (IH [] ltac:(simpl; lia)). cbn [length Nat.add] in IH.
      rewrite length_app in E. cbn [length] in E.
      rewrite Nat2Z.inj_add, IH.
      replace (Z.of_nat (length pend + S (length es)))
        with (Z.of_nat (length es) + 1 * 8) by lia.
      replace (Z.of_nat (length es) + 1 * 8 + 7)
        with (Z.of_nat (length es) + 7 + 1 * 8) by lia.
      rewrite Z.div_add by lia. lia.
    + apply Nat.eqb_neq in E.
      rewrite length_app in E. cbn [length] in E.
      specialize (IH (pend ++ [e]) ltac:(rewrite length_app; simpl; lia)).
      cbn zeta in IH. rewrite IH.
      rewrite length_app. cbn [length].
      replace (length pend + 1 + length es)%nat
        with (length pend + S (length es))%nat by lia.
      reflexivity.
Qed.

Lemma pack_length (es : list (Z * bool)) :
  Z.of_nat (length (pack es))
  = Z.of_nat (length es) + (Z.of_nat (length es) + 7) / 8.
Proof.
  unfold pack. pose proof (pack_from_length es [] ltac:(simpl; lia)) as H.
  cbn [length Nat.add] in H. exact H.
Qed.

Lemma counter_loop_length (fuel : nat) :
  forall m, 0 <= m -> Z.of_nat (length (counter_loop fuel m)) <= m.
Proof.
  induction fuel as [|f IH]; intros m Hm; cbn [counter_loop].
  - simpl. lia.
  - destruct (0 <? m) eqn:E.
    + apply Z.ltb_lt in E. cbn [length]. rewrite Nat2Z.inj_succ.
      rewrite Z.shiftr_div_pow2 by lia. change (2 ^ 8) with 256.
      assert (0 <= m / 256) by (apply Z.div_pos; lia).
      specialize (IH (m / 256) ltac:(lia)).
      assert (m / 256 < m) by (apply Z.div_lt; lia).
      lia.
    + simpl. lia.
Qed.

Lemma run_bytes_length (n v : Z) :
  1 <= n < u64_max -> Z.of_nat (length (run_bytes n v)) <= n.
Proof.
  unfold u64_max. intros Hn. unfold run_bytes.
  destruct (1 <? n) eqn:E.
  - apply Z.ltb_lt in E.
    rewrite length_app, length_map, length_rev. cbn [length].
    unfold counter_values. rewrite length_app.
    rewrite u64_small by lia.
    destruct (n =? 2) eqn:E2.
    + apply Z.eqb_eq in E2. subst n. reflexivity.
    + apply Z.eqb_neq in E2. cbn [length].
      pose proof (counter_loop_length 8 (n - 2) ltac:(lia)). lia.
  - simpl. lia.
Qed.

Lemma runs_from_counts (bs : list Z) :
  forall pixel c,
    1 <= c ->
    total (runs_from pixel c bs) = c + Z.of_nat (length bs)
    /\ Forall (fun nv => 1 <= fst nv <= c + Z.of_nat (length bs))
              (runs_from pixel c bs).
Proof.
  induction bs as [|b bs IH]; intros pixel c Hc; cbn [runs_from length].
  - split; [unfold total; cbn; lia|]. constructor; [cbn; lia|constructor].
  - rewrite Nat2Z.inj_succ. destruct (b =? pixel).
    + destruct (IH pixel (c + 1) ltac:(lia)) as [H1 H2]. split; [lia|].
      eapply Forall_impl; [|exact H2]. cbn. intros a Ha. lia.
    + destruct (IH b 1 ltac:(lia)) as [H1 H2]. split.
      * unfold total in *. cbn [fold_right fst] in *. lia.
      * constructor; [cbn [fst]; lia|].
        eapply Forall_impl; [|exact H2]. cbn beta. intros a Ha. lia.
Qed.

Lemma runs_bytes_length (rs : list (Z * Z)) (bound : Z) :
  bound < u64_max ->
  Forall (fun nv => 1 <= fst nv <= bound) rs ->
  Z.of_nat (length (flat_map run_bytes_of rs)) <= total rs.
Proof.
  intros Hb H. induction H as [|[n v] rs Hn Hrs IH]; [cbn; lia|].
  unfold total in *. cbn [flat_map fold_right fst].
  rewrite length_app, Nat2Z.inj_add.
  unfold run_bytes_of at 1. cbn [fst snd] in *.
  pose proof (run_bytes_length n v ltac:(lia)).
  lia.
Qed.

Lemma runs_payload_bound (pixels : list Z) :
  Z.of_nat (length pixels) < u64_max ->
  Z.of_nat (length (flat_map run_bytes_of (runs pixels)))
  <= Z.of_nat (length pixels).
Proof.
  intros Hlen. destruct pixels as [|a bs]; [cbn; lia|].
  cbn [runs length] in *. rewrite Nat2Z.inj_succ in *.
  destruct (runs_from_counts bs a 1 ltac:(lia)) as [H1 H2].
  pose proof (runs_bytes_length _ (1 + Z.of_nat (length bs)) ltac:(lia) H2).
  lia.
Qed.

Lemma size_loop_length (fuel : nat) :
  forall v, (length (fst (size_loop fuel v)) <= fuel)%nat.
Proof.
  induction fuel as [|f IH]; intros v; cbn [size_loop]; [simpl; lia|].
  destruct (MAX_COUNTER_VAL <? v); [|simpl; lia].
  specialize (IH (Z.shiftr v 8)).
  destruct (size_loop f (Z.shiftr v 8)) as [l last]. cbn [fst length] in *. lia.
Qed.

Lemma size_vec_length (v : Z) : (1 <= length (size_vec v) <= 5)%nat.
Proof.
  unfold size_vec. pose proof (size_loop_length 4 v) as H.
  destruct (size_loop 4 v) as [l last]. cbn [fst] in H.
  rewrite length_app. cbn [length]. lia.
Qed.

Lemma header_bytes_length (settings width height : Z) :
  length (header_bytes settings width height)
  = (1 + length (size_vec (u32 width)) + length (size_vec (u32 height)))%nat.
Proof.
  unfold header_bytes. cbn [length].
  rewrite length_app, !length_rev. lia.
Qed.

Lemma div_ceil_mono (a b : Z) : a <= b -> (a + 7) / 8 <= (b + 7) / 8.
Proof. intros H. apply Z.div_le_mono; lia. Qed.

(** *** The scans on the block of the constructor *)

Lemma size_vec_small (v : Z) : 0 <= v <= 255 -> length (size_vec v) = 1%nat.
Proof.
  intros Hv. unfold size_vec. cbn [size_loop]. unfold MAX_COUNTER_VAL.
  replace (255 <? v) with false by (symmetry; apply Z.ltb_ge; lia).
  reflexivity.
Qed.

(** The block that the constructor asks for holds the header, for an
    image of two pixels or more whose size fits 32 bits with its
    eighth. *)
Lemma init_alloc_size (W H : Z) :
  1 <= W -> 1 <= H -> 2 <= W * H -> W * H + W * H / 8 + 1 < 4294967296 ->
  alloc_size (init W H) = W * H + W * H / 8 + 1
  /\ forall s, Z.of_nat (length (header_bytes s W H)) <= W * H + W * H / 8 + 1.
Proof.
  intros HW HH H2 Hmax.
  assert (0 <= W * H / 8) as Hd by (apply Z.div_pos; lia).
  split.
  - unfold init. cbn [alloc_size]. rewrite (u32_small (W * H)) by lia.
    apply u32_small. lia.
  - intros s. rewrite header_bytes_length.
    assert (W <= W * H) by nia. assert (H <= W * H) by nia.
    rewrite !u32_small by lia.
    pose proof (size_vec_length W) as Lw. pose proof (size_vec_length H) as Lh.
    destruct (Z_le_gt_dec W 255) as [Hw|Hw];
      [destruct (Z_le_gt_dec H 255) as [Hh|Hh]|].
    + rewrite (size_vec_small W), (size_vec_small H) by lia. simpl. lia.
    + assert (32 <= W * H / 8) by (apply Z.div_le_lower_bound; lia). lia.
    + assert (32 <= W * H / 8) by (apply Z.div_le_lower_bound; lia). lia.
Qed.

(** [appendSettingsToBuff] on a compressor without a block: one call of
    [ReallocateBuffer], and the header lands when [alloc_size] is not
    below its length. *)
Lemma appendSettingsToBuff_returns (p : packer) (s W H : Z) :
  encoded_buff p = [] ->
  encoded_alloc p = 0 ->
  Z.of_nat (length (header_bytes s W H)) <= alloc_size p ->
  appendSettingsToBuff p s W H
  = Ret {| encoded_buff := header_bytes s W H; encoded_alloc := alloc_size p;
           alloc_size := alloc_size p; group_vec := group_vec p;
           group := group p |}.
Proof.
  intros Hb Ha Hfit. unfold appendSettingsToBuff. rewrite Ha.
  pose proof (size_vec_length (u32 W)). pose proof (size_vec_length (u32 H)).
  replace (0 <? _) with true by (symmetry; apply Z.ltb_lt; lia).
  rewrite push_all_lands.
  - unfold ReallocateBuffer, with_alloc.
    cbn [encoded_buff encoded_alloc alloc_size group_vec group].
    rewrite Ha, Hb. reflexivity.
  - unfold ReallocateBuffer, with_alloc, encoded_index.
    cbn [encoded_buff encoded_alloc]. rewrite Ha, Hb. cbn [length Z.eqb]. lia.
Qed.

(** The scans return for an image of two pixels or more whose size fits
    32 bits with its eighth, and write the header and the groups of
    the runs. *)
Lemma horizontal_returns (p0 : packer) (x : list Z) (W H : Z) (m : bool) :
  1 <= W -> 1 <= H -> 2 <= W * H -> W * H + W * H / 8 + 1 < 4294967296 ->
  Z.of_nat (length x) = W * H ->
  encoded_buff p0 = [] -> encoded_alloc p0 = 0 ->
  alloc_size p0 = W * H + W * H / 8 + 1 ->
  exists p,
    SequenceScanning p0 x W H m = Ret p
    /\ encoded_buff p = horizontal_stream x W H m
    /\ alloc_size p = alloc_size p0.
Proof.
  intros HW HH H2 Hmax Hlen Hb Ha Hs.
  destruct (init_alloc_size W H HW HH H2 Hmax) as [_ Hhead].
  assert (0 <= W * H / 8) as Hd by (apply Z.div_pos; lia).
  assert (x <> []) as Hne by (intros ->; simpl in Hlen; lia).
  unfold SequenceScanning.
  rewrite appendSettingsToBuff_returns;
    [|exact Hb|exact Ha|rewrite Hs; apply Hhead].
  cbn [bind].
  set (p1 := {| encoded_buff := header_bytes (horizontal_settings m) W H;
                encoded_alloc := alloc_size p0; alloc_size := alloc_size p0;
                group_vec := group_vec p0; group := group p0 |}).
  pose proof (runs_payload_bound x ltac:(unfold u64_max; lia)) as Hp.
  pose proof (Hhead (horizontal_settings m)) as Hh.
  destruct (HorizontalScanning_refines x p1 W H Hne Hlen) as [p [Hr [He Hal]]].
  - unfold u64_max. lia.
  - cbn [encoded_alloc p1]. lia.
  - cbn [alloc_size p1]. lia.
  - unfold encoded_index. cbn [encoded_buff encoded_alloc p1]. lia.
  - unfold growth, u64_max. cbn [encoded_buff alloc_size p1].
    rewrite length_app, Nat2Z.inj_add, pack_length.
    pose proof (div_ceil_mono _ _ Hp).
    assert ((Z.of_nat (length x) + 7) / 8 <= Z.of_nat (length x) + 7)
      by (apply Z.div_le_upper_bound; lia).
    assert (alloc_size p0 / 4 <= alloc_size p0)
      by (apply Z.div_le_upper_bound; lia).
    lia.
  - unfold growth. cbn [alloc_size p1]. rewrite Hs.
    destruct (Z.eq_dec (W * H) 2) as [E|E]; [right; lia|left].
    assert (1 <= (W * H + W * H / 8 + 1) / 4)
      by (apply Z.div_le_lower_bound; lia). lia.
  - exists p. split; [exact Hr|]. split; [exact He|exact Hal].
Qed.

Lemma vertical_returns (p0 : packer) (x : list Z) (W H : Z) (m : bool) :
  1 <= W -> 1 <= H -> 2 <= W * H -> W * H + W * H / 8 + 1 < 4294967296 ->
  encoded_buff p0 = [] -> encoded_alloc p0 = 0 ->
  alloc_size p0 = W * H + W * H / 8 + 1 ->
  exists p,
    (p1 <- appendSettingsToBuff p0 (vertical_settings m) W H ;;
     VerticalScanning x p1 W H) = Ret p
    /\ encoded_buff p = vertical_stream x W H m
    /\ alloc_size p = alloc_size p0.
Proof.
  intros HW HH H2 Hmax Hb Ha Hs.
  destruct (init_alloc_size W H HW HH H2 Hmax) as [_ Hhead].
  assert (0 <= W * H / 8) as Hd by (apply Z.div_pos; lia).
  rewrite appendSettingsToBuff_returns;
    [|exact Hb|exact Ha|rewrite Hs; apply Hhead].
  cbn [bind].
  set (p1 := {| encoded_buff := header_bytes (vertical_settings m) W H;
                encoded_alloc := alloc_size p0; alloc_size := alloc_size p0;
                group_vec := group_vec p0; group := group p0 |}).
  pose proof (column_major_length x W H ltac:(lia) ltac:(lia)) as Hcl.
  pose proof (runs_payload_bound (column_major x W H) ltac:(unfold u64_max; lia))
    as Hp.
  pose proof (Hhead (vertical_settings m)) as Hh.
  destruct (VerticalScanning_refines x p1 W H HW HH) as [p [Hr [He Hal]]].
  - unfold u64_max. lia.
  - cbn [encoded_alloc p1]. lia.
  - cbn [alloc_size p1]. lia.
  - unfold encoded_index. cbn [encoded_buff encoded_alloc p1]. lia.
  - unfold growth, u64_max. cbn [encoded_buff alloc_size p1].
    rewrite length_app, Nat2Z.inj_add, pack_length.
    pose proof (div_ceil_mono _ _ Hp).
    assert ((Z.of_nat (length (column_major x W H)) + 7) / 8
            <= Z.of_nat (length (column_major x W H)) + 7)
      by (apply Z.div_le_upper_bound; lia).
    assert (alloc_size p0 / 4 <= alloc_size p0)
      by (apply Z.div_le_upper_bound; lia).
    lia.
  - unfold growth. cbn [alloc_size p1]. rewrite Hs.
    destruct (Z.eq_dec (W * H) 2) as [E|E]; [right; lia|left].
    assert (1 <= (W * H + W * H / 8 + 1) / 4)
      by (apply Z.div_le_lower_bound; lia). lia.
  - exists p. split; [exact Hr|]. split; [exact He|exact Hal].
Qed.

(** [AdaptiveScanning] returns with the shorter of the two streams, the
    vertical one when they are equally long. *)
Lemma adaptive_returns (x : list Z) (W H : Z) (m : bool) :
  1 <= W -> 1 <= H -> 2 <= W * H -> W * H + W * H / 8 + 1 < 4294967296 ->
  Z.of_nat (length x) = W * H ->
  exists p,
    AdaptiveScanning (init W H) x W H m = Ret p
    /\ encoded_buff p
       = if (length (vertical_stream x W H m)
             <=? length (horizontal_stream x W H m))%nat
         then vertical_stream x W H m else horizontal_stream x W H m.
Proof.
  intros HW HH H2 Hmax Hlen.
  destruct (init_alloc_size W H HW HH H2 Hmax) as [Hs _].
  destruct (horizontal_returns (init W H) x W H m HW HH H2 Hmax Hlen
                               eq_refl eq_refl Hs) as [h [Hh [Hhb Hha]]].
  unfold AdaptiveScanning. unfold SequenceScanning in Hh.
  destruct (appendSettingsToBuff (init W H) (horizontal_settings m) W H)
    as [p1|f]; cbn [bind] in *; [|discriminate].
  rewrite Hh. cbn [bind].
  set (cleared := {| encoded_buff := []; encoded_alloc := 0;
                     alloc_size := alloc_size h;
                     group_vec := group_vec h; group := group h |}).
  destruct (vertical_returns cleared x W H m HW HH H2 Hmax eq_refl eq_refl)
    as [v [Hv [Hvb Hva]]].
  { cbn [alloc_size cleared]. congruence. }
  destruct (appendSettingsToBuff cleared (vertical_settings m) W H) as [p2|f];
    cbn [bind] in *; [|discriminate].
  rewrite Hv. cbn [bind]. unfold encoded_index. rewrite Hvb, Hhb.
  destruct (length (vertical_stream x W H m)
            <=? length (horizontal_stream x W H m))%nat eqn:E.
  - apply Nat.leb_le in E.
    replace (_ <=? _) with true by (symmetry; apply Z.leb_le; lia).
    exists v. split; [reflexivity|exact Hvb].
  - apply Nat.leb_gt in E.
    replace (_ <=? _) with false by (symmetry; apply Z.leb_gt; lia).
    exists h. split; [reflexivity|exact Hhb].
Qed.

(** The size of both streams. *)
Lemma stream_bound (x : list Z) (W H : Z) (m : bool) :
  1 <= W -> 1 <= H -> W * H < u64_max ->
  Z.of_nat (length x) = W * H ->
  let header_size :=
    Z.of_nat (length (header_bytes (horizontal_settings m) W H)) in
  Z.of_nat (length (horizontal_stream x W H m))
  <= W * H + (W * H + 7) / 8 + header_size
  /\ Z.of_nat (length (vertical_stream x W H m))
     <= W * H + (W * H + 7) / 8 + header_size.
Proof.
  intros HW HH Hmax Hlen header_size.
  assert (forall s, Z.of_nat (length (header_bytes s W H)) = header_size)
    as Hhead.
  { intros s. unfold header_size. rewrite !header_bytes_length. reflexivity. }
  unfold horizontal_stream, vertical_stream.
  rewrite !length_app, !Nat2Z.inj_add, !Hhead, !pack_length.
  pose proof (runs_payload_bound x ltac:(lia)) as Hp.
  pose proof (div_ceil_mono _ _ Hp) as Hd. rewrite Hlen in Hp, Hd.
  pose proof (column_major_length x W H ltac:(lia) ltac:(lia)) as Hcl.
  pose proof (runs_payload_bound (column_major x W H) ltac:(lia)) as Hq.
  pose proof (div_ceil_mono _ _ Hq) as Hdq. rewrite Hcl in Hq, Hdq.
  lia.
Qed.



(** The image of one pixel: the first block has two bytes and the
    header has three, so the third byte of the header is written
    behind the block. *)
Lemma one_pixel_leaves_block (v : Z) (m : bool) :
  alloc_size (init 1 1) = 2
  /\ SequenceScanning (init 1 1) [v] 1 1 m = Fault OutOfBounds
  /\ AdaptiveScanning (init 1 1) [v] 1 1 m = Fault OutOfBounds.
Proof. destruct m; repeat split. Qed.

End RleCompressorSize.

Section RleCompressorGroups.
Import Rle RleCompressor Format Trace Notions.

Lemma pack_from_short (es : list (Z * bool)) :
  forall pend,
    (length pend + length es < 8)%nat ->
    pack_from pend es = pack_from (pend ++ es) [].
Proof.
  induction es as [|e es IH]; intros pend Hlen.
  - rewrite app_nil_r. reflexivity.
  - rewrite pack_from_cons. cbn [length] in Hlen.
    replace (length (pend ++ [e]) =? 8)%nat with false
      by (symmetry; apply Nat.eqb_neq; rewrite length_app; simpl; lia).
    rewrite IH by (rewrite length_app; simpl; lia).
    rewrite <- app_assoc. reflexivity.
Qed.

Lemma pack_from_aligned (es1 es2 : list (Z * bool)) :
  forall pend,
    (length pend < 8)%nat ->
    ((length pend + length es1) mod 8 = 0)%nat ->
    pack_from pend (es1 ++ es2) = pack_from pend es1 ++ pack_from [] es2.
Proof.
  induction es1 as [|e es1 IH]; intros pend Hp Hmod.
  - rewrite Nat.add_0_r, Nat.mod_small in Hmod by lia.
    destruct pend; [reflexivity|discriminate].
  - cbn [app]. rewrite !pack_from_cons. cbn [length] in Hmod.
    destruct (length (pend ++ [e]) =? 8)%nat eqn:E.
    + apply Nat.eqb_eq in E. rewrite length_app in E. cbn [length] in E.
      rewrite <- app_assoc. f_equal. apply IH; [simpl; lia|].
      cbn [length Nat.add].
      replace (length pend + S (length es1))%nat
        with (length es1 + 1 * 8)%nat in Hmod by lia.
      rewrite Nat.Div0.mod_add in Hmod. exact Hmod.
    + apply Nat.eqb_neq in E. rewrite length_app in E. cbn [length] in E.
      apply IH.
      * rewrite length_app. simpl. lia.
      * rewrite length_app. cbn [length].
        replace (length pend + 1 + length es1)%nat
          with (length pend + S (length es1))%nat by lia.
        exact Hmod.
Qed.

Lemma group_bits_testbit (cs : list bool) :
  forall i, Z.testbit (group_bits cs) (Z.of_nat i) = nth i cs false.
Proof.
  induction cs as [|c cs IH]; intros i.
  - cbn. rewrite Z.bits_0. destruct i; reflexivity.
  - cbn [group_bits]. change (if c then 1 else 0) with (Z.b2z c).
    destruct i as [|i].
    + cbn [nth Z.of_nat]. rewrite Z.add_comm. apply Z.testbit_0_r.
    + cbn [nth]. rewrite Nat2Z.inj_succ, Z.add_comm.
      rewrite Z.testbit_succ_r by lia. apply IH.
Qed.

(** The bytes of the runs, cut after the last full group. *)
Lemma split_last_group (es : list (Z * bool)) :
  exists front last,
    es = front ++ last
    /\ length front = (8 * (length es / 8))%nat
    /\ length last = (length es mod 8)%nat.
Proof.
  exists (firstn (8 * (length es / 8)) es), (skipn (8 * (length es / 8)) es).
  pose proof (Nat.div_mod_eq (length es) 8) as Hdm.
  split; [symmetry; apply firstn_skipn|].
  split.
  - apply firstn_length_le. lia.
  - rewrite length_skipn. lia.
Qed.

Lemma pack_last_group (header : list Z) (es : list (Z * bool)) :
  last_group_unpadded (header ++ pack es) header es.
Proof.
  split; [reflexivity|].
  intros Hk.
  destruct (split_last_group es) as [front [last [Hes [Hfront Hlast]]]].
  exists front, last.
  assert (pack es = pack front ++ group_bits (map snd last) :: map fst last)
    as Hpack.
  { rewrite Hes at 1. unfold pack.
    rewrite pack_from_aligned.
    - f_equal. rewrite pack_from_short.
      + cbn [app]. destruct last as [|e last]; [|reflexivity].
        cbn [length] in Hlast. lia.
      + cbn [length Nat.add]. rewrite Hlast. apply Nat.mod_upper_bound. lia.
    - simpl. lia.
    - cbn [length Nat.add]. rewrite Hfront, Nat.mul_comm.
      apply Nat.Div0.mod_mul. }
  split; [exact Hes|]. split; [exact Hfront|]. split; [exact Hlast|].
  split; [rewrite Hpack; reflexivity|].
  split; [apply group_bits_testbit|].
  rewrite Hpack, !length_app. cbn [length]. rewrite length_map, Hlast.
  pose proof (pack_length front) as Hpl.
  rewrite Hfront in Hpl.
  replace (Z.of_nat (8 * (length es / 8)) + 7)
    with (7 + Z.of_nat (length es / 8) * 8) in Hpl by lia.
  rewrite Z.div_add in Hpl by lia. change (7 / 8) with 0 in Hpl.
  lia.
Qed.

(** C6, as the code has it: the output of a scan, horizontal or
    vertical, is the header followed by the groups of the runs of the
    image (read row by row, or column by column).  When the payload
    bytes do not fill the last group, that group is the group byte
    followed by the [k < 8] payload bytes that were accepted and by
    nothing else: the padding value 0x00 is not written.  Bit [i] of
    the group byte is 1 exactly when the [i]-th of these payload bytes
    is a counter fragment, so the bits from [k] on are 0.  The adaptive
    scan returns one of the two streams.  The scans return when the
    image has two pixels or more and the size [W * H + W * H / 8 + 1]
    of the first block fits 32 bits. *)
Theorem final_group_not_padded (buffer : list Z) (W H : Z) (model : bool) :
  1 <= W -> 1 <= H ->
  2 <= W * H -> W * H + W * H / 8 + 1 < 4294967296 ->
  Z.of_nat (length buffer) = W * H ->
  let header := header_bytes (horizontal_settings model) W H in
  let vheader := header_bytes (vertical_settings model) W H in
  exists s v a,
    SequenceScanning (init W H) buffer W H model = Ret s
    /\ (p1 <- appendSettingsToBuff (init W H) (vertical_settings model) W H ;;
        VerticalScanning buffer p1 W H) = Ret v
    /\ AdaptiveScanning (init W H) buffer W H model = Ret a
    /\ last_group_unpadded (encoded_buff s) header
                           (flat_map run_bytes_of (runs buffer))
    /\ last_group_unpadded (encoded_buff v) vheader
                           (flat_map run_bytes_of (runs (column_major buffer W H)))
    /\ (encoded_buff a = encoded_buff s \/ encoded_buff a = encoded_buff v).
Proof.
  intros HW HH H2 Hmax Hlen header vheader.
  destruct (init_alloc_size W H HW HH H2 Hmax) as [Hs _].
  destruct (horizontal_returns (init W H) buffer W H model HW HH H2 Hmax Hlen
                               eq_refl eq_refl Hs) as [s [Hr [Hb _]]].
  destruct (vertical_returns (init W H) buffer W H model HW HH H2 Hmax
                             eq_refl eq_refl Hs) as [v [Hv [Hvb _]]].
  destruct (adaptive_returns buffer W H model HW HH H2 Hmax Hlen)
    as [a [Ha Hab]].
  exists s, v, a. split; [exact Hr|]. split; [exact Hv|]. split; [exact Ha|].
  rewrite Hb, Hvb, Hab. unfold horizontal_stream, vertical_stream.
  fold header vheader.
  split; [apply pack_last_group|]. split; [apply pack_last_group|].
  destruct (_ <=? _)%nat; [right|left]; reflexivity.
Qed.

Lemma final_group_not_padded_witness :
  exists s,
    SequenceScanning (init 2 1) [0; 1] 2 1 false = Ret s
    /\ encoded_buff s
       = header_bytes (horizontal_settings false) 2 1
           ++ pack (flat_map run_bytes_of (runs [0; 1])).
Proof.
  destruct (final_group_not_padded [0; 1] 2 1 false)
    as [s [_ [_ [Hs [_ [_ [[Hb _] _]]]]]]];
    [lia | lia | lia | reflexivity | reflexivity |].
  exists s. split; [exact Hs|exact Hb].
Defined.

(** C6 as stated fails on the second scenario of the specification:
    for the image 00 01 of width 2 the compressor writes the header
    80 02 01, the group byte 00 and the two payload bytes 00 01; it
    writes neither a padding literal 00 after them nor the payload
    padded to eight values. *)
Lemma scenario_two_has_no_padding :
  exists s,
    SequenceScanning (init 2 1) [0; 1] 2 1 false = Ret s
    /\ encoded_buff s = [128; 2; 1] ++ [0] ++ [0; 1]
    /\ encoded_buff s <> [128; 2; 1] ++ [0] ++ [0; 1; 0]
    /\ encoded_buff s <> [128; 2; 1] ++ [0] ++ [0; 1; 0; 0; 0; 0; 0; 0].
Proof.
  destruct (SequenceScanning (init 2 1) [0; 1] 2 1 false) as [s|] eqn:E;
    [|vm_compute in E; discriminate].
  exists s. split; [reflexivity|].
  vm_compute in E. inversion E; subst s. cbn [encoded_buff].
  split; [reflexivity|]. split; intros H; discriminate H.
Qed.

End RleCompressorGroups.

(** ** One run: its bytes and what [GetValCount] makes of them *)

Section RunEncoding.
Import Rle RleCompressor RleDecompressor Format Trace Notions.

Lemma be_from_snoc (digits : list Z) (acc d : Z) :
  be_from acc (digits ++ [d]) = be_from acc digits * 256 + d.
Proof. unfold be_from. rewrite fold_left_app. reflexivity. Qed.

Lemma be_from_ge (digits : list Z) :
  forall acc, 0 <= acc -> bytes digits -> acc <= be_from acc digits.
Proof.
  induction digits as [|d ds IH]; intros acc Hacc Hb; cbn.
  - lia.
  - inversion Hb as [|? ? Hd Hds]; subst. unfold is_byte in Hd.
    specialize (IH (acc * 256 + d) ltac:(lia) Hds). unfold be_from in IH. lia.
Qed.

(** The loop of [appendCounterValue] produces the base-256 digits of
    its argument, least significant first, and stops at the most
    significant digit that is not 0. *)
Lemma counter_loop_digits (fuel : nat) :
  forall m,
    0 < m < 256 ^ Z.of_nat fuel ->
    bytes (counter_loop fuel m)
    /\ be_from 0 (rev (counter_loop fuel m)) = m
    /\ exists low top, counter_loop fuel m = low ++ [top] /\ top <> 0.
Proof.
  induction fuel as [|f IH]; intros m Hm.
  - simpl in Hm. lia.
  - rewrite Nat2Z.inj_succ, Z.pow_succ_r in Hm by lia.
    cbn [counter_loop].
    replace (0 <? m) with true by (symmetry; apply Z.ltb_lt; lia).
    unfold MAX_COUNTER_VAL. change 255 with (Z.ones 8).
    rewrite Z.land_ones by lia. rewrite Z.shiftr_div_pow2 by lia.
    change (2 ^ 8) with 256.
    pose proof (Z.mod_pos_bound m 256 ltac:(lia)) as Hmod.
    pose proof (Z.div_mod m 256 ltac:(lia)) as Hdm.
    destruct (Z.eq_dec (m / 256) 0) as [Hz|Hnz].
    + rewrite Hz.
      replace (counter_loop f 0) with (@nil Z) by (destruct f; reflexivity).
      split; [|split].
      * constructor; [exact Hmod|constructor].
      * cbn. lia.
      * exists [], (m mod 256). split; [reflexivity|lia].
    + assert (0 <= m / 256) by (apply Z.div_pos; lia).
      assert (m / 256 < 256 ^ Z.of_nat f)
        by (apply Z.div_lt_upper_bound; lia).
      destruct (IH (m / 256) ltac:(lia)) as [Hb [Hv [low [top [Hl Ht]]]]].
      split; [|split].
      * constructor; assumption.
      * cbn [rev]. rewrite be_from_snoc, Hv. lia.
      * exists (m mod 256 :: low), top. rewrite Hl. split; [reflexivity|exact Ht].
Qed.

Lemma bytes_rev (l : list Z) : bytes l -> bytes (rev l).
Proof. unfold bytes. apply Forall_rev. Qed.

(** The digits of a run of [n >= 3] bytes. *)
Lemma run_bytes_digits (n v : Z) :
  3 <= n < u64_max ->
  exists digits,
    run_bytes n v = map (fun d => (d, true)) digits ++ [(v, false)]
    /\ digits <> [] /\ hd 0 digits <> 0 /\ bytes digits
    /\ be_value digits = n - 2
    /\ (length digits <= 8)%nat.
Proof.
  unfold u64_max. intros Hn. unfold run_bytes.
  replace (1 <? n) with true by (symmetry; apply Z.ltb_lt; lia).
  unfold counter_values.
  replace (n =? 2) with false by (symmetry; apply Z.eqb_neq; lia).
  cbn [app]. rewrite u64_small by lia.
  destruct (counter_loop_digits 8 (n - 2)) as [Hb [Hv [low [top [Hl Ht]]]]].
  { change (256 ^ Z.of_nat 8) with 18446744073709551616. lia. }
  exists (rev (counter_loop 8 (n - 2))).
  split; [reflexivity|].
  split; [rewrite Hl, rev_app_distr; discriminate|].
  split; [rewrite Hl, rev_app_distr; exact Ht|].
  split; [apply bytes_rev; exact Hb|].
  split; [exact Hv|].
  rewrite length_rev.
  assert (forall f m, (length (counter_loop f m) <= f)%nat) as Hlen.
  { induction f as [|f IHf]; intros m; cbn [counter_loop]; [simpl; lia|].
    destruct (0 <? m); [|simpl; lia]. cbn [length].
    specialize (IHf (Z.shiftr m 8)). lia. }
  apply Hlen.
Qed.

Lemma land_bit (g b : Z) :
  0 <= b ->
  (Z.land g (Z.shiftl FIRST_BIT_MASK b) =? 0) = negb (Z.testbit g b).
Proof.
  intros Hb. unfold FIRST_BIT_MASK. rewrite Z.shiftl_1_l.
  destruct (Z.testbit g b) eqn:E; cbn [negb].
  - apply Z.eqb_neq. intros H0.
    assert (Z.testbit (Z.land g (2 ^ b)) b = true) as Hbit.
    { rewrite Z.land_spec, E, Z.pow2_bits_true by lia. reflexivity. }
    rewrite H0, Z.bits_0 in Hbit. discriminate.
  - apply Z.eqb_eq. apply Z.bits_inj'. intros i Hi.
    rewrite Z.land_spec, Z.bits_0.
    destruct (Z.eq_dec i b) as [->|Hne].
    + rewrite E. reflexivity.
    + rewrite Z.pow2_bits_false by lia. apply andb_false_r.
Qed.

Lemma lor_low_byte (acc d : Z) :
  0 <= acc -> is_byte d -> Z.lor (acc * 256) d = acc * 256 + d.
Proof.
  intros Hacc [Hd1 Hd2].
  pose proof (Z.add_lor_land (acc * 256) d) as Hadd.
  assert (Z.land (acc * 256) d = 0) as Hland; [|lia].
  apply Z.bits_inj'. intros i Hi.
  rewrite Z.land_spec, Z.bits_0.
  destruct (Z_lt_dec i 8) as [Hlt|Hge].
  - change 256 with (2 ^ 8). rewrite Z.mul_pow2_bits_low by lia. reflexivity.
  - destruct (Z.eq_dec d 0) as [->|Hd0].
    + rewrite Z.bits_0. apply andb_false_r.
    + rewrite (Z.bits_above_log2 d i); [apply andb_false_r|lia|].
      assert (Z.log2 d < 8) by (apply Z.log2_lt_pow2; simpl; lia). lia.
Qed.

(** The loop over the bits of a group byte, at a run of counter
    fragments [digits] followed by the value [v]: the bits of the
    fragments are 1, the bit of the value is 0. *)
Lemma GetValCount_bits_run (digits : list Z) :
  forall (fuel idx : nat) (bit g acc : Z) (cb : bool) (v : Z) (buffer : list Z),
    (length digits < fuel)%nat ->
    0 <= bit -> bit + Z.of_nat (length digits) < 8 ->
    (forall i, (i < length digits)%nat -> Z.testbit g (bit + Z.of_nat i) = true) ->
    Z.testbit g (bit + Z.of_nat (length digits)) = false ->
    (forall i, (i < length digits)%nat ->
               nth_error buffer (idx + i) = Some (nth i digits 0)) ->
    nth_error buffer (idx + length digits) = Some v ->
    bytes digits -> 0 <= acc ->
    be_from acc digits * 256 < u64_max ->
    GetValCount_bits fuel buffer
      {| index := idx; bit_index := bit; byte := g |} (acc * 256) cb
    = Ret (Found
             (if cb || negb (length digits =? 0)%nat
              then be_from acc digits + 2 else 1)
             v
             {| index := S (idx + length digits);
                bit_index := bit + Z.of_nat (length digits) + 1;
                byte := g |}).
Proof.
  unfold u64_max.
  induction digits as [|d ds IH];
    intros fuel idx bit g acc cb v buffer Hfuel Hbit Hlen Hones Hzero Hds Hv Hb
           Hacc Hmax.
  - cbn [length] in *. rewrite Z.add_0_r in *. rewrite Nat.add_0_r in *.
    destruct fuel as [|f]; [lia|]. cbn [GetValCount_bits bit_index byte index].
    unfold UINT8_T_SIZE.
    replace (bit <? 8) with true by (symmetry; apply Z.ltb_lt; lia).
    rewrite land_bit by lia. rewrite Hzero. cbn [negb].
    unfold read. rewrite Hv. cbn [bind].
    rewrite u8_small by lia. cbn [Nat.eqb negb]. rewrite orb_false_r.
    f_equal. f_equal.
    destruct cb; [|reflexivity].
    cbn [be_from fold_left] in *.
    rewrite Z.shiftr_div_pow2 by lia. change (2 ^ 8) with 256.
    rewrite Z.div_mul by lia. apply u64_small. lia.
  - cbn [length] in *. rewrite Nat2Z.inj_succ in *.
    inversion Hb as [|? ? Hd Hrest]; subst.
    destruct fuel as [|f]; [lia|]. cbn [GetValCount_bits bit_index byte index].
    unfold UINT8_T_SIZE.
    replace (bit <? 8) with true by (symmetry; apply Z.ltb_lt; lia).
    rewrite land_bit by lia.
    pose proof (Hones O ltac:(lia)) as H0. cbn [Z.of_nat] in H0.
    rewrite Z.add_0_r in H0. rewrite H0. cbn [negb].
    pose proof (Hds O ltac:(lia)) as Hd0. rewrite Nat.add_0_r in Hd0.
    cbn [nth] in Hd0. unfold read. rewrite Hd0. cbn [bind].
    rewrite u8_small by lia.
    rewrite lor_low_byte by assumption.
    rewrite Z.shiftl_mul_pow2 by lia. change (2 ^ 8) with 256.
    cbn [be_from fold_left] in Hmax.
    pose proof (be_from_ge ds (acc * 256 + d)
                           ltac:(unfold is_byte in Hd; lia) Hrest) as Hge.
    unfold be_from in Hge.
    rewrite u64_small by (unfold is_byte in Hd; lia).
    rewrite (IH f (S idx) (bit + 1) g (acc * 256 + d) true v buffer).
    + cbn [orb Nat.eqb negb be_from fold_left]. rewrite orb_true_r.
      f_equal. f_equal. f_equal.
      * lia.
      * lia.
    + lia.
    + lia.
    + lia.
    + intros i Hi. specialize (Hones (S i) ltac:(lia)).
      rewrite Nat2Z.inj_succ in Hones.
      replace (bit + 1 + Z.of_nat i) with (bit + Z.succ (Z.of_nat i)) by lia.
      exact Hones.
    + replace (bit + 1 + Z.of_nat (length ds))
        with (bit + Z.succ (Z.of_nat (length ds))) by lia.
      exact Hzero.
    + intros i Hi. specialize (Hds (S i) ltac:(lia)). cbn [nth] in Hds.
      rewrite <- Hds. f_equal. lia.
    + rewrite <- Hv. f_equal. lia.
    + exact Hrest.
    + unfold is_byte in Hd. lia.
    + exact Hmax.
Qed.

End RunEncoding.

Section RunRoundTrip.
Import Rle RleCompressor RleDecompressor Format Trace Notions.

(** The end of a scan whose last run has [n] bytes [v], on a roomy
    block with an empty group. *)
Lemma scan_finish_run (p : packer) (v n : Z) :
  1 <= n ->
  holds p [] ->
  roomy p ->
  Z.of_nat (length (encoded_buff p ++ pack (run_bytes n v))) + 9 + growth p
  < u64_max ->
  (2 <= growth p \/ (length (run_bytes n v) < 8)%nat) ->
  exists p',
    scan_finish {| pk := p; pixel := v; counter := n |} = Ret p'
    /\ encoded_buff p' = encoded_buff p ++ pack (run_bytes n v).
Proof.
  intros Hn Hh Hroomy Hmax Hg. unfold scan_finish. cbn [pk pixel counter].
  rewrite appendCounterValue_emits by exact Hn.
  destruct (emit_fold (run_bytes n v) p [] Hh Hroomy Hmax ltac:(simpl; lia))
    as [q [pend' [Hf [Hq [Hrq [Hsq Heq]]]]]].
  rewrite Hf. cbn [bind].
  destruct (flush_open_group q pend' Hq Hrq) as [p' [Hfl [Hb Hs]]].
  { assert (growth q = growth p) as -> by (unfold growth; rewrite Hsq; reflexivity).
    assert (length (encoded_buff q) <= length (encoded_buff p ++ pack (run_bytes n v)))%nat.
    { unfold pack. rewrite <- Heq, length_app. lia. }
    unfold encoded_index. lia. }
  exists p'. split; [exact Hfl|]. rewrite Hb. exact Heq.
Qed.

Lemma pack_from_one_group (es : list (Z * bool)) :
  forall pend,
    (0 < length pend + length es <= 8)%nat ->
    (length pend < 8)%nat ->
    pack_from pend es = render (pend ++ es).
Proof.
  induction es as [|e es IH]; intros pend Hlen Hp.
  - rewrite app_nil_r. destruct pend; [simpl in Hlen; lia|reflexivity].
  - rewrite pack_from_cons. cbn [length] in Hlen.
    destruct (length (pend ++ [e]) =? 8)%nat eqn:E.
    + apply Nat.eqb_eq in E. rewrite length_app in E. cbn [length] in E.
      destruct es; [|simpl in Hlen; lia].
      cbn [pack_from]. rewrite app_nil_r. reflexivity.
    + apply Nat.eqb_neq in E. rewrite length_app in E. cbn [length] in E.
      rewrite IH.
      * rewrite <- app_assoc. reflexivity.
      * rewrite length_app. simpl. lia.
      * rewrite length_app. simpl. lia.
Qed.

Lemma counter_loop_short (fuel : nat) :
  forall (k : nat) m,
    0 <= m < 256 ^ Z.of_nat k -> (length (counter_loop fuel m) <= k)%nat.
Proof.
  induction fuel as [|f IH]; intros k m Hm; cbn [counter_loop]; [simpl; lia|].
  destruct (0 <? m) eqn:E; [|simpl; lia].
  apply Z.ltb_lt in E. destruct k as [|k]; [simpl in Hm; lia|].
  rewrite Nat2Z.inj_succ, Z.pow_succ_r in Hm by lia.
  cbn [length]. apply le_n_S. apply IH.
  rewrite Z.shiftr_div_pow2 by lia. change (2 ^ 8) with 256.
  split; [apply Z.div_pos; lia|apply Z.div_lt_upper_bound; lia].
Qed.

(** The fragments of a run whose counter fits seven bytes. *)
Lemma run_bytes_fragments (n v : Z) :
  1 <= n -> n - 2 < 2 ^ 56 ->
  exists digits,
    run_bytes n v = map (fun d => (d, true)) digits ++ [(v, false)]
    /\ bytes digits /\ (length digits <= 7)%nat
    /\ (if (length digits =? 0)%nat then 1 else be_from 0 digits + 2) = n.
Proof.
  intros Hn Hmax. change (2 ^ 56) with 72057594037927936 in Hmax.
  destruct (Z.eq_dec n 1) as [->|Hn1].
  { exists []. repeat split; try reflexivity; [constructor|simpl; lia]. }
  destruct (Z.eq_dec n 2) as [->|Hn2].
  { exists [0]. repeat split; try reflexivity.
    - apply bytes_intro. reflexivity.
    - simpl. lia. }
  destruct (run_bytes_digits n v) as [digits [H1 [H2 [H3 [H4 [H5 H6]]]]]].
  { unfold u64_max. lia. }
  exists digits. split; [exact H1|]. split; [exact H4|].
  assert (length digits <= 7)%nat as Hlen.
  { assert (length (map (fun d : Z => (d, true)) digits ++ [(v, false)])
            = S (length digits)) as Hl
        by (rewrite length_app, length_map; simpl; lia).
    rewrite <- H1 in Hl. unfold run_bytes in Hl.
    replace (1 <? n) with true in Hl by (symmetry; apply Z.ltb_lt; lia).
    rewrite length_app, length_map, length_rev in Hl. cbn [length] in Hl.
    unfold counter_values in Hl.
    replace (n =? 2) with false in Hl by (symmetry; apply Z.eqb_neq; lia).
    cbn [app] in Hl. rewrite u64_small in Hl by lia.
    pose proof (counter_loop_short 8 7 (n - 2)) as Hs.
    change (256 ^ Z.of_nat 7) with 72057594037927936 in Hs.
    specialize (Hs ltac:(lia)). lia. }
  split; [exact Hlen|].
  destruct digits as [|d ds]; [contradiction|].
  cbn [length Nat.eqb]. unfold be_value in H5. unfold be_from. lia.
Qed.

Lemma classes_of_fragments (digits : list Z) :
  map snd (map (fun d : Z => (d, true)) digits) = repeat true (length digits).
Proof.
  induction digits as [|d ds IH]; [reflexivity|].
  cbn [map snd length repeat]. rewrite IH. reflexivity.
Qed.

Lemma group_bits_fragments (digits : list Z) (v : Z) :
  let g := group_bits (map snd (map (fun d : Z => (d, true)) digits ++ [(v, false)])) in
  (forall i, (i < length digits)%nat -> Z.testbit g (Z.of_nat i) = true)
  /\ Z.testbit g (Z.of_nat (length digits)) = false.
Proof.
  intros g. subst g.
  rewrite map_app, classes_of_fragments. cbn [map snd].
  split.
  - intros i Hi. rewrite group_bits_testbit.
    rewrite app_nth1 by (rewrite repeat_length; exact Hi).
    rewrite (nth_indep _ false true) by (rewrite repeat_length; exact Hi).
    apply nth_repeat.
  - rewrite group_bits_testbit.
    rewrite app_nth2 by (rewrite repeat_length; lia).
    rewrite repeat_length, Nat.sub_diag. reflexivity.
Qed.

End RunRoundTrip.

(** ** The packed stream, by position *)

Section PackedStream.
Import Rle RleCompressor RleDecompressor Format Trace Notions.

Lemma pack_from_nonempty (es : list (Z * bool)) :
  es <> [] ->
  pack es = render (firstn 8 es) ++ pack (skipn 8 es).
Proof.
  intros Hne. unfold pack.
  destruct (Nat.le_gt_cases 8 (length es)) as [Hlong|Hshort].
  - rewrite <- (firstn_skipn 8 es) at 1.
    rewrite pack_from_aligned.
    + f_equal. apply pack_from_one_group; cbn [length Nat.add].
      * rewrite firstn_length_le by exact Hlong. lia.
      * lia.
    + simpl. lia.
    + cbn [length Nat.add]. rewrite firstn_length_le by exact Hlong. reflexivity.
  - rewrite firstn_all2 by lia. rewrite skipn_all2 by lia.
    cbn [pack_from]. rewrite app_nil_r.
    apply pack_from_one_group; cbn [length Nat.add]; [|lia].
    destruct es; [contradiction|simpl in *; lia].
Qed.

Lemma pack_chunk (es : list (Z * bool)) (j : nat) :
  (8 * j < length es)%nat ->
  pack es = pack (firstn (8 * j) es) ++ render (chunk es j)
              ++ pack (skipn (8 * S j) es)
  /\ length (pack (firstn (8 * j) es)) = (9 * j)%nat.
Proof.
  intros Hj. split.
  - rewrite <- (firstn_skipn (8 * j) es) at 1. unfold pack at 1.
    rewrite pack_from_aligned.
    + f_equal. fold (pack (skipn (8 * j) es)).
      rewrite pack_from_nonempty.
      * unfold chunk. rewrite skipn_skipn.
        replace (8 + 8 * j)%nat with (8 * S j)%nat by lia. reflexivity.
      * intros Hnil. apply (f_equal (@length _)) in Hnil.
        rewrite length_skipn in Hnil. simpl in Hnil. lia.
    + simpl. lia.
    + cbn [length Nat.add]. rewrite firstn_length_le by lia.
      rewrite Nat.mul_comm. apply Nat.Div0.mod_mul.
  - pose proof (pack_length (firstn (8 * j) es)) as Hl.
    rewrite firstn_length_le in Hl by lia.
    replace (Z.of_nat (8 * j) + 7) with (7 + Z.of_nat j * 8) in Hl by lia.
    rewrite Z.div_add in Hl by lia. change (7 / 8) with 0 in Hl. lia.
Qed.

Lemma chunk_entry (es : list (Z * bool)) (j i : nat) :
  (i < 8)%nat -> nth i (chunk es j) (0, false) = entry es (8 * j + i).
Proof.
  intros Hi. unfold chunk, entry.
  destruct (Nat.lt_ge_cases i (length (skipn (8 * j) es))) as [Hin|Hout].
  - rewrite nth_firstn. replace (i <? 8)%nat with true
      by (symmetry; apply Nat.ltb_lt; exact Hi).
    rewrite nth_skipn. reflexivity.
  - rewrite nth_overflow by (rewrite length_firstn; lia).
    rewrite length_skipn in Hout.
    rewrite nth_overflow by lia. reflexivity.
Qed.

Lemma chunk_length (es : list (Z * bool)) (j : nat) :
  length (chunk es j) = Nat.min 8 (length es - 8 * j).
Proof. unfold chunk. rewrite length_firstn, length_skipn. reflexivity. Qed.

(** Bit [i] of a group byte is the class of the payload byte it
    classifies. *)
Lemma group_byte_testbit (es : list (Z * bool)) (j i : nat) :
  (i < 8)%nat ->
  Z.testbit (group_byte es j) (Z.of_nat i) = snd (entry es (8 * j + i)).
Proof.
  intros Hi. unfold group_byte. rewrite group_bits_testbit.
  rewrite <- (chunk_entry es j i Hi).
  change false with (snd (0, false)) at 1. apply map_nth.
Qed.

(** Where the group bytes and the payload bytes are in the stream. *)
Lemma stream_group_byte (out : list Z) (es : list (Z * bool)) (j : nat) :
  (8 * j < length es)%nat ->
  nth_error (out ++ pack es) (length out + 9 * j) = Some (group_byte es j).
Proof.
  intros Hj. destruct (pack_chunk es j Hj) as [Heq Hlen].
  rewrite nth_error_app2 by lia.
  replace (length out + 9 * j - length out)%nat with (9 * j)%nat by lia.
  rewrite Heq, nth_error_app2 by lia.
  rewrite Hlen, Nat.sub_diag. reflexivity.
Qed.

Lemma stream_payload_byte (out : list Z) (es : list (Z * bool)) (k : nat) :
  (k < length es)%nat ->
  nth_error (out ++ pack es) (length out + k + k / 8 + 1)
  = Some (fst (entry es k)).
Proof.
  intros Hk.
  pose proof (Nat.div_mod_eq k 8) as Hdm.
  pose proof (Nat.mod_upper_bound k 8 ltac:(lia)) as Hmod.
  set (j := (k / 8)%nat) in *. set (i := (k mod 8)%nat) in *.
  destruct (pack_chunk es j ltac:(lia)) as [Heq Hlen].
  rewrite nth_error_app2 by lia.
  replace (length out + k + j + 1 - length out)%nat with (9 * j + S i)%nat by lia.
  rewrite Heq, nth_error_app2 by lia.
  rewrite Hlen. replace (9 * j + S i - 9 * j)%nat with (S i) by lia.
  unfold render. cbn [app nth_error].
  assert (i < length (chunk es j))%nat as Hin by (rewrite chunk_length; lia).
  rewrite nth_error_app1 by (rewrite length_map; exact Hin).
  rewrite (nth_error_nth' _ 0) by (rewrite length_map; exact Hin).
  f_equal. change 0 with (fst (0, false)) at 1. rewrite map_nth.
  rewrite chunk_entry by exact Hmod. f_equal. f_equal. lia.
Qed.

Lemma stream_length (out : list Z) (es : list (Z * bool)) :
  length (out ++ pack es)
  = (length out + length es + (length es + 7) / 8)%nat.
Proof.
  rewrite length_app. pose proof (pack_length es) as Hl.
  assert (Z.of_nat ((length es + 7) / 8) = (Z.of_nat (length es) + 7) / 8) as Hd.
  { rewrite Nat2Z.inj_div. f_equal. lia. }
  lia.
Qed.

End PackedStream.

(** ** [GetValCount] on the packed stream *)

Section StreamDecoding.
Import Rle RleCompressor RleDecompressor Format Trace Notions.

(** The fragments of a run, all in the group that is being read: the
    loop over the bits consumes them one by one. *)
Lemma GetValCount_bits_fragments (digits : list Z) :
  forall (fuel idx : nat) (bit g acc : Z) (cb : bool) (buffer : list Z),
    (length digits <= fuel)%nat ->
    0 <= bit -> bit + Z.of_nat (length digits) <= 8 ->
    (forall i, (i < length digits)%nat -> Z.testbit g (bit + Z.of_nat i) = true) ->
    (forall i, (i < length digits)%nat ->
               nth_error buffer (idx + i) = Some (nth i digits 0)) ->
    bytes digits -> 0 <= acc ->
    be_from acc digits * 256 < u64_max ->
    GetValCount_bits fuel buffer
      {| index := idx; bit_index := bit; byte := g |} (acc * 256) cb
    = GetValCount_bits (fuel - length digits) buffer
        {| index := idx + length digits;
           bit_index := bit + Z.of_nat (length digits); byte := g |}
        (be_from acc digits * 256) (cb || negb (length digits =? 0)%nat).
Proof.
  unfold u64_max.
  induction digits as [|d ds IH];
    intros fuel idx bit g acc cb buffer Hfuel Hbit Hlen Hones Hds Hb Hacc Hmax.
  - cbn [length Nat.eqb negb be_from fold_left].
    rewrite Nat.sub_0_r, Nat.add_0_r, Z.add_0_r, orb_false_r. reflexivity.
  - cbn [length] in *. rewrite Nat2Z.inj_succ in *.
    inversion Hb as [|? ? Hd Hrest]; subst.
    destruct fuel as [|f]; [lia|]. cbn [GetValCount_bits bit_index byte index].
    unfold UINT8_T_SIZE.
    replace (bit <? 8) with true by (symmetry; apply Z.ltb_lt; lia).
    rewrite land_bit by lia.
    pose proof (Hones O ltac:(lia)) as H0. cbn [Z.of_nat] in H0.
    rewrite Z.add_0_r in H0. rewrite H0. cbn [negb].
    pose proof (Hds O ltac:(lia)) as Hd0. rewrite Nat.add_0_r in Hd0.
    cbn [nth] in Hd0. unfold read. rewrite Hd0. cbn [bind].
    rewrite u8_small by lia.
    rewrite lor_low_byte by assumption.
    rewrite Z.shiftl_mul_pow2 by lia. change (2 ^ 8) with 256.
    cbn [be_from fold_left] in Hmax.
    pose proof (be_from_ge ds (acc * 256 + d)
                           ltac:(unfold is_byte in Hd; lia) Hrest) as Hge.
    unfold be_from in Hge.
    rewrite u64_small by (unfold is_byte in Hd; lia).
    rewrite (IH f (S idx) (bit + 1) g (acc * 256 + d) true buffer).
    + cbn [orb Nat.eqb negb be_from fold_left Nat.sub]. rewrite orb_true_r.
      f_equal. f_equal; lia.
    + lia.
    + lia.
    + lia.
    + intros i Hi. specialize (Hones (S i) ltac:(lia)).
      rewrite Nat2Z.inj_succ in Hones.
      replace (bit + 1 + Z.of_nat i) with (bit + Z.succ (Z.of_nat i)) by lia.
      exact Hones.
    + intros i Hi. specialize (Hds (S i) ltac:(lia)). cbn [nth] in Hds.
      rewrite <- Hds. f_equal. lia.
    + exact Hrest.
    + unfold is_byte in Hd. lia.
    + exact Hmax.
Qed.

Variable out : list Z.
Variable es : list (Z * bool).

Let buffer : list Z := out ++ pack es.
Let size : nat := length buffer.

Lemma size_at : size = (length out + length es + (length es + 7) / 8)%nat.
Proof. unfold size, buffer. apply stream_length. Qed.

Lemma div8_within (k i : nat) :
  (k mod 8 + i < 8)%nat -> ((k + i) / 8 = k / 8 /\ (k + i) mod 8 = k mod 8 + i)%nat.
Proof.
  intros H. pose proof (Nat.div_mod_eq k 8) as Hk.
  assert (k + i = (k mod 8 + i) + (k / 8) * 8)%nat as Heq by lia.
  rewrite Heq. rewrite Nat.div_add by lia. rewrite Nat.Div0.mod_add.
  rewrite Nat.div_small by lia. rewrite Nat.mod_small by lia. lia.
Qed.

Lemma div8_next (k i : nat) :
  (k mod 8 + i = 8)%nat -> ((k + i) / 8 = k / 8 + 1 /\ (k + i) mod 8 = 0)%nat.
Proof.
  intros H. pose proof (Nat.div_mod_eq k 8) as Hk. split.
  - symmetry. apply (Nat.div_unique _ 8 _ 0); lia.
  - symmetry. apply (Nat.mod_unique _ 8 (k / 8 + 1)); lia.
Qed.

Lemma loaded_bits (r : reader) (k : nat) (digits : list Z) :
  loaded out es r k ->
  (k mod 8 + length digits <= 8)%nat ->
  (k + length digits <= length es)%nat ->
  (forall i, (i < length digits)%nat -> entry es (k + i) = (nth i digits 0, true)) ->
  (forall i, (i < length digits)%nat ->
             Z.testbit (byte r) (bit_index r + Z.of_nat i) = true)
  /\ (forall i, (i < length digits)%nat ->
                nth_error buffer (index r + i) = Some (nth i digits 0)).
Proof.
  intros [Hidx [Hbit Hbyte]] Hroom Hin Hent.
  pose proof (Nat.div_mod_eq k 8) as Hk. split.
  - intros i Hi. rewrite Hbit, Hbyte, <- Nat2Z.inj_add.
    rewrite group_byte_testbit by lia.
    replace (8 * (k / 8) + (k mod 8 + i))%nat with (k + i)%nat by lia.
    rewrite (Hent i Hi). reflexivity.
  - intros i Hi. destruct (div8_within k i ltac:(lia)) as [Hd _].
    rewrite Hidx. unfold buffer.
    replace (length out + k + k / 8 + 1 + i)%nat
      with (length out + (k + i) + (k + i) / 8 + 1)%nat by lia.
    rewrite stream_payload_byte by lia.
    rewrite (Hent i Hi). reflexivity.
Qed.

(** The value of the run is in the group that is being read. *)
Lemma GetValCount_bits_value (r : reader) (k : nat) (digits : list Z) (v acc : Z)
      (cb : bool) :
  loaded out es r k -> run_at es k digits v ->
  (k mod 8 + length digits < 8)%nat ->
  bytes digits -> 0 <= acc -> be_from acc digits * 256 < u64_max ->
  exists r',
    GetValCount_bits 8 buffer r (acc * 256) cb
    = Ret (Found (if cb || negb (length digits =? 0)%nat
                  then be_from acc digits + 2 else 1) v r')
    /\ at_entry out es r' (k + length digits + 1).
Proof.
  intros Hl [Hin [Hent Hval]] Hroom Hb Hacc Hmax.
  destruct (loaded_bits r k digits Hl ltac:(lia) ltac:(lia) Hent) as [Hones Hbytes].
  destruct Hl as [Hidx [Hbit Hbyte]].
  pose proof (Nat.div_mod_eq k 8) as Hk.
  destruct (div8_within k (length digits) Hroom) as [Hd Hm].
  destruct r as [idx bit g]. cbn [index bit_index byte] in *.
  eexists. split.
  - apply GetValCount_bits_run; try assumption; try lia.
    + rewrite Hbit, Hbyte, <- Nat2Z.inj_add.
      rewrite group_byte_testbit by lia.
      replace (8 * (k / 8) + (k mod 8 + length digits))%nat
        with (k + length digits)%nat by lia.
      rewrite Hval. reflexivity.
    + rewrite Hidx. unfold buffer.
      replace (length out + k + k / 8 + 1 + length digits)%nat
        with (length out + (k + length digits) + (k + length digits) / 8 + 1)%nat
        by lia.
      rewrite stream_payload_byte by lia. rewrite Hval. reflexivity.
  - unfold at_entry, loaded. cbn [index bit_index byte].
    destruct (Nat.eq_dec (k mod 8 + length digits) 7) as [Hlast|Hmore].
    + left.
      destruct (div8_next k (length digits + 1) ltac:(lia)) as [Hd1 Hm1].
      rewrite <- Nat.add_assoc, Hd1, Hm1.
      split; [reflexivity|]. split; [lia|]. right. lia.
    + right.
      destruct (div8_within k (length digits + 1) ltac:(lia)) as [Hd1 Hm1].
      rewrite <- Nat.add_assoc, Hd1, Hm1.
      split; [lia|]. split; [lia|]. split; [lia|exact Hbyte].
Qed.

(** The fragments fill the group that is being read; the loop over the
    bits ends with all of them in the counter. *)
Lemma GetValCount_bits_group_end (r : reader) (k : nat) (digits : list Z) (acc : Z)
      (cb : bool) :
  loaded out es r k ->
  (k mod 8 + length digits = 8)%nat ->
  (k + length digits <= length es)%nat ->
  (forall i, (i < length digits)%nat -> entry es (k + i) = (nth i digits 0, true)) ->
  bytes digits -> 0 <= acc -> be_from acc digits * 256 < u64_max ->
  GetValCount_bits 8 buffer r (acc * 256) cb
  = Ret (GroupDone (be_from acc digits * 256) true
           {| index := index r + length digits; bit_index := 8; byte := byte r |}).
Proof.
  intros Hl Hroom Hin Hent Hb Hacc Hmax.
  destruct (loaded_bits r k digits Hl ltac:(lia) Hin Hent) as [Hones Hbytes].
  destruct Hl as [Hidx [Hbit Hbyte]].
  pose proof (Nat.mod_upper_bound k 8 ltac:(lia)) as Hmod.
  destruct r as [idx bit g]. cbn [index bit_index byte] in *.
  rewrite (GetValCount_bits_fragments digits 8 idx bit g acc cb buffer);
    try assumption; try lia.
  replace (bit + Z.of_nat (length digits)) with 8 by lia.
  replace (cb || negb (length digits =? 0)%nat) with true.
  - destruct (8 - length digits)%nat; reflexivity.
  - destruct digits; [cbn [length] in Hroom; lia|]. cbn [length Nat.eqb negb]. rewrite orb_true_r. reflexivity.
Qed.


Lemma index_before_end (k : nat) :
  (k < length es)%nat ->
  (length out + k + k / 8 + 1 < size)%nat.
Proof.
  intros Hk. rewrite size_at.
  assert (k / 8 + 1 <= (length es + 7) / 8)%nat as Hd.
  { replace (k / 8 + 1)%nat with ((k + 1 * 8) / 8)%nat
      by (rewrite Nat.div_add by lia; reflexivity).
    apply Nat.Div0.div_le_mono. lia. }
  lia.
Qed.

(** One call of [GetValCount] for a run whose bytes are all in the
    group of entry [k]. *)
Lemma GetValCount_loop_fits (fuel : nat) (r : reader) (k : nat) (digits : list Z)
      (v acc : Z) (cb : bool) :
  (3 <= fuel)%nat ->
  at_entry out es r k -> run_at es k digits v ->
  (k mod 8 + length digits < 8)%nat ->
  bytes digits -> 0 <= acc -> be_from acc digits * 256 < u64_max ->
  exists r',
    GetValCount_loop fuel buffer size r (acc * 256) cb
    = Ret (Some (if cb || negb (length digits =? 0)%nat
                 then be_from acc digits + 2 else 1, v), r')
    /\ at_entry out es r' (k + length digits + 1).
Proof.
  intros Hfuel Hat Hrun Hroom Hb Hacc Hmax.
  pose proof Hrun as [Hin _].
  pose proof (index_before_end k ltac:(lia)) as Hend.
  assert (forall f r0,
             (1 <= f)%nat ->
             (k mod 8 = 0)%nat ->
             index r0 = (length out + k + k / 8)%nat ->
             bit_index r0 = 0 ->
             exists r',
               GetValCount_loop f buffer size r0 (acc * 256) cb
               = Ret (Some (if cb || negb (length digits =? 0)%nat
                            then be_from acc digits + 2 else 1, v), r')
               /\ at_entry out es r' (k + length digits + 1)) as Hstart.
  { intros f r0 Hf Hmod Hidx Hbit.
    destruct f as [|f]; [lia|]. cbn [GetValCount_loop].
    replace (index r0 <? size)%nat with true
      by (symmetry; apply Nat.ltb_lt; lia).
    rewrite Hbit. cbn [Z.eqb].
    pose proof (Nat.div_mod_eq k 8) as Hk.
    unfold read, buffer. rewrite Hidx.
    replace (length out + k + k / 8)%nat with (length out + 9 * (k / 8))%nat by lia.
    rewrite stream_group_byte by lia. cbn [bind].
    destruct (GetValCount_bits_value
                {| index := S (length out + 9 * (k / 8)); bit_index := 0;
                   byte := group_byte es (k / 8) |}
                k digits v acc cb) as [r' [Hbits Hat']]; try assumption.
    { unfold loaded. cbn [index bit_index byte]. rewrite Hmod.
      split; [lia|]. split; reflexivity. }
    fold buffer. rewrite Hbits. cbn [bind]. exists r'. split; [reflexivity|exact Hat']. }
  destruct Hat as [[Hmod [Hidx [Hbit|Hbit]]]|[Hmod Hl]].
  - apply Hstart; try assumption. lia.
  - destruct fuel as [|f]; [lia|]. cbn [GetValCount_loop].
    replace (index r <? size)%nat with true
      by (symmetry; apply Nat.ltb_lt; lia).
    rewrite Hbit. cbn [Z.eqb bind].
    destruct f as [|f]; [lia|].
    assert (GetValCount_bits 8 buffer r (acc * 256) cb
            = Ret (GroupDone (acc * 256) cb r)) as Hskip.
    { cbn [GetValCount_bits]. rewrite Hbit. reflexivity. }
    rewrite Hskip. cbn [bind].
    apply Hstart; cbn [index bit_index]; try assumption; try lia; reflexivity.
  - destruct fuel as [|f]; [lia|]. cbn [GetValCount_loop].
    pose proof Hl as [Hidx [Hbit Hbyte]].
    replace (index r <? size)%nat with true
      by (symmetry; apply Nat.ltb_lt; lia).
    replace (bit_index r =? 0) with false
      by (symmetry; apply Z.eqb_neq; lia).
    cbn [bind].
    destruct (GetValCount_bits_value r k digits v acc cb) as [r' [Hbits Hat']];
      try assumption.
    rewrite Hbits. cbn [bind]. exists r'. split; [reflexivity|exact Hat'].
Qed.

Lemma be_from_app (a b : list Z) (acc : Z) :
  be_from acc (a ++ b) = be_from (be_from acc a) b.
Proof. unfold be_from. apply fold_left_app. Qed.

(** One call of [GetValCount] at a run of the stream, wherever the run
    starts in its group: the fragments may go on in the next group. *)
Lemma GetValCount_loop_run (fuel : nat) (r : reader) (k : nat) (digits : list Z)
      (v : Z) :
  (4 <= fuel)%nat ->
  at_entry out es r k -> run_at es k digits v ->
  (length digits <= 7)%nat ->
  bytes digits -> be_from 0 digits * 256 < u64_max ->
  exists r',
    GetValCount_loop fuel buffer size r 0 false
    = Ret (Some (if (length digits =? 0)%nat then 1 else be_from 0 digits + 2, v), r')
    /\ at_entry out es r' (k + length digits + 1).
Proof.
  intros Hfuel Hat Hrun Hlen Hb Hmax.
  assert (forall c : Z,
             (if negb (length digits =? 0)%nat then c else 1)
             = (if (length digits =? 0)%nat then 1 else c)) as Hif
      by (intros c; destruct (length digits =? 0)%nat; reflexivity).
  destruct (Nat.lt_ge_cases (k mod 8 + length digits) 8) as [Hfits|Hspan].
  - destruct (GetValCount_loop_fits fuel r k digits v 0 false)
      as [r' [H1 H2]]; try assumption; try lia.
    cbn [orb Z.mul] in H1. rewrite Hif in H1.
    exists r'. split; assumption.
  - destruct Hat as [[Hmod _]|[Hmod Hl]]; [lia|].
    pose proof (Nat.mod_upper_bound k 8 ltac:(lia)) as Hub.
    set (room := (8 - k mod 8)%nat).
    assert (digits = firstn room digits ++ skipn room digits) as Hsplit
        by (symmetry; apply firstn_skipn).
    set (ds1 := firstn room digits) in *. set (ds2 := skipn room digits) in *.
    assert (length ds1 = room) as Hl1
        by (unfold ds1; apply firstn_length_le; unfold room; lia).
    assert (length ds2 = length digits - room)%nat as Hl2
        by (unfold ds2; apply length_skipn).
    destruct Hrun as [Hin [Hent Hval]].
    assert (bytes ds1 /\ bytes ds2) as [Hb1 Hb2].
    { unfold bytes in *. rewrite Hsplit in Hb. apply Forall_app in Hb. exact Hb. }
    assert (be_from 0 digits = be_from (be_from 0 ds1) ds2) as Hbe
        by (rewrite Hsplit at 1; apply be_from_app).
    assert (0 <= be_from 0 ds1) as Hacc1 by (apply (be_from_ge ds1 0); [lia|exact Hb1]).
    pose proof (be_from_ge ds2 (be_from 0 ds1) Hacc1 Hb2) as Hge.
    destruct fuel as [|f]; [lia|]. cbn [GetValCount_loop].
    pose proof Hl as [Hidx [Hbit Hbyte]].
    pose proof (index_before_end k ltac:(lia)) as Hend.
    replace (index r <? size)%nat with true
      by (symmetry; apply Nat.ltb_lt; lia).
    replace (bit_index r =? 0) with false
      by (symmetry; apply Z.eqb_neq; lia).
    cbn [bind]. change 0 with (0 * 256) at 1.
    rewrite (GetValCount_bits_group_end r k ds1 0 false Hl); try assumption.
    2:{ rewrite Hl1. unfold room. lia. }
    2:{ rewrite Hl1. unfold room. lia. }
    2:{ intros i Hi. rewrite (Hent i ltac:(lia)). f_equal.
        unfold ds1. rewrite nth_firstn.
        replace (i <? room)%nat with true
          by (symmetry; apply Nat.ltb_lt; lia). reflexivity. }
    2:{ lia. }
    2:{ unfold u64_max in *. lia. }
    cbn [bind index byte].
    destruct (div8_next k room ltac:(unfold room; lia)) as [Hd Hm].
    assert (at_entry out es {| index := index r + length ds1; bit_index := 0;
                        byte := byte r |} (k + room)) as Hat2.
    { left. cbn [index bit_index]. split; [exact Hm|].
      split; [lia|left; reflexivity]. }
    assert (run_at es (k + room) ds2 v) as Hrun2.
    { split; [lia|]. split.
      - intros i Hi. replace (k + room + i)%nat with (k + (room + i))%nat by lia.
        rewrite (Hent (room + i)%nat ltac:(lia)). f_equal.
        unfold ds2. rewrite nth_skipn. reflexivity.
      - replace (k + room + length ds2)%nat with (k + length digits)%nat by lia.
        exact Hval. }
    assert ((k + room) mod 8 + length ds2 < 8)%nat as Hfit2 by (rewrite Hm; lia).
    assert (be_from (be_from 0 ds1) ds2 * 256 < u64_max) as Hmax2
        by (rewrite <- Hbe; exact Hmax).
    destruct (GetValCount_loop_fits f _ (k + room) ds2 v (be_from 0 ds1) true
                ltac:(lia) Hat2 Hrun2 Hfit2 Hb2 Hacc1 Hmax2)
      as [r' [H1 H2]].
    exists r'. split.
    + rewrite H1. cbn [orb]. rewrite <- Hbe.
      replace (length digits =? 0)%nat with false
        by (symmetry; apply Nat.eqb_neq; unfold room in *; lia).
      reflexivity.
    + replace (k + length digits + 1)%nat with (k + room + length ds2 + 1)%nat
        by lia.
      exact H2.
Qed.

(** After the last entry the stream is used up. *)
Lemma GetValCount_at_end (r : reader) :
  at_entry out es r (length es) -> GetValCount buffer size r = Ret (None, r).
Proof.
  intros Hat. unfold GetValCount. rewrite Nat.add_comm. cbn [Nat.add GetValCount_loop].
  replace (index r <? size)%nat with false; [reflexivity|].
  symmetry. apply Nat.ltb_ge. rewrite size_at.
  pose proof (Nat.div_mod_eq (length es) 8) as Hk.
  destruct Hat as [[Hmod [Hidx _]]|[Hmod [Hidx _]]]; rewrite Hidx.
  - assert ((length es + 7) / 8 = length es / 8)%nat as Hd; [|lia].
    symmetry. apply (Nat.div_unique _ 8 _ 7); lia.
  - pose proof (Nat.mod_upper_bound (length es) 8 ltac:(lia)).
    assert ((length es + 7) / 8 = length es / 8 + 1)%nat as Hd; [|lia].
    symmetry. apply (Nat.div_unique _ 8 _ (length es mod 8 - 1)); lia.
Qed.

(** The runs [rs] whose bytes follow the entries [es1] are what
    [GetValCount] returns, call after call. *)
Lemma all_pairs_runs (rs : list (Z * Z)) :
  forall (es1 : list (Z * bool)) (fuel : nat) (r : reader),
    es = es1 ++ flat_map run_bytes_of rs ->
    at_entry out es r (length es1) ->
    Forall (fun nv => 1 <= fst nv /\ fst nv - 2 < 2 ^ 56) rs ->
    (length rs < fuel)%nat ->
    all_pairs fuel buffer size r = Ret rs.
Proof.
  induction rs as [|[n v] rs IH]; intros es1 fuel r Hes Hat Hrs Hfuel.
  - cbn [flat_map] in Hes. rewrite app_nil_r in Hes. subst es1.
    destruct fuel as [|f]; [simpl in Hfuel; lia|]. cbn [all_pairs].
    rewrite (GetValCount_at_end r Hat). reflexivity.
  - pose proof (Forall_inv Hrs) as [Hn Hmax].
    pose proof (Forall_inv_tail Hrs) as Hrest. cbn [fst] in Hn, Hmax.
    destruct (run_bytes_fragments n v Hn Hmax) as [digits [Hrun [Hb [Hlen Hval]]]].
    cbn [flat_map] in Hes. unfold run_bytes_of at 1 in Hes. cbn [fst snd] in Hes.
    rewrite Hrun in Hes.
    assert (run_at es (length es1) digits v) as Hr.
    { unfold run_at, entry. rewrite Hes. split; [|split].
      - rewrite !length_app, length_map. cbn [length]. lia.
      - intros i Hi. rewrite app_nth2 by lia.
        replace (length es1 + i - length es1)%nat with i by lia.
        rewrite <- app_assoc. rewrite app_nth1 by (rewrite length_map; exact Hi).
        rewrite (nth_indep _ (0, false) (0, true))
          by (rewrite length_map; exact Hi).
        exact (map_nth (fun d : Z => (d, true)) digits 0 i).
      - rewrite app_nth2 by lia.
        replace (length es1 + length digits - length es1)%nat
          with (length digits) by lia.
        rewrite <- app_assoc. rewrite app_nth2 by (rewrite length_map; lia).
        rewrite length_map, Nat.sub_diag. reflexivity. }
    assert (be_from 0 digits * 256 < u64_max) as Hbound.
    { unfold u64_max. change (2 ^ 56) with 72057594037927936 in Hmax.
      destruct digits as [|d ds]; [cbn; lia|].
      cbn [length Nat.eqb] in Hval. lia. }
    assert (2 <= size)%nat as Hsize.
    { rewrite size_at. destruct Hr as [Hin _].
      assert (1 <= (length es + 7) / 8)%nat; [|lia].
      apply Nat.div_le_lower_bound; lia. }
    destruct fuel as [|f]; [lia|]. cbn [all_pairs].
    unfold GetValCount.
    destruct (GetValCount_loop_run (size + 2) r (length es1) digits v
                ltac:(lia) Hat Hr Hlen Hb Hbound) as [r' [Hg Hat']].
    rewrite Hg, Hval. cbn [bind].
    rewrite (IH (es1 ++ map (fun d : Z => (d, true)) digits ++ [(v, false)]) f r').
    + reflexivity.
    + rewrite Hes, <- !app_assoc. reflexivity.
    + rewrite !length_app, length_map. cbn [length].
      replace (length es1 + (length digits + 1))%nat
        with (length es1 + length digits + 1)%nat by lia.
      exact Hat'.
    + exact Hrest.
    + cbn [length] in Hfuel. lia.
Qed.

End StreamDecoding.

Section StreamPairs.
Import Rle RleCompressor RleDecompressor Format Trace Notions.

Lemma runs_bytes_nonempty (rs : list (Z * Z)) :
  (length rs <= length (flat_map run_bytes_of rs))%nat.
Proof.
  induction rs as [|[n v] rs IH]; [simpl; lia|].
  cbn [flat_map length]. rewrite length_app.
  assert (1 <= length (run_bytes_of (n, v)))%nat; [|lia].
  unfold run_bytes_of, run_bytes. cbn [fst snd].
  destruct (1 <? n); [rewrite length_app|]; simpl; lia.
Qed.

(** The stream that a scan writes for the pixels [pixels] holds the
    runs of [pixels]: [GetValCount], called until it returns false,
    returns them in order. *)
Lemma stream_pairs (out pixels : list Z) :
  Z.of_nat (length pixels) < 2 ^ 56 ->
  let stream := out ++ pack (flat_map run_bytes_of (runs pixels)) in
  all_pairs (S (length stream)) stream (length stream)
            {| index := length out; bit_index := 0; byte := 0 |}
  = Ret (runs pixels).
Proof.
  intros Hlen stream.
  apply (all_pairs_runs out (flat_map run_bytes_of (runs pixels)) (runs pixels) []).
  - reflexivity.
  - left. cbn [length index bit_index]. split; [reflexivity|].
    split; [simpl; lia|left; reflexivity].
  - destruct pixels as [|a bs]; [constructor|].
    cbn [runs length] in *. rewrite Nat2Z.inj_succ in Hlen.
    destruct (runs_from_counts bs a 1 ltac:(lia)) as [_ H].
    eapply Forall_impl; [|exact H]. cbn beta. intros nv Hnv. lia.
  - pose proof (runs_bytes_nonempty (runs pixels)) as H1.
    unfold stream. rewrite stream_length. lia.
Qed.

Lemma repeat_snoc {A : Type} (a : A) (n : nat) :
  repeat a n ++ [a] = a :: repeat a n.
Proof. induction n as [|n IH]; [reflexivity|]. cbn. rewrite IH. reflexivity. Qed.

Lemma expand_runs_from (bs : list Z) :
  forall pixel c,
    0 <= c -> expand (runs_from pixel c bs) = repeat pixel (Z.to_nat c) ++ bs.
Proof.
  induction bs as [|b bs IH]; intros pixel c Hc; cbn [runs_from].
  - unfold expand. cbn. reflexivity.
  - destruct (b =? pixel) eqn:E.
    + apply Z.eqb_eq in E. subst b. rewrite IH by lia.
      replace (Z.to_nat (c + 1)) with (S (Z.to_nat c)) by lia.
      cbn [repeat]. rewrite <- repeat_snoc, <- app_assoc. reflexivity.
    + unfold expand in *. cbn [flat_map fst snd]. f_equal.
      rewrite IH by lia. reflexivity.
Qed.

(** The runs of a pixel sequence stand for the sequence. *)
Lemma expand_runs (pixels : list Z) : expand (runs pixels) = pixels.
Proof.
  destruct pixels as [|a bs]; [reflexivity|].
  cbn [runs]. rewrite expand_runs_from by lia. reflexivity.
Qed.

Lemma total_runs (pixels : list Z) : total (runs pixels) = Z.of_nat (length pixels).
Proof.
  destruct pixels as [|a bs]; [reflexivity|].
  cbn [runs length]. destruct (runs_from_counts bs a 1 ltac:(lia)) as [H _].
  rewrite H. lia.
Qed.

End StreamPairs.

(** ** The run encoding and its inverse *)

Section RunEncodingClaim.
Import Rle RleCompressor RleDecompressor Format Trace Notions.

(** C4: the run encoding and its inverse.  For a run of [n] bytes [v]
    ([1 <= n < 2^64]) the calls of [appendToBuff] that
    [appendCounterValue] makes are: for [n = 1] the byte [v] as a
    value; for [n = 2] the counter byte 0x00, then [v]; for [n >= 3]
    the big-endian base-256 digits of [n - 2], without a leading zero
    digit, as counters, then [v].  [GetValCount] inverts this, with
    count 1 when there is no counter fragment and the accumulated
    counter + 2 otherwise, when [n - 2 < 2^56], that is, when the
    counter has at most seven fragments (a longer run does not fit the
    memory that holds the image): on the stream that the compressor
    writes for the run after the bytes it has written, where its block
    has room, [GetValCount] returns [(n, v)] and has consumed the
    stream; and wherever the run stands among other such runs, so that
    its bytes start anywhere in a group and may go on in the next one,
    the calls of [GetValCount] return the runs of the stream one after
    the other. *)
Theorem run_encoding (p : packer) (v n : Z) :
  1 <= n < 18446744073709551616 ->
  appendCounterValue p v n
  = (p' <- fold_result emit (run_bytes n v) p ;; Ret (p', 1))
  /\ (n = 1 -> run_bytes n v = [(v, false)])
  /\ (n = 2 -> run_bytes n v = [(0, true); (v, false)])
  /\ (3 <= n ->
      exists digits,
        run_bytes n v = map (fun d => (d, true)) digits ++ [(v, false)]
        /\ digits <> [] /\ hd 0 digits <> 0 /\ bytes digits
        /\ be_value digits = n - 2)
  /\ (n - 2 < 2 ^ 56 ->
      let out := encoded_buff p in
      let stream := out ++ pack (run_bytes n v) in
      (holds p [] -> roomy p -> 2 <= growth p ->
       encoded_index p + growth p < 2 ^ 63 ->
       exists p',
         scan_finish {| pk := p; pixel := v; counter := n |} = Ret p'
         /\ encoded_buff p' = stream)
      /\ exists r,
          GetValCount stream (length stream)
                      {| index := length out; bit_index := 0; byte := 0 |}
          = Ret (Some (n, v), r)
          /\ index r = length stream)
  /\ (n - 2 < 2 ^ 56 ->
      forall (out : list Z) (before after : list (Z * Z)),
        Forall (fun nv => 1 <= fst nv /\ fst nv - 2 < 2 ^ 56) (before ++ after) ->
        let rs := before ++ (n, v) :: after in
        let stream := out ++ pack (flat_map run_bytes_of rs) in
        all_pairs (S (length stream)) stream (length stream)
                  {| index := length out; bit_index := 0; byte := 0 |}
        = Ret rs).
Proof.
  intros Hn.
  split; [apply appendCounterValue_emits; lia|].
  split; [intros ->; reflexivity|].
  split; [intros ->; reflexivity|].
  split.
  { intros H3. destruct (run_bytes_digits n v) as [ds [H1 [H2 [H4 [H5 [H6 _]]]]]].
    - unfold u64_max. lia.
    - exists ds. repeat split; assumption. }
  split; cycle 1.
  { intros Hmax out before after Hsmall rs stream.
    apply (all_pairs_runs out (flat_map run_bytes_of rs) rs []).
    - reflexivity.
    - left. cbn [length index bit_index]. split; [reflexivity|].
      split; [simpl; lia|left; reflexivity].
    - apply Forall_app in Hsmall. destruct Hsmall as [Hb Ha].
      apply Forall_app. split; [exact Hb|].
      constructor; [cbn [fst]; lia|exact Ha].
    - pose proof (runs_bytes_nonempty rs) as H1.
      unfold stream. rewrite stream_length. lia. }
  intros Hmax out stream.
  assert (stream = out ++ pack (run_bytes n v)) as Hstream by reflexivity.
  destruct (run_bytes_fragments n v ltac:(lia) Hmax)
    as [digits [Hrun [Hb [Hlen Hval]]]].
  split.
  { intros Hh Hroomy Hg Hroom.
    apply scan_finish_run; try assumption; [lia| |left; exact Hg].
    fold out. rewrite length_app, Nat2Z.inj_add, pack_length.
    assert (Z.of_nat (length (run_bytes n v)) <= 8) as Hl8.
    { rewrite Hrun, length_app, length_map. cbn [length]. lia. }
    assert ((Z.of_nat (length (run_bytes n v)) + 7) / 8 < 2)
      by (apply Z.div_lt_upper_bound; lia).
    unfold u64_max, encoded_index in *. fold out in Hroom.
    change (2 ^ 63) with 9223372036854775808 in Hroom. lia. }
  set (g := group_bits (map snd (map (fun d : Z => (d, true)) digits
                                     ++ [(v, false)]))).
  assert (stream = out ++ g :: digits ++ [v]) as Hbytes.
  { rewrite Hstream, Hrun. f_equal. unfold pack.
    rewrite pack_from_one_group.
    - cbn [app]. unfold render. fold g.
      rewrite map_app, map_map. cbn [map fst]. rewrite map_id. reflexivity.
    - cbn [length Nat.add]. rewrite length_app, length_map. simpl. lia.
    - simpl. lia. }
  destruct (group_bits_fragments digits v) as [Hones Hzero]. fold g in Hones, Hzero.
  assert (length stream = (length out + S (S (length digits)))%nat) as Hsize.
  { rewrite Hbytes, length_app. cbn [length]. rewrite length_app. simpl. lia. }
  eexists. split.
  - unfold GetValCount. rewrite Nat.add_comm. cbn [Nat.add GetValCount_loop].
    cbn [index bit_index byte].
    replace (length out <? length stream)%nat with true
      by (symmetry; apply Nat.ltb_lt; lia).
    cbn [Z.eqb]. unfold read at 1.
    replace (nth_error stream (length out)) with (Some g)
      by (rewrite Hbytes, nth_error_app2, Nat.sub_diag by lia; reflexivity).
    cbn [bind].
    change 0 with (0 * 256) at 2.
    rewrite (GetValCount_bits_run digits 8 (S (length out)) 0 g 0 false v stream).
    + cbn [bind orb].
      replace (if negb (length digits =? 0)%nat then be_from 0 digits + 2 else 1)
        with n by (rewrite <- Hval; destruct (length digits =? 0)%nat; reflexivity).
      reflexivity.
    + lia.
    + lia.
    + lia.
    + intros i Hi. cbn [Z.add]. apply Hones. exact Hi.
    + cbn [Z.add]. exact Hzero.
    + intros i Hi. rewrite Hbytes.
      rewrite nth_error_app2 by lia.
      replace (S (length out) + i - length out)%nat with (S i) by lia.
      cbn [nth_error]. rewrite nth_error_app1 by exact Hi.
      apply nth_error_nth'. exact Hi.
    + rewrite Hbytes. rewrite nth_error_app2 by lia.
      replace (S (length out) + length digits - length out)%nat
        with (S (length digits)) by lia.
      cbn [nth_error]. rewrite nth_error_app2 by lia.
      rewrite Nat.sub_diag. reflexivity.
    + exact Hb.
    + lia.
    + unfold u64_max.
      assert (be_from 0 digits < 2 ^ 56) as Hlt.
      { destruct digits as [|d ds]; [cbn; lia|].
        cbn [length Nat.eqb] in Hval. lia. }
      change (2 ^ 56) with 72057594037927936 in Hlt. lia.
  - cbn [index]. lia.
Qed.

Lemma run_encoding_witness :
  exists p' r,
    scan_finish
      {| pk := {| encoded_buff := [128; 10; 1]; encoded_alloc := 12;
                  alloc_size := 12; group_vec := []; group := 0 |};
         pixel := 65; counter := 10 |} = Ret p'
    /\ GetValCount (encoded_buff p') (length (encoded_buff p'))
                   {| index := 3; bit_index := 0; byte := 0 |}
       = Ret (Some (10, 65), r).
Proof.
  destruct (run_encoding
              {| encoded_buff := [128; 10; 1]; encoded_alloc := 12;
                 alloc_size := 12; group_vec := []; group := 0 |}
              65 10 ltac:(lia)) as [_ [_ [_ [_ [H _]]]]].
  destruct (H ltac:(lia)) as [Hs [r [Hr _]]].
  destruct Hs as [p' [Hp' Hb]].
  - repeat split. simpl. lia.
  - unfold roomy, growth, encoded_index. simpl. lia.
  - unfold growth. simpl. lia.
  - unfold growth, encoded_index. simpl. lia.
  - exists p', r. split; [exact Hp'|]. rewrite Hb. exact Hr.
Defined.

(** The limit of [n - 2 < 2^56]: for the run of [2^56 + 2] bytes 07,
    the shortest whose counter [n - 2] has eight fragments, the calls
    are the fragments 01 00 00 00 00 00 00 00 as counters and then the
    value 07, and the stream is FF 01 00 00 00 00 00 00 00, then 00 07.
    [GetValCount] shifts the first fragment out of its 64-bit
    accumulator and returns the count 2 instead of [2^56 + 2].  The run
    of [2^56 + 1] bytes, with seven fragments, is returned as it was
    written.  On a frame of a 10 by 1 image made of the long stream,
    [Decompress] writes two pixels and fails; with the stream of
    [2^56 + 1] bytes it fills the image. *)
Lemma long_run_not_inverted :
  run_bytes 72057594037927938 7
  = map (fun d => (d, true)) [1; 0; 0; 0; 0; 0; 0; 0] ++ [(7, false)]
  /\ be_value [1; 0; 0; 0; 0; 0; 0; 0] = 72057594037927938 - 2
  /\ pack (run_bytes 72057594037927938 7)
     = [255; 1; 0; 0; 0; 0; 0; 0; 0; 0; 7]
  /\ GetValCount [255; 1; 0; 0; 0; 0; 0; 0; 0; 0; 7] 11
                 {| index := 0; bit_index := 0; byte := 0 |}
     = Ret (Some (2, 7), {| index := 11; bit_index := 1; byte := 0 |})
  /\ pack (run_bytes 72057594037927937 7)
     = [127; 255; 255; 255; 255; 255; 255; 255; 7]
  /\ GetValCount [127; 255; 255; 255; 255; 255; 255; 255; 7] 9
                 {| index := 0; bit_index := 0; byte := 0 |}
     = Ret (Some (72057594037927937, 7),
            {| index := 9; bit_index := 8; byte := 127 |})
  /\ Decompress [128; 10; 1; 255; 1; 0; 0; 0; 0; 0; 0; 0; 0; 7] 14
     = Ret {| ok := false; convert_from_model := false; out_size := 2;
              out := [7; 7] |}
  /\ Decompress [128; 10; 1; 127; 255; 255; 255; 255; 255; 255; 255; 7] 12
     = Ret {| ok := true; convert_from_model := false; out_size := 10;
              out := [7; 7; 7; 7; 7; 7; 7; 7; 7; 7] |}.
Proof. repeat split; vm_compute; reflexivity. Qed.

End RunEncodingClaim.

(** ** The RLE decompressor *)

Section RleDecompressorFacts.
Import Rle RleDecompressor Format Trace Notions.

(** C5 at the frame 80 05 of two bytes: its settings byte declares
    [K_w = 1] width byte and [K_h = 1] height byte, so the header has
    three bytes and the frame is too short to hold it.  [GetSize]
    compares the size with [K_w + K_h = 2], without the settings byte,
    lets the frame pass and reads the height from the byte behind it.
    The program gets there without leaving a block: the file
    0F 01 40 01 is Huffman code for the two bytes 80 05, which the
    decoder writes to a block of 512 bytes that it has cleared; the
    height byte is read as 00, the image has no pixel, and
    [Decompress] returns true with an empty output instead of
    failing. *)
Theorem short_header_accepted :
  count_w 128 = 1
  /\ count_h 128 = 1
  /\ GetSize [128; 5; 0] 2 = Ret (Some (5, 0, 3%nat))
  /\ Decompress [128; 5; 0] 2
     = Ret {| ok := true; convert_from_model := false; out_size := 0;
              out := [] |}
  /\ (exists d,
        HuffmanDecoder.Decode [15; 1; 64; 1] 4 = Ret (true, d)
        /\ HuffmanDecoder.GetSize d = 2
        /\ length (HuffmanDecoder.buffer d) = 512%nat
        /\ firstn 3 (HuffmanDecoder.buffer d) = [128; 5; 0])
  /\ Main.decompress [15; 1; 64; 1] = Ret (Some []).
Proof.
  split; [reflexivity|]. split; [reflexivity|].
  split; [vm_compute; reflexivity|]. split; [vm_compute; reflexivity|].
  split; [|vm_compute; reflexivity].
  destruct (HuffmanDecoder.Decode [15; 1; 64; 1] 4) as [[b d]|] eqn:E;
    [|vm_compute in E; discriminate].
  vm_compute in E. inversion E; subst b d.
  eexists. split; [reflexivity|]. repeat split.
Qed.

(** What the test of [GetSize] does reject: when the buffer has fewer
    bytes than the [K_w] width bytes and [K_h] height bytes that its
    settings byte declares ([size < K_w + K_h]), [Decompress] returns
    false with an empty output; so for [K_w = 8], [K_h = 8] and a
    buffer of fewer than 16 bytes. *)
Lemma short_header_fails (buffer : list Z) (size : nat) (settings : Z) :
  size <> O ->
  read buffer 0 = Ret settings ->
  let failure :=
    Ret {| ok := false;
           convert_from_model := negb (Z.land settings MODEL_MASK =? 0);
           out_size := 0; out := [] |} in
  (Z.of_nat size < count_w settings + count_h settings ->
   Decompress buffer size = failure)
  /\ (count_w settings = 8 -> count_h settings = 8 -> Z.of_nat size < 16 ->
      Decompress buffer size = failure).
Proof.
  intros Hsize Hread failure.
  assert (Z.of_nat size < count_w settings + count_h settings ->
          Decompress buffer size = failure) as Hmain.
  { intros Hshort. unfold Decompress.
    replace (size =? 0)%nat with false
      by (symmetry; apply Nat.eqb_neq; exact Hsize).
    rewrite Hread. cbn [bind].
    unfold GetSize. rewrite Hread. cbn [bind].
    replace (Z.of_nat size <? count_h settings + count_w settings) with true
      by (symmetry; apply Z.ltb_lt; lia).
    reflexivity. }
  split; [exact Hmain|].
  intros Hw Hh Hlt. apply Hmain. lia.
Qed.

Lemma short_header_fails_witness :
  Decompress [191; 0; 0; 0; 0; 0; 0; 0; 1; 0; 0; 0; 0; 0; 0] 15
  = Ret {| ok := false; convert_from_model := false; out_size := 0; out := [] |}.
Proof.
  destruct (short_header_fails
              [191; 0; 0; 0; 0; 0; 0; 0; 1; 0; 0; 0; 0; 0; 0] 15 191)
    as [_ H].
  - discriminate.
  - reflexivity.
  - apply H.
    + reflexivity.
    + reflexivity.
    + vm_compute. reflexivity.
Defined.

(** A buffer with [K_w = 8] and fewer than 17 bytes need not be too
    short: the settings byte B8 declares [K_w = 8] and [K_h = 1]; the
    buffer below has 12 bytes, holds the whole header (width 1, height
    1) and one group, and [Decompress] returns true with the pixel
    05. *)
Lemma eight_width_bytes_decoded :
  count_w 184 = 8
  /\ count_h 184 = 1
  /\ Decompress [184; 0; 0; 0; 0; 0; 0; 0; 1; 1; 0; 5] 12
     = Ret {| ok := true; convert_from_model := false;
              out_size := 1; out := [5] |}.
Proof. repeat split. Qed.

(** *** Horizontal reconstruction *)

Lemma GetValCount_bits_range (fuel : nat) :
  forall buffer r count cb c v r1,
    0 <= count < u64_max ->
    GetValCount_bits fuel buffer r count cb = Ret (Found c v r1) ->
    1 <= c < 2 ^ 57.
Proof.
  unfold u64_max. change (2 ^ 57) with 144115188075855872.
  induction fuel as [|f IH]; intros buffer r count cb c v r1 Hc H;
    cbn [GetValCount_bits] in H.
  - destruct (bit_index r <? UINT8_T_SIZE); discriminate.
  - destruct (bit_index r <? UINT8_T_SIZE); [|discriminate].
    destruct (negb _).
    + destruct (read buffer (index r)) as [b|]; cbn [bind] in H; [|discriminate].
      apply IH in H; [exact H|]. apply u64_range.
    + destruct (read buffer (index r)) as [b|]; cbn [bind] in H; [|discriminate].
      inversion H; subst. destruct cb; [|lia].
      unfold UINT8_T_SIZE.
      rewrite Z.shiftr_div_pow2 by lia. change (2 ^ 8) with 256.
      assert (0 <= count / 256) by (apply Z.div_pos; lia).
      assert (count / 256 < 72057594037927936)
        by (apply Z.div_lt_upper_bound; lia).
      rewrite u64_small by lia. lia.
Qed.

Lemma GetValCount_bits_count (fuel : nat) :
  forall buffer r count cb c cb1 r1,
    0 <= count < u64_max ->
    GetValCount_bits fuel buffer r count cb = Ret (GroupDone c cb1 r1) ->
    0 <= c < u64_max.
Proof.
  induction fuel as [|f IH]; intros buffer r count cb c cb1 r1 Hc H;
    cbn [GetValCount_bits] in H.
  - destruct (bit_index r <? UINT8_T_SIZE); [discriminate|].
    inversion H; subst. exact Hc.
  - destruct (bit_index r <? UINT8_T_SIZE).
    + destruct (negb _).
      * destruct (read buffer (index r)) as [b|]; cbn [bind] in H; [|discriminate].
        apply IH in H; [exact H|]. apply u64_range.
      * destruct (read buffer (index r)) as [b|]; cbn [bind] in H; discriminate.
    + inversion H; subst. exact Hc.
Qed.

Lemma GetValCount_loop_range (fuel : nat) :
  forall buffer size r count cb c v r1,
    0 <= count < u64_max ->
    GetValCount_loop fuel buffer size r count cb = Ret (Some (c, v), r1) ->
    1 <= c < 2 ^ 57.
Proof.
  induction fuel as [|f IH]; intros buffer size r count cb c v r1 Hc H;
    cbn [GetValCount_loop] in H; [discriminate|].
  destruct (index r <? size)%nat; [|discriminate].
  destruct (if bit_index r =? 0 then _ else _) as [r2|]; cbn [bind] in H;
    [|discriminate].
  destruct (GetValCount_bits 8 buffer r2 count cb) as [e|] eqn:E;
    cbn [bind] in H; [|discriminate].
  destruct e as [c' v' r3|c' cb' r3].
  - inversion H; subst. apply (GetValCount_bits_range _ _ _ _ _ _ _ _ Hc E).
  - apply IH in H; [exact H|].
    apply (GetValCount_bits_count _ _ _ _ _ _ _ _ Hc E).
Qed.

(** A count that [GetValCount] returns is at least 1 and fits 57
    bits. *)
Lemma GetValCount_range (buffer : list Z) (size : nat) (r r1 : reader) (c v : Z) :
  GetValCount buffer size r = Ret (Some (c, v), r1) -> 1 <= c < 2 ^ 57.
Proof.
  unfold GetValCount. apply GetValCount_loop_range. unfold u64_max. lia.
Qed.

Lemma memset_prefix (dec : list Z) (at_ val n : Z) :
  0 <= at_ -> 0 <= n -> at_ + n <= Z.of_nat (length dec) ->
  length (memset dec at_ val n) = length dec
  /\ firstn (Z.to_nat (at_ + n)) (memset dec at_ val n)
     = firstn (Z.to_nat at_) dec ++ repeat val (Z.to_nat n).
Proof.
  intros Ha Hn Hlen. unfold memset. split.
  - rewrite !length_app, length_firstn, repeat_length, length_skipn. lia.
  - rewrite app_assoc.
    assert (length (firstn (Z.to_nat at_) dec ++ repeat val (Z.to_nat n))
            = Z.to_nat (at_ + n)) as Hl.
    { rewrite length_app, length_firstn, repeat_length. lia. }
    rewrite <- Hl. apply firstn_app_exact.
Qed.

Lemma firstn_app_short {A : Type} (l r : list A) (n : nat) :
  (n <= length l)%nat -> firstn n (l ++ r) = firstn n l.
Proof.
  intros H. rewrite firstn_app.
  replace (n - length l)%nat with O by lia.
  cbn. apply app_nil_r.
Qed.

Lemma firstn_repeat {A : Type} (a : A) (n k : nat) :
  (k <= n)%nat -> firstn k (repeat a n) = repeat a k.
Proof.
  revert n. induction k as [|k IH]; intros n H; [reflexivity|].
  destruct n as [|n]; [lia|]. cbn. f_equal. apply IH. lia.
Qed.

(** The loop of [DecompressHorizontally] against the pairs that the
    stream holds: [written] are the pixels stored so far. *)
Lemma DecompressHorizontally_loop_fills (fuel : nat) :
  forall buffer size r im pairs,
    all_pairs fuel buffer size r = Ret pairs ->
    Z.of_nat (length (dec_buffer im)) = dec_buffer_alloc im ->
    0 <= dec_buffer_index im <= dec_buffer_alloc im ->
    dec_buffer_alloc im < 2 ^ 32 ->
    exists im',
      DecompressHorizontally_loop fuel buffer size r im = Ret im'
      /\ dec_buffer_alloc im' = dec_buffer_alloc im
      /\ dec_buffer_index im'
         = Z.min (dec_buffer_alloc im) (dec_buffer_index im + total pairs)
      /\ firstn (Z.to_nat (dec_buffer_index im')) (dec_buffer im')
         = firstn (Z.to_nat (dec_buffer_alloc im))
                  (firstn (Z.to_nat (dec_buffer_index im)) (dec_buffer im)
                     ++ expand pairs).
Proof.
  change (2 ^ 32) with 4294967296.
  induction fuel as [|f IH]; intros buffer size r im pairs Hp Hlen Hidx Halloc;
    cbn [all_pairs] in Hp; [discriminate|].
  cbn [DecompressHorizontally_loop].
  destruct (GetValCount buffer size r) as [[o r1]|] eqn:E; cbn [bind] in *;
    [|discriminate].
  destruct o as [[c v]|].
  - destruct (all_pairs f buffer size r1) as [rest|] eqn:Er; cbn [bind] in Hp;
      [|discriminate].
    inversion Hp; subst pairs; clear Hp.
    pose proof (GetValCount_range _ _ _ _ _ _ E) as Hc.
    change (2 ^ 57) with 144115188075855872 in Hc.
    unfold total. cbn [fold_right fst]. fold (total rest).
    unfold expand. cbn [flat_map fst snd]. fold (expand rest).
    rewrite u64_small by lia.
    destruct (dec_buffer_alloc im <? dec_buffer_index im + c) eqn:Ecmp.
    + apply Z.ltb_lt in Ecmp.
      assert (0 <= total rest) as Hrest.
      { clear - Er. revert r1 rest Er.
        induction f as [|f IHf]; intros r1 rest Er; cbn [all_pairs] in Er;
          [discriminate|].
        destruct (GetValCount buffer size r1) as [[o r2]|] eqn:E2;
          cbn [bind] in Er; [|discriminate].
        destruct o as [[c2 v2]|].
        - destruct (all_pairs f buffer size r2) as [rest2|] eqn:Er2;
            cbn [bind] in Er; [|discriminate].
          inversion Er; subst. unfold total. cbn [fold_right fst].
          pose proof (GetValCount_range _ _ _ _ _ _ E2).
          specialize (IHf _ _ Er2). unfold total in IHf. lia.
        - inversion Er; subst. cbn. lia. }
      rewrite u64_small by lia.
      eexists. split; [reflexivity|]. cbn [dec_buffer dec_buffer_alloc dec_buffer_index].
      split; [reflexivity|]. split; [lia|].
      set (tmp := dec_buffer_alloc im - dec_buffer_index im) in *.
      assert (firstn (Z.to_nat (dec_buffer_alloc im))
                     (firstn (Z.to_nat (dec_buffer_index im)) (dec_buffer im)
                        ++ repeat v (Z.to_nat c) ++ expand rest)
              = firstn (Z.to_nat (dec_buffer_index im)) (dec_buffer im)
                  ++ repeat v (Z.to_nat tmp)) as Hcut.
      { rewrite firstn_app, firstn_firstn, length_firstn.
        replace (Init.Nat.min (Z.to_nat (dec_buffer_alloc im))
                              (Z.to_nat (dec_buffer_index im)))
          with (Z.to_nat (dec_buffer_index im)) by lia.
        f_equal.
        replace (Z.to_nat (dec_buffer_alloc im)
                 - Init.Nat.min (Z.to_nat (dec_buffer_index im))
                                (length (dec_buffer im)))%nat
          with (Z.to_nat tmp) by lia.
        rewrite firstn_app_short by (rewrite repeat_length; lia).
        apply firstn_repeat. lia. }
      rewrite Hcut.
      destruct (0 <? tmp) eqn:Et.
      * apply Z.ltb_lt in Et.
        destruct (memset_prefix (dec_buffer im) (dec_buffer_index im) v tmp)
          as [_ Hm]; try lia.
        replace (dec_buffer_index im + tmp) with (dec_buffer_alloc im) in Hm
          by (unfold tmp; lia).
        exact Hm.
      * apply Z.ltb_ge in Et.
        assert (dec_buffer_alloc im = dec_buffer_index im) as Heq
            by (unfold tmp in *; lia).
        unfold tmp. rewrite Heq, Z.sub_diag.
        cbn [Z.to_nat repeat]. rewrite app_nil_r. reflexivity.
    + apply Z.ltb_ge in Ecmp.
      destruct (memset_prefix (dec_buffer im) (dec_buffer_index im) v c)
        as [Hml Hmp]; try lia.
      destruct (IH buffer size r1
                   {| dec_buffer := memset (dec_buffer im) (dec_buffer_index im) v c;
                      dec_buffer_alloc := dec_buffer_alloc im;
                      dec_buffer_index := dec_buffer_index im + c |}
                   rest Er)
        as [im' [H1 [H2 [H3 H4]]]];
        cbn [dec_buffer dec_buffer_alloc dec_buffer_index] in *; try lia.
      exists im'. split; [exact H1|]. split; [exact H2|].
      split; [rewrite H3; f_equal; lia|].
      rewrite H4, Hmp, <- app_assoc. reflexivity.
  - inversion Hp; subst pairs; clear Hp.
    eexists. split; [reflexivity|]. split; [reflexivity|].
    unfold total, expand. cbn [fold_right flat_map].
    split; [lia|].
    rewrite app_nil_r, firstn_firstn. f_equal. lia.
Qed.

(** *** The loops of the decompressor end

    With the fuel that the definitions give them, the loops of
    [GetValCount] and of the horizontal reconstruction never run out of
    fuel: the only fault left is a read outside the buffer. *)

Lemma GetValCount_bits_ends (fuel : nat) :
  forall buffer r count cb,
    0 <= bit_index r ->
    (Z.to_nat (8 - bit_index r) <= fuel)%nat ->
    match GetValCount_bits fuel buffer r count cb with
    | Ret (Found _ _ r1) => (index r < index r1)%nat /\ 0 <= bit_index r1 <= 8
    | Ret (GroupDone _ _ r1) => (index r <= index r1)%nat
    | Fault f => f = OutOfBounds
    end.
Proof.
  induction fuel as [|f IH]; intros buffer r count cb Hb Hfuel;
    cbn [GetValCount_bits]; unfold UINT8_T_SIZE.
  - destruct (bit_index r <? 8) eqn:E; [apply Z.ltb_lt in E; lia|]. cbn. lia.
  - destruct (bit_index r <? 8) eqn:E; [|cbn; lia].
    apply Z.ltb_lt in E.
    assert (u8 (bit_index r + 1) = bit_index r + 1) as Hnext
        by (apply u8_small; lia).
    rewrite Hnext.
    destruct (negb _).
    + unfold read. destruct (nth_error buffer (index r)) as [b|]; cbn [bind];
        [|reflexivity].
      specialize (IH buffer
                     {| index := S (index r); bit_index := bit_index r + 1;
                        byte := byte r |}
                     (u64 (Z.shiftl (Z.lor count b) 8)) true).
      cbn [bit_index index] in IH.
      specialize (IH ltac:(lia) ltac:(lia)).
      destruct (GetValCount_bits f buffer _ _ true) as [[c v r1|c cb1 r1]|flt];
        cbn [index] in *; try exact IH; lia.
    + unfold read. destruct (nth_error buffer (index r)) as [v|]; cbn [bind];
        [|reflexivity].
      cbn [index bit_index]. lia.
Qed.

Lemma GetValCount_loop_ends (fuel : nat) :
  forall buffer size r count cb,
    0 <= bit_index r ->
    ((size - index r) + (if (bit_index r =? 0)%Z then 0 else 1) < fuel)%nat ->
    match GetValCount_loop fuel buffer size r count cb with
    | Ret (Some _, r1) =>
        (index r < index r1)%nat /\ (index r < size)%nat /\ 0 <= bit_index r1 <= 8
    | Ret (None, r1) => (size <= index r1)%nat /\ 0 <= bit_index r1
    | Fault f => f = OutOfBounds
    end.
Proof.
  induction fuel as [|f IH]; intros buffer size r count cb Hb Hfuel; [lia|].
  cbn [GetValCount_loop].
  destruct (index r <? size)%nat eqn:E.
  - apply Nat.ltb_lt in E.
    destruct (bit_index r =? 0) eqn:Eb.
    + apply Z.eqb_eq in Eb. unfold read.
      destruct (nth_error buffer (index r)) as [b|]; cbn [bind]; [|reflexivity].
      pose proof (GetValCount_bits_ends 8 buffer
                    {| index := S (index r); bit_index := bit_index r; byte := b |}
                    count cb) as Hbits.
      cbn [bit_index index] in Hbits.
      specialize (Hbits ltac:(lia) ltac:(rewrite Eb; simpl; lia)).
      destruct (GetValCount_bits 8 buffer _ count cb) as [[c v r1|c cb1 r1]|flt];
        cbn [bind].
      * lia.
      * specialize (IH buffer size
                       {| index := index r1; bit_index := 0; byte := byte r1 |}
                       c cb1).
        cbn [bit_index index Z.eqb] in IH.
        specialize (IH ltac:(lia) ltac:(lia)).
        destruct (GetValCount_loop f buffer size _ c cb1) as [[[cv|] r2]|flt];
          cbn [index] in *; try exact IH; lia.
      * exact Hbits.
    + apply Z.eqb_neq in Eb. cbn [bind].
      pose proof (GetValCount_bits_ends 8 buffer r count cb Hb) as Hbits.
      specialize (Hbits ltac:(lia)).
      destruct (GetValCount_bits 8 buffer r count cb) as [[c v r1|c cb1 r1]|flt];
        cbn [bind].
      * lia.
      * specialize (IH buffer size
                       {| index := index r1; bit_index := 0; byte := byte r1 |}
                       c cb1).
        cbn [bit_index index Z.eqb] in IH.
        specialize (IH ltac:(lia) ltac:(lia)).
        destruct (GetValCount_loop f buffer size _ c cb1) as [[[cv|] r2]|flt];
          cbn [index] in *; try exact IH; lia.
      * exact Hbits.
  - apply Nat.ltb_ge in E. split; [exact E|exact Hb].
Qed.

Lemma GetValCount_ends (buffer : list Z) (size : nat) (r : reader) :
  0 <= bit_index r ->
  match GetValCount buffer size r with
  | Ret (Some _, r1) =>
      (index r < index r1)%nat /\ (index r < size)%nat /\ 0 <= bit_index r1 <= 8
  | Ret (None, r1) => (size <= index r1)%nat /\ 0 <= bit_index r1
  | Fault f => f = OutOfBounds
  end.
Proof.
  intros Hb. unfold GetValCount. apply GetValCount_loop_ends; [exact Hb|].
  destruct (bit_index r =? 0); lia.
Qed.

(** Reading all pairs of a stream either gives them or leaves the
    buffer. *)
Lemma all_pairs_ends (fuel : nat) :
  forall buffer size r,
    0 <= bit_index r ->
    (size - index r < fuel)%nat ->
    all_pairs fuel buffer size r = Fault OutOfBounds
    \/ exists pairs, all_pairs fuel buffer size r = Ret pairs.
Proof.
  induction fuel as [|f IH]; intros buffer size r Hb Hfuel; [lia|].
  cbn [all_pairs].
  pose proof (GetValCount_ends buffer size r Hb) as Hg.
  destruct (GetValCount buffer size r) as [[[[c v]|] r1]|flt]; cbn [bind].
  - destruct Hg as [H1 [H2 H3]].
    destruct (IH buffer size r1 ltac:(lia) ltac:(lia)) as [Hf|[rest Hr]].
    + left. rewrite Hf. reflexivity.
    + right. exists ((c, v) :: rest). rewrite Hr. reflexivity.
  - right. exists []. reflexivity.
  - left. rewrite Hg. reflexivity.
Qed.

End RleDecompressorFacts.

Section HorizontalReconstruction.
Import Rle RleCompressor RleDecompressor Format Trace Notions.

(** X27: the horizontal reconstruction against the pairs of the
    stream.
    For a stream whose settings byte selects the horizontal
    reconstruction, with the width [W] and the height [H] of its
    header: either [GetValCount] is led outside the buffer somewhere in
    the payload, or the payload holds the pairs [(count, value)] of
    [pairs] and [Decompress] returns true exactly when their counts add
    up to at least [dec_buffer_alloc], the product [W * H] as
    [Decompress] computes it from two [uint32_t] values, that is,
    modulo [2^32] (it is [W * H] itself when that is less than [2^32]).
    The output is the expansion of the pairs cut at [dec_buffer_alloc]
    bytes: it is shorter when the pairs give fewer pixels, and a pair
    that goes past the end is truncated. *)
Theorem horizontal_fill (buffer : list Z) (size : nat) (settings W H : Z)
        (index0 : nat) :
  size <> O ->
  read buffer 0 = Ret settings ->
  Z.land settings SCANNING_MASK <> 0 ->
  GetSize buffer size = Ret (Some (W, H, index0)) ->
  let alloc := u32 (W * H) in
  let payload := {| index := index0; bit_index := 0; byte := 0 |} in
  (0 <= W * H < 2 ^ 32 -> alloc = W * H)
  /\ (all_pairs (S size) buffer size payload = Fault OutOfBounds
      \/ exists pairs d,
          all_pairs (S size) buffer size payload = Ret pairs
          /\ Decompress buffer size = Ret d
          /\ (ok d = true <-> alloc <= total pairs)
          /\ (ok d = false <-> total pairs < alloc)
          /\ out_size d = Z.min alloc (total pairs)
          /\ out d = firstn (Z.to_nat alloc) (expand pairs)
          /\ convert_from_model d = negb (Z.land settings MODEL_MASK =? 0)).
Proof.
  intros Hsize Hread Hscan Hget alloc payload.
  split; [intros Hr; apply u32_small; exact Hr|].
  destruct (all_pairs_ends (S size) buffer size payload)
    as [Hfault|[pairs Hpairs]]; [cbn; lia|cbn; lia|left; exact Hfault|right].
  pose proof (u32_range (W * H)) as Halloc. fold alloc in Halloc.
  destruct (DecompressHorizontally_loop_fills (S size) buffer size payload
              {| dec_buffer := repeat 0 (Z.to_nat alloc);
                 dec_buffer_alloc := alloc; dec_buffer_index := 0 |}
              pairs Hpairs)
    as [im' [H1 [H2 [H3 H4]]]];
    cbn [dec_buffer dec_buffer_alloc dec_buffer_index] in *.
  { rewrite repeat_length. lia. }
  { lia. }
  { change (2 ^ 32) with 4294967296. lia. }
  exists pairs. eexists. split; [exact Hpairs|].
  unfold Decompress.
  replace (size =? 0)%nat with false by (symmetry; apply Nat.eqb_neq; exact Hsize).
  rewrite Hread. cbn [bind]. rewrite Hget. cbn [bind].
  replace (Z.land settings SCANNING_MASK =? 0) with false
    by (symmetry; apply Z.eqb_neq; exact Hscan).
  cbn [negb]. fold alloc.
  unfold DecompressHorizontally. fold payload. rewrite H1. cbn [bind].
  split; [reflexivity|].
  unfold finish. cbn [ok convert_from_model out_size out fst snd].
  rewrite Z.add_0_l in H3.
  split; [|split; [|split; [|split]]].
  - rewrite Z.eqb_eq, H2, H3. lia.
  - rewrite Z.eqb_neq, H2, H3. lia.
  - exact H3.
  - rewrite H4. cbn [Z.to_nat firstn app]. reflexivity.
  - reflexivity.
Qed.

Lemma horizontal_fill_witness :
  exists d,
    Decompress [128; 10; 1; 1; 8; 65] 6 = Ret d
    /\ (ok d = true <-> u32 (10 * 1) <= total [(10, 65)])
    /\ out d = firstn (Z.to_nat (u32 (10 * 1))) (expand [(10, 65)]).
Proof.
  destruct (horizontal_fill [128; 10; 1; 1; 8; 65] 6 128 10 1 3)
    as [_ [Hfault|[pairs [d [Hp [H1 [H2 [_ [_ [H3 _]]]]]]]]]].
  - discriminate.
  - reflexivity.
  - discriminate.
  - reflexivity.
  - vm_compute in Hfault. discriminate Hfault.
  - vm_compute in Hp. inversion Hp; subst pairs.
    exists d. split; [exact H1|]. split; [exact H2|exact H3].
Defined.

Lemma runs_from_repeat (v : Z) (k : nat) :
  forall c, runs_from v c (repeat v k) = [(c + Z.of_nat k, v)].
Proof.
  induction k as [|k IH]; intros c.
  - cbn [repeat runs_from]. rewrite Z.add_0_r. reflexivity.
  - cbn [repeat runs_from]. rewrite Z.eqb_refl, IH. do 2 f_equal. lia.
Qed.

Lemma runs_repeat (v : Z) (k : nat) :
  runs (repeat v (S k)) = [(Z.of_nat (S k), v)].
Proof.
  cbn [repeat runs]. rewrite runs_from_repeat. do 2 f_equal. lia.
Qed.

(** The stream of an image of one colour: the header and one run. *)
Lemma uniform_image (v W H : Z) (m : bool) :
  1 <= W -> 1 <= H ->
  horizontal_stream (repeat v (Z.to_nat (W * H))) W H m
  = header_bytes (horizontal_settings m) W H ++ pack (run_bytes (W * H) v).
Proof.
  intros HW HH.
  assert (1 <= W * H) as Hpos by nia.
  destruct (Z.to_nat (W * H)) as [|k] eqn:E; [lia|].
  unfold horizontal_stream.
  rewrite runs_repeat. cbn [flat_map]. rewrite app_nil_r.
  unfold run_bytes_of. cbn [fst snd]. do 3 f_equal. lia.
Qed.

(** C9 at the stream 92 01 00 00 01 00 00, whose header selects the
    horizontal reconstruction and declares the width 65536 and the
    height 65536, followed by no pair: [Decompress] computes
    [dec_buffer_alloc = 65536 * 65536] on two [uint32_t] values, which
    is 0, and returns true with an empty output, although the pairs
    fill none of the [W * H = 2^32] bytes.  The same happens when the
    header is followed by the one pair [(2^32, 0)], the encoding of the
    image of [65536 * 65536] bytes 00: the stream is accepted with an
    empty output. *)
Theorem overflowing_size_accepted :
  GetSize [146; 1; 0; 0; 1; 0; 0] 7 = Ret (Some (65536, 65536, 7%nat))
  /\ Z.land 146 SCANNING_MASK <> 0
  /\ all_pairs 8 [146; 1; 0; 0; 1; 0; 0] 7
               {| index := 7; bit_index := 0; byte := 0 |} = Ret []
  /\ total [] < 65536 * 65536
  /\ Decompress [146; 1; 0; 0; 1; 0; 0] 7
     = Ret {| ok := true; convert_from_model := false; out_size := 0; out := [] |}
  /\ header_bytes (horizontal_settings false) 65536 65536
     ++ pack (run_bytes (65536 * 65536) 0)
     = [146; 1; 0; 0; 1; 0; 0; 15; 255; 255; 255; 254; 0]
  /\ all_pairs 14 [146; 1; 0; 0; 1; 0; 0; 15; 255; 255; 255; 254; 0] 13
               {| index := 7; bit_index := 0; byte := 0 |}
     = Ret [(65536 * 65536, 0)]
  /\ Decompress [146; 1; 0; 0; 1; 0; 0; 15; 255; 255; 255; 254; 0] 13
     = Ret {| ok := true; convert_from_model := false; out_size := 0; out := [] |}.
Proof.
  split; [reflexivity|].
  split; [discriminate|].
  split; [reflexivity|].
  split; [reflexivity|].
  split; [reflexivity|].
  split; [vm_compute; reflexivity|].
  split; vm_compute; reflexivity.
Qed.

End HorizontalReconstruction.

(** ** The RLE stage alone: header and horizontal round trip *)

Section RleRoundTrip.
Import Rle RleCompressor RleDecompressor Format Trace Notions.

Lemma size_loop_digits (fuel : nat) :
  forall v,
    0 <= v < 256 ^ Z.of_nat (S fuel) ->
    bytes (fst (size_loop fuel v))
    /\ 0 <= snd (size_loop fuel v) < 256
    /\ be_from (snd (size_loop fuel v)) (rev (fst (size_loop fuel v))) = v.
Proof.
  induction fuel as [|f IH]; intros v Hv.
  - cbn [size_loop fst snd rev be_from fold_left].
    change (256 ^ Z.of_nat 1) with 256 in Hv.
    split; [constructor|]. split; [lia|reflexivity].
  - rewrite Nat2Z.inj_succ, Z.pow_succ_r in Hv by lia.
    cbn [size_loop]. unfold MAX_COUNTER_VAL.
    destruct (255 <? v) eqn:E.
    + apply Z.ltb_lt in E.
      rewrite Z.shiftr_div_pow2 by lia. change (2 ^ 8) with 256.
      change 255 with (Z.ones 8). rewrite Z.land_ones by lia.
      change (2 ^ 8) with 256.
      pose proof (Z.mod_pos_bound v 256 ltac:(lia)) as Hmod.
      pose proof (Z.div_mod v 256 ltac:(lia)) as Hdm.
      assert (0 <= v / 256 < 256 ^ Z.of_nat (S f)) as Hq.
      { split; [apply Z.div_pos; lia|apply Z.div_lt_upper_bound; lia]. }
      destruct (IH (v / 256) Hq) as [Hb [Hl Hval]].
      destruct (size_loop f (v / 256)) as [l last]. cbn [fst snd] in *.
      split; [constructor; [unfold is_byte; lia|assumption]|].
      split; [exact Hl|].
      cbn [rev]. rewrite be_from_snoc, Hval. lia.
    + apply Z.ltb_ge in E. cbn [fst snd rev be_from fold_left].
      split; [constructor|]. split; [lia|reflexivity].
Qed.

Lemma size_loop_short (fuel : nat) :
  forall v (k : nat),
    0 <= v < 256 ^ Z.of_nat (S k) ->
    (length (fst (size_loop fuel v)) <= k)%nat.
Proof.
  induction fuel as [|f IH]; intros v k Hv; cbn [size_loop]; [simpl; lia|].
  unfold MAX_COUNTER_VAL. destruct (255 <? v) eqn:E; [|simpl; lia].
  apply Z.ltb_lt in E.
  destruct k as [|k]; [change (256 ^ Z.of_nat 1) with 256 in Hv; lia|].
  rewrite (Nat2Z.inj_succ (S k)), Z.pow_succ_r in Hv by lia.
  assert (0 <= Z.shiftr v 8 < 256 ^ Z.of_nat (S k)) as Hq.
  { rewrite Z.shiftr_div_pow2 by lia. change (2 ^ 8) with 256.
    split; [apply Z.div_pos; lia|apply Z.div_lt_upper_bound; lia]. }
  specialize (IH _ _ Hq).
  destruct (size_loop f (Z.shiftr v 8)) as [l last]. cbn [fst length] in *. lia.
Qed.

(** The bytes of a width or height, most significant first. *)
Lemma size_vec_digits (v : Z) :
  0 <= v < 4294967296 ->
  bytes (rev (size_vec v))
  /\ be_from 0 (rev (size_vec v)) = v
  /\ (1 <= length (size_vec v) <= 4)%nat.
Proof.
  intros Hv. unfold size_vec.
  assert (0 <= v < 256 ^ Z.of_nat 5) as Hv5
      by (change (256 ^ Z.of_nat 5) with 1099511627776; lia).
  assert (0 <= v < 256 ^ Z.of_nat 4) as Hv4
      by (change (256 ^ Z.of_nat 4) with 4294967296; lia).
  destruct (size_loop_digits 4 v Hv5) as [Hb [Hl Hval]].
  pose proof (size_loop_short 4 v 3 Hv4) as Hlen.
  destruct (size_loop 4 v) as [l last]. cbn [fst snd] in *.
  unfold MAX_COUNTER_VAL. change 255 with (Z.ones 8).
  rewrite Z.land_ones by lia. change (2 ^ 8) with 256.
  rewrite Z.mod_small by lia.
  rewrite rev_app_distr. cbn [rev app].
  split; [|split].
  - constructor; [unfold is_byte; lia|]. apply bytes_rev. exact Hb.
  - cbn [be_from fold_left]. rewrite Z.mul_0_l, Z.add_0_l. exact Hval.
  - rewrite length_app. cbn [length]. lia.
Qed.

(** The loops of [GetSize] read a number written most significant byte
    first. *)
Lemma GetSize_loop_digits (buffer : list Z) (limit : nat) :
  forall ds a acc,
    ds <> [] ->
    (a + length ds = limit)%nat ->
    (forall i, (i < length ds)%nat ->
               nth_error buffer (S (a + i)) = Some (nth i ds 0)) ->
    bytes ds ->
    0 <= acc ->
    be_from acc ds < 4294967296 ->
    GetSize_loop buffer (seq a (length ds)) limit (acc * 256)
    = Ret (be_from acc ds).
Proof.
  induction ds as [|d ds IH]; intros a acc Hne Hlim Hnth Hb Hacc Hval;
    [contradiction|].
  pose proof (Forall_inv Hb) as Hd. pose proof (Forall_inv_tail Hb) as Hds.
  cbn [length seq GetSize_loop]. unfold read.
  pose proof (Hnth O ltac:(simpl; lia)) as H0.
  rewrite Nat.add_0_r in H0. rewrite H0. cbn [bind nth].
  rewrite lor_low_byte by assumption.
  cbn [length] in Hlim.
  destruct ds as [|d' ds'].
  - replace (S a <? limit)%nat with false
      by (symmetry; apply Nat.ltb_ge; simpl in Hlim; lia).
    cbn [length seq GetSize_loop be_from fold_left]. reflexivity.
  - replace (S a <? limit)%nat with true
      by (symmetry; apply Nat.ltb_lt; simpl in Hlim; lia).
    assert (0 <= acc * 256 + d) as Hacc' by (unfold is_byte in Hd; lia).
    assert ((acc * 256 + d) * 256 <= be_from acc (d :: d' :: ds')) as Hge.
    { cbn [be_from fold_left].
      pose proof (Forall_inv Hds) as Hd'. pose proof (Forall_inv_tail Hds) as Hds'.
      unfold is_byte in Hd, Hd'.
      pose proof (be_from_ge ds' ((acc * 256 + d) * 256 + d') ltac:(lia) Hds') as G.
      unfold be_from in G. lia. }
    rewrite Z.shiftl_mul_pow2 by lia. change (2 ^ 8) with 256.
    rewrite u32_small by lia.
    rewrite (IH (S a) (acc * 256 + d)).
    + reflexivity.
    + discriminate.
    + lia.
    + intros i Hi. specialize (Hnth (S i) ltac:(cbn [length] in *; lia)).
      replace (S (S a + i)) with (S (a + S i)) by lia. exact Hnth.
    + exact Hds.
    + exact Hacc'.
    + exact Hval.
Qed.

(** The settings byte that [appendSettingsToBuff] writes keeps the two
    flags and gives back the two lengths. *)
Lemma settings_byte_fields (horizontal model : bool) (lw lh : nat) :
  (1 <= lw <= 4)%nat -> (1 <= lh <= 4)%nat ->
  let s := Z.lor (if horizontal then SCANNING_MASK else 0)
                 (if model then MODEL_MASK else 0) in
  let settings2 :=
    u8 (Z.lor (u8 (Z.lor s (Z.shiftl (Z.of_nat lw - 1) 3))) (Z.of_nat lh - 1)) in
  count_w settings2 = Z.of_nat lw
  /\ count_h settings2 = Z.of_nat lh
  /\ negb (Z.land settings2 SCANNING_MASK =? 0) = horizontal
  /\ negb (Z.land settings2 MODEL_MASK =? 0) = model.
Proof.
  intros Hw Hh.
  assert (lw = 1 \/ lw = 2 \/ lw = 3 \/ lw = 4)%nat as Cw by lia.
  assert (lh = 1 \/ lh = 2 \/ lh = 3 \/ lh = 4)%nat as Ch by lia.
  destruct Cw as [->|[->|[->| ->]]]; destruct Ch as [->|[->|[->| ->]]];
    destruct horizontal, model; vm_compute; repeat split.
Qed.

Lemma horizontal_settings_flags (m : bool) :
  horizontal_settings m = scan_settings true m.
Proof. destruct m; reflexivity. Qed.

Lemma vertical_settings_flags (m : bool) :
  vertical_settings m = scan_settings false m.
Proof. destruct m; reflexivity. Qed.

Lemma nth_error_nth_app (a b : list Z) (i : nat) :
  (i < length a)%nat -> nth_error (a ++ b) i = Some (nth i a 0).
Proof.
  intros Hi. rewrite nth_error_app1 by exact Hi.
  apply nth_error_nth'. exact Hi.
Qed.

(** [GetSize] reads back the header that [appendSettingsToBuff] wrote:
    the width, the height and the position of the first group. *)
Lemma GetSize_header (horizontal model : bool) (W H : Z) (payload : list Z)
      (size : nat) :
  0 <= W < 4294967296 ->
  0 <= H < 4294967296 ->
  let header := header_bytes (scan_settings horizontal model) W H in
  (length header <= size)%nat ->
  exists settings,
    read (header ++ payload) 0 = Ret settings
    /\ negb (Z.land settings SCANNING_MASK =? 0) = horizontal
    /\ negb (Z.land settings MODEL_MASK =? 0) = model
    /\ GetSize (header ++ payload) size = Ret (Some (W, H, length header)).
Proof.
  intros HW HH header Hsize.
  pose proof (header_bytes_length (scan_settings horizontal model) W H)
    as Hlen. fold header in Hlen.
  subst header. unfold header_bytes in *.
  rewrite !u32_small in * by assumption.
  destruct (size_vec_digits W HW) as [Hbw [Hvw Hlw]].
  destruct (size_vec_digits H HH) as [Hbh [Hvh Hlh]].
  set (vw := size_vec W) in *. set (vh := size_vec H) in *.
  destruct (settings_byte_fields horizontal model (length vw) (length vh) Hlw Hlh)
    as [Hcw [Hch [Hs Hm]]].
  fold (scan_settings horizontal model) in Hcw, Hch, Hs, Hm.
  set (settings2 := u8 (Z.lor (u8 (Z.lor (scan_settings horizontal model)
                                        (Z.shiftl (Z.of_nat (length vw) - 1) 3)))
                              (Z.of_nat (length vh) - 1))) in *.
  exists settings2. split; [reflexivity|]. split; [exact Hs|]. split; [exact Hm|].
  unfold GetSize. cbn [app read nth_error bind].
  rewrite Hcw, Hch.
  rewrite (u8_small (Z.of_nat (length vw) + Z.of_nat (length vh))) by lia.
  replace (Z.of_nat size <? Z.of_nat (length vh) + Z.of_nat (length vw)) with false
    by (symmetry; apply Z.ltb_ge; lia).
  rewrite Nat2Z.id.
  replace (Z.to_nat (Z.of_nat (length vw) + Z.of_nat (length vh)))
    with (length vw + length vh)%nat by lia.
  replace (length vw + length vh - length vw)%nat with (length vh) by lia.
  set (buf := settings2 :: (rev vw ++ rev vh) ++ payload).
  assert (rev vw <> []) as Hnw.
  { intros E. apply (f_equal (@length Z)) in E. rewrite length_rev in E.
    simpl in E. lia. }
  assert (rev vh <> []) as Hnh.
  { intros E. apply (f_equal (@length Z)) in E. rewrite length_rev in E.
    simpl in E. lia. }
  assert (GetSize_loop buf (seq 0 (length vw)) (length vw) 0 = Ret W) as Gw.
  { pose proof (GetSize_loop_digits buf (length vw) (rev vw) 0 0 Hnw) as G.
    rewrite length_rev, Hvw in G. apply G.
    - reflexivity.
    - intros i Hi. subst buf. cbn [nth_error Nat.add].
      rewrite <- app_assoc. apply nth_error_nth_app. rewrite length_rev. exact Hi.
    - exact Hbw.
    - lia.
    - lia. }
  assert (GetSize_loop buf (seq (length vw) (length vh)) (length vw + length vh) 0
          = Ret H) as Gh.
  { pose proof (GetSize_loop_digits buf (length vw + length vh) (rev vh)
                                    (length vw) 0 Hnh) as G.
    rewrite length_rev, Hvh in G. apply G.
    - reflexivity.
    - intros i Hi. subst buf. cbn [nth_error].
      rewrite <- app_assoc.
      rewrite nth_error_app2 by (rewrite length_rev; lia).
      rewrite length_rev.
      replace (length vw + i - length vw)%nat with i by lia.
      apply nth_error_nth_app. rewrite length_rev. exact Hi.
    - exact Hbh.
    - lia.
    - lia. }
  rewrite Gw. cbn [bind]. rewrite Gh. cbn [bind].
  repeat f_equal. rewrite Hlen. lia.
Qed.

(** The RLE stage alone is lossless for the horizontal scan:
    [Decompress] gives back the image from the stream of
    [SequenceScanning], and its model flag. *)
Lemma horizontal_decoded (x : list Z) (W H : Z) (m : bool) :
  1 <= W -> 1 <= H -> W * H < 4294967296 ->
  Z.of_nat (length x) = W * H ->
  let file := horizontal_stream x W H m in
  Decompress file (length file)
  = Ret {| ok := true; convert_from_model := m; out_size := W * H; out := x |}.
Proof.
  intros HW HH HWH Hlen file.
  assert (x <> []) as Hne.
  { intros ->. simpl in Hlen. nia. }
  assert (0 <= W < 4294967296) as HW' by nia.
  assert (0 <= H < 4294967296) as HH' by nia.
  assert (file = header_bytes (scan_settings true m) W H
                 ++ pack (flat_map run_bytes_of (runs x))) as Hfile.
  { subst file. unfold horizontal_stream.
    rewrite horizontal_settings_flags. reflexivity. }
  set (header := header_bytes (scan_settings true m) W H) in *.
  set (payload := pack (flat_map run_bytes_of (runs x))) in *.
  assert (length header <= length file)%nat as Hsz
      by (rewrite Hfile, length_app; lia).
  destruct (GetSize_header true m W H payload (length file) HW' HH' Hsz)
    as [settings [Hread [Hs [Hm Hget]]]].
  fold header in Hread, Hget. rewrite <- Hfile in Hread, Hget.
  assert (all_pairs (S (length file)) file (length file)
                    {| index := length header; bit_index := 0; byte := 0 |}
          = Ret (runs x)) as Hpairs.
  { rewrite Hfile. apply (stream_pairs header x).
    change (2 ^ 56) with 72057594037927936. lia. }
  destruct (DecompressHorizontally_loop_fills (S (length file)) file (length file) _
              {| dec_buffer := repeat 0 (Z.to_nat (W * H));
                 dec_buffer_alloc := W * H; dec_buffer_index := 0 |}
              (runs x) Hpairs)
    as [im' [H1 [H2 [H3 H4]]]];
    cbn [dec_buffer dec_buffer_alloc dec_buffer_index] in *.
  { rewrite repeat_length. lia. }
  { lia. }
  { change (2 ^ 32) with 4294967296. lia. }
  rewrite total_runs, expand_runs in *.
  unfold Decompress.
  replace (length file =? 0)%nat with false
    by (symmetry; apply Nat.eqb_neq; rewrite Hfile, length_app;
        subst header; rewrite header_bytes_length; lia).
  rewrite Hread. cbn [bind]. rewrite Hget. cbn [bind].
  rewrite Hs, Hm. rewrite u32_small by lia.
  unfold DecompressHorizontally. rewrite H1. cbn [bind].
  unfold finish. cbn [fst snd].
  rewrite H4, H2, H3.
  replace (Z.min (W * H) (0 + Z.of_nat (length x))) with (W * H) by lia.
  rewrite Z.eqb_refl. cbn [Z.to_nat firstn app].
  rewrite <- Hlen, Nat2Z.id, firstn_all. reflexivity.
Qed.

End RleRoundTrip.

(** * Further properties of the code *)

(** ** The differential model, in both directions *)

Section DifferentialMore.
Import DataWorker.



Lemma Preprocess_loop_shape (xs : list Z) :
  forall prev, length (Preprocess_loop prev xs) = length xs
               /\ bytes (Preprocess_loop prev xs).
Proof.
  induction xs as [|x xs IH]; intros prev; cbn.
  - split; [reflexivity|constructor].
  - destruct (IH x) as [Hl Hb]. split; [rewrite Hl; reflexivity|].
    constructor; [apply u8_range|exact Hb].
Qed.




Lemma Preprocess_loop_nth (xs : list Z) :
  forall prev i,
    (i < length xs)%nat ->
    nth i (Preprocess_loop prev xs) 0 = u8 (nth i xs 0 - nth i (prev :: xs) 0).
Proof.
  induction xs as [|x xs IH]; intros prev i Hi; cbn [length] in Hi; [lia|].
  destruct i as [|i]; cbn [Preprocess_loop nth]; [reflexivity|].
  rewrite IH by lia. reflexivity.
Qed.

(** X2: [Preprocess] position by position, as the source indexes it:
    the first byte is kept and byte [i >= 1] is
    [buffer[i] - buffer[i - 1]] modulo 256; so it is 0 exactly where a
    byte repeats its predecessor. *)
Theorem Preprocess_nth (x : list Z) (i : nat) :
  bytes x ->
  (1 <= i < length x)%nat ->
  nth 0 (Preprocess x) 0 = nth 0 x 0
  /\ nth i (Preprocess x) 0 = u8 (nth i x 0 - nth (i - 1) x 0)
  /\ (nth i (Preprocess x) 0 = 0 <-> nth i x 0 = nth (i - 1) x 0).
Proof.
  intros Hx Hi. destruct x as [|a xs]; cbn [length] in Hi; [lia|].
  destruct i as [|i]; [lia|].
  assert (nth (S i) (Preprocess (a :: xs)) 0
          = u8 (nth (S i) (a :: xs) 0 - nth (S i - 1) (a :: xs) 0)) as Hnth.
  { cbn [Preprocess nth]. rewrite Preprocess_loop_nth by lia.
    replace (S i - 1)%nat with i by lia. reflexivity. }
  split; [reflexivity|]. split; [exact Hnth|].
  rewrite Hnth.
  assert (is_byte (nth (S i) (a :: xs) 0)) as H1.
  { apply (proj1 (Forall_forall _ _) Hx). apply nth_In. cbn [length]. lia. }
  assert (is_byte (nth (S i - 1) (a :: xs) 0)) as H2.
  { apply (proj1 (Forall_forall _ _) Hx). apply nth_In. cbn [length]. lia. }
  unfold is_byte, u8 in *.
  set (p := nth (S i) (a :: xs) 0) in *. set (q := nth (S i - 1) (a :: xs) 0) in *.
  split.
  - intros H0. destruct (Z_lt_dec p q) as [Hlt|Hge].
    + replace (p - q) with (p - q + 256 + (-1) * 256) in H0 by ring.
      rewrite Z.mod_add in H0 by lia. rewrite Z.mod_small in H0 by lia. lia.
    + rewrite Z.mod_small in H0 by lia. lia.
  - intros ->. rewrite Z.sub_diag. reflexivity.
Qed.

Lemma Preprocess_nth_witness :
  nth 2 (Preprocess [7; 9; 9; 3]) 0 = 0 <-> nth 2 [7; 9; 9; 3] 0 = nth 1 [7; 9; 9; 3] 0.
Proof.
  apply (Preprocess_nth [7; 9; 9; 3] 2).
  - apply bytes_intro. reflexivity.
  - simpl. lia.
Defined.

Lemma Depreprocess_loop_sums (ys : list Z) :
  forall prev i,
    (i < length ys)%nat ->
    nth i (Depreprocess_loop prev ys) 0
    = u8 (prev + fold_right Z.add 0 (firstn (S i) ys)).
Proof.
  induction ys as [|y ys IH]; intros prev i Hi; cbn [length] in Hi; [lia|].
  destruct i as [|i].
  - cbn. rewrite Z.add_0_r. reflexivity.
  - cbn [Depreprocess_loop nth]. rewrite IH by lia.
    cbn [firstn fold_right]. unfold u8.
    rewrite Zplus_mod_idemp_l. f_equal. ring.
Qed.

(** X3: [Depreprocess] gives the running sums: byte [i] of its output
    is the sum of the bytes 0 to [i] of its input, modulo 256. *)
Theorem Depreprocess_sums (y : list Z) (i : nat) :
  bytes y ->
  (i < length y)%nat ->
  nth i (Depreprocess y) 0 = u8 (fold_right Z.add 0 (firstn (S i) y)).
Proof.
  intros Hy Hi. destruct y as [|a ys]; cbn [length] in Hi; [lia|].
  pose proof (Forall_inv Hy) as Ha. unfold is_byte in Ha.
  destruct i as [|i]; cbn [Depreprocess nth firstn fold_right].
  - rewrite Z.add_0_r. symmetry. apply u8_small. exact Ha.
  - rewrite Depreprocess_loop_sums by lia. reflexivity.
Qed.

Lemma Depreprocess_sums_witness :
  nth 2 (Depreprocess [200; 100; 7]) 0 = u8 (200 + (100 + (7 + 0))).
Proof.
  apply (Depreprocess_sums [200; 100; 7] 2).
  - apply bytes_intro. reflexivity.
  - simpl. lia.
Defined.

End DifferentialMore.

(** ** The vertical reconstruction *)

Section VerticalReconstruction.
Import Rle RleCompressor RleDecompressor Format Trace Notions Reconstruction.

Lemma store_length {A : Type} (l : list A) :
  forall i v, length (store l i v) = length l.
Proof.
  induction l as [|x l IH]; intros i v; [reflexivity|].
  destruct i; cbn [store length]; [reflexivity|]. rewrite IH. reflexivity.
Qed.

Lemma store_nth_same (l : list Z) :
  forall i v, (i < length l)%nat -> nth i (store l i v) 0 = v.
Proof.
  induction l as [|x l IH]; intros i v Hi; cbn [length] in Hi; [lia|].
  destruct i; cbn [store nth]; [reflexivity|]. apply IH. lia.
Qed.

Lemma store_nth_other (l : list Z) :
  forall i j v, i <> j -> nth j (store l i v) 0 = nth j l 0.
Proof.
  induction l as [|x l IH]; intros i j v Hij; [reflexivity|].
  destruct i, j; cbn [store nth]; try reflexivity; [lia|].
  apply IH. lia.
Qed.

Lemma run_is_pixels (n : nat) (val width height image_size : Z) :
  forall c im,
    DecompressVertically_run n val width height image_size c im
    = vertical_pixels (repeat val n) width height image_size c im.
Proof.
  induction n as [|n IH]; intros c im; cbn [DecompressVertically_run repeat vertical_pixels].
  - reflexivity.
  - destruct (image_size <=? _); [reflexivity|].
    destruct (_ <? _)%nat; [|reflexivity]. apply IH.
Qed.

Lemma vertical_pixels_app (a b : list Z) (width height image_size : Z) :
  forall c im,
    vertical_pixels (a ++ b) width height image_size c im
    = ('(go, c1, im1) <- vertical_pixels a width height image_size c im ;;
       if (go : bool) then vertical_pixels b width height image_size c1 im1
       else Ret (false, c1, im1)).
Proof.
  induction a as [|p a IH]; intros c im; cbn [app vertical_pixels bind].
  - reflexivity.
  - destruct (image_size <=? _); [reflexivity|].
    destruct (_ <? _)%nat; [|reflexivity]. apply IH.
Qed.

(** The loop of [DecompressVertically] stores the pixels that the pairs
    of the stream stand for. *)
Lemma DecompressVertically_loop_pixels (fuel : nat) :
  forall buffer size width height image_size r c im pairs,
    all_pairs fuel buffer size r = Ret pairs ->
    DecompressVertically_loop fuel buffer size width height image_size r c im
    = ('(go, _, im1) <- vertical_pixels (expand pairs) width height image_size c im ;;
       Ret (go, im1)).
Proof.
  induction fuel as [|f IH];
    intros buffer size width height image_size r c im pairs Hp;
    cbn [all_pairs] in Hp; [discriminate|].
  cbn [DecompressVertically_loop].
  destruct (GetValCount buffer size r) as [[o r1]|] eqn:E; cbn [bind] in *;
    [|discriminate].
  destruct o as [[count val]|].
  - destruct (all_pairs f buffer size r1) as [rest|] eqn:Er; cbn [bind] in Hp;
      [|discriminate].
    inversion Hp; subst pairs; clear Hp.
    unfold expand. cbn [flat_map fst snd]. fold (expand rest).
    rewrite vertical_pixels_app, run_is_pixels.
    destruct (vertical_pixels (repeat val (Z.to_nat count)) width height
                              image_size c im) as [[[go c1] im1]|] eqn:Ev;
      cbn [bind]; [|reflexivity].
    destruct go; [|reflexivity].
    apply IH. exact Er.
  - inversion Hp; subst pairs. reflexivity.
Qed.

Lemma cursor_next (H : Z) (k : nat) :
  1 <= H ->
  (if Z.of_nat k mod H + 1 =? H
   then {| cx := Z.of_nat k / H + 1; cy := 0 |}
   else {| cx := Z.of_nat k / H; cy := Z.of_nat k mod H + 1 |})
  = cursor_at H (S k).
Proof.
  intros HH. unfold cursor_at. rewrite Nat2Z.inj_succ.
  pose proof (Z.div_mod (Z.of_nat k) H ltac:(lia)) as Hdm.
  pose proof (Z.mod_pos_bound (Z.of_nat k) H ltac:(lia)) as Hm.
  destruct (Z.of_nat k mod H + 1 =? H) eqn:E.
  - apply Z.eqb_eq in E.
    assert (Z.succ (Z.of_nat k) = (Z.of_nat k / H + 1) * H + 0) as Heq by nia.
    f_equal.
    + apply (Z.div_unique _ _ _ 0); [lia|]. lia.
    + apply (Z.mod_unique _ _ (Z.of_nat k / H + 1)); [lia|]. lia.
  - apply Z.eqb_neq in E.
    assert (Z.succ (Z.of_nat k) = H * (Z.of_nat k / H) + (Z.of_nat k mod H + 1))
      as Heq by lia.
    f_equal.
    + apply (Z.div_unique _ _ _ (Z.of_nat k mod H + 1)); [lia|exact Heq].
    + apply (Z.mod_unique _ _ (Z.of_nat k / H)); [lia|exact Heq].
Qed.

Lemma place_in_image (W H : Z) (k : nat) :
  1 <= W -> 1 <= H -> Z.of_nat k < W * H ->
  0 <= Z.of_nat k mod H * W + Z.of_nat k / H < W * H.
Proof.
  intros HW HH Hk.
  pose proof (Z.div_mod (Z.of_nat k) H ltac:(lia)) as Hdm.
  pose proof (Z.mod_pos_bound (Z.of_nat k) H ltac:(lia)) as Hm.
  assert (0 <= Z.of_nat k / H) by (apply Z.div_pos; lia).
  assert (Z.of_nat k / H < W) by (apply Z.div_lt_upper_bound; lia).
  nia.
Qed.

(** Pixels that fit the image are stored at their places, and the
    cursor moves down the columns. *)
Lemma vertical_pixels_stores (W H : Z) (ps : list Z) :
  forall k im,
    1 <= W -> 1 <= H -> W * H < 18446744073709551616 ->
    Z.of_nat (k + length ps) <= W * H ->
    Z.of_nat (length (dec_buffer im)) = W * H ->
    vertical_pixels ps W H (W * H) (cursor_at H k) im
    = Ret (true, cursor_at H (k + length ps),
           {| dec_buffer := stored W H ps k (dec_buffer im);
              dec_buffer_alloc := dec_buffer_alloc im;
              dec_buffer_index :=
                match ps with
                | [] => dec_buffer_index im
                | _ => Z.of_nat (place W H (k + length ps - 1))
                end |}).
Proof.
  induction ps as [|p ps IH]; intros k im HW HH Hmax Hk Hlen.
  - cbn [vertical_pixels stored length]. rewrite Nat.add_0_r.
    destruct im; reflexivity.
  - cbn [length] in Hk. cbn [vertical_pixels stored].
    change (cy (cursor_at H k)) with (Z.of_nat k mod H).
    change (cx (cursor_at H k)) with (Z.of_nat k / H).
    pose proof (place_in_image W H k HW HH ltac:(lia)) as Hpl.
    pose proof (Z.mod_pos_bound (Z.of_nat k) H ltac:(lia)) as Hm.
    assert (0 <= Z.of_nat k / H) as Hq by (apply Z.div_pos; lia).
    assert (Z.of_nat k / H < W) as Hq2 by (apply Z.div_lt_upper_bound; lia).
    rewrite (u64_small (Z.of_nat k mod H * W + Z.of_nat k / H)) by lia.
    replace (W * H <=? Z.of_nat k mod H * W + Z.of_nat k / H) with false
      by (symmetry; apply Z.leb_gt; lia).
    replace (Z.to_nat (Z.of_nat k mod H * W + Z.of_nat k / H)
             <? length (dec_buffer im))%nat with true
      by (symmetry; apply Nat.ltb_lt; lia).
    rewrite (u64_small (Z.of_nat k mod H + 1)) by nia.
    rewrite (u64_small (Z.of_nat k / H + 1)) by nia.
    rewrite (cursor_next H k HH).
    rewrite IH; try assumption.
    + cbn [dec_buffer dec_buffer_alloc dec_buffer_index length].
      replace (S k + length ps)%nat with (k + S (length ps))%nat by lia.
      fold (place W H k).
      f_equal. f_equal. f_equal.
      destruct ps as [|q ps].
      * cbn [length]. replace (k + 1 - 1)%nat with k by lia.
        unfold place. rewrite Z2Nat.id by lia. reflexivity.
      * cbn [length].
        replace (S k + S (length ps) - 1)%nat with (k + S (S (length ps)) - 1)%nat
          by lia.
        reflexivity.
    + lia.
    + cbn [dec_buffer]. rewrite store_length. exact Hlen.
Qed.

Lemma stored_length (W H : Z) (ps : list Z) :
  forall k dec, length (stored W H ps k dec) = length dec.
Proof.
  induction ps as [|p ps IH]; intros k dec; cbn [stored]; [reflexivity|].
  rewrite IH. apply store_length.
Qed.

(** Storing the pixels of an image at their places gives the image,
    whatever was there before. *)
Lemma stored_agrees (W H : Z) (buffer ps : list Z) :
  forall k dec,
    (forall j, (j < length ps)%nat ->
               nth j ps 0 = nth (place W H (k + j)) buffer 0
               /\ (place W H (k + j) < length dec)%nat) ->
    forall i,
      (nth i dec 0 = nth i buffer 0
       \/ exists j, (j < length ps)%nat /\ place W H (k + j) = i) ->
      nth i (stored W H ps k dec) 0 = nth i buffer 0.
Proof.
  induction ps as [|p ps IH]; intros k dec Hps i Hi; cbn [stored].
  - destruct Hi as [Hi|[j [Hj _]]]; [exact Hi|simpl in Hj; lia].
  - destruct (Hps O ltac:(simpl; lia)) as [Hp Hin]. rewrite Nat.add_0_r in Hp, Hin.
    cbn [nth] in Hp.
    apply IH.
    + intros j Hj. destruct (Hps (S j) ltac:(simpl; lia)) as [H1 H2].
      cbn [nth] in H1. replace (S k + j)%nat with (k + S j)%nat by lia.
      split; [exact H1|rewrite store_length; exact H2].
    + destruct (Nat.eq_dec (place W H k) i) as [Heq|Hne].
      * left. subst i. rewrite store_nth_same by exact Hin. exact Hp.
      * destruct Hi as [Hi|[j [Hj Hpj]]].
        -- left. rewrite store_nth_other by exact Hne. exact Hi.
        -- destruct j as [|j]; [rewrite Nat.add_0_r in Hpj; contradiction|].
           right. exists j. split; [simpl in Hj; lia|].
           replace (S k + j)%nat with (k + S j)%nat by lia. exact Hpj.
Qed.

Lemma rows_nth {A : Type} (g : nat -> nat -> A) (h : nat) (d : A) :
  forall n a k,
    (k < n * h)%nat ->
    nth k (flat_map (fun x => map (g x) (seq 0 h)) (seq a n)) d
    = g (a + k / h)%nat (k mod h)%nat.
Proof.
  induction n as [|n IH]; intros a k Hk; [simpl in Hk; lia|].
  assert (h <> 0)%nat as Hh by (intros ->; lia).
  cbn [seq flat_map].
  destruct (Nat.lt_ge_cases k h) as [Hlt|Hge].
  - rewrite app_nth1 by (rewrite length_map, length_seq; exact Hlt).
    rewrite (nth_indep _ d (g a O)) by (rewrite length_map, length_seq; exact Hlt).
    rewrite map_nth, seq_nth by exact Hlt.
    rewrite Nat.div_small, Nat.mod_small by exact Hlt.
    rewrite Nat.add_0_r. reflexivity.
  - rewrite app_nth2 by (rewrite length_map, length_seq; exact Hge).
    rewrite length_map, length_seq.
    rewrite IH by (simpl in Hk; lia).
    assert (k = (k - h) + 1 * h)%nat as Hk' by lia.
    rewrite Hk' at 3 4.
    rewrite Nat.div_add, Nat.Div0.mod_add by exact Hh.
    f_equal. lia.
Qed.

Lemma place_nat (W H : Z) (k : nat) :
  0 <= W -> 1 <= H ->
  place W H k = (k mod Z.to_nat H * Z.to_nat W + k / Z.to_nat H)%nat.
Proof.
  intros HW HH. unfold place.
  assert (H = Z.of_nat (Z.to_nat H)) as EH by lia.
  assert (W = Z.of_nat (Z.to_nat W)) as EW by lia.
  rewrite EH at 1 2. rewrite EW at 1.
  rewrite <- Nat2Z.inj_mod, <- Nat2Z.inj_div, <- Nat2Z.inj_mul, <- Nat2Z.inj_add.
  apply Nat2Z.id.
Qed.

(** The pixels in the order of [VerticalScanning], by position. *)
Lemma column_major_nth (buffer : list Z) (W H : Z) (k : nat) :
  1 <= W -> 1 <= H -> Z.of_nat k < W * H ->
  nth k (column_major buffer W H) 0 = nth (place W H k) buffer 0.
Proof.
  intros HW HH Hk. unfold column_major, vertical_positions.
  set (f := fun xy : nat * nat => nth (snd xy * Z.to_nat W + fst xy) buffer 0).
  rewrite (nth_indep _ 0 (f (O, O))).
  - rewrite map_nth.
    rewrite (rows_nth (fun x y => (x, y))) by nia.
    unfold f. cbn [fst snd Nat.add]. rewrite place_nat by lia. reflexivity.
  - rewrite length_map.
    pose proof (vertical_positions_length W H ltac:(lia) ltac:(lia)) as Hl.
    unfold vertical_positions in Hl. lia.
Qed.

Lemma place_onto (W H : Z) (i : nat) :
  1 <= W -> 1 <= H -> Z.of_nat i < W * H ->
  exists j, Z.of_nat j < W * H /\ place W H j = i.
Proof.
  intros HW HH Hi.
  set (w := Z.to_nat W). set (h := Z.to_nat H).
  assert (i < w * h)%nat as Hi' by (unfold w, h; nia).
  assert (w <> 0 /\ h <> 0)%nat as [Hw Hh] by (unfold w, h; lia).
  pose proof (Nat.mod_upper_bound i w Hw) as Hm.
  assert (i / w < h)%nat as Hq by (apply Nat.Div0.div_lt_upper_bound; lia).
  exists (i mod w * h + i / w)%nat. split.
  - assert (i mod w * h + i / w < w * h)%nat by nia. unfold w, h in *. nia.
  - rewrite place_nat by lia. fold w h.
    rewrite (Nat.div_add_l (i mod w) h (i / w)) by exact Hh.
    rewrite (Nat.div_small (i / w) h) by exact Hq. rewrite Nat.add_0_r.
    rewrite (Nat.add_comm (i mod w * h) (i / w)).
    rewrite Nat.Div0.mod_add, (Nat.mod_small (i / w) h) by exact Hq.
    pose proof (Nat.div_mod_eq i w). lia.
Qed.

Lemma place_last (W H : Z) :
  1 <= W -> 1 <= H ->
  Z.of_nat (place W H (Z.to_nat (W * H) - 1)) = W * H - 1.
Proof.
  intros HW HH. unfold place.
  replace (Z.of_nat (Z.to_nat (W * H) - 1)) with (W * H - 1) by nia.
  assert (W * H - 1 = H * (W - 1) + (H - 1)) as Heq by ring.
  rewrite <- (Z.div_unique (W * H - 1) H (W - 1) (H - 1)) by lia.
  rewrite <- (Z.mod_unique (W * H - 1) H (W - 1) (H - 1)) by lia.
  nia.
Qed.

(** [Decompress] on the stream of the vertical scan. *)
Lemma vertical_decoded (x : list Z) (W H : Z) (m : bool) :
  1 <= W -> 1 <= H -> W * H < 4294967296 ->
  Z.of_nat (length x) = W * H ->
  let file := vertical_stream x W H m in
  Decompress file (length file)
  = Ret {| ok := true; convert_from_model := m; out_size := W * H; out := x |}.
Proof.
  intros HW HH HWH Hlen file.
  assert (0 <= W < 4294967296) as HW' by nia.
  assert (0 <= H < 4294967296) as HH' by nia.
  set (cm := column_major x W H).
  pose proof (column_major_length x W H ltac:(lia) ltac:(lia)) as Hcm. fold cm in Hcm.
  assert (file = header_bytes (scan_settings false m) W H
                 ++ pack (flat_map run_bytes_of (runs cm))) as Hfile.
  { subst file. unfold vertical_stream.
    rewrite vertical_settings_flags. reflexivity. }
  set (header := header_bytes (scan_settings false m) W H) in *.
  set (payload := pack (flat_map run_bytes_of (runs cm))) in *.
  assert (length header <= length file)%nat as Hsz
      by (rewrite Hfile, length_app; lia).
  destruct (GetSize_header false m W H payload (length file) HW' HH' Hsz)
    as [settings [Hread [Hs [Hm Hget]]]].
  fold header in Hread, Hget. rewrite <- Hfile in Hread, Hget.
  assert (all_pairs (S (length file)) file (length file)
                    {| index := length header; bit_index := 0; byte := 0 |}
          = Ret (runs cm)) as Hpairs.
  { rewrite Hfile. apply (stream_pairs header cm).
    change (2 ^ 56) with 72057594037927936. lia. }
  unfold Decompress.
  replace (length file =? 0)%nat with false
    by (symmetry; apply Nat.eqb_neq; rewrite Hfile, length_app;
        subst header; rewrite header_bytes_length; lia).
  rewrite Hread. cbn [bind]. rewrite Hget. cbn [bind].
  rewrite Hs, Hm. rewrite u32_small by lia.
  unfold DecompressVertically.
  rewrite (u64_small (W * H)) by lia.
  rewrite (DecompressVertically_loop_pixels _ _ _ _ _ _ _ _ _ _ Hpairs).
  rewrite expand_runs.
  change {| cx := 0; cy := 0 |} with (cursor_at H 0).
  rewrite vertical_pixels_stores;
    cbn [dec_buffer dec_buffer_alloc dec_buffer_index];
    [|lia|lia|lia|lia|rewrite repeat_length; lia].
  cbn [bind negb].
  destruct cm as [|c0 cm'] eqn:Ecm; [simpl in Hcm; lia|]. rewrite <- Ecm in *.
  replace (0 + length cm - 1)%nat with (Z.to_nat (W * H) - 1)%nat by lia.
  rewrite place_last by lia.
  rewrite (u64_small (W * H - 1)) by lia. rewrite Z.eqb_refl. cbn [negb bind].
  unfold finish. cbn [fst snd dec_buffer dec_buffer_index dec_buffer_alloc].
  assert (length (stored W H cm 0 (repeat 0 (Z.to_nat (W * H)))) = length x) as Hl.
  { rewrite stored_length, repeat_length. lia. }
  set (dec := stored W H cm 0 (repeat 0 (Z.to_nat (W * H)))) in *.
  replace (Z.to_nat (W * H)) with (length dec) by lia.
  rewrite firstn_all. f_equal. f_equal.
  apply (nth_ext _ _ 0 0); [exact Hl|].
  intros i Hi. rewrite Hl in Hi. unfold dec.
  apply stored_agrees.
  - intros j Hj. cbn [Nat.add]. split.
    + apply column_major_nth; lia.
    + rewrite repeat_length.
      pose proof (place_in_image W H j HW HH ltac:(lia)) as Hp.
      unfold place. lia.
  - right. destruct (place_onto W H i HW HH ltac:(lia)) as [j [Hj Hp]].
    exists j. split; [lia|exact Hp].
Qed.

Lemma place_injective (W H : Z) (j k : nat) :
  1 <= W -> 1 <= H -> Z.of_nat j < W * H -> Z.of_nat k < W * H ->
  place W H j = place W H k -> j = k.
Proof.
  intros HW HH Hj Hk E. rewrite !place_nat in E by lia.
  set (w := Z.to_nat W) in *. set (h := Z.to_nat H) in *.
  assert (w <> 0 /\ h <> 0)%nat as [Hw Hh] by (unfold w, h; lia).
  assert (j / h < w)%nat as Hjq by (apply Nat.Div0.div_lt_upper_bound; unfold w, h; nia).
  assert (k / h < w)%nat as Hkq by (apply Nat.Div0.div_lt_upper_bound; unfold w, h; nia).
  assert ((j mod h * w + j / h) / w = j mod h)%nat as E1.
  { rewrite Nat.div_add_l by exact Hw. rewrite (Nat.div_small (j / h) w) by exact Hjq.
    lia. }
  assert ((k mod h * w + k / h) / w = k mod h)%nat as E2.
  { rewrite Nat.div_add_l by exact Hw. rewrite (Nat.div_small (k / h) w) by exact Hkq.
    lia. }
  assert (j mod h = k mod h)%nat as Em by (rewrite <- E1, <- E2, E; reflexivity).
  assert (j / h = k / h)%nat as Eq by (rewrite Em in E; lia).
  rewrite (Nat.div_mod_eq j h), (Nat.div_mod_eq k h), Em, Eq. reflexivity.
Qed.

Lemma stored_elsewhere (W H : Z) (ps : list Z) :
  forall k dec i,
    (forall j, (j < length ps)%nat -> place W H (k + j) <> i) ->
    nth i (stored W H ps k dec) 0 = nth i dec 0.
Proof.
  induction ps as [|p ps IH]; intros k dec i Hi; cbn [stored]; [reflexivity|].
  rewrite IH.
  - apply store_nth_other. specialize (Hi O ltac:(simpl; lia)).
    rewrite Nat.add_0_r in Hi. exact Hi.
  - intros j Hj. specialize (Hi (S j) ltac:(simpl; lia)).
    replace (S k + j)%nat with (k + S j)%nat by lia. exact Hi.
Qed.

(** Pixels that fit the image are found at their places. *)
Lemma stored_nth (W H : Z) (ps : list Z) :
  forall k dec j,
    1 <= W -> 1 <= H ->
    Z.of_nat (k + length ps) <= W * H ->
    Z.of_nat (length dec) = W * H ->
    (j < length ps)%nat ->
    nth (place W H (k + j)) (stored W H ps k dec) 0 = nth j ps 0.
Proof.
  induction ps as [|p ps IH]; intros k dec j HW HH Hk Hlen Hj;
    cbn [length] in *; [lia|].
  cbn [stored]. destruct j as [|j].
  - rewrite Nat.add_0_r. cbn [nth]. rewrite stored_elsewhere.
    + apply store_nth_same.
      pose proof (place_in_image W H k HW HH ltac:(lia)) as Hp. unfold place. lia.
    + intros j Hj' E. apply place_injective in E; lia.
  - cbn [nth]. replace (k + S j)%nat with (S k + j)%nat by lia.
    apply IH; try assumption; try lia.
    rewrite store_length. exact Hlen.
Qed.

(** Pixels after the last column: they are stored in the rows below
    the first one until the bottom row is reached, where the loop
    gives up. *)
Lemma vertical_pixels_past (W H : Z) (ps : list Z) :
  forall y im,
    1 <= W -> 1 <= H -> W * H < 18446744073709551616 ->
    0 <= y < H ->
    Z.of_nat (length (dec_buffer im)) = W * H ->
    ps <> [] ->
    exists go c im',
      vertical_pixels ps W H (W * H) {| cx := W; cy := y |} im = Ret (go, c, im')
      /\ (go = true <-> y + Z.of_nat (length ps) <= H - 1)
      /\ (go = true -> dec_buffer_index im' = (y + Z.of_nat (length ps)) * W).
Proof.
  induction ps as [|p ps IH]; intros y im HW HH Hmax Hy Hlen Hne; [contradiction|].
  cbn [vertical_pixels cx cy length].
  rewrite (u64_small (y * W + W)) by nia.
  destruct (W * H <=? y * W + W) eqn:E.
  - apply Z.leb_le in E. do 3 eexists. split; [reflexivity|].
    split; [|discriminate]. split; [discriminate|]. intros Hle. nia.
  - apply Z.leb_gt in E.
    replace (Z.to_nat (y * W + W) <? length (dec_buffer im))%nat with true
      by (symmetry; apply Nat.ltb_lt; lia).
    rewrite (u64_small (y + 1)) by nia.
    replace (y + 1 =? H) with false by (symmetry; apply Z.eqb_neq; nia).
    destruct ps as [|q ps].
    + cbn [vertical_pixels length]. do 3 eexists. split; [reflexivity|].
      cbn [dec_buffer_index]. split; [split; [intros _; nia|reflexivity]|].
      intros _. lia.
    + destruct (IH (y + 1)
                   {| dec_buffer := store (dec_buffer im) (Z.to_nat (y * W + W)) p;
                      dec_buffer_alloc := dec_buffer_alloc im;
                      dec_buffer_index := y * W + W |})
        as [go [c [im' [Hrun [Hgo Hidx]]]]]; try assumption.
      * nia.
      * cbn [dec_buffer]. rewrite store_length. exact Hlen.
      * discriminate.
      * exists go, c, im'. split; [exact Hrun|].
        cbn [length] in *. split.
        -- rewrite Hgo. lia.
        -- intros Ht. rewrite (Hidx Ht). f_equal. lia.
Qed.

Lemma all_pairs_counts (fuel : nat) :
  forall buffer size r pairs,
    all_pairs fuel buffer size r = Ret pairs ->
    Forall (fun cv => 1 <= fst cv < 2 ^ 57) pairs.
Proof.
  induction fuel as [|f IH]; intros buffer size r pairs Hp;
    cbn [all_pairs] in Hp; [discriminate|].
  destruct (GetValCount buffer size r) as [[o r1]|] eqn:E; cbn [bind] in Hp;
    [|discriminate].
  destruct o as [[c v]|].
  - destruct (all_pairs f buffer size r1) as [rest|] eqn:Er; cbn [bind] in Hp;
      [|discriminate].
    inversion Hp; subst pairs. constructor.
    + cbn [fst]. exact (GetValCount_range _ _ _ _ _ _ E).
    + exact (IH _ _ _ _ Er).
  - inversion Hp. constructor.
Qed.

Lemma expand_length (pairs : list (Z * Z)) :
  Forall (fun cv => 0 <= fst cv) pairs ->
  Z.of_nat (length (expand pairs)) = total pairs.
Proof.
  induction pairs as [|[c v] pairs IH]; intros Hp; [reflexivity|].
  unfold expand, total in *. cbn [flat_map fold_right fst snd].
  rewrite length_app, repeat_length, Nat2Z.inj_add.
  rewrite IH by exact (Forall_inv_tail Hp).
  pose proof (Forall_inv Hp) as Hc. cbn [fst] in Hc. lia.
Qed.

(** What [DecompressVertically] makes of a sequence of pixels: the loop
    is completed on the last position of the image exactly when there
    are [W * H] pixels or, for an image of width 1, [2 * H - 1]. *)
Lemma vertical_outcome (W H : Z) (ps : list Z) (im : image) :
  1 <= W -> 1 <= H -> W * H < 18446744073709551616 ->
  Z.of_nat (length (dec_buffer im)) = W * H ->
  ps <> [] ->
  exists go c im',
    vertical_pixels ps W H (W * H) (cursor_at H 0) im = Ret (go, c, im')
    /\ ((go = true /\ dec_buffer_index im' = W * H - 1)
        <-> (Z.of_nat (length ps) = W * H
             \/ (W = 1 /\ Z.of_nat (length ps) = 2 * H - 1)))
    /\ (Z.of_nat (length ps) = W * H ->
        dec_buffer im' = stored W H ps 0 (dec_buffer im)).
Proof.
  intros HW HH Hmax Hlen Hne.
  destruct (Z_le_gt_dec (Z.of_nat (length ps)) (W * H)) as [Hfit|Hover].
  - rewrite vertical_pixels_stores by (try assumption; lia).
    do 3 eexists. split; [reflexivity|].
    cbn [dec_buffer dec_buffer_index]. split; [|reflexivity].
    destruct ps as [|p ps]; [contradiction|].
    set (T := length (p :: ps)) in *.
    assert (1 <= T)%nat as HT by (unfold T; simpl; lia).
    replace (0 + T - 1)%nat with (T - 1)%nat by lia.
    pose proof (place_last W H HW HH) as Hlast.
    split.
    + intros [_ Hidx]. left.
      assert (place W H (T - 1) = place W H (Z.to_nat (W * H) - 1)) as E by lia.
      apply place_injective in E; try assumption; nia.
    + intros [E|[E1 E2]].
      * split; [reflexivity|].
        replace (T - 1)%nat with (Z.to_nat (W * H) - 1)%nat by lia. exact Hlast.
      * split; [reflexivity|].
        replace (T - 1)%nat with (Z.to_nat (W * H) - 1)%nat by nia. exact Hlast.
  - set (n := Z.to_nat (W * H)).
    assert (n < length ps)%nat as Hn by (unfold n; lia).
    pose proof (vertical_pixels_app (firstn n ps) (skipn n ps) W H (W * H)
                                    (cursor_at H 0) im) as Happ.
    rewrite firstn_skipn in Happ.
    rewrite (vertical_pixels_stores W H (firstn n ps) 0 im) in Happ; try assumption;
      [|rewrite firstn_length_le by lia; unfold n; lia].
    cbn [bind] in Happ. rewrite firstn_length_le in Happ by lia.
    cbn [Nat.add] in Happ.
    assert (cursor_at H n = {| cx := W; cy := 0 |}) as Hc.
    { unfold cursor_at, n. rewrite Z2Nat.id by nia.
      rewrite Z.div_mul, Z.mod_mul by lia. reflexivity. }
    rewrite Hc in Happ.
    match type of Happ with
    | context [vertical_pixels (skipn n ps) W H (W * H) _ ?i] => set (im1 := i) in *
    end.
    destruct (vertical_pixels_past W H (skipn n ps) 0 im1)
      as [go [c [im' [Hrun [Hgo Hidx]]]]]; try assumption; try lia.
    { unfold im1. cbn [dec_buffer]. rewrite stored_length. exact Hlen. }
    { intros E. apply (f_equal (@length Z)) in E. rewrite length_skipn in E.
      simpl in E. lia. }
    rewrite Hrun in Happ.
    exists go, c, im'. split; [exact Happ|].
    rewrite length_skipn in Hgo, Hidx.
    split; [|intros E; lia].
    split.
    + intros [Ht Hi]. right. rewrite (Hidx Ht) in Hi.
      apply Hgo in Ht. unfold n in *. nia.
    + intros [E|[E1 E2]]; [lia|].
      subst W. assert (go = true) as Ht by (apply Hgo; unfold n; lia).
      split; [exact Ht|]. rewrite (Hidx Ht). unfold n. lia.
Qed.

(** X5: the vertical reconstruction against the pairs of the stream.
    For a stream whose settings byte selects the vertical
    reconstruction, with a header that declares an image of [W * H]
    pixels, and whose payload holds the pairs [pairs]: [Decompress]
    returns true exactly when the counts of the pairs add up to
    [W * H] or, for an image of width 1, to [2 * H - 1] (the pixels
    after the first [H] are then stored over the rows 1 to [H - 1]).
    When they add up to [W * H] the output is the image whose columns,
    from top to bottom and from left to right, are the pixels of the
    pairs. *)
Theorem vertical_fill (buffer : list Z) (size : nat) (settings W H : Z)
        (index0 : nat) (pairs : list (Z * Z)) :
  size <> O ->
  read buffer 0 = Ret settings ->
  Z.land settings SCANNING_MASK = 0 ->
  GetSize buffer size = Ret (Some (W, H, index0)) ->
  1 <= W -> 1 <= H -> W * H < 4294967296 ->
  all_pairs (S size) buffer size {| index := index0; bit_index := 0; byte := 0 |}
  = Ret pairs ->
  pairs <> [] ->
  exists d,
    Decompress buffer size = Ret d
    /\ (ok d = true
        <-> total pairs = W * H \/ (W = 1 /\ total pairs = 2 * H - 1))
    /\ (total pairs = W * H ->
        out_size d = W * H
        /\ length (out d) = Z.to_nat (W * H)
        /\ forall k, Z.of_nat k < W * H ->
                     nth (place W H k) (out d) 0 = nth k (expand pairs) 0)
    /\ convert_from_model d = negb (Z.land settings MODEL_MASK =? 0).
Proof.
  intros Hsize Hread Hscan Hget HW HH HWH Hpairs Hne.
  pose proof (all_pairs_counts _ _ _ _ _ Hpairs) as Hcounts.
  assert (Z.of_nat (length (expand pairs)) = total pairs) as Htotal.
  { apply expand_length. eapply Forall_impl; [|exact Hcounts].
    cbn beta. intros cv Hcv. lia. }
  assert (expand pairs <> []) as Hps.
  { destruct pairs as [|[c v] rest]; [contradiction|].
    pose proof (Forall_inv Hcounts) as Hc. cbn [fst] in Hc.
    unfold expand. cbn [flat_map fst snd].
    destruct (Z.to_nat c) as [|n] eqn:E; [lia|]. discriminate. }
  set (im0 := {| dec_buffer := repeat 0 (Z.to_nat (W * H));
                 dec_buffer_alloc := W * H; dec_buffer_index := 0 |}).
  destruct (vertical_outcome W H (expand pairs) im0 HW HH ltac:(lia))
    as [go [c [im' [Hrun [Hok Hdec]]]]]; [|exact Hps|].
  { cbn [dec_buffer im0]. rewrite repeat_length. lia. }
  rewrite Htotal in Hok, Hdec.
  unfold Decompress.
  replace (size =? 0)%nat with false by (symmetry; apply Nat.eqb_neq; exact Hsize).
  rewrite Hread. cbn [bind]. rewrite Hget. cbn [bind].
  replace (Z.land settings SCANNING_MASK =? 0) with true
    by (symmetry; apply Z.eqb_eq; exact Hscan).
  cbn [negb]. rewrite u32_small by lia. fold im0.
  unfold DecompressVertically.
  rewrite (u64_small (W * H)) by lia.
  rewrite (DecompressVertically_loop_pixels _ _ _ _ _ _ _ _ _ _ Hpairs).
  change {| cx := 0; cy := 0 |} with (cursor_at H 0).
  rewrite Hrun. cbn [bind].
  rewrite (u64_small (W * H - 1)) by lia.
  destruct go; cbn [negb].
  - destruct (dec_buffer_index im' =? W * H - 1) eqn:E; cbn [negb bind].
    + apply Z.eqb_eq in E.
      eexists. split; [reflexivity|].
      unfold finish. cbn [ok out_size out convert_from_model fst snd
                             dec_buffer dec_buffer_index].
      split; [split; [intros _; apply Hok; split; [reflexivity|exact E]
                     |reflexivity]|].
      split; [|reflexivity].
      intros Ht. rewrite (Hdec Ht). cbn [dec_buffer im0].
      assert (length (stored W H (expand pairs) 0 (repeat 0 (Z.to_nat (W * H))))
              = Z.to_nat (W * H)) as Hl
          by (rewrite stored_length, repeat_length; reflexivity).
      split; [reflexivity|].
      set (dec := stored W H (expand pairs) 0 (repeat 0 (Z.to_nat (W * H)))) in *.
      replace (firstn (Z.to_nat (W * H)) dec) with dec
        by (rewrite <- Hl, firstn_all; reflexivity).
      split; [exact Hl|].
      intros k Hk. unfold dec.
      apply (stored_nth W H (expand pairs) 0 _ k); try assumption; try lia.
      rewrite repeat_length. lia.
    + apply Z.eqb_neq in E.
      eexists. split; [reflexivity|].
      unfold finish. cbn [ok out_size out convert_from_model fst snd].
      split; [split; [discriminate|]|].
      * intros Ht. apply Hok in Ht. destruct Ht as [_ Ht]. contradiction.
      * split; [|reflexivity]. intros Ht.
        assert (true = true /\ dec_buffer_index im' = W * H - 1) as [_ Hi]
            by (apply Hok; left; exact Ht).
        contradiction.
  - eexists. split; [reflexivity|].
    unfold finish. cbn [ok out_size out convert_from_model fst snd].
    split; [split; [discriminate|]|].
    + intros Ht. apply Hok in Ht. destruct Ht as [Ht _]. discriminate.
    + split; [|reflexivity]. intros Ht.
      assert (false = true /\ dec_buffer_index im' = W * H - 1) as [Hf _]
          by (apply Hok; left; exact Ht).
      discriminate.
Qed.

Lemma vertical_fill_witness :
  exists d,
    Decompress [0; 1; 2; 0; 7; 8; 9] 7 = Ret d
    /\ (ok d = true
        <-> total [(1, 7); (1, 8); (1, 9)] = 1 * 2
            \/ (1 = 1 /\ total [(1, 7); (1, 8); (1, 9)] = 2 * 2 - 1)).
Proof.
  destruct (vertical_fill [0; 1; 2; 0; 7; 8; 9] 7 0 1 2 3
                          [(1, 7); (1, 8); (1, 9)])
    as [d [Hd [Hok _]]].
  - discriminate.
  - reflexivity.
  - reflexivity.
  - reflexivity.
  - lia.
  - lia.
  - lia.
  - vm_compute. reflexivity.
  - discriminate.
  - exists d. split; [exact Hd|exact Hok].
Defined.

End VerticalReconstruction.

(** ** The RLE stage as a whole *)

Section RleStage.
Import Rle RleCompressor RleDecompressor Format Trace Notions Reconstruction.

(** X6: [GetSize] reads back the header that [appendSettingsToBuff]
    wrote, for both settings bytes of the compressor and every width
    and height of 32 bits: it returns the width, the height and the
    position of the first group, and the two flags of the settings
    byte are the scan direction and the model flag.  The header has 3
    to 9 bytes; [appendSettingsToBuff] writes it to the first block of
    a compressor when [alloc_size] is not below its length. *)
Theorem header_round_trip (m : bool) (W H : Z) (payload : list Z) :
  0 <= W < 4294967296 ->
  0 <= H < 4294967296 ->
  let hh := header_bytes (horizontal_settings m) W H in
  let vh := header_bytes (vertical_settings m) W H in
  GetSize (hh ++ payload) (length (hh ++ payload)) = Ret (Some (W, H, length hh))
  /\ GetSize (vh ++ payload) (length (vh ++ payload)) = Ret (Some (W, H, length vh))
  /\ negb (Z.land (nth 0 hh 0) SCANNING_MASK =? 0) = true
  /\ negb (Z.land (nth 0 vh 0) SCANNING_MASK =? 0) = false
  /\ negb (Z.land (nth 0 hh 0) MODEL_MASK =? 0) = m
  /\ negb (Z.land (nth 0 vh 0) MODEL_MASK =? 0) = m
  /\ ((3 <= length hh <= 9)%nat /\ length vh = length hh)
  /\ (forall p : packer,
        encoded_buff p = [] -> encoded_alloc p = 0 ->
        Z.of_nat (length hh) <= alloc_size p ->
        exists ph pv,
          appendSettingsToBuff p (horizontal_settings m) W H = Ret ph
          /\ encoded_buff ph = hh
          /\ appendSettingsToBuff p (vertical_settings m) W H = Ret pv
          /\ encoded_buff pv = vh).
Proof.
  intros HW HH hh vh.
  assert (forall p : packer,
        encoded_buff p = [] -> encoded_alloc p = 0 ->
        Z.of_nat (length hh) <= alloc_size p ->
        exists ph pv,
          appendSettingsToBuff p (horizontal_settings m) W H = Ret ph
          /\ encoded_buff ph = hh
          /\ appendSettingsToBuff p (vertical_settings m) W H = Ret pv
          /\ encoded_buff pv = vh) as Hwrite.
  { intros p Hb Ha Hfit.
    rewrite (appendSettingsToBuff_returns p (horizontal_settings m) W H Hb Ha Hfit).
    rewrite (appendSettingsToBuff_returns p (vertical_settings m) W H Hb Ha)
      by (unfold hh, vh in *; rewrite header_bytes_length in *; exact Hfit).
    eexists. eexists. repeat split. }
  assert (length hh <= length (hh ++ payload))%nat as Lh
      by (rewrite length_app; lia).
  assert (length vh <= length (vh ++ payload))%nat as Lv
      by (rewrite length_app; lia).
  unfold hh, vh in *.
  rewrite horizontal_settings_flags, vertical_settings_flags in *.
  destruct (GetSize_header true m W H payload _ HW HH Lh)
    as [s1 [Hr1 [Hs1 [Hm1 Hg1]]]].
  destruct (GetSize_header false m W H payload _ HW HH Lv)
    as [s2 [Hr2 [Hs2 [Hm2 Hg2]]]].
  assert (forall h, nth 0 (header_bytes (scan_settings h m) W H) 0
                    = match read (header_bytes (scan_settings h m) W H
                                    ++ payload) 0 with
                      | Ret s => s
                      | Fault _ => 0
                      end) as Hhead
      by (intros h; reflexivity).
  rewrite !Hhead, Hr1, Hr2.
  split; [exact Hg1|]. split; [exact Hg2|].
  split; [exact Hs1|]. split; [exact Hs2|].
  split; [exact Hm1|]. split; [exact Hm2|].
  split; [|exact Hwrite].
  rewrite !header_bytes_length.
  rewrite !u32_small by assumption.
  destruct (size_vec_digits W HW) as [_ [_ Hlw]].
  destruct (size_vec_digits H HH) as [_ [_ Hlh]].
  lia.
Qed.

Lemma header_round_trip_witness :
  GetSize (header_bytes (horizontal_settings true) 640 480 ++ [0; 7])
          (length (header_bytes (horizontal_settings true) 640 480 ++ [0; 7]))
  = Ret (Some (640, 480,
               length (header_bytes (horizontal_settings true) 640 480))).
Proof.
  apply (header_round_trip true 640 480 [0; 7]); lia.
Defined.

(** X7: the RLE stage is lossless for the horizontal scan: for an
    image of two pixels or more whose first block of
    [W * H + W * H / 8 + 1] bytes fits 32 bits, [SequenceScanning]
    returns, and [Decompress] returns true on its stream, with the
    image as output and the model flag that was given to the
    compressor. *)
Theorem SequenceScanning_Decompress (x : list Z) (W H : Z) (m : bool) :
  1 <= W -> 1 <= H ->
  2 <= W * H -> W * H + W * H / 8 + 1 < 4294967296 ->
  Z.of_nat (length x) = W * H ->
  exists p,
    SequenceScanning (init W H) x W H m = Ret p
    /\ Decompress (encoded_buff p) (length (encoded_buff p))
       = Ret {| ok := true; convert_from_model := m; out_size := W * H;
                out := x |}.
Proof.
  intros HW HH H2 Hmax Hlen.
  assert (0 <= W * H / 8) as Hd by (apply Z.div_pos; lia).
  destruct (init_alloc_size W H HW HH H2 Hmax) as [Hs _].
  destruct (horizontal_returns (init W H) x W H m HW HH H2 Hmax Hlen
                               eq_refl eq_refl Hs) as [p [Hr [Hb _]]].
  exists p. split; [exact Hr|]. rewrite Hb.
  apply (horizontal_decoded x W H m); [exact HW|exact HH|lia|exact Hlen].
Qed.

Lemma SequenceScanning_Decompress_witness :
  exists p,
    SequenceScanning (init 3 2) [5; 5; 5; 9; 9; 0] 3 2 true = Ret p
    /\ Decompress (encoded_buff p) (length (encoded_buff p))
       = Ret {| ok := true; convert_from_model := true; out_size := 3 * 2;
                out := [5; 5; 5; 9; 9; 0] |}.
Proof.
  apply (SequenceScanning_Decompress [5; 5; 5; 9; 9; 0] 3 2 true);
    [lia|lia|lia|reflexivity|reflexivity].
Defined.

(** X8: the RLE stage is lossless for the vertical scan too: for an
    image of two pixels or more whose first block fits 32 bits,
    [appendSettingsToBuff] and [VerticalScanning] return, and the
    stream that they write, column by column, is decoded to the image
    in row order. *)
Theorem VerticalScanning_Decompress (x : list Z) (W H : Z) (m : bool) :
  1 <= W -> 1 <= H ->
  2 <= W * H -> W * H + W * H / 8 + 1 < 4294967296 ->
  Z.of_nat (length x) = W * H ->
  exists p,
    (p1 <- appendSettingsToBuff (init W H) (vertical_settings m) W H ;;
     VerticalScanning x p1 W H) = Ret p
    /\ Decompress (encoded_buff p) (length (encoded_buff p))
       = Ret {| ok := true; convert_from_model := m; out_size := W * H;
                out := x |}.
Proof.
  intros HW HH H2 Hmax Hlen.
  assert (0 <= W * H / 8) as Hd by (apply Z.div_pos; lia).
  destruct (init_alloc_size W H HW HH H2 Hmax) as [Hs _].
  destruct (vertical_returns (init W H) x W H m HW HH H2 Hmax
                             eq_refl eq_refl Hs) as [p [Hr [Hb _]]].
  exists p. split; [exact Hr|]. rewrite Hb.
  apply (vertical_decoded x W H m); [exact HW|exact HH|lia|exact Hlen].
Qed.

Lemma VerticalScanning_Decompress_witness :
  exists p,
    (p1 <- appendSettingsToBuff (init 3 2) (vertical_settings false) 3 2 ;;
     VerticalScanning [1; 2; 3; 1; 2; 4] p1 3 2) = Ret p
    /\ Decompress (encoded_buff p) (length (encoded_buff p))
       = Ret {| ok := true; convert_from_model := false; out_size := 3 * 2;
                out := [1; 2; 3; 1; 2; 4] |}.
Proof.
  apply (VerticalScanning_Decompress [1; 2; 3; 1; 2; 4] 3 2 false);
    [lia|lia|lia|reflexivity|reflexivity].
Defined.

(** X9: for an image of two pixels or more whose first block fits 32
    bits, the adaptive scan returns with the shorter of the two
    streams (the vertical one when they are equally long), so its
    output is never longer than that of the sequential scan, and
    [Decompress] gives the image back from it. *)
Theorem AdaptiveScanning_Decompress (x : list Z) (W H : Z) (m : bool) :
  1 <= W -> 1 <= H ->
  2 <= W * H -> W * H + W * H / 8 + 1 < 4294967296 ->
  Z.of_nat (length x) = W * H ->
  exists a s v,
    AdaptiveScanning (init W H) x W H m = Ret a
    /\ SequenceScanning (init W H) x W H m = Ret s
    /\ (p1 <- appendSettingsToBuff (init W H) (vertical_settings m) W H ;;
        VerticalScanning x p1 W H) = Ret v
    /\ Decompress (encoded_buff a) (length (encoded_buff a))
       = Ret {| ok := true; convert_from_model := m; out_size := W * H;
                out := x |}
    /\ length (encoded_buff a)
       = Nat.min (length (encoded_buff v)) (length (encoded_buff s))
    /\ (encoded_buff a = encoded_buff v
        <-> (length (encoded_buff v) <= length (encoded_buff s))%nat).
Proof.
  intros HW HH H2 Hmax Hlen.
  assert (0 <= W * H / 8) as Hd by (apply Z.div_pos; lia).
  destruct (init_alloc_size W H HW HH H2 Hmax) as [Hs _].
  destruct (horizontal_returns (init W H) x W H m HW HH H2 Hmax Hlen
                               eq_refl eq_refl Hs) as [s [Hr [Hb _]]].
  destruct (vertical_returns (init W H) x W H m HW HH H2 Hmax
                             eq_refl eq_refl Hs) as [v [Hv [Hvb _]]].
  destruct (adaptive_returns x W H m HW HH H2 Hmax Hlen) as [a [Ha Hab]].
  pose proof (horizontal_decoded x W H m HW HH ltac:(lia) Hlen) as Dh.
  pose proof (vertical_decoded x W H m HW HH ltac:(lia) Hlen) as Dv.
  cbv zeta in Dh, Dv.
  exists a, s, v. split; [exact Ha|]. split; [exact Hr|]. split; [exact Hv|].
  rewrite Hab, Hb, Hvb.
  destruct (length (vertical_stream x W H m)
            <=? length (horizontal_stream x W H m))%nat eqn:E.
  - apply Nat.leb_le in E. split; [exact Dv|]. split; [lia|].
    split; [intros _; exact E|reflexivity].
  - apply Nat.leb_gt in E. split; [exact Dh|]. split; [lia|].
    split; [|lia]. intros Heq. rewrite Heq in E. lia.
Qed.

Lemma AdaptiveScanning_Decompress_witness :
  exists a,
    AdaptiveScanning (init 2 3) [1; 2; 1; 2; 1; 2] 2 3 false = Ret a
    /\ Decompress (encoded_buff a) (length (encoded_buff a))
       = Ret {| ok := true; convert_from_model := false; out_size := 2 * 3;
                out := [1; 2; 1; 2; 1; 2] |}.
Proof.
  destruct (AdaptiveScanning_Decompress [1; 2; 1; 2; 1; 2] 2 3 false)
    as [a [s [v [Ha [_ [_ [Hd _]]]]]]];
    [lia|lia|lia|reflexivity|reflexivity|].
  exists a. split; [exact Ha|exact Hd].
Defined.

Lemma run_bytes_short (n v : Z) :
  1 <= n <= 4294967296 -> (length (run_bytes n v) <= 5)%nat.
Proof.
  intros Hn. unfold run_bytes. destruct (1 <? n) eqn:E; [|simpl; lia].
  apply Z.ltb_lt in E.
  rewrite length_app, length_map, length_rev. cbn [length].
  unfold counter_values. rewrite length_app.
  rewrite u64_small by lia.
  destruct (n =? 2) eqn:E2.
  - apply Z.eqb_eq in E2. subst n. simpl. lia.
  - pose proof (counter_loop_short 8 4 (n - 2)
                  ltac:(change (256 ^ Z.of_nat 4) with 4294967296; lia)).
    simpl length at 1. lia.
Qed.

(** X10: an image of one colour, of two pixels or more, is one run:
    [SequenceScanning] writes its header, one group byte, at most four
    counter fragments and the colour, so at most 15 bytes, and the
    adaptive scan does not write more. *)
Theorem uniform_image_size (v W H : Z) (m : bool) :
  1 <= W -> 1 <= H ->
  2 <= W * H -> W * H + W * H / 8 + 1 < 4294967296 ->
  let image := repeat v (Z.to_nat (W * H)) in
  let header := header_bytes (horizontal_settings m) W H in
  exists s a,
    SequenceScanning (init W H) image W H m = Ret s
    /\ AdaptiveScanning (init W H) image W H m = Ret a
    /\ encoded_buff s = header ++ pack (run_bytes (W * H) v)
    /\ (length (encoded_buff s) <= length header + 6)%nat
    /\ (length (encoded_buff s) <= 15)%nat
    /\ (length (encoded_buff a) <= length (encoded_buff s))%nat.
Proof.
  intros HW HH H2 Hmax image header.
  assert (0 <= W * H / 8) as Hd8 by (apply Z.div_pos; lia).
  assert (Z.of_nat (length image) = W * H) as Hlen
      by (unfold image; rewrite repeat_length; lia).
  destruct (init_alloc_size W H HW HH H2 Hmax) as [Hs _].
  destruct (horizontal_returns (init W H) image W H m HW HH H2 Hmax Hlen
                               eq_refl eq_refl Hs) as [s [Hr [Hb _]]].
  destruct (adaptive_returns image W H m HW HH H2 Hmax Hlen) as [a [Ha Hab]].
  assert (encoded_buff s = header ++ pack (run_bytes (W * H) v)) as Heq
      by (rewrite Hb; apply uniform_image; lia).
  pose proof (run_bytes_short (W * H) v ltac:(nia)) as Hrs.
  pose proof (pack_length (run_bytes (W * H) v)) as Hp.
  assert ((Z.of_nat (length (run_bytes (W * H) v)) + 7) / 8 <= 1) as Hd.
  { apply Z.lt_succ_r. apply Z.div_lt_upper_bound; lia. }
  assert (length header <= 9)%nat as Hh.
  { unfold header. rewrite header_bytes_length.
    assert (0 <= W < 4294967296) as HW' by nia.
    assert (0 <= H < 4294967296) as HH' by nia.
    rewrite !u32_small by assumption.
    destruct (size_vec_digits W HW') as [_ [_ Hlw]].
    destruct (size_vec_digits H HH') as [_ [_ Hlh]]. lia. }
  exists s, a. split; [exact Hr|]. split; [exact Ha|]. split; [exact Heq|].
  rewrite Hab, Heq, length_app.
  split; [lia|]. split; [lia|].
  rewrite <- length_app, <- Heq, Hb.
  destruct (_ <=? _)%nat eqn:E; [apply Nat.leb_le in E; exact E|lia].
Qed.

Lemma uniform_image_size_witness :
  exists s,
    SequenceScanning (init 30 20) (repeat 9%Z (Z.to_nat (30 * 20)%Z)) 30 20 false
    = Ret s
    /\ (length (encoded_buff s) <= 15)%nat.
Proof.
  destruct (uniform_image_size 9 30 20 false) as [s [a [Hs [_ [_ [_ [H15 _]]]]]]];
    [lia|lia|lia|reflexivity|].
  exists s. split; [exact Hs|exact H15].
Defined.

Lemma runs_from_distinct (bs : list Z) :
  forall a,
    (forall i, (i < length bs)%nat -> nth i (a :: bs) 0 <> nth i bs 0) ->
    runs_from a 1 bs = map (fun v => (1, v)) (a :: bs).
Proof.
  induction bs as [|b bs IH]; intros a Hd; cbn [runs_from map]; [reflexivity|].
  pose proof (Hd O ltac:(simpl; lia)) as H0. cbn [nth] in H0.
  replace (b =? a) with false by (symmetry; apply Z.eqb_neq; congruence).
  f_equal. apply IH. intros i Hi.
  exact (Hd (S i) ltac:(simpl; lia)).
Qed.

(** X11: the longest output.  For an image of two pixels or more,
    whose first block fits 32 bits, in which no byte repeats the byte
    before it, every pixel is a run of its own and [SequenceScanning]
    writes, after the header, all [n = W * H] pixels as literals and
    one group byte for every eight of them: the output has
    [header_size + n + ceil (n / 8)] bytes, one byte less than the
    bound of C7. *)
Theorem distinct_neighbours_size (x : list Z) (W H : Z) (m : bool) :
  1 <= W -> 1 <= H ->
  2 <= W * H -> W * H + W * H / 8 + 1 < 4294967296 ->
  Z.of_nat (length x) = W * H ->
  (forall i, (S i < length x)%nat -> nth i x 0 <> nth (S i) x 0) ->
  let header := header_bytes (horizontal_settings m) W H in
  exists s,
    SequenceScanning (init W H) x W H m = Ret s
    /\ encoded_buff s = header ++ pack (map (fun v => (v, false)) x)
    /\ encoded_index s
       = Z.of_nat (length header) + W * H + (W * H + 7) / 8.
Proof.
  intros HW HH H2 Hmax Hlen Hd header.
  assert (x <> []) as Hne by (intros ->; simpl in Hlen; nia).
  destruct (init_alloc_size W H HW HH H2 Hmax) as [Hs _].
  destruct (horizontal_returns (init W H) x W H m HW HH H2 Hmax Hlen
                               eq_refl eq_refl Hs) as [s [Hr [Hb _]]].
  assert (encoded_buff s = header ++ pack (map (fun v => (v, false)) x))
    as Heq.
  { rewrite Hb. unfold horizontal_stream. fold header.
    f_equal. f_equal.
    destruct x as [|a bs]; [contradiction|].
    cbn [runs]. rewrite runs_from_distinct.
    - rewrite flat_map_concat_map, map_map.
      unfold run_bytes_of, run_bytes. cbn [fst snd].
      change (1 <? 1) with false. cbv iota.
      rewrite <- flat_map_concat_map.
      clear. generalize (a :: bs). intros l.
      induction l as [|c l IH]; [reflexivity|]. cbn [flat_map map app].
      rewrite IH. reflexivity.
    - intros i Hi. apply (Hd i). cbn [length]. lia. }
  exists s. split; [exact Hr|]. split; [exact Heq|].
  unfold encoded_index.
  rewrite Heq, length_app, Nat2Z.inj_add, pack_length, length_map, Hlen. lia.
Qed.

Lemma distinct_neighbours_size_witness :
  exists s,
    SequenceScanning (init 9 1) [1; 2; 1; 2; 1; 2; 1; 2; 1] 9 1 false = Ret s
    /\ encoded_index s
       = Z.of_nat (length (header_bytes (horizontal_settings false) 9 1))
         + 9 * 1 + (9 * 1 + 7) / 8.
Proof.
  destruct (distinct_neighbours_size [1; 2; 1; 2; 1; 2; 1; 2; 1] 9 1 false)
    as [s [Hs [_ Hi]]]; [lia|lia|lia|reflexivity|reflexivity| |].
  - intros i Hi. cbn [length] in Hi.
    do 8 (destruct i as [|i]; [discriminate|]). lia.
  - exists s. split; [exact Hs|exact Hi].
Defined.

End RleStage.

(** ** The pipeline when the Huffman coder does not pay off *)

Section CopyBranch.
Import Rle RleCompressor RleDecompressor Format Trace Notions Huffman.

(** The copy branch of [Decode]. *)
Lemma Decode_copy_aux (s : Z) (frame : list Z) :
  Z.land s SETTINGS_BIT_CHECK = 0 ->
  Z.of_nat (length frame) < 18446744073709551615 ->
  exists d,
    HuffmanDecoder.Decode (s :: frame) (Z.of_nat (length (s :: frame)))
    = Ret (true, d)
    /\ HuffmanDecoder.buffer d = frame
    /\ HuffmanDecoder.GetSize d = Z.of_nat (length frame).
Proof.
  intros Hs Hlen. unfold HuffmanDecoder.Decode.
  cbn [length]. rewrite Nat2Z.inj_succ.
  replace (Z.succ (Z.of_nat (length frame)) - 1) with (Z.of_nat (length frame))
    by lia.
  rewrite (u64_small (Z.of_nat (length frame))) by lia. rewrite Nat2Z.id.
  assert ((if 1 <? Z.succ (Z.of_nat (length frame))
           then read (s :: frame) 0 else Ret 0)
          = Ret (if 1 <? Z.succ (Z.of_nat (length frame)) then s else 0)) as Hr
      by (destruct (1 <? Z.succ (Z.of_nat (length frame))); reflexivity).
  rewrite Hr. cbn [bind].
  replace ((1 <? Z.succ (Z.of_nat (length frame)))
           && negb (Z.land (if 1 <? Z.succ (Z.of_nat (length frame)) then s else 0)
                           SETTINGS_BIT_CHECK =? 0)) with false.
  - replace (length frame <=? S (length frame) - 1)%nat with true
      by (symmetry; apply Nat.leb_le; lia).
    eexists. split; [reflexivity|].
    cbn [HuffmanDecoder.buffer HuffmanDecoder.GetSize
         HuffmanDecoder.write_byte_index skipn].
    split; [apply firstn_all|reflexivity].
  - symmetry. destruct (1 <? Z.succ (Z.of_nat (length frame))); [|reflexivity].
    rewrite Hs. reflexivity.
Qed.

(** X12: the copy branch of [Decode]: when the Huffman flag (bit 3) of
    the settings byte is clear, the decoder returns true and its output
    is the buffer without the settings byte. *)
Theorem Decode_copy (s : Z) (frame : list Z) :
  Z.land s SETTINGS_BIT_CHECK = 0 ->
  Z.of_nat (length frame) < 18446744073709551615 ->
  exists d,
    HuffmanDecoder.Decode (s :: frame) (Z.of_nat (length (s :: frame)))
    = Ret (true, d)
    /\ HuffmanDecoder.buffer d = frame
    /\ HuffmanDecoder.GetSize d = Z.of_nat (length frame).
Proof. exact (Decode_copy_aux s frame). Qed.

Lemma Decode_copy_witness :
  exists d,
    HuffmanDecoder.Decode [0; 128; 2; 1; 0; 5; 6] (Z.of_nat (length [0; 128; 2; 1; 0; 5; 6]))
    = Ret (true, d)
    /\ HuffmanDecoder.buffer d = [128; 2; 1; 0; 5; 6].
Proof.
  destruct (Decode_copy 0 [128; 2; 1; 0; 5; 6]) as [d [H1 [H2 _]]].
  - reflexivity.
  - simpl. lia.
  - exists d. split; [exact H1|exact H2].
Defined.

(** The settings byte is 0 only on the copy branch of [CompareWithRLE]. *)
Lemma CompareWithRLE_copy (c0 c : HuffmanCoder.coder) (input : list Z) :
  HuffmanCoder.CompareWithRLE c0 input = (c, 0) ->
  HuffmanCoder.output c = input
  /\ HuffmanCoder.GetSize c = Z.of_nat (length input).
Proof.
  unfold HuffmanCoder.CompareWithRLE.
  destruct (Z.of_nat (length input) <? HuffmanCoder.GetSize c0) eqn:E.
  - intros H. inversion H; subst c; clear H.
    unfold HuffmanCoder.output, HuffmanCoder.GetSize.
    cbn [HuffmanCoder.bit_index HuffmanCoder.byte_index HuffmanCoder.buffer].
    cbn [Z.eqb]. rewrite Nat2Z.id.
    split; [|reflexivity].
    rewrite firstn_app, firstn_all, Nat.sub_diag. cbn [firstn].
    apply app_nil_r.
  - intros H. apply (f_equal snd) in H. cbn [snd] in H. rename H into Hs.
    exfalso. unfold SETTINGS_BIT_CHECK in Hs.
    set (p := u8 (if HuffmanCoder.bit_index c0 =? 0 then 0
                  else 8 - HuffmanCoder.bit_index c0)) in *.
    pose proof (u8_range (if HuffmanCoder.bit_index c0 =? 0 then 0
                          else 8 - HuffmanCoder.bit_index c0)) as Hp. fold p in Hp.
    assert (Z.testbit (u8 (Z.lor p 8)) 3 = true) as Hb.
    { unfold u8. change 256 with (2 ^ 8). rewrite Z.mod_pow2_bits_low by lia.
      rewrite Z.lor_spec. change (Z.testbit 8 3) with true. apply orb_true_r. }
    rewrite Hs in Hb. discriminate.
Qed.

Lemma Encode_Decode_copy_aux (input : list Z) (c : HuffmanCoder.coder) :
  Z.of_nat (length input) < 18446744073709551615 ->
  HuffmanCoder.Encode input = Ret (c, 0) ->
  HuffmanCoder.output c = input
  /\ exists d,
      HuffmanDecoder.Decode (0 :: HuffmanCoder.output c)
                            (Z.of_nat (length (0 :: HuffmanCoder.output c)))
      = Ret (true, d)
      /\ HuffmanDecoder.buffer d = input
      /\ HuffmanDecoder.GetSize d = Z.of_nat (length input).
Proof.
  intros Hlen H. unfold HuffmanCoder.Encode in H.
  destruct (HuffmanCoder.Encode_loop HuffmanCoder.init input) as [c0|] eqn:E;
    cbn [bind] in H; [|discriminate].
  inversion H as [Hc]. apply CompareWithRLE_copy in Hc. destruct Hc as [Ho _].
  split; [exact Ho|]. rewrite Ho.
  apply Decode_copy_aux; [reflexivity|exact Hlen].
Qed.

(** X13: when [Encode] reports the settings byte 0 its buffer holds
    the input, and [Decode] on the file that [main] writes, the
    settings byte followed by that buffer, gives the input back. *)
Theorem Encode_Decode_copy (input : list Z) (c : HuffmanCoder.coder) :
  Z.of_nat (length input) < 18446744073709551615 ->
  HuffmanCoder.Encode input = Ret (c, 0) ->
  HuffmanCoder.output c = input
  /\ exists d,
      HuffmanDecoder.Decode (0 :: HuffmanCoder.output c)
                            (Z.of_nat (length (0 :: HuffmanCoder.output c)))
      = Ret (true, d)
      /\ HuffmanDecoder.buffer d = input
      /\ HuffmanDecoder.GetSize d = Z.of_nat (length input).
Proof. exact (Encode_Decode_copy_aux input c). Qed.

Lemma Encode_Decode_copy_witness :
  exists c, HuffmanCoder.Encode [128; 2; 1; 0; 5; 6] = Ret (c, 0)
            /\ HuffmanCoder.output c = [128; 2; 1; 0; 5; 6].
Proof.
  destruct (HuffmanCoder.Encode [128; 2; 1; 0; 5; 6]) as [[c s]|] eqn:E;
    [|vm_compute in E; discriminate].
  assert (s = 0) as -> by (vm_compute in E; inversion E; subst; reflexivity).
  exists c. split; [reflexivity|].
  apply (Encode_Decode_copy [128; 2; 1; 0; 5; 6] c); [simpl; lia|exact E].
Defined.

End CopyBranch.

(** ** The two pipelines of [main] *)

Section Pipelines.
Import Rle RleCompressor RleDecompressor Format Trace Notions Huffman.

Lemma header_length_bound (s W H : Z) :
  0 <= W < 4294967296 -> 0 <= H < 4294967296 ->
  (length (header_bytes s W H) <= 9)%nat.
Proof.
  intros HW HH. rewrite header_bytes_length.
  rewrite !u32_small by assumption.
  destruct (size_vec_digits W HW) as [_ [_ Hlw]].
  destruct (size_vec_digits H HH) as [_ [_ Hlh]]. lia.
Qed.

Lemma frame_bound (x : list Z) (W H : Z) (m a : bool) :
  1 <= W -> 1 <= H -> W * H < 4294967296 ->
  Z.of_nat (length x) = W * H ->
  Z.of_nat (length (chosen_stream x W H m a)) <= W * H + (W * H + 7) / 8 + 9.
Proof.
  intros HW HH HWH Hlen.
  assert (0 <= W < 4294967296) as HW' by nia.
  assert (0 <= H < 4294967296) as HH' by nia.
  destruct (stream_bound x W H m HW HH ltac:(unfold u64_max; lia) Hlen)
    as [Bh Bv].
  pose proof (header_length_bound (horizontal_settings m) W H HW' HH').
  unfold chosen_stream. destruct a; [|lia].
  destruct (_ <=? _)%nat; lia.
Qed.

(** [Decompress] on the stream of either scan. *)
Lemma frame_decoded (x : list Z) (W H : Z) (m a : bool) :
  1 <= W -> 1 <= H -> W * H < 4294967296 ->
  Z.of_nat (length x) = W * H ->
  let frame := chosen_stream x W H m a in
  Decompress frame (length frame)
  = Ret {| ok := true; convert_from_model := m; out_size := W * H; out := x |}.
Proof.
  intros HW HH HWH Hlen frame.
  pose proof (horizontal_decoded x W H m HW HH HWH Hlen) as Hh.
  pose proof (vertical_decoded x W H m HW HH HWH Hlen) as Hv.
  cbv zeta in Hh, Hv. unfold frame, chosen_stream.
  destruct a; [|exact Hh].
  destruct (_ <=? _)%nat; [exact Hv|exact Hh].
Qed.

Lemma height_of_file (x : list Z) (W H : Z) :
  1 <= W -> 0 <= H -> W * H < 4294967296 ->
  Z.of_nat (length x) = W * H ->
  u32 (Z.of_nat (length x) / W) = H.
Proof.
  intros HW HH HWH Hlen. rewrite Hlen, Z.mul_comm, Z.div_mul by lia.
  apply u32_small. nia.
Qed.

Lemma Preprocess_length (x : list Z) :
  length (DataWorker.Preprocess x) = length x.
Proof.
  destruct x as [|p xs]; [reflexivity|]. cbn [DataWorker.Preprocess length].
  destruct (Preprocess_loop_shape xs p) as [Hl _]. rewrite Hl. reflexivity.
Qed.

(** The RLE stage of the compressor returns, for an image of two pixels
    or more whose first block fits 32 bits, with the stream of the
    scan that is chosen. *)
Lemma rle_stage_returns (x : list Z) (W H : Z) (m a : bool) :
  1 <= W -> 1 <= H ->
  2 <= W * H -> W * H + W * H / 8 + 1 < 4294967296 ->
  Z.of_nat (length x) = W * H ->
  Main.rle_stage x W m a
  = Ret (chosen_stream (if m then DataWorker.Preprocess x else x) W H m a).
Proof.
  intros HW HH H2 Hmax Hlen.
  assert (0 <= W * H / 8) as Hd by (apply Z.div_pos; lia).
  unfold Main.rle_stage.
  rewrite (height_of_file x W H) by (try assumption; lia).
  set (pixels := if m then DataWorker.Preprocess x else x).
  assert (Z.of_nat (length pixels) = W * H) as Hpl.
  { unfold pixels. destruct m; [rewrite Preprocess_length|]; exact Hlen. }
  destruct (init_alloc_size W H HW HH H2 Hmax) as [Hs _].
  unfold chosen_stream. destruct a.
  - destruct (adaptive_returns pixels W H m HW HH H2 Hmax Hpl) as [p [Hr Hb]].
    rewrite Hr. cbn [bind]. rewrite Hb. reflexivity.
  - destruct (horizontal_returns (init W H) pixels W H m HW HH H2 Hmax Hpl
                                 eq_refl eq_refl Hs) as [p [Hr [Hb _]]].
    rewrite Hr. cbn [bind]. rewrite Hb. reflexivity.
Qed.

(** X14: when the Huffman stage does not shorten the RLE frame, the
    round trip of the whole program is lossless.  For an image of two
    pixels or more whose first block of [W * H + W * H / 8 + 1] bytes
    fits 32 bits, and every choice of the options [-m] and [-a]: if
    the file that the compressor writes starts with the settings byte
    0, the decompressor returns the image from it. *)
Theorem round_trip_copy (x : list Z) (W H : Z) (m a : bool) (rest : list Z) :
  bytes x ->
  1 <= W -> 1 <= H ->
  2 <= W * H -> W * H + W * H / 8 + 1 < 4294967296 ->
  Z.of_nat (length x) = W * H ->
  Main.compress x W m a = Ret (0 :: rest) ->
  Main.decompress (0 :: rest) = Ret (Some x)
  /\ Main.round_trip x W m a = Ret (Some x).
Proof.
  intros Hx HW HH H2 Hmax Hlen Hc.
  assert (0 <= W * H / 8) as Hd8 by (apply Z.div_pos; lia).
  assert (Main.decompress (0 :: rest) = Ret (Some x)) as Hd.
  { unfold Main.compress in Hc.
    rewrite (rle_stage_returns x W H m a HW HH H2 Hmax Hlen) in Hc.
    cbn [bind] in Hc.
    set (pixels := if m then DataWorker.Preprocess x else x) in *.
    assert (Z.of_nat (length pixels) = W * H) as Hpl.
    { unfold pixels. destruct m; [rewrite Preprocess_length|]; exact Hlen. }
    set (frame := chosen_stream pixels W H m a) in *.
    pose proof (frame_bound pixels W H m a HW HH ltac:(lia) Hpl) as Hfb.
    fold frame in Hfb.
    assert ((W * H + 7) / 8 <= W * H + 7) as Hdiv
        by (apply Z.div_le_upper_bound; lia).
    destruct (HuffmanCoder.Encode frame) as [[c s]|] eqn:E; cbn [bind] in Hc;
      [|discriminate].
    injection Hc as Hs Hr. subst s rest.
    destruct (Encode_Decode_copy_aux frame c ltac:(lia) E) as [Ho [d [Hdec [Hb Hg]]]].
    rewrite Ho in Hdec.
    unfold Main.decompress. rewrite Ho.
    rewrite Hdec. cbn [bind negb]. rewrite Hb, Hg, Nat2Z.id.
    pose proof (frame_decoded pixels W H m a HW HH ltac:(lia) Hpl) as Hfd.
    cbv zeta in Hfd. fold frame in Hfd. rewrite Hfd.
    cbn [bind ok negb convert_from_model out].
    unfold pixels. destruct m; [|reflexivity].
    f_equal. f_equal. destruct x as [|p xs]; [reflexivity|].
    cbn [DataWorker.Preprocess DataWorker.Depreprocess]. f_equal.
    apply Depreprocess_loop_inverse;
      [exact (Forall_inv Hx)|exact (Forall_inv_tail Hx)]. }
  split; [exact Hd|].
  unfold Main.round_trip. rewrite Hc. cbn [bind]. exact Hd.
Qed.

Lemma round_trip_copy_witness :
  Main.round_trip [5; 6] 2 true true = Ret (Some [5; 6]).
Proof.
  destruct (Main.compress [5; 6] 2 true true) as [file|] eqn:E;
    [|vm_compute in E; discriminate].
  destruct file as [|s rest]; [vm_compute in E; discriminate|].
  assert (s = 0) as -> by (vm_compute in E; inversion E; subst; reflexivity).
  apply (round_trip_copy [5; 6] 2 1 true true rest);
    [apply bytes_intro; reflexivity|lia|lia|lia|reflexivity|reflexivity|exact E].
Defined.

Lemma CompareWithRLE_size (c0 : HuffmanCoder.coder) (input : list Z) :
  HuffmanCoder.GetSize (fst (HuffmanCoder.CompareWithRLE c0 input))
  <= Z.of_nat (length input).
Proof.
  unfold HuffmanCoder.CompareWithRLE.
  destruct (Z.of_nat (length input) <? HuffmanCoder.GetSize c0) eqn:E; cbn [fst].
  - unfold HuffmanCoder.GetSize.
    cbn [HuffmanCoder.bit_index HuffmanCoder.byte_index Z.eqb]. lia.
  - apply Z.ltb_ge in E. exact E.
Qed.

(** X15: for an image of two pixels or more whose first block fits 32
    bits, the file that the compressor writes is never more than one
    byte longer than the RLE frame: it has at most
    [W * H + ceil (W * H / 8) + 10] bytes, the settings byte of the
    Huffman stage, up to 9 header bytes and the payload. *)
Theorem compress_size (x : list Z) (W H : Z) (m a : bool) (file : list Z) :
  1 <= W -> 1 <= H ->
  2 <= W * H -> W * H + W * H / 8 + 1 < 4294967296 ->
  Z.of_nat (length x) = W * H ->
  Main.compress x W m a = Ret file ->
  (1 <= length file)%nat
  /\ Z.of_nat (length file) <= W * H + (W * H + 7) / 8 + 10.
Proof.
  intros HW HH H2 Hmax Hlen Hc.
  assert (0 <= W * H / 8) as Hd8 by (apply Z.div_pos; lia).
  unfold Main.compress in Hc.
  rewrite (rle_stage_returns x W H m a HW HH H2 Hmax Hlen) in Hc.
  cbn [bind] in Hc.
  set (pixels := if m then DataWorker.Preprocess x else x) in *.
  assert (Z.of_nat (length pixels) = W * H) as Hpl.
  { unfold pixels. destruct m; [rewrite Preprocess_length|]; exact Hlen. }
  set (frame := chosen_stream pixels W H m a) in *.
  pose proof (frame_bound pixels W H m a HW HH ltac:(lia) Hpl) as Hfb.
  fold frame in Hfb.
  destruct (HuffmanCoder.Encode frame) as [[c s]|] eqn:E; cbn [bind] in Hc;
    [|discriminate].
  injection Hc as Hfile. subst file. cbn [length].
  split; [lia|].
  unfold HuffmanCoder.Encode in E.
  destruct (HuffmanCoder.Encode_loop HuffmanCoder.init frame) as [c0|];
    cbn [bind] in E; [|discriminate].
  injection E as Hcs.
  pose proof (CompareWithRLE_size c0 frame) as Hsz. rewrite Hcs in Hsz.
  cbn [fst] in Hsz.
  unfold HuffmanCoder.output.
  pose proof (firstn_le_length (Z.to_nat (HuffmanCoder.GetSize c))
                               (HuffmanCoder.buffer c)) as Hf.
  lia.
Qed.

Lemma compress_size_witness :
  exists file,
    Main.compress [0; 0; 1; 1; 1] 5 false true = Ret file
    /\ Z.of_nat (length file) <= 5 * 1 + (5 * 1 + 7) / 8 + 10.
Proof.
  destruct (Main.compress [0; 0; 1; 1; 1] 5 false true) as [file|] eqn:E;
    [|vm_compute in E; discriminate].
  exists file. split; [reflexivity|].
  apply (compress_size [0; 0; 1; 1; 1] 5 1 false true file);
    [lia|lia|lia|reflexivity|reflexivity|exact E].
Defined.

End Pipelines.

(** ** The bit writer of the coder and the bit reader of the decoder *)

Section BitStream.
Import Huffman HuffmanCoder Bits.

Lemma position_split (by_ bi q : Z) :
  0 <= bi < 8 ->
  (q / 8 = by_ /\ q mod 8 = bi) <-> q = position by_ bi.
Proof.
  intros Hbi. unfold position. split.
  - intros [H1 H2]. rewrite (Z.div_mod q 8) by lia. lia.
  - intros ->. split.
    + symmetry. apply (Z.div_unique _ _ _ bi); lia.
    + symmetry. apply (Z.mod_unique _ _ by_); lia.
Qed.

(** One bit is or'ed into the buffer at the cursor. *)
Lemma AddBits_step_bits (c : coder) (b : Z) :
  0 <= bit_index c < 8 ->
  0 <= byte_index c < alloc c ->
  byte_index c < 2 ^ 60 ->
  exists c1,
    AddBits_step c b = Ret c1
    /\ cursor_of c1 = cursor_of c + 1
    /\ 0 <= bit_index c1 < 8
    /\ 0 <= byte_index c1 <= byte_index c + 1
    /\ tr c1 = tr c /\ leaf_nodes c1 = leaf_nodes c
    /\ alloc c1 = alloc c
    /\ forall q, 0 <= q ->
                 bit_at (buffer c1) q
                 = bit_at (buffer c) q || ((q =? cursor_of c) && (b =? 1)).
Proof.
  intros Hbi Hby Hmax. unfold alloc in *.
  change (2 ^ 60) with 1152921504606846976 in Hmax.
  unfold AddBits_step.
  assert (exists buf,
             (if b =? 1
              then or_at (buffer c) (Z.to_nat (byte_index c))
                         (Z.shiftl 1 (bit_index c))
              else Ret (buffer c)) = Ret buf
             /\ length buf = length (buffer c)
             /\ forall q, 0 <= q ->
                          bit_at buf q
                          = bit_at (buffer c) q
                            || ((q =? cursor_of c) && (b =? 1))) as [buf [Hbuf [Hl Hq]]].
  { destruct (b =? 1) eqn:Eb.
    - unfold or_at.
      destruct (nth_error (buffer c) (Z.to_nat (byte_index c))) as [x|] eqn:En.
      + eexists. split; [reflexivity|]. split; [apply store_length|].
        intros q Hq0. unfold bit_at, cursor_of.
        assert (Z.to_nat (byte_index c) < length (buffer c))%nat as Hin by lia.
        assert (nth (Z.to_nat (byte_index c)) (buffer c) 0 = x) as Hx
            by (apply nth_error_nth; exact En).
        pose proof (Z.mod_pos_bound q 8 ltac:(lia)) as Hm.
        assert (0 <= q / 8) as Hd by (apply Z.div_pos; lia).
        destruct (Z.eq_dec (q / 8) (byte_index c)) as [E1|E1].
        * rewrite E1, store_nth_same by exact Hin. rewrite Hx.
          unfold u8. change 256 with (2 ^ 8).
          rewrite Z.mod_pow2_bits_low by lia.
          rewrite Z.lor_spec, Z.shiftl_1_l, Z.pow2_bits_eqb by lia.
          f_equal. rewrite andb_true_r.
          destruct (Z.eqb_spec (bit_index c) (q mod 8)) as [E2|E2].
          -- symmetry. apply Z.eqb_eq. apply position_split; [lia|]. lia.
          -- symmetry. apply Z.eqb_neq. intros E.
             apply (position_split (byte_index c) (bit_index c) q Hbi) in E. lia.
        * rewrite store_nth_other by lia.
          replace (q =? position (byte_index c) (bit_index c)) with false;
            [rewrite orb_false_r; reflexivity|].
          symmetry. apply Z.eqb_neq. intros E.
          apply (position_split (byte_index c) (bit_index c) q Hbi) in E. lia.
      + apply nth_error_None in En. lia.
    - eexists. split; [reflexivity|]. split; [reflexivity|].
      intros q _. rewrite andb_false_r, orb_false_r. reflexivity. }
  rewrite Hbuf. cbn [bind].
  rewrite (u8_small (bit_index c + 1)) by lia.
  unfold BITS_IN_BYTE. destruct (8 <=? bit_index c + 1) eqn:E.
  - apply Z.leb_le in E. rewrite u64_small by lia.
    eexists. split; [reflexivity|].
    unfold cursor_of, position, alloc.
    cbn [byte_index bit_index tr leaf_nodes buffer].
    repeat split; try lia; try exact Hq; try (rewrite Hl; reflexivity).
  - apply Z.leb_gt in E.
    eexists. split; [reflexivity|].
    unfold cursor_of, position, alloc.
    cbn [byte_index bit_index tr leaf_nodes buffer].
    repeat split; try lia; try exact Hq; try (rewrite Hl; reflexivity).
Qed.

(** The bits from the cursor on, after the writer has run. *)
Lemma AddBits_loop_bits (bits : list Z) :
  forall c,
    0 <= bit_index c < 8 ->
    0 <= byte_index c ->
    cursor_of c + Z.of_nat (length bits) <= 8 * alloc c ->
    byte_index c + Z.of_nat (length bits) < 2 ^ 60 ->
    exists c',
      AddBits_loop c bits = Ret c'
      /\ cursor_of c' = cursor_of c + Z.of_nat (length bits)
      /\ 0 <= bit_index c' < 8
      /\ 0 <= byte_index c'
      /\ tr c' = tr c /\ leaf_nodes c' = leaf_nodes c
      /\ alloc c' = alloc c
      /\ forall q, 0 <= q ->
                   bit_at (buffer c') q
                   = bit_at (buffer c) q
                     || ((cursor_of c <=? q)
                         && (q <? cursor_of c + Z.of_nat (length bits))
                         && (nth (Z.to_nat (q - cursor_of c)) bits 0 =? 1)).
Proof.
  induction bits as [|b bits IH]; intros c Hbi Hby Hfit Hmax.
  - exists c. cbn [AddBits_loop length]. rewrite Z.add_0_r.
    repeat split; try lia.
    intros q Hq.
    replace ((cursor_of c <=? q) && (q <? cursor_of c)) with false
      by (symmetry; apply andb_false_iff;
          destruct (Z.leb_spec (cursor_of c) q);
          [right; apply Z.ltb_ge; lia|left; reflexivity]).
    rewrite orb_false_r. reflexivity.
  - cbn [length] in *. rewrite Nat2Z.inj_succ in *.
    assert (byte_index c < alloc c) as Hin
        by (unfold cursor_of, position in Hfit; lia).
    destruct (AddBits_step_bits c b Hbi ltac:(lia) ltac:(lia))
      as [c1 [Hs [Hc1 [Hbi1 [Hby1 [Ht1 [Hl1 [Ha1 Hq1]]]]]]]].
    destruct (IH c1 Hbi1 ltac:(lia) ltac:(rewrite Hc1, Ha1; lia) ltac:(lia))
      as [c' [Hl' [Hc' [Hbi' [Hby' [Ht' [Hll' [Ha' Hq']]]]]]]].
    exists c'. cbn [AddBits_loop]. rewrite Hs. cbn [bind].
    split; [exact Hl'|]. split; [lia|]. split; [exact Hbi'|].
    split; [exact Hby'|]. split; [congruence|]. split; [congruence|].
    split; [congruence|].
    intros q Hq. rewrite (Hq' q Hq), (Hq1 q Hq), Hc1.
    rewrite <- orb_assoc. f_equal.
    destruct (Z.eq_dec q (cursor_of c)) as [->|Hne].
    + rewrite Z.eqb_refl, Z.sub_diag. cbn [Z.to_nat nth].
      replace (cursor_of c + 1 <=? cursor_of c) with false
        by (symmetry; apply Z.leb_gt; lia).
      replace (cursor_of c <=? cursor_of c) with true
        by (symmetry; apply Z.leb_le; lia).
      replace (cursor_of c <? cursor_of c + Z.succ (Z.of_nat (length bits)))
        with true by (symmetry; apply Z.ltb_lt; lia).
      cbn [andb]. apply orb_false_r.
    + replace (q =? cursor_of c) with false by (symmetry; apply Z.eqb_neq; exact Hne).
      cbn [andb orb].
      destruct (Z.leb_spec (cursor_of c + 1) q) as [Hge|Hlt].
      * replace (cursor_of c <=? q) with true by (symmetry; apply Z.leb_le; lia).
        replace (cursor_of c + 1 + Z.of_nat (length bits))
          with (cursor_of c + Z.succ (Z.of_nat (length bits))) by lia.
        f_equal.
        replace (Z.to_nat (q - cursor_of c))
          with (S (Z.to_nat (q - (cursor_of c + 1)))) by lia.
        reflexivity.
      * replace (cursor_of c <=? q) with false by (symmetry; apply Z.leb_gt; lia).
        reflexivity.
Qed.

Lemma bit_at_zero (l : list Z) (q : Z) :
  nth (Z.to_nat (q / 8)) l 0 = 0 -> bit_at l q = false.
Proof. intros H. unfold bit_at. rewrite H. apply Z.bits_0. Qed.

(** [ReallocateBuffer] keeps every bit and leaves more than 20 bytes
    after the cursor. *)
Lemma ReallocateBuffer_bits (c : coder) :
  writable c ->
  cursor_of (ReallocateBuffer c) = cursor_of c
  /\ byte_index (ReallocateBuffer c) = byte_index c
  /\ bit_index (ReallocateBuffer c) = bit_index c
  /\ tr (ReallocateBuffer c) = tr c
  /\ leaf_nodes (ReallocateBuffer c) = leaf_nodes c
  /\ byte_index c + 20 < alloc (ReallocateBuffer c)
  /\ forall q, 0 <= q ->
               bit_at (buffer (ReallocateBuffer c)) q = bit_at (buffer c) q.
Proof.
  intros [Hbi [Hby [Hmax Hclean]]]. unfold ReallocateBuffer.
  destruct (alloc c <=? byte_index c + 20) eqn:E.
  - apply Z.leb_le in E. unfold cursor_of, alloc in *.
    cbn [byte_index bit_index tr leaf_nodes buffer].
    set (kept := match buffer c with
                 | [] => []
                 | _ :: _ => firstn (Z.to_nat (byte_index c + 1)) (buffer c)
                 end).
    assert (kept = firstn (Z.to_nat (byte_index c + 1)) (buffer c)) as Hk.
    { unfold kept. destruct (buffer c); [|reflexivity].
      rewrite firstn_nil. reflexivity. }
    assert (length kept <= length (buffer c))%nat as Hkl
        by (rewrite Hk, length_firstn; lia).
    repeat split; try reflexivity.
    + rewrite length_app, repeat_length. unfold ALLOC_SIZE. lia.
    + intros q Hq.
      assert (0 <= q / 8) as Hd by (apply Z.div_pos; lia).
      destruct (Nat.lt_ge_cases (Z.to_nat (q / 8)) (length kept)) as [Hlt|Hge].
      * unfold bit_at. rewrite app_nth1 by exact Hlt.
        rewrite Hk. rewrite Hk in Hlt. rewrite length_firstn in Hlt.
        rewrite nth_firstn.
        replace (Z.to_nat (q / 8) <? Z.to_nat (byte_index c + 1))%nat with true
          by (symmetry; apply Nat.ltb_lt; lia).
        reflexivity.
      * rewrite bit_at_zero.
        -- symmetry.
           destruct (Nat.lt_ge_cases (Z.to_nat (q / 8)) (length (buffer c)))
             as [Hin|Hout].
           ++ apply Hclean. unfold position.
              rewrite Hk, length_firstn in Hge.
              pose proof (Z.div_mod q 8 ltac:(lia)).
              pose proof (Z.mod_pos_bound q 8 ltac:(lia)). lia.
           ++ apply bit_at_zero. apply nth_overflow. exact Hout.
        -- rewrite app_nth2 by exact Hge.
           destruct (Nat.lt_ge_cases (Z.to_nat (q / 8) - length kept)
                                     (Z.to_nat (Z.of_nat (length (buffer c))
                                                + ALLOC_SIZE) - length kept))
             as [H1|H1].
           ++ apply nth_repeat_lt. exact H1.
           ++ apply nth_overflow. rewrite repeat_length. exact H1.
  - apply Z.leb_gt in E. repeat split; try reflexivity. lia.
Qed.

(** [AddBits] for at most 160 bits. *)
Lemma AddBits_bits (c : coder) (bits : list Z) :
  writable c ->
  (length bits <= 160)%nat ->
  byte_index c + 160 < 2 ^ 60 ->
  exists c',
    AddBits c bits = Ret c'
    /\ writable c'
    /\ cursor_of c' = cursor_of c + Z.of_nat (length bits)
    /\ tr c' = tr c /\ leaf_nodes c' = leaf_nodes c
    /\ (forall j, (j < length bits)%nat ->
                  bit_at (buffer c') (cursor_of c + Z.of_nat j)
                  = (nth j (rev bits) 0 =? 1))
    /\ (forall q, 0 <= q < cursor_of c ->
                  bit_at (buffer c') q = bit_at (buffer c) q)
    /\ (bits <> [] -> byte_index c' < alloc c').
Proof.
  intros Hw Hlen Hmax. pose proof Hw as [Hbi [Hby [_ Hclean]]].
  change (2 ^ 60) with 1152921504606846976 in *.
  destruct bits as [|b bits].
  - exists c. cbn [AddBits length]. rewrite Z.add_0_r.
    repeat split; try apply Hw; try reflexivity;
      [intros j Hj; simpl in Hj; lia|intros Hne; contradiction].
  - set (bs := b :: bits) in *.
    destruct (ReallocateBuffer_bits c Hw)
      as [Hc1 [Hby1 [Hbi1 [Ht1 [Hl1 [Ha1 Hq1]]]]]].
    assert (0 <= cursor_of c) as Hc0 by (unfold cursor_of, position; lia).
    destruct (AddBits_loop_bits (rev bs) (ReallocateBuffer c))
      as [c' [Hrun [Hc' [Hbi' [Hby' [Ht' [Hl' [Ha' Hq']]]]]]]].
    + rewrite Hbi1. exact Hbi.
    + rewrite Hby1. lia.
    + rewrite Hc1, length_rev. unfold cursor_of, position. lia.
    + rewrite Hby1, length_rev.
      change (2 ^ 60) with 1152921504606846976. lia.
    + rewrite length_rev, Hc1 in *.
      exists c'. split; [exact Hrun|].
      assert (byte_index c' <= byte_index c + 20) as Hle.
      { unfold cursor_of, position in Hc'. lia. }
      split; [|split; [exact Hc'|split; [congruence|split;
                                          [congruence|split; [|split]]]]].
      * split; [exact Hbi'|]. split; [lia|].
        split; [change (2 ^ 60) with 1152921504606846976; lia|].
        intros q Hq. rewrite Hc' in Hq.
        rewrite Hq' by lia. rewrite Hq1 by lia.
        rewrite Hclean by lia.
        replace (q <? cursor_of c + Z.of_nat (length bs)) with false
          by (symmetry; apply Z.ltb_ge; lia).
        rewrite andb_false_r. reflexivity.
      * intros j Hj. rewrite Hq' by lia. rewrite Hq1 by lia.
        rewrite Hclean by lia.
        replace (cursor_of c <=? cursor_of c + Z.of_nat j) with true
          by (symmetry; apply Z.leb_le; lia).
        replace (cursor_of c + Z.of_nat j <? cursor_of c + Z.of_nat (length bs))
          with true by (symmetry; apply Z.ltb_lt; lia).
        replace (Z.to_nat (cursor_of c + Z.of_nat j - cursor_of c)) with j by lia.
        reflexivity.
      * intros q Hq. rewrite Hq' by lia. rewrite Hq1 by lia.
        replace (cursor_of c <=? q) with false by (symmetry; apply Z.leb_gt; lia).
        apply orb_false_r.
      * intros _. rewrite Ha'. lia.
Qed.

(** [NextBit] inside the input returns the bit under the cursor and
    moves the cursor by one bit. *)
Lemma NextBit_bit (d : HuffmanDecoder.decoder) (input : list Z) (size : Z) :
  0 <= HuffmanDecoder.read_bit_index d < 8 ->
  0 <= HuffmanDecoder.read_byte_index d < size ->
  size <= Z.of_nat (length input) ->
  size < 2 ^ 60 ->
  exists d',
    HuffmanDecoder.NextBit d input size
    = Ret (Some (bit_at input (reader_of d)), d')
    /\ reader_of d' = reader_of d + 1
    /\ 0 <= HuffmanDecoder.read_bit_index d' < 8
    /\ 0 <= HuffmanDecoder.read_byte_index d'
    /\ HuffmanDecoder.tr d' = HuffmanDecoder.tr d
    /\ HuffmanDecoder.buffer d' = HuffmanDecoder.buffer d
    /\ HuffmanDecoder.write_byte_index d' = HuffmanDecoder.write_byte_index d.
Proof.
  intros Hbi Hby Hsize Hmax. change (2 ^ 60) with 1152921504606846976 in Hmax.
  unfold HuffmanDecoder.NextBit.
  replace (HuffmanDecoder.read_byte_index d =? size) with false
    by (symmetry; apply Z.eqb_neq; lia).
  unfold read.
  destruct (nth_error input (Z.to_nat (HuffmanDecoder.read_byte_index d)))
    as [b|] eqn:En; [|apply nth_error_None in En; lia].
  cbn [bind].
  assert (bit_at input (reader_of d)
          = negb (Z.land b (Z.shiftl 1 (HuffmanDecoder.read_bit_index d)) =? 0))
    as Hbit.
  { unfold bit_at, reader_of.
    destruct (proj2 (position_split (HuffmanDecoder.read_byte_index d)
                                    (HuffmanDecoder.read_bit_index d) _ Hbi)
                    eq_refl) as [H1 H2].
    rewrite H1, H2. rewrite (nth_error_nth _ _ _ En).
    pose proof (land_bit b (HuffmanDecoder.read_bit_index d) (proj1 Hbi)) as Hl.
    change Rle.FIRST_BIT_MASK with 1 in Hl.
    rewrite Hl, negb_involutive. reflexivity. }
  rewrite <- Hbit.
  rewrite (u8_small (HuffmanDecoder.read_bit_index d + 1)) by lia.
  unfold BITS_IN_BYTE.
  destruct (8 <=? HuffmanDecoder.read_bit_index d + 1) eqn:E.
  - apply Z.leb_le in E. rewrite u64_small by lia.
    eexists. split; [reflexivity|]. unfold reader_of, position.
    cbn [HuffmanDecoder.read_byte_index HuffmanDecoder.read_bit_index
         HuffmanDecoder.tr HuffmanDecoder.buffer HuffmanDecoder.write_byte_index].
    repeat split; try lia.
  - apply Z.leb_gt in E.
    eexists. split; [reflexivity|]. unfold reader_of, position.
    cbn [HuffmanDecoder.read_byte_index HuffmanDecoder.read_bit_index
         HuffmanDecoder.tr HuffmanDecoder.buffer HuffmanDecoder.write_byte_index].
    repeat split; try lia.
Qed.

Lemma ReadSymbol_loop_bits (input : list Z) (size : Z) (ixs : list Z) :
  forall d acc,
    0 <= HuffmanDecoder.read_bit_index d < 8 ->
    0 <= HuffmanDecoder.read_byte_index d ->
    reader_of d + Z.of_nat (length ixs) <= 8 * size ->
    size <= Z.of_nat (length input) ->
    size < 2 ^ 60 ->
    exists d',
      HuffmanDecoder.ReadSymbol_loop ixs d input size acc
      = Ret (Some (read_bits (bit_at input) ixs (reader_of d) acc), d')
      /\ reader_of d' = reader_of d + Z.of_nat (length ixs)
      /\ 0 <= HuffmanDecoder.read_bit_index d' < 8
      /\ 0 <= HuffmanDecoder.read_byte_index d'
      /\ HuffmanDecoder.tr d' = HuffmanDecoder.tr d
      /\ HuffmanDecoder.buffer d' = HuffmanDecoder.buffer d
      /\ HuffmanDecoder.write_byte_index d' = HuffmanDecoder.write_byte_index d.
Proof.
  induction ixs as [|i ixs IH]; intros d acc Hbi Hby Hfit Hsize Hmax.
  - exists d. cbn [HuffmanDecoder.ReadSymbol_loop read_bits length].
    rewrite Z.add_0_r. repeat split; try lia.
  - cbn [length] in Hfit. rewrite Nat2Z.inj_succ in Hfit.
    assert (HuffmanDecoder.read_byte_index d < size) as Hin
        by (unfold reader_of, position in Hfit; lia).
    destruct (NextBit_bit d input size Hbi ltac:(lia) Hsize Hmax)
      as [d1 [Hn [Hr1 [Hbi1 [Hby1 [Ht1 [Hb1 Hw1]]]]]]].
    cbn [HuffmanDecoder.ReadSymbol_loop read_bits]. rewrite Hn. cbn [bind].
    destruct (IH d1 (if bit_at input (reader_of d)
                     then u8 (Z.lor acc (Z.shiftl 1 (7 - i))) else acc)
                 Hbi1 Hby1 ltac:(lia) Hsize Hmax)
      as [d' [Hl [Hr' [Hbi' [Hby' [Ht' [Hb' Hw']]]]]]].
    exists d'. rewrite Hl, Hr1. cbn [length]. rewrite Nat2Z.inj_succ.
    repeat split; try lia; congruence.
Qed.

Lemma read_bits_shift (f : Z -> bool) (ixs : list Z) :
  forall p acc,
    read_bits f ixs p acc = read_bits (fun j => f (p + j)) ixs 0 acc.
Proof.
  assert (forall p k acc,
             read_bits f ixs (p + k) acc
             = read_bits (fun j => f (p + j)) ixs k acc) as H.
  { induction ixs as [|i ixs IH]; intros p k acc; cbn [read_bits]; [reflexivity|].
    rewrite <- Z.add_assoc. apply IH. }
  intros p acc. rewrite <- (H p 0 acc), Z.add_0_r. reflexivity.
Qed.

Lemma read_bits_ext (f g : Z -> bool) (ixs : list Z) :
  forall k acc,
    (forall j, k <= j < k + Z.of_nat (length ixs) -> f j = g j) ->
    read_bits f ixs k acc = read_bits g ixs k acc.
Proof.
  induction ixs as [|i ixs IH]; intros k acc H; cbn [read_bits]; [reflexivity|].
  cbn [length] in H. rewrite Nat2Z.inj_succ in H.
  rewrite (H k) by lia. apply IH. intros j Hj. apply H. lia.
Qed.

(** Eight bits, most significant first, make their byte. *)
Lemma read_bits_byte (b : Z) :
  is_byte b ->
  read_bits (fun j => Z.testbit b (7 - j)) [0; 1; 2; 3; 4; 5; 6; 7] 0 0 = b.
Proof.
  intros [H0 H1].
  assert (forallb (fun n => read_bits (fun j => Z.testbit (Z.of_nat n) (7 - j))
                                      [0; 1; 2; 3; 4; 5; 6; 7] 0 0
                            =? Z.of_nat n)
                  (seq 0 256) = true) as Hall by (vm_compute; reflexivity).
  rewrite forallb_forall in Hall.
  specialize (Hall (Z.to_nat b) ltac:(apply in_seq; lia)).
  rewrite Z2Nat.id in Hall by lia. apply Z.eqb_eq. exact Hall.
Qed.

(** The byte that [ReadSymbol] builds has the bits that were read,
    the first one in bit 7. *)
Lemma read_bits_testbit (f : Z -> bool) :
  let s := read_bits f [0; 1; 2; 3; 4; 5; 6; 7] 0 0 in
  is_byte s
  /\ forall j, 0 <= j < 8 -> Z.testbit s (7 - j) = f j.
Proof.
  cbn [read_bits]. cbn [Z.add Pos.add Pos.succ Z.sub Z.opp Z.pos_sub Z.succ_double
                        Z.pred_double Z.double Pos.pred_double].
  assert (forall j, 0 <= j < 8 ->
                    j = 0 \/ j = 1 \/ j = 2 \/ j = 3 \/ j = 4 \/ j = 5
                    \/ j = 6 \/ j = 7) as Hcases by (intros; lia).
  destruct (f 0) eqn:E0, (f 1) eqn:E1, (f 2) eqn:E2, (f 3) eqn:E3,
           (f 4) eqn:E4, (f 5) eqn:E5, (f 6) eqn:E6, (f 7) eqn:E7;
    (split; [vm_compute; split; congruence|]);
    intros j Hj;
    destruct (Hcases j Hj) as [->|[->|[->|[->|[->|[->|[->| ->]]]]]]];
    (rewrite ?E0, ?E1, ?E2, ?E3, ?E4, ?E5, ?E6, ?E7; reflexivity).
Qed.

Lemma bit_at_cons (s : Z) (l : list Z) (q : Z) :
  0 <= q -> bit_at (s :: l) (q + 8) = bit_at l q.
Proof.
  intros Hq. unfold bit_at.
  replace ((q + 8) / 8) with (q / 8 + 1)
    by (rewrite <- (Z.div_add q 1 8) by lia; f_equal; lia).
  replace ((q + 8) mod 8) with (q mod 8)
    by (rewrite <- (Z.mod_add q 1 8) by lia; f_equal; lia).
  replace (Z.to_nat (q / 8 + 1)) with (S (Z.to_nat (q / 8)))
    by (pose proof (Z.div_pos q 8 Hq); lia).
  reflexivity.
Qed.

Lemma AddByte_bit (b : Z) (j : nat) :
  (j < 8)%nat ->
  (nth j (rev (map (fun i => if negb (Z.land b (Z.shiftl 1 i) =? 0)
                             then 1 else 0)
                   [0; 1; 2; 3; 4; 5; 6; 7])) 0 =? 1)
  = Z.testbit b (7 - Z.of_nat j).
Proof.
  intros Hj.
  assert (forall k, 0 <= k ->
                    ((if negb (Z.land b (Z.shiftl 1 k) =? 0) then 1 else 0) =? 1)
                    = Z.testbit b k) as Hk.
  { intros k Hk. pose proof (land_bit b k Hk) as Hl.
    change Rle.FIRST_BIT_MASK with 1 in Hl. rewrite Hl.
    destruct (Z.testbit b k); reflexivity. }
  do 8 (destruct j as [|j]; [cbn [rev map app nth]; apply Hk; lia|]).
  lia.
Qed.

(** With fewer bits left than positions to fill, the loop of
    [ReadSymbol] meets the end of the input. *)
Lemma ReadSymbol_loop_short (input : list Z) (size : Z) (ixs : list Z) :
  forall d acc,
    0 <= HuffmanDecoder.read_bit_index d < 8 ->
    0 <= HuffmanDecoder.read_byte_index d ->
    reader_of d <= 8 * size ->
    8 * size < reader_of d + Z.of_nat (length ixs) ->
    size <= Z.of_nat (length input) ->
    size < 2 ^ 60 ->
    exists d',
      HuffmanDecoder.ReadSymbol_loop ixs d input size acc = Ret (None, d')
      /\ HuffmanDecoder.read_byte_index d' = size
      /\ HuffmanDecoder.tr d' = HuffmanDecoder.tr d
      /\ HuffmanDecoder.buffer d' = HuffmanDecoder.buffer d
      /\ HuffmanDecoder.write_byte_index d' = HuffmanDecoder.write_byte_index d.
Proof.
  induction ixs as [|i ixs IH]; intros d acc Hbi Hby Hin Hshort Hsize Hmax.
  - cbn [length] in Hshort. lia.
  - cbn [length] in Hshort. rewrite Nat2Z.inj_succ in Hshort.
    cbn [HuffmanDecoder.ReadSymbol_loop].
    destruct (Z.eq_dec (HuffmanDecoder.read_byte_index d) size) as [He|Hne].
    + unfold HuffmanDecoder.NextBit. rewrite He, Z.eqb_refl. cbn [bind].
      exists d. repeat split. exact He.
    + assert (HuffmanDecoder.read_byte_index d < size) as Hlt
          by (unfold reader_of, position in Hin; lia).
      destruct (NextBit_bit d input size Hbi ltac:(lia) Hsize Hmax)
        as [d1 [Hn [Hr1 [Hbi1 [Hby1 [Ht1 [Hb1 Hw1]]]]]]].
      rewrite Hn. cbn [bind].
      assert (reader_of d + 1 <= 8 * size) as Hin1
          by (unfold reader_of, position; lia).
      destruct (IH d1 (if bit_at input (reader_of d)
                       then u8 (Z.lor acc (Z.shiftl 1 (7 - i))) else acc)
                   Hbi1 Hby1 ltac:(lia) ltac:(lia) Hsize Hmax)
        as [d' [Hl [Hr' [Ht' [Hb' Hw']]]]].
      exists d'. rewrite Hl. repeat split; congruence.
Qed.

Lemma init_writable : writable init.
Proof.
  unfold writable. repeat split; try (vm_compute; congruence).
  intros q Hq. apply bit_at_zero.
  change (buffer init) with (repeat 0 (Z.to_nat 512)).
  apply nth_repeat.
Qed.

(** X16: [AddBits] with at most 160 bits, on a coder whose buffer is
    clear from the cursor on, returns without a fault.  The cursor moves
    by the number of bits, the bits stand in the buffer from the old
    cursor on in the reverse order of the list, the bits before the old
    cursor are kept, and the buffer stays clear from the new cursor
    on. *)
Theorem AddBits_writes (c : coder) (bits : list Z) :
  writable c ->
  (length bits <= 160)%nat ->
  byte_index c + 160 < 2 ^ 60 ->
  exists c',
    AddBits c bits = Ret c'
    /\ writable c'
    /\ cursor_of c' = cursor_of c + Z.of_nat (length bits)
    /\ tr c' = tr c /\ leaf_nodes c' = leaf_nodes c
    /\ (forall j, (j < length bits)%nat ->
                  bit_at (buffer c') (cursor_of c + Z.of_nat j)
                  = (nth j (rev bits) 0 =? 1))
    /\ (forall q, 0 <= q < cursor_of c ->
                  bit_at (buffer c') q = bit_at (buffer c) q).
Proof.
  intros Hw Hlen Hmax.
  destruct (AddBits_bits c bits Hw Hlen Hmax)
    as [c' [H1 [H2 [H3 [H4 [H5 [H6 [H7 _]]]]]]]].
  exists c'. repeat split; try assumption; apply H2.
Qed.

Lemma AddBits_writes_witness :
  exists c',
    AddBits init [1; 0; 1; 1] = Ret c'
    /\ cursor_of c' = 4
    /\ bit_at (buffer c') 0 = true
    /\ bit_at (buffer c') 1 = true
    /\ bit_at (buffer c') 2 = false
    /\ bit_at (buffer c') 3 = true.
Proof.
  destruct (AddBits_writes init [1; 0; 1; 1] init_writable)
    as [c' [H1 [_ [H3 [_ [_ [H6 _]]]]]]].
  - simpl. lia.
  - vm_compute. reflexivity.
  - exists c'. split; [exact H1|]. split; [exact H3|].
    split; [exact (H6 0%nat ltac:(simpl; lia))|].
    split; [exact (H6 1%nat ltac:(simpl; lia))|].
    split; [exact (H6 2%nat ltac:(simpl; lia))|].
    exact (H6 3%nat ltac:(simpl; lia)).
Defined.

(** X17: [ReadSymbol] with at least 8 bits between the cursor and the
    end of the input returns the byte whose bits 7 down to 0 are the next
    8 bits of the input, and moves the cursor by 8 bits.  With fewer bits
    left it returns nothing and leaves the cursor at the end of the
    input.  The tree and the output buffer are not touched. *)
Theorem ReadSymbol_reads (d : HuffmanDecoder.decoder) (input : list Z) (size : Z) :
  0 <= HuffmanDecoder.read_bit_index d < 8 ->
  0 <= HuffmanDecoder.read_byte_index d ->
  reader_of d <= 8 * size ->
  size <= Z.of_nat (length input) ->
  size < 2 ^ 60 ->
  exists r d',
    HuffmanDecoder.ReadSymbol d input size = Ret (r, d')
    /\ HuffmanDecoder.tr d' = HuffmanDecoder.tr d
    /\ HuffmanDecoder.buffer d' = HuffmanDecoder.buffer d
    /\ HuffmanDecoder.write_byte_index d' = HuffmanDecoder.write_byte_index d
    /\ if reader_of d + 8 <=? 8 * size
       then exists s,
           r = Some s /\ is_byte s
           /\ (forall j, 0 <= j < 8 ->
                         Z.testbit s (7 - j) = bit_at input (reader_of d + j))
           /\ reader_of d' = reader_of d + 8
       else r = None /\ HuffmanDecoder.read_byte_index d' = size.
Proof.
  intros Hbi Hby Hin Hsize Hmax. unfold HuffmanDecoder.ReadSymbol.
  destruct (reader_of d + 8 <=? 8 * size) eqn:E.
  - apply Z.leb_le in E.
    destruct (ReadSymbol_loop_bits input size [0; 1; 2; 3; 4; 5; 6; 7] d 0
                                   Hbi Hby E Hsize Hmax)
      as [d' [Hl [Hr [_ [_ [Ht [Hb Hw]]]]]]].
    exists (Some (read_bits (bit_at input) [0; 1; 2; 3; 4; 5; 6; 7]
                            (reader_of d) 0)), d'.
    split; [exact Hl|]. split; [exact Ht|]. split; [exact Hb|].
    split; [exact Hw|].
    eexists. split; [reflexivity|].
    rewrite read_bits_shift.
    destruct (read_bits_testbit (fun j => bit_at input (reader_of d + j)))
      as [Hs Hbits].
    split; [exact Hs|]. split; [exact Hbits|exact Hr].
  - apply Z.leb_gt in E.
    destruct (ReadSymbol_loop_short input size [0; 1; 2; 3; 4; 5; 6; 7] d 0
                                    Hbi Hby Hin ltac:(cbn [length]; lia)
                                    Hsize Hmax)
      as [d' [Hl [Hr [Ht [Hb Hw]]]]].
    exists None, d'. repeat split; assumption.
Qed.

Lemma ReadSymbol_reads_witness :
  exists d',
    HuffmanDecoder.ReadSymbol
      {| HuffmanDecoder.tr := HuffmanDecoder.tr HuffmanDecoder.init;
         HuffmanDecoder.buffer := [];
         HuffmanDecoder.write_byte_index := 0;
         HuffmanDecoder.read_byte_index := 1;
         HuffmanDecoder.read_bit_index := 4 |}
      [0; 240; 15] 3
    = Ret (Some 255, d').
Proof.
  destruct (ReadSymbol_reads
              {| HuffmanDecoder.tr := HuffmanDecoder.tr HuffmanDecoder.init;
                 HuffmanDecoder.buffer := [];
                 HuffmanDecoder.write_byte_index := 0;
                 HuffmanDecoder.read_byte_index := 1;
                 HuffmanDecoder.read_bit_index := 4 |}
              [0; 240; 15] 3)
    as [r [d' [H1 [_ [_ [_ H5]]]]]].
  - simpl. lia.
  - simpl. lia.
  - vm_compute. congruence.
  - simpl. lia.
  - vm_compute. reflexivity.
  - pose proof H1 as H1'. vm_compute in H1'. injection H1' as Hr Hd.
    exists d'. rewrite H1, <- Hr. reflexivity.
Defined.

Lemma bit_at_firstn (l : list Z) (n : nat) (q : Z) :
  (Z.to_nat (q / 8) < n)%nat -> bit_at (firstn n l) q = bit_at l q.
Proof.
  intros H. unfold bit_at. rewrite nth_firstn.
  replace (Z.to_nat (q / 8) <? n)%nat with true
    by (symmetry; apply Nat.ltb_lt; exact H).
  reflexivity.
Qed.

Lemma AddByte_ReadSymbol_aux (c : coder) (b s : Z) (d : HuffmanDecoder.decoder) :
  writable c ->
  is_byte b ->
  byte_index c + 160 < 2 ^ 60 ->
  0 <= HuffmanDecoder.read_bit_index d < 8 ->
  0 <= HuffmanDecoder.read_byte_index d ->
  reader_of d = cursor_of c + 8 ->
  exists c',
    AddByte c b = Ret c'
    /\ writable c'
    /\ cursor_of c' = cursor_of c + 8
    /\ tr c' = tr c /\ leaf_nodes c' = leaf_nodes c
    /\ exists d',
        HuffmanDecoder.ReadSymbol d (s :: output c')
                                  (Z.of_nat (length (s :: output c')))
        = Ret (Some b, d')
        /\ reader_of d' = cursor_of c' + 8.
Proof.
  intros Hw Hb Hmax Hri Hrb Hrd. unfold AddByte.
  set (bits := map (fun i => if negb (Z.land b (Z.shiftl 1 i) =? 0)
                             then 1 else 0) [0; 1; 2; 3; 4; 5; 6; 7]).
  destruct (AddBits_bits c bits Hw ltac:(simpl; lia) Hmax)
    as [c' [H1 [H2 [H3 [H4 [H5 [H6 [_ H8]]]]]]]].
  specialize (H8 ltac:(discriminate)).
  change (Z.of_nat (length bits)) with 8 in H3.
  exists c'. split; [exact H1|]. split; [exact H2|]. split; [exact H3|].
  split; [exact H4|]. split; [exact H5|].
  pose proof Hw as [Hbi [Hby _]]. pose proof H2 as [Hbi' [Hby' [Hmax' _]]].
  change (2 ^ 60) with 1152921504606846976 in *.
  assert (0 <= cursor_of c) as Hc0 by (unfold cursor_of, position; lia).
  assert (byte_index c' + 1 = GetSize c'
          \/ (bit_index c' = 0 /\ GetSize c' = byte_index c')) as Hg.
  { unfold GetSize. destruct (bit_index c' =? 0) eqn:E.
    - right. apply Z.eqb_eq in E. split; [exact E|reflexivity].
    - left. rewrite u64_small by lia. lia. }
  assert (0 <= GetSize c' <= alloc c' /\ cursor_of c' <= 8 * GetSize c')
    as [Hg1 Hg2].
  { unfold cursor_of, position.
    destruct Hg as [Hg|[Hg0 Hg]]; [lia|rewrite Hg, Hg0; lia]. }
  assert (length (output c') = Z.to_nat (GetSize c')) as Hlen.
  { unfold output, alloc in *. rewrite length_firstn. lia. }
  set (file := s :: output c').
  assert (Z.of_nat (length file) = GetSize c' + 1) as Hfile.
  { unfold file. cbn [length]. rewrite Hlen. lia. }
  destruct (ReadSymbol_loop_bits file (Z.of_nat (length file))
                                 [0; 1; 2; 3; 4; 5; 6; 7] d 0 Hri Hrb)
    as [d' [Hl [Hr _]]].
  - cbn [length]. rewrite Hfile. lia.
  - lia.
  - rewrite Hfile. change (2 ^ 60) with 1152921504606846976.
    unfold cursor_of, position in H3.
    destruct Hg as [Hg|[_ Hg]]; lia.
  - exists d'. unfold HuffmanDecoder.ReadSymbol. rewrite Hl.
    split; [|cbn [length] in Hr; lia].
    do 2 f_equal. f_equal.
    rewrite read_bits_shift.
    rewrite (read_bits_ext _ (fun j => Z.testbit b (7 - j))).
    + apply read_bits_byte. exact Hb.
    + intros j Hj. cbn [length] in Hj.
      rewrite Hrd. unfold file.
      replace (cursor_of c + 8 + j) with (cursor_of c + j + 8) by lia.
      rewrite bit_at_cons by lia.
      unfold output. rewrite bit_at_firstn.
      * replace j with (Z.of_nat (Z.to_nat j)) at 1 by lia.
        rewrite H6 by (simpl; lia).
        unfold bits. rewrite AddByte_bit by lia.
        rewrite Z2Nat.id by lia. reflexivity.
      * assert ((cursor_of c + j) / 8 < GetSize c') as Hd.
        { apply Z.div_lt_upper_bound; lia. }
        pose proof (Z.div_pos (cursor_of c + j) 8 ltac:(lia) ltac:(lia)).
        lia.
Qed.

(** X18: what [AddByte] writes, [ReadSymbol] reads back: the coder
    writes the 8 bits of a byte at its cursor, and in the output file
    (one settings byte, then the buffer of the coder up to [GetSize]) the
    decoder at the same place, one byte further, reads that byte and ends
    one byte after the new cursor of the coder. *)
Theorem AddByte_ReadSymbol (c : coder) (b s : Z) (d : HuffmanDecoder.decoder) :
  writable c ->
  is_byte b ->
  byte_index c + 160 < 2 ^ 60 ->
  0 <= HuffmanDecoder.read_bit_index d < 8 ->
  0 <= HuffmanDecoder.read_byte_index d ->
  reader_of d = cursor_of c + 8 ->
  exists c',
    AddByte c b = Ret c'
    /\ writable c'
    /\ cursor_of c' = cursor_of c + 8
    /\ tr c' = tr c /\ leaf_nodes c' = leaf_nodes c
    /\ exists d',
        HuffmanDecoder.ReadSymbol d (s :: output c')
                                  (Z.of_nat (length (s :: output c')))
        = Ret (Some b, d')
        /\ reader_of d' = cursor_of c' + 8.
Proof. exact (AddByte_ReadSymbol_aux c b s d). Qed.

Lemma AddByte_ReadSymbol_witness :
  exists c',
    AddByte init 77 = Ret c'
    /\ exists d',
        HuffmanDecoder.ReadSymbol
          {| HuffmanDecoder.tr := HuffmanDecoder.tr HuffmanDecoder.init;
             HuffmanDecoder.buffer := [];
             HuffmanDecoder.write_byte_index := 0;
             HuffmanDecoder.read_byte_index := 1;
             HuffmanDecoder.read_bit_index := 0 |}
          (8 :: output c') (Z.of_nat (length (8 :: output c')))
        = Ret (Some 77, d').
Proof.
  destruct (AddByte_ReadSymbol
              init 77 8
              {| HuffmanDecoder.tr := HuffmanDecoder.tr HuffmanDecoder.init;
                 HuffmanDecoder.buffer := [];
                 HuffmanDecoder.write_byte_index := 0;
                 HuffmanDecoder.read_byte_index := 1;
                 HuffmanDecoder.read_bit_index := 0 |}
              init_writable)
    as [c' [H1 [_ [_ [_ [_ [d' [H2 _]]]]]]]].
  - unfold is_byte. lia.
  - vm_compute. reflexivity.
  - simpl. lia.
  - simpl. lia.
  - reflexivity.
  - exists c'. split; [exact H1|]. exists d'. exact H2.
Defined.

End BitStream.

(** ** The pointers of the Huffman tree *)

Section TreePointers.
Import Huffman Codes.

Lemma nth_error_store {A : Type} (l : list A) :
  forall i j v,
    nth_error (store l i v) j
    = if ((i =? j) && (j <? length l))%nat then Some v else nth_error l j.
Proof.
  induction l as [|x l IH]; intros i j v.
  - cbn [store length].
    replace (j <? 0)%nat with false by (symmetry; apply Nat.ltb_ge; lia).
    rewrite andb_false_r. reflexivity.
  - destruct i, j; cbn [store nth_error length]; try reflexivity.
    rewrite IH. change (S i =? S j)%nat with (i =? j)%nat.
    change (S j <? S (length l))%nat with (j <? length l)%nat. reflexivity.
Qed.

Lemma deref_Ret (t : tree) (p : nat) (n : Node) :
  deref t p = Ret n <-> nth_error (nodes t) p = Some n.
Proof.
  unfold deref. destruct (nth_error (nodes t) p); split; intros H;
    try discriminate; inversion H; reflexivity.
Qed.

Lemma deref_inside (t : tree) (p : nat) (n : Node) :
  deref t p = Ret n -> inside t p.
Proof.
  intros H. apply deref_Ret in H. unfold inside.
  apply nth_error_Some. rewrite H. discriminate.
Qed.

Lemma inside_deref (t : tree) (p : nat) :
  inside t p -> exists n, deref t p = Ret n.
Proof.
  unfold inside, deref. intros H.
  destruct (nth_error (nodes t) p) as [n|] eqn:E; [exists n; reflexivity|].
  apply nth_error_None in E. lia.
Qed.

Lemma deref_fields (t : tree) (p : nat) (n : Node) :
  deref t p = Ret n ->
  left_of t p = left n /\ right_of t p = right n /\ parent_of t p = parent n
  /\ val_of t p = Some (val n).
Proof.
  intros H. apply deref_Ret in H.
  unfold left_of, right_of, parent_of, val_of. rewrite H. repeat split.
Qed.

Lemma outside_fields (t : tree) (x : nat) :
  ~ inside t x ->
  left_of t x = None /\ right_of t x = None /\ parent_of t x = None
  /\ val_of t x = None.
Proof.
  unfold inside, left_of, right_of, parent_of, val_of. intros H.
  replace (nth_error (nodes t) x) with (@None Node)
    by (symmetry; apply nth_error_None; lia).
  repeat split.
Qed.

(** The pointers after [*p = n'], where [n'] is [*p] with one member
    changed. *)
Lemma assign_fields (t : tree) (p : nat) (n n' : Node) :
  deref t p = Ret n ->
  length (nodes (assign t p n')) = length (nodes t)
  /\ root (assign t p n') = root t
  /\ NYT (assign t p n') = NYT t
  /\ forall x,
      left_of (assign t p n') x = (if (x =? p)%nat then left n' else left_of t x)
      /\ right_of (assign t p n') x
         = (if (x =? p)%nat then right n' else right_of t x)
      /\ parent_of (assign t p n') x
         = (if (x =? p)%nat then parent n' else parent_of t x)
      /\ val_of (assign t p n') x
         = (if (x =? p)%nat then Some (val n') else val_of t x).
Proof.
  intros H. pose proof (deref_inside _ _ _ H) as Hin. unfold inside in Hin.
  unfold assign. cbn [nodes root NYT]. rewrite store_length.
  split; [reflexivity|]. split; [reflexivity|]. split; [reflexivity|].
  intros x. unfold left_of, right_of, parent_of, val_of. cbn [nodes].
  rewrite nth_error_store. rewrite (Nat.eqb_sym p x).
  destruct (x =? p)%nat eqn:E; cbn [andb]; [|repeat split].
  apply Nat.eqb_eq in E. subst x.
  replace (p <? length (nodes t))%nat with true
    by (symmetry; apply Nat.ltb_lt; exact Hin).
  repeat split.
Qed.

Lemma frame_refl (t : tree) : frame t t.
Proof. unfold frame. repeat split. Qed.

Lemma frame_trans (t1 t2 t3 : tree) : frame t1 t2 -> frame t2 t3 -> frame t1 t3.
Proof.
  intros [A1 [A2 [A3 A4]]] [B1 [B2 [B3 B4]]]. unfold frame.
  split; [congruence|split; [congruence|split; [congruence|]]].
  intros x. rewrite B4. apply A4.
Qed.

Lemma frame_inside (t t' : tree) (p : nat) :
  frame t t' -> (inside t' p <-> inside t p).
Proof. intros [H _]. unfold inside. rewrite H. reflexivity. Qed.

(** [p->index = i] and [p->weight = w] leave the pointers alone. *)
Lemma assign_index (t : tree) (p : nat) (n : Node) (i : Z) :
  deref t p = Ret n ->
  frame t (assign t p (with_index n i))
  /\ forall x,
      left_of (assign t p (with_index n i)) x = left_of t x
      /\ right_of (assign t p (with_index n i)) x = right_of t x
      /\ parent_of (assign t p (with_index n i)) x = parent_of t x.
Proof.
  intros H. destruct (assign_fields t p n (with_index n i) H) as [A [B [C D]]].
  destruct (deref_fields t p n H) as [F1 [F2 [F3 F4]]].
  unfold frame. split; [split; [exact A|split; [exact B|split; [exact C|]]]|];
    intros x; destruct (D x) as [D1 [D2 [D3 D4]]];
    destruct (x =? p)%nat eqn:E; try apply Nat.eqb_eq in E; subst;
    cbn [with_index left right parent val] in *;
    first [congruence|split; [congruence|split; congruence]].
Qed.

Lemma assign_weight (t : tree) (p : nat) (n : Node) (w : Z) :
  deref t p = Ret n ->
  frame t (assign t p (with_weight n w))
  /\ forall x,
      left_of (assign t p (with_weight n w)) x = left_of t x
      /\ right_of (assign t p (with_weight n w)) x = right_of t x
      /\ parent_of (assign t p (with_weight n w)) x = parent_of t x.
Proof.
  intros H. destruct (assign_fields t p n (with_weight n w) H) as [A [B [C D]]].
  destruct (deref_fields t p n H) as [F1 [F2 [F3 F4]]].
  unfold frame. split; [split; [exact A|split; [exact B|split; [exact C|]]]|];
    intros x; destruct (D x) as [D1 [D2 [D3 D4]]];
    destruct (x =? p)%nat eqn:E; try apply Nat.eqb_eq in E; subst;
    cbn [with_weight left right parent val] in *;
    first [congruence|split; [congruence|split; congruence]].
Qed.

(** [p->parent = q] *)
Lemma assign_parent (t : tree) (p : nat) (n : Node) (q : option nat) :
  deref t p = Ret n ->
  frame t (assign t p (with_parent n q))
  /\ forall x,
      left_of (assign t p (with_parent n q)) x = left_of t x
      /\ right_of (assign t p (with_parent n q)) x = right_of t x
      /\ parent_of (assign t p (with_parent n q)) x
         = (if (x =? p)%nat then q else parent_of t x).
Proof.
  intros H. destruct (assign_fields t p n (with_parent n q) H) as [A [B [C D]]].
  destruct (deref_fields t p n H) as [F1 [F2 [F3 F4]]].
  unfold frame. split; [split; [exact A|split; [exact B|split; [exact C|]]]|];
    intros x; destruct (D x) as [D1 [D2 [D3 D4]]];
    destruct (x =? p)%nat eqn:E; try apply Nat.eqb_eq in E; subst;
    cbn [with_parent left right parent val] in *;
    first [congruence|split; [congruence|split; congruence]].
Qed.

(** [p->right = c] or [p->left = c] *)
Lemma set_child_fields (t : tree) (p : nat) (side : bool) (c : nat) (t' : tree) :
  set_child t p side c = Ret t' ->
  inside t p
  /\ frame t t'
  /\ forall x,
      left_of t' x
      = (if (x =? p)%nat && negb side then Some c else left_of t x)
      /\ right_of t' x
         = (if (x =? p)%nat && side then Some c else right_of t x)
      /\ parent_of t' x = parent_of t x.
Proof.
  unfold set_child. destruct (deref t p) as [n|] eqn:H; cbn [bind]; [|discriminate].
  intros Ht. inversion Ht; subst t'; clear Ht.
  split; [exact (deref_inside _ _ _ H)|].
  destruct (deref_fields t p n H) as [F1 [F2 [F3 F4]]].
  destruct side.
  - destruct (assign_fields t p n (with_right n (Some c)) H) as [A [B [C D]]].
    unfold frame.
    split; [split; [exact A|split; [exact B|split; [exact C|]]]|];
      intros x; destruct (D x) as [D1 [D2 [D3 D4]]];
      destruct (x =? p)%nat eqn:E; try apply Nat.eqb_eq in E; subst;
      cbn [with_right left right parent val andb negb] in *;
      first [congruence|split; [congruence|split; congruence]].
  - destruct (assign_fields t p n (with_left n (Some c)) H) as [A [B [C D]]].
    unfold frame.
    split; [split; [exact A|split; [exact B|split; [exact C|]]]|];
      intros x; destruct (D x) as [D1 [D2 [D3 D4]]];
      destruct (x =? p)%nat eqn:E; try apply Nat.eqb_eq in E; subst;
      cbn [with_left left right parent val andb negb] in *;
      first [congruence|split; [congruence|split; congruence]].
Qed.

(** The pointers after [SwapNodes]: the two nodes exchange their
    places under their parents. *)
Lemma SwapNodes_fields (ty : Z -> Z) (t : tree) (node1 node2 : nat) (t' : tree) :
  SwapNodes ty t node1 node2 = Ret t' ->
  exists p1 p2,
    inside t node1 /\ inside t node2
    /\ parent_of t node1 = Some p1 /\ parent_of t node2 = Some p2
    /\ inside t p1 /\ inside t p2
    /\ frame t t'
    /\ forall x,
        left_of t' x
        = (if (x =? p2)%nat && eqb_ptr (left_of t p2) (Some node2)
           then Some node1
           else if (x =? p1)%nat && eqb_ptr (left_of t p1) (Some node1)
                then Some node2
                else left_of t x)
        /\ right_of t' x
           = (if (x =? p2)%nat && negb (eqb_ptr (left_of t p2) (Some node2))
              then Some node1
              else if (x =? p1)%nat && negb (eqb_ptr (left_of t p1) (Some node1))
                   then Some node2
                   else right_of t x)
        /\ parent_of t' x
           = (if (x =? node2)%nat then Some p1
              else if (x =? node1)%nat then Some p2 else parent_of t x).
Proof.
  intros H. unfold SwapNodes in H.
  destruct (deref t node1) as [n1|] eqn:E1; cbn [bind] in H; [|discriminate].
  destruct (deref t node2) as [n2|] eqn:E2; cbn [bind] in H; [|discriminate].
  cbv zeta in H.
  destruct (assign_index t node1 n1 (index n2) E1) as [Fr1 Fd1].
  set (t1 := assign t node1 (with_index n1 (index n2))) in *.
  destruct (deref t1 node2) as [n2'|] eqn:E2'; cbn [bind] in H; [|discriminate].
  destruct (assign_index t1 node2 n2' (ty (index n1)) E2') as [Fr2 Fd2].
  set (t2 := assign t1 node2 (with_index n2' (ty (index n1)))) in *.
  destruct (deref_fields t node1 n1 E1) as [_ [_ [Pn1 _]]].
  destruct (deref_fields t node2 n2 E2) as [_ [_ [Pn2 _]]].
  destruct (parent n1) as [p1|]; [|discriminate].
  destruct (parent n2) as [p2|]; [|discriminate].
  destruct (deref t2 p1) as [pn1|] eqn:Ep1; cbn [bind] in H; [|discriminate].
  destruct (deref t2 p2) as [pn2|] eqn:Ep2; cbn [bind] in H; [|discriminate].
  destruct (deref_fields t2 p1 pn1 Ep1) as [L1 _].
  destruct (deref_fields t2 p2 pn2 Ep2) as [L2 _].
  destruct (set_child t2 p1 (negb (eqb_ptr (left pn1) (Some node1))) node2)
    as [t3|] eqn:S3; cbn [bind] in H; [|discriminate].
  destruct (set_child t3 p2 (negb (eqb_ptr (left pn2) (Some node2))) node1)
    as [t4|] eqn:S4; cbn [bind] in H; [|discriminate].
  destruct (set_child_fields _ _ _ _ _ S3) as [I3 [Fr3 Fd3]].
  destruct (set_child_fields _ _ _ _ _ S4) as [I4 [Fr4 Fd4]].
  destruct (deref t4 node1) as [m1|] eqn:M1; cbn [bind] in H; [|discriminate].
  destruct (assign_parent t4 node1 m1 (Some p2) M1) as [Fr5 Fd5].
  set (t5 := assign t4 node1 (with_parent m1 (Some p2))) in *.
  destruct (deref t5 node2) as [m2|] eqn:M2; cbn [bind] in H; [|discriminate].
  destruct (assign_parent t5 node2 m2 (Some p1) M2) as [Fr6 Fd6].
  inversion H; subst t'; clear H.
  assert (frame t t2) as Fr02 by (eapply frame_trans; eassumption).
  assert (frame t t3) as Fr03 by (eapply frame_trans; eassumption).
  assert (frame t t4) as Fr04 by (eapply frame_trans; eassumption).
  assert (frame t t5) as Fr05 by (eapply frame_trans; eassumption).
  assert (forall x, left_of t2 x = left_of t x) as HL2.
  { intros x. destruct (Fd2 x) as [-> _]. destruct (Fd1 x) as [-> _]. reflexivity. }
  exists p1, p2.
  split; [exact (deref_inside _ _ _ E1)|].
  split; [exact (deref_inside _ _ _ E2)|].
  split; [congruence|]. split; [congruence|].
  split; [apply (frame_inside t t2 p1 Fr02); exact I3|].
  split; [apply (frame_inside t t3 p2 Fr03); exact I4|].
  split; [eapply frame_trans; eassumption|].
  rewrite <- L1, HL2 in Fd3. rewrite <- L2, HL2 in Fd4.
  rewrite negb_involutive in Fd3, Fd4.
  intros x.
  destruct (Fd6 x) as [A6 [B6 C6]]. destruct (Fd5 x) as [A5 [B5 C5]].
  destruct (Fd4 x) as [A4 [B4 C4]]. destruct (Fd3 x) as [A3 [B3 C3]].
  destruct (Fd2 x) as [A2 [B2 C2]]. destruct (Fd1 x) as [A1 [B1 C1]].
  split; [|split].
  - rewrite A6, A5, A4, A3, A2, A1. reflexivity.
  - rewrite B6, B5, B4, B3, B2, B1. reflexivity.
  - rewrite C6, C5, C4, C3, C2, C1. reflexivity.
Qed.

Lemma eqb_ptr_Some (a : option nat) (y : nat) :
  eqb_ptr a (Some y) = true <-> a = Some y.
Proof.
  destruct a as [x|]; cbn [eqb_ptr]; split; intros H; try discriminate.
  - apply Nat.eqb_eq in H. congruence.
  - inversion H. apply Nat.eqb_refl.
Qed.

Lemma exchange_involutive (a b x : nat) :
  exchange a b (exchange a b x) = x.
Proof.
  unfold exchange.
  destruct (Nat.eqb_spec x a); [subst|destruct (Nat.eqb_spec x b); [subst|]].
  - destruct (Nat.eqb_spec b a); [congruence|]. rewrite Nat.eqb_refl. reflexivity.
  - rewrite Nat.eqb_refl. reflexivity.
  - destruct (Nat.eqb_spec x a); [contradiction|].
    destruct (Nat.eqb_spec x b); [contradiction|reflexivity].
Qed.

Lemma exchange_other (a b x : nat) : x <> a -> x <> b -> exchange a b x = x.
Proof.
  intros Ha Hb. unfold exchange.
  destruct (Nat.eqb_spec x a); [contradiction|].
  destruct (Nat.eqb_spec x b); [contradiction|reflexivity].
Qed.

Lemma exchange_left (a b : nat) : exchange a b a = b.
Proof. unfold exchange. rewrite Nat.eqb_refl. reflexivity. Qed.

Lemma exchange_right (a b : nat) : exchange a b b = a.
Proof.
  unfold exchange. destruct (Nat.eqb_spec b a); [congruence|].
  rewrite Nat.eqb_refl. reflexivity.
Qed.

(** A tree whose children and parents are those of a linked tree up to
    the exchange of two nodes that have parents is linked. *)
Lemma linked_exchange (t t' : tree) (a b : nat) :
  linked t ->
  frame t t' ->
  inside t a -> inside t b ->
  parent_of t a <> None -> parent_of t b <> None ->
  (forall x, left_of t' x = option_map (exchange a b) (left_of t x)) ->
  (forall x, right_of t' x = option_map (exchange a b) (right_of t x)) ->
  (forall x, parent_of t' x = parent_of t (exchange a b x)) ->
  linked t'.
Proof.
  intros Hl Hf Ia Ib Pa Pb HL HR HP.
  pose proof Hf as [F1 [F2 [F3 F4]]].
  assert (forall x, inside t (exchange a b x) <-> inside t x) as Hin.
  { intros x. unfold exchange.
    destruct (Nat.eqb_spec x a); [subst; tauto|].
    destruct (Nat.eqb_spec x b); [subst; tauto|tauto]. }
  assert (a <> root t) as Ra.
  { intros ->. apply Pa. apply (root_top t Hl); [exact Ia|reflexivity]. }
  assert (b <> root t) as Rb.
  { intros ->. apply Pb. apply (root_top t Hl); [exact Ib|reflexivity]. }
  constructor.
  - apply (frame_inside t t' _ Hf). rewrite F2. apply (root_inside t Hl).
  - intros p Hp. apply (frame_inside t t' _ Hf) in Hp.
    rewrite HP, F2. rewrite (root_top t Hl) by (apply Hin; exact Hp).
    split; intros H.
    + rewrite <- (exchange_involutive a b p), H.
      apply exchange_other; congruence.
    + subst p. apply exchange_other; congruence.
  - apply (frame_inside t t' _ Hf). rewrite F3. apply (nyt_inside t Hl).
  - rewrite HL, F3, (nyt_leaf t Hl). reflexivity.
  - intros p. rewrite HL, HR. pose proof (both_or_none t Hl p) as H.
    destruct (left_of t p), (right_of t p); cbn [option_map];
      split; intros H0; try discriminate; try reflexivity;
      destruct H as [H1 H2]; try (specialize (H1 eq_refl); discriminate);
      try (specialize (H2 eq_refl); discriminate).
  - intros p c. rewrite HL, HR.
    destruct (left_of t p) as [l|] eqn:El; cbn [option_map]; [|discriminate].
    intros H. inversion H; subst c; clear H.
    destruct (right_of t p) as [r|] eqn:Er; cbn [option_map]; [|discriminate].
    intros H. inversion H as [H1].
    apply (f_equal (exchange a b)) in H1.
    rewrite !exchange_involutive in H1. subst r.
    apply (sides_differ t Hl p l El). exact Er.
  - intros p c Hc. rewrite HL, HR in Hc. rewrite HP.
    assert (left_of t p = Some (exchange a b c)
            \/ right_of t p = Some (exchange a b c)) as Hc'.
    { destruct Hc as [Hc|Hc]; [left|right].
      - destruct (left_of t p) as [l|]; cbn [option_map] in Hc; [|discriminate].
        inversion Hc. rewrite exchange_involutive. reflexivity.
      - destruct (right_of t p) as [r|]; cbn [option_map] in Hc; [|discriminate].
        inversion Hc. rewrite exchange_involutive. reflexivity. }
    destruct (child_parent t Hl p _ Hc') as [I P].
    split; [|exact P].
    apply (frame_inside t t' _ Hf). apply Hin. exact I.
  - intros c p Hc. rewrite HP in Hc.
    destruct (parent_child t Hl _ p Hc) as [I Hs].
    split; [apply (frame_inside t t' _ Hf); exact I|].
    rewrite HL, HR.
    destruct Hs as [Hs|Hs]; [left|right]; rewrite Hs; cbn [option_map];
      rewrite exchange_involutive; reflexivity.
Qed.

(** [SwapNodes] on two different nodes of a linked tree exchanges
    them. *)
Lemma SwapNodes_exchange (ty : Z -> Z) (t : tree) (node1 node2 : nat) (t' : tree) :
  linked t ->
  node1 <> node2 ->
  SwapNodes ty t node1 node2 = Ret t' ->
  frame t t'
  /\ inside t node1 /\ inside t node2
  /\ parent_of t node1 <> None /\ parent_of t node2 <> None
  /\ (forall x, left_of t' x = option_map (exchange node1 node2) (left_of t x))
  /\ (forall x, right_of t' x = option_map (exchange node1 node2) (right_of t x))
  /\ (forall x, parent_of t' x = parent_of t (exchange node1 node2 x)).
Proof.
  intros Hl Hne H.
  destruct (SwapNodes_fields ty t node1 node2 t' H)
    as [p1 [p2 [I1 [I2 [P1 [P2 [Ip1 [Ip2 [Hf Hx]]]]]]]]].
  destruct (parent_child t Hl node1 p1 P1) as [_ S1].
  destruct (parent_child t Hl node2 p2 P2) as [_ S2].
  assert (forall p c, left_of t p = Some c -> c = node1 -> p = p1) as UL1.
  { intros p c Hc ->.
    destruct (child_parent t Hl p node1 (or_introl Hc)) as [_ Hp]. congruence. }
  assert (forall p c, right_of t p = Some c -> c = node1 -> p = p1) as UR1.
  { intros p c Hc ->.
    destruct (child_parent t Hl p node1 (or_intror Hc)) as [_ Hp]. congruence. }
  assert (forall p c, left_of t p = Some c -> c = node2 -> p = p2) as UL2.
  { intros p c Hc ->.
    destruct (child_parent t Hl p node2 (or_introl Hc)) as [_ Hp]. congruence. }
  assert (forall p c, right_of t p = Some c -> c = node2 -> p = p2) as UR2.
  { intros p c Hc ->.
    destruct (child_parent t Hl p node2 (or_intror Hc)) as [_ Hp]. congruence. }
  assert (forall x, left_of t' x
                    = option_map (exchange node1 node2) (left_of t x)) as HL.
  { intros x. destruct (Hx x) as [-> _].
    destruct (left_of t x) as [c|] eqn:Ec; cbn [option_map].
    + destruct (Nat.eq_dec c node1) as [->|N1].
      * pose proof (UL1 _ _ Ec eq_refl). subst x. rewrite exchange_left.
        rewrite Ec. cbn [eqb_ptr]. rewrite !Nat.eqb_refl. cbn [andb].
        destruct (Nat.eqb_spec p1 p2); [subst p2|reflexivity].
        rewrite Ec. cbn [eqb_ptr andb].
        destruct (Nat.eqb_spec node1 node2); [contradiction|reflexivity].
      * destruct (Nat.eq_dec c node2) as [->|N2].
        -- pose proof (UL2 _ _ Ec eq_refl). subst x. rewrite exchange_right.
           rewrite Ec. cbn [eqb_ptr]. rewrite !Nat.eqb_refl. reflexivity.
        -- rewrite exchange_other by assumption.
           destruct (Nat.eqb_spec x p2); [subst p2|].
           ++ rewrite Ec. cbn [eqb_ptr andb].
              destruct (Nat.eqb_spec c node2); [contradiction|].
              destruct (Nat.eqb_spec x p1); [subst p1|reflexivity].
              rewrite Ec. cbn [eqb_ptr andb].
              destruct (Nat.eqb_spec c node1); [contradiction|reflexivity].
           ++ cbn [andb].
              destruct (Nat.eqb_spec x p1); [subst p1|reflexivity].
              rewrite Ec. cbn [eqb_ptr andb].
              destruct (Nat.eqb_spec c node1); [contradiction|reflexivity].
    + destruct (Nat.eqb_spec x p2); [subst p2|].
      * rewrite Ec. cbn [eqb_ptr andb].
        destruct (Nat.eqb_spec x p1); [subst p1|reflexivity].
        rewrite Ec. reflexivity.
      * cbn [andb].
        destruct (Nat.eqb_spec x p1); [subst p1|reflexivity].
        rewrite Ec. reflexivity. }
  split; [exact Hf|]. split; [exact I1|]. split; [exact I2|].
  split; [congruence|]. split; [congruence|]. split; [exact HL|]. split.
  - intros x. destruct (Hx x) as [_ [-> _]].
    assert (forall p, right_of t p = Some node1 ->
                      p = p1 /\ eqb_ptr (left_of t p1) (Some node1) = false) as N1.
    { intros p Hp. pose proof (UR1 _ _ Hp eq_refl). subst p. split; [reflexivity|].
      destruct (eqb_ptr (left_of t p1) (Some node1)) eqn:E; [|reflexivity].
      apply eqb_ptr_Some in E. destruct (sides_differ t Hl p1 node1 E Hp). }
    assert (forall p, right_of t p = Some node2 ->
                      p = p2 /\ eqb_ptr (left_of t p2) (Some node2) = false) as N2.
    { intros p Hp. pose proof (UR2 _ _ Hp eq_refl). subst p. split; [reflexivity|].
      destruct (eqb_ptr (left_of t p2) (Some node2)) eqn:E; [|reflexivity].
      apply eqb_ptr_Some in E. destruct (sides_differ t Hl p2 node2 E Hp). }
    assert (eqb_ptr (left_of t p1) (Some node1) = false ->
            right_of t p1 = Some node1) as K1.
    { intros E. destruct S1 as [S1|S1]; [|exact S1].
      apply eqb_ptr_Some in S1. congruence. }
    assert (eqb_ptr (left_of t p2) (Some node2) = false ->
            right_of t p2 = Some node2) as K2.
    { intros E. destruct S2 as [S2|S2]; [|exact S2].
      apply eqb_ptr_Some in S2. congruence. }
    destruct (right_of t x) as [c|] eqn:Ec; cbn [option_map].
    + destruct (Nat.eq_dec c node1) as [->|M1].
      * destruct (N1 _ Ec) as [-> E1]. rewrite exchange_left.
        rewrite E1. cbn [negb]. rewrite Nat.eqb_refl. cbn [andb].
        destruct (Nat.eqb_spec p1 p2); [subst p2|reflexivity].
        cbn [andb].
        destruct (eqb_ptr (left_of t p1) (Some node2)) eqn:E2; [reflexivity|].
        pose proof (K2 eq_refl). congruence.
      * destruct (Nat.eq_dec c node2) as [->|M2].
        -- destruct (N2 _ Ec) as [-> E2]. rewrite exchange_right.
           rewrite E2. cbn [negb]. rewrite Nat.eqb_refl. reflexivity.
        -- rewrite exchange_other by assumption.
           destruct (Nat.eqb_spec x p2); [subst p2|].
           ++ cbn [andb].
              destruct (eqb_ptr (left_of t x) (Some node2)) eqn:E2; cbn [negb].
              ** destruct (Nat.eqb_spec x p1); [subst p1|reflexivity].
                 cbn [andb].
                 destruct (eqb_ptr (left_of t x) (Some node1)) eqn:E1;
                   [reflexivity|].
                 pose proof (K1 eq_refl). congruence.
              ** pose proof (K2 eq_refl). congruence.
           ++ cbn [andb].
              destruct (Nat.eqb_spec x p1); [subst p1|reflexivity].
              cbn [andb].
              destruct (eqb_ptr (left_of t x) (Some node1)) eqn:E1;
                [reflexivity|].
              pose proof (K1 eq_refl). congruence.
    + destruct (Nat.eqb_spec x p2); [subst p2|].
      * cbn [andb].
        destruct (eqb_ptr (left_of t x) (Some node2)) eqn:E2; cbn [negb].
        -- destruct (Nat.eqb_spec x p1); [subst p1|reflexivity].
           cbn [andb].
           destruct (eqb_ptr (left_of t x) (Some node1)) eqn:E1;
             [reflexivity|].
           pose proof (K1 eq_refl). congruence.
        -- pose proof (K2 eq_refl). congruence.
      * cbn [andb].
        destruct (Nat.eqb_spec x p1); [subst p1|reflexivity].
        cbn [andb].
        destruct (eqb_ptr (left_of t x) (Some node1)) eqn:E1;
          [reflexivity|].
        pose proof (K1 eq_refl). congruence.
  - intros x. destruct (Hx x) as [_ [_ ->]]. unfold exchange.
    destruct (Nat.eqb_spec x node2); [subst x|].
    + destruct (Nat.eqb_spec node2 node1); [congruence|]. congruence.
    + destruct (Nat.eqb_spec x node1); [subst x; congruence|reflexivity].
Qed.

(** [SwapNodes] on two different nodes keeps the tree linked. *)
Lemma SwapNodes_linked (ty : Z -> Z) (t : tree) (node1 node2 : nat) (t' : tree) :
  linked t ->
  node1 <> node2 ->
  SwapNodes ty t node1 node2 = Ret t' ->
  linked t' /\ frame t t'
  /\ forall x, left_of t' x = None <-> left_of t x = None.
Proof.
  intros Hl Hne H.
  destruct (SwapNodes_exchange ty t node1 node2 t' Hl Hne H)
    as [Hf [I1 [I2 [P1 [P2 [HL [HR HP]]]]]]].
  split; [exact (linked_exchange t t' node1 node2 Hl Hf I1 I2 P1 P2 HL HR HP)|].
  split; [exact Hf|].
  intros x. rewrite HL. destruct (left_of t x); cbn [option_map];
    split; intros H0; congruence.
Qed.

(** [SwapNodes] returns when both nodes have a parent. *)
Lemma SwapNodes_returns (ty : Z -> Z) (t : tree) (node1 node2 p1 p2 : nat) :
  inside t p1 -> inside t p2 ->
  parent_of t node1 = Some p1 -> parent_of t node2 = Some p2 ->
  exists t', SwapNodes ty t node1 node2 = Ret t'.
Proof.
  intros Ip1 Ip2 P1 P2.
  assert (inside t node1) as I1.
  { destruct (Nat.lt_ge_cases node1 (length (nodes t))) as [H|H]; [exact H|].
    destruct (outside_fields t node1 ltac:(unfold inside; lia)) as [_ [_ [E _]]].
    congruence. }
  assert (inside t node2) as I2.
  { destruct (Nat.lt_ge_cases node2 (length (nodes t))) as [H|H]; [exact H|].
    destruct (outside_fields t node2 ltac:(unfold inside; lia)) as [_ [_ [E _]]].
    congruence. }
  unfold SwapNodes.
  destruct (inside_deref t node1 I1) as [n1 E1]. rewrite E1. cbn [bind].
  destruct (inside_deref t node2 I2) as [n2 E2]. rewrite E2. cbn [bind].
  cbv zeta.
  destruct (assign_index t node1 n1 (index n2) E1) as [Fr1 _].
  set (t1 := assign t node1 (with_index n1 (index n2))) in *.
  destruct (inside_deref t1 node2 (proj2 (frame_inside t t1 node2 Fr1) I2))
    as [n2' E2'].
  rewrite E2'. cbn [bind].
  destruct (assign_index t1 node2 n2' (ty (index n1)) E2') as [Fr2 _].
  set (t2 := assign t1 node2 (with_index n2' (ty (index n1)))) in *.
  assert (frame t t2) as Fr02 by (eapply frame_trans; eassumption).
  destruct (deref_fields t node1 n1 E1) as [_ [_ [Pn1 _]]].
  destruct (deref_fields t node2 n2 E2) as [_ [_ [Pn2 _]]].
  rewrite <- Pn1, <- Pn2, P1, P2.
  destruct (inside_deref t2 p1 (proj2 (frame_inside t t2 p1 Fr02) Ip1))
    as [pn1 Ep1].
  rewrite Ep1. cbn [bind].
  destruct (inside_deref t2 p2 (proj2 (frame_inside t t2 p2 Fr02) Ip2))
    as [pn2 Ep2].
  rewrite Ep2. cbn [bind].
  unfold set_child at 1. rewrite Ep1. cbn [bind].
  match goal with
  | |- context [set_child ?t3 p2 _ _] =>
      assert (frame t2 t3) as Fr3
  end.
  { destruct (negb (eqb_ptr (left pn1) (Some node1))).
    - destruct (assign_fields t2 p1 pn1 (with_right pn1 (Some node2)) Ep1)
        as [A [B [C D]]].
      unfold frame. split; [exact A|split; [exact B|split; [exact C|]]].
      intros x. destruct (D x) as [_ [_ [_ ->]]].
      destruct (Nat.eqb_spec x p1); [subst x|reflexivity].
      destruct (deref_fields t2 p1 pn1 Ep1) as [_ [_ [_ ->]]]. reflexivity.
    - destruct (assign_fields t2 p1 pn1 (with_left pn1 (Some node2)) Ep1)
        as [A [B [C D]]].
      unfold frame. split; [exact A|split; [exact B|split; [exact C|]]].
      intros x. destruct (D x) as [_ [_ [_ ->]]].
      destruct (Nat.eqb_spec x p1); [subst x|reflexivity].
      destruct (deref_fields t2 p1 pn1 Ep1) as [_ [_ [_ ->]]]. reflexivity. }
  match goal with
  | |- context [set_child ?t3 p2 ?s ?c] =>
      destruct (set_child t3 p2 s c) as [t4|] eqn:S4
  end.
  2:{ unfold set_child in S4.
      match type of S4 with
      | context [deref ?t3 p2] =>
          destruct (inside_deref t3 p2
                      (proj2 (frame_inside t2 t3 p2 Fr3)
                             (proj2 (frame_inside t t2 p2 Fr02) Ip2)))
            as [q Eq]
      end.
      rewrite Eq in S4. discriminate. }
  cbn [bind].
  destruct (set_child_fields _ _ _ _ _ S4) as [_ [Fr4 _]].
  assert (frame t t4) as Fr04
      by (eapply frame_trans; [eapply frame_trans; eassumption|exact Fr4]).
  destruct (inside_deref t4 node1 (proj2 (frame_inside t t4 node1 Fr04) I1))
    as [m1 M1].
  rewrite M1. cbn [bind].
  destruct (assign_parent t4 node1 m1 (Some p2) M1) as [Fr5 _].
  set (t5 := assign t4 node1 (with_parent m1 (Some p2))) in *.
  assert (frame t t5) as Fr05 by (eapply frame_trans; eassumption).
  destruct (inside_deref t5 node2 (proj2 (frame_inside t t5 node2 Fr05) I2))
    as [m2 M2].
  rewrite M2. cbn [bind]. eexists. reflexivity.
Qed.

Lemma InitTree_linked : linked InitTree.
Proof.
  assert (forall x, x <> O -> ~ inside InitTree x) as Hout
      by (intros x Hx; unfold inside; cbn; lia).
  constructor.
  - unfold inside. cbn. lia.
  - intros p Hp. unfold inside in Hp. cbn in Hp.
    assert (p = O) as -> by lia. cbn. tauto.
  - unfold inside. cbn. lia.
  - reflexivity.
  - intros p. destruct p as [|p]; [cbn; tauto|].
    destruct (outside_fields InitTree (S p) (Hout _ (Nat.neq_succ_0 _))) as [-> [-> _]].
    tauto.
  - intros p c. destruct p as [|p]; [cbn; discriminate|].
    destruct (outside_fields InitTree (S p) (Hout _ (Nat.neq_succ_0 _))) as [-> _].
    discriminate.
  - intros p c. destruct p as [|p]; [cbn; intros [H|H]; discriminate|].
    destruct (outside_fields InitTree (S p) (Hout _ (Nat.neq_succ_0 _))) as [-> [-> _]].
    intros [H|H]; discriminate.
  - intros c p. destruct c as [|c]; [cbn; discriminate|].
    destruct (outside_fields InitTree (S c) (Hout _ (Nat.neq_succ_0 _)))
      as [_ [_ [-> _]]].
    discriminate.
Qed.

(** The pointers after [AddSymbol]: the old NYT node gets the two new
    nodes as children. *)
Lemma AddSymbol_fields (t : tree) (symbol : Z) :
  inside t (NYT t) ->
  exists t',
    AddSymbol t symbol = Ret (t', length (nodes t), NYT t)
    /\ length (nodes t') = S (S (length (nodes t)))
    /\ root t' = root t
    /\ NYT t' = S (length (nodes t))
    /\ forall x,
        left_of t' x
        = (if (x =? NYT t)%nat then Some (S (length (nodes t))) else left_of t x)
        /\ right_of t' x
           = (if (x =? NYT t)%nat then Some (length (nodes t)) else right_of t x)
        /\ parent_of t' x
           = (if (x =? length (nodes t))%nat || (x =? S (length (nodes t)))%nat
              then Some (NYT t) else parent_of t x)
        /\ val_of t' x
           = (if (x =? length (nodes t))%nat then Some symbol
              else if (x =? S (length (nodes t)))%nat then Some 0
                   else val_of t x).
Proof.
  intros Hin. destruct (inside_deref t (NYT t) Hin) as [nyt Hd].
  unfold AddSymbol. rewrite Hd. cbn [bind].
  eexists. split; [reflexivity|]. cbn [nodes root NYT].
  rewrite length_app, store_length. cbn [length].
  split; [lia|]. split; [reflexivity|]. split; [reflexivity|].
  intros x. unfold inside in Hin.
  destruct (deref_fields t (NYT t) nyt Hd) as [F1 [F2 [F3 F4]]].
  unfold left_of, right_of, parent_of, val_of in *. cbn [nodes].
  destruct (Nat.lt_ge_cases x (length (nodes t))) as [Hx|Hx].
  - rewrite nth_error_app1 by (rewrite store_length; exact Hx).
    rewrite nth_error_store. rewrite (Nat.eqb_sym (NYT t) x).
    replace (x <? length (nodes t))%nat with true
      by (symmetry; apply Nat.ltb_lt; exact Hx).
    rewrite andb_true_r.
    replace (x =? length (nodes t))%nat with false
      by (symmetry; apply Nat.eqb_neq; lia).
    replace (x =? S (length (nodes t)))%nat with false
      by (symmetry; apply Nat.eqb_neq; lia).
    cbn [orb].
    destruct (Nat.eqb_spec x (NYT t)) as [->|Hne]; cbn [left right parent val].
    + repeat split; congruence.
    + repeat split.
  - rewrite nth_error_app2 by (rewrite store_length; exact Hx).
    rewrite store_length.
    replace (x =? NYT t)%nat with false by (symmetry; apply Nat.eqb_neq; lia).
    replace (nth_error (nodes t) x) with (@None Node)
      by (symmetry; apply nth_error_None; lia).
    destruct (x - length (nodes t))%nat as [|[|k]] eqn:Ek.
    + replace (x =? length (nodes t))%nat with true
        by (symmetry; apply Nat.eqb_eq; lia).
      cbn [nth_error left right parent val orb]. repeat split.
    + replace (x =? length (nodes t))%nat with false
        by (symmetry; apply Nat.eqb_neq; lia).
      replace (x =? S (length (nodes t)))%nat with true
        by (symmetry; apply Nat.eqb_eq; lia).
      cbn [nth_error left right parent val orb]. repeat split.
    + replace (x =? length (nodes t))%nat with false
        by (symmetry; apply Nat.eqb_neq; lia).
      replace (x =? S (length (nodes t)))%nat with false
        by (symmetry; apply Nat.eqb_neq; lia).
      cbn [nth_error orb]. destruct k; repeat split.
Qed.

(** [AddSymbol] keeps the tree linked. *)
Lemma AddSymbol_linked (t : tree) (symbol : Z) :
  linked t ->
  exists t',
    AddSymbol t symbol = Ret (t', length (nodes t), NYT t)
    /\ linked t'
    /\ length (nodes t') = S (S (length (nodes t)))
    /\ root t' = root t
    /\ NYT t' = S (length (nodes t))
    /\ (forall x, inside t x -> val_of t' x = val_of t x)
    /\ val_of t' (length (nodes t)) = Some symbol
    /\ left_of t' (length (nodes t)) = None
    /\ (forall x, x <> NYT t -> left_of t' x = left_of t x)
    /\ child_of t' (NYT t) true = Some (length (nodes t))
    /\ child_of t' (NYT t) false = Some (S (length (nodes t))).
Proof.
  intros Hl. pose proof (nyt_inside t Hl) as Hin.
  destruct (AddSymbol_fields t symbol Hin) as [t' [Ha [Hlen [Hr [Hn Hx]]]]].
  exists t'. split; [exact Ha|].
  assert (forall x, ~ inside t x -> left_of t x = None) as OL
      by (intros x H; apply (outside_fields t x H)).
  assert (forall x, ~ inside t x -> right_of t x = None) as OR
      by (intros x H; apply (outside_fields t x H)).
  assert (forall x, ~ inside t x -> parent_of t x = None) as OP
      by (intros x H; apply (outside_fields t x H)).
  pose proof (nyt_leaf t Hl) as NL.
  pose proof (proj1 (both_or_none t Hl (NYT t)) NL) as NR.
  unfold inside in *.
  split; [|split; [exact Hlen|split; [exact Hr|split; [exact Hn|]]]].
  - constructor; unfold inside.
    + rewrite Hlen, Hr. pose proof (root_inside t Hl). unfold inside in *. lia.
    + intros p Hp. destruct (Hx p) as [_ [_ [-> _]]]. rewrite Hr.
      destruct (Nat.eqb_spec p (length (nodes t))) as [->|N1]; cbn [orb].
      * pose proof (root_inside t Hl). unfold inside in *.
        split; [discriminate|lia].
      * destruct (Nat.eqb_spec p (S (length (nodes t)))) as [->|N2].
        -- pose proof (root_inside t Hl). unfold inside in *.
           split; [discriminate|lia].
        -- apply (root_top t Hl). unfold inside. lia.
    + rewrite Hlen, Hn. lia.
    + destruct (Hx (NYT t')) as [-> _]. rewrite Hn.
      destruct (Nat.eqb_spec (S (length (nodes t))) (NYT t)); [lia|].
      apply OL. unfold inside. lia.
    + intros p. destruct (Hx p) as [-> [-> _]].
      destruct (Nat.eqb_spec p (NYT t)); [split; discriminate|].
      apply (both_or_none t Hl).
    + intros p c. destruct (Hx p) as [-> [-> _]].
      destruct (Nat.eqb_spec p (NYT t)).
      * intros H1 H2. inversion H1. inversion H2. lia.
      * apply (sides_differ t Hl).
    + intros p c. destruct (Hx p) as [-> [-> _]]. destruct (Hx c) as [_ [_ [-> _]]].
      destruct (Nat.eqb_spec p (NYT t)) as [->|Np].
      * intros [H|H]; inversion H; subst c; rewrite Hlen;
          rewrite ?Nat.eqb_refl, ?orb_true_r; cbn [orb]; split; try lia;
          reflexivity.
      * intros H. destruct (child_parent t Hl p c H) as [I P].
        unfold inside in I. rewrite Hlen. split; [lia|].
        replace (c =? length (nodes t))%nat with false
          by (symmetry; apply Nat.eqb_neq; lia).
        replace (c =? S (length (nodes t)))%nat with false
          by (symmetry; apply Nat.eqb_neq; lia).
        exact P.
    + intros c p. destruct (Hx c) as [_ [_ [-> _]]]. destruct (Hx p) as [-> [-> _]].
      rewrite Hlen.
      destruct ((c =? length (nodes t))%nat || (c =? S (length (nodes t)))%nat)
        eqn:E.
      * intros H. inversion H; subst p. rewrite Nat.eqb_refl.
        split; [lia|]. apply orb_true_iff in E.
        destruct E as [E|E]; apply Nat.eqb_eq in E; subst c; [right|left];
          reflexivity.
      * intros H. destruct (parent_child t Hl c p H) as [I S].
        unfold inside in I. split; [lia|].
        destruct (Nat.eqb_spec p (NYT t)) as [->|Np]; [|exact S].
        destruct S; congruence.
  - split.
    { intros x Ix. destruct (Hx x) as [_ [_ [_ ->]]].
      replace (x =? length (nodes t))%nat with false
        by (symmetry; apply Nat.eqb_neq; lia).
      replace (x =? S (length (nodes t)))%nat with false
        by (symmetry; apply Nat.eqb_neq; lia).
      reflexivity. }
    split.
    { destruct (Hx (length (nodes t))) as [_ [_ [_ ->]]].
      rewrite Nat.eqb_refl. reflexivity. }
    split.
    { destruct (Hx (length (nodes t))) as [-> _].
      destruct (Nat.eqb_spec (length (nodes t)) (NYT t)); [lia|].
      apply OL. unfold inside. lia. }
    split.
    { intros x Nx. destruct (Hx x) as [-> _].
      destruct (Nat.eqb_spec x (NYT t)); [contradiction|reflexivity]. }
    unfold child_of. destruct (Hx (NYT t)) as [-> [-> _]].
    rewrite Nat.eqb_refl. split; reflexivity.
Qed.

(** A tree with the pointers of a linked tree is linked. *)
Lemma linked_pointers (t t' : tree) :
  linked t ->
  frame t t' ->
  (forall x, left_of t' x = left_of t x
             /\ right_of t' x = right_of t x
             /\ parent_of t' x = parent_of t x) ->
  linked t'.
Proof.
  intros Hl Hf Hx. pose proof Hf as [F1 [F2 [F3 F4]]].
  assert (forall x, left_of t' x = left_of t x) as HL by (intros x; apply Hx).
  assert (forall x, right_of t' x = right_of t x) as HR by (intros x; apply Hx).
  assert (forall x, parent_of t' x = parent_of t x) as HP by (intros x; apply Hx).
  constructor.
  - apply (frame_inside t t' _ Hf). rewrite F2. apply (root_inside t Hl).
  - intros p Hp. apply (frame_inside t t' _ Hf) in Hp.
    rewrite HP, F2. apply (root_top t Hl _ Hp).
  - apply (frame_inside t t' _ Hf). rewrite F3. apply (nyt_inside t Hl).
  - rewrite HL, F3. apply (nyt_leaf t Hl).
  - intros p. rewrite HL, HR. apply (both_or_none t Hl).
  - intros p c. rewrite HL, HR. apply (sides_differ t Hl).
  - intros p c. rewrite HL, HR, HP. intros H.
    destruct (child_parent t Hl p c H) as [I P].
    split; [apply (frame_inside t t' _ Hf); exact I|exact P].
  - intros c p. rewrite HL, HR, HP. intros H.
    destruct (parent_child t Hl c p H) as [I P].
    split; [apply (frame_inside t t' _ Hf); exact I|exact P].
Qed.

(** The loop that follows every symbol keeps the tree linked, and
    keeps the arena, the root, the NYT pointer, the symbols and the
    leaves. *)
Lemma update_linked (ty : Z -> Z) (fuel : nat) :
  forall t node t',
    linked t ->
    update fuel ty t node = Ret t' ->
    linked t' /\ frame t t'
    /\ forall x, left_of t' x = None <-> left_of t x = None.
Proof.
  induction fuel as [|f IH]; intros t node t' Hl H; [discriminate|].
  cbn [update] in H.
  destruct (FindHighestBlockNode t node) as [h|] eqn:Eh; cbn [bind] in H;
    [|discriminate].
  destruct (deref t node) as [n|] eqn:En; cbn [bind] in H; [|discriminate].
  assert (exists t1, (if negb (h =? node)%nat
                         && negb (eqb_ptr (Some h) (parent n))
                      then SwapNodes ty t h node else Ret t) = Ret t1
                     /\ linked t1 /\ frame t t1
                     /\ forall x, left_of t1 x = None <-> left_of t x = None)
    as [t1 [E1 [Hl1 [Hf1 Hx1]]]].
  { destruct (negb (h =? node)%nat && negb (eqb_ptr (Some h) (parent n))) eqn:Ec.
    - destruct (SwapNodes ty t h node) as [t1|] eqn:Es; cbn [bind] in H;
        [|discriminate].
      exists t1. split; [reflexivity|].
      apply (SwapNodes_linked ty t h node t1 Hl); [|exact Es].
      apply andb_true_iff in Ec. destruct Ec as [Ec _].
      apply negb_true_iff, Nat.eqb_neq in Ec. exact Ec.
    - exists t. split; [reflexivity|]. split; [exact Hl|]. split; [apply frame_refl|].
      intros x. tauto. }
  rewrite E1 in H. cbn [bind] in H.
  destruct (deref t1 node) as [n1|] eqn:En1; cbn [bind] in H; [|discriminate].
  cbv zeta in H.
  destruct (assign_weight t1 node n1 (u64 (weight n1 + 1)) En1) as [Hf2 Hx2].
  set (t2 := assign t1 node (with_weight n1 (u64 (weight n1 + 1)))) in *.
  assert (linked t2) as Hl2 by (apply (linked_pointers t1 t2 Hl1 Hf2 Hx2)).
  assert (frame t t2) as Hf02 by (eapply frame_trans; eassumption).
  assert (forall x, left_of t2 x = None <-> left_of t x = None) as Hx02.
  { intros x. destruct (Hx2 x) as [-> _]. apply Hx1. }
  destruct (root t2 =? node)%nat.
  - inversion H; subst t'. split; [exact Hl2|]. split; [exact Hf02|exact Hx02].
  - destruct (parent n1) as [p|]; [|discriminate].
    destruct (IH t2 p t' Hl2 H) as [Hl' [Hf' Hx']].
    split; [exact Hl'|]. split; [eapply frame_trans; eassumption|].
    intros x. rewrite Hx'. apply Hx02.
Qed.

Lemma val_of_inside (t : tree) (p : nat) (v : Z) :
  val_of t p = Some v -> inside t p.
Proof.
  unfold val_of, inside. intros H. apply nth_error_Some.
  destruct (nth_error (nodes t) p); [discriminate|discriminate].
Qed.

(** The bit writer does not touch the tree or the table of leaves. *)
Lemma AddBits_loop_tree (bits : list Z) :
  forall c c',
    HuffmanCoder.AddBits_loop c bits = Ret c' ->
    HuffmanCoder.tr c' = HuffmanCoder.tr c
    /\ HuffmanCoder.leaf_nodes c' = HuffmanCoder.leaf_nodes c.
Proof.
  induction bits as [|b bits IH]; intros c c' H; cbn [HuffmanCoder.AddBits_loop] in H.
  - inversion H. split; reflexivity.
  - destruct (HuffmanCoder.AddBits_step c b) as [c1|] eqn:E; cbn [bind] in H;
      [|discriminate].
    destruct (IH c1 c' H) as [H1 H2]. rewrite H1, H2.
    unfold HuffmanCoder.AddBits_step in E.
    destruct (if b =? 1
              then or_at (HuffmanCoder.buffer c)
                         (Z.to_nat (HuffmanCoder.byte_index c))
                         (Z.shiftl 1 (HuffmanCoder.bit_index c))
              else Ret (HuffmanCoder.buffer c)) as [buf|]; cbn [bind] in E;
      [|discriminate].
    inversion E.
    destruct (BITS_IN_BYTE <=? u8 (HuffmanCoder.bit_index c + 1));
      split; reflexivity.
Qed.

Lemma AddBits_tree (c c' : HuffmanCoder.coder) (bits : list Z) :
  HuffmanCoder.AddBits c bits = Ret c' ->
  HuffmanCoder.tr c' = HuffmanCoder.tr c
  /\ HuffmanCoder.leaf_nodes c' = HuffmanCoder.leaf_nodes c.
Proof.
  unfold HuffmanCoder.AddBits. destruct bits as [|b bits].
  - intros H. inversion H. split; reflexivity.
  - intros H. destruct (AddBits_loop_tree _ _ _ H) as [H1 H2].
    rewrite H1, H2. unfold HuffmanCoder.ReallocateBuffer.
    destruct (HuffmanCoder.alloc c <=? HuffmanCoder.byte_index c + 20);
      split; reflexivity.
Qed.

Lemma init_labelled : linked (HuffmanCoder.tr HuffmanCoder.init)
                      /\ labelled HuffmanCoder.init.
Proof.
  split; [exact InitTree_linked|]. split; [reflexivity|].
  intros s p H. exfalso.
  change (HuffmanCoder.leaf_nodes HuffmanCoder.init)
    with (repeat (@None nat) 256) in H.
  assert (In (Some p) (repeat (@None nat) 256)) as Hin
      by (eapply nth_error_In; exact H).
  apply repeat_spec in Hin. discriminate.
Qed.

(** One turn of the loop of [Encode] keeps the tree linked and the
    table of leaves labelled. *)
Lemma Encode_step_linked (c c' : HuffmanCoder.coder) (b : Z) :
  is_byte b ->
  linked (HuffmanCoder.tr c) ->
  labelled c ->
  HuffmanCoder.Encode_step c b = Ret c' ->
  linked (HuffmanCoder.tr c') /\ labelled c'.
Proof.
  intros Hb Hl [Hlen Hlab] H. unfold HuffmanCoder.Encode_step in H.
  destruct (HuffmanCoder.FindSymbol c b) as [found|] eqn:Ef; cbn [bind] in H;
    [|discriminate].
  assert (exists c3 node,
             linked (HuffmanCoder.tr c3) /\ labelled c3
             /\ update_tree (fun i => i) (HuffmanCoder.tr c3) node
                = Ret (HuffmanCoder.tr c')
             /\ HuffmanCoder.leaf_nodes c' = HuffmanCoder.leaf_nodes c3)
    as [c3 [node [Hl3 [[Hlen3 Hlab3] [Hu Hleaf]]]]].
  { destruct found as [node|].
    - destruct (HuffmanCoder.path_to_root c node) as [path|]; cbn [bind] in H;
        [|discriminate].
      destruct (HuffmanCoder.AddBits c path) as [c1|] eqn:E1; cbn [bind] in H;
        [|discriminate].
      destruct (AddBits_tree _ _ _ E1) as [T1 L1].
      destruct (update_tree (fun i => i) (HuffmanCoder.tr c1) node) as [t|] eqn:Eu;
        cbn [bind] in H; [|discriminate].
      inversion H; subst c'; clear H.
      exists c1, node. cbn [HuffmanCoder.with_tree HuffmanCoder.tr
                             HuffmanCoder.leaf_nodes].
      unfold labelled. rewrite T1, L1.
      split; [exact Hl|]. split; [|split; [congruence|reflexivity]].
      split; [exact Hlen|exact Hlab].
    - destruct (HuffmanCoder.path_to_root c (NYT (HuffmanCoder.tr c)))
        as [path|]; cbn [bind] in H; [|discriminate].
      destruct (HuffmanCoder.AddBits c path) as [c1|] eqn:E1; cbn [bind] in H;
        [|discriminate].
      destruct (AddBits_tree _ _ _ E1) as [T1 L1].
      unfold HuffmanCoder.AddSymbol in H.
      destruct (AddSymbol_linked (HuffmanCoder.tr c1) b ltac:(rewrite T1; exact Hl))
        as [t' [Ea [Hl' [Hn' [Hr' [Hnyt' [Hv' [Hvs [Hls [Hlo _]]]]]]]]]].
      rewrite Ea in H. cbn [bind] in H.
      match type of H with
      | context [HuffmanCoder.AddByte ?x b] => set (c2 := x) in *
      end.
      destruct (HuffmanCoder.AddByte c2 b) as [c3|] eqn:E3; cbn [bind] in H;
        [|discriminate].
      destruct (AddBits_tree _ _ _ E3) as [T3 L3].
      destruct (update_tree (fun i => i) (HuffmanCoder.tr c3)
                            (NYT (HuffmanCoder.tr c1))) as [t|] eqn:Eu;
        cbn [bind] in H; [|discriminate].
      inversion H; subst c'; clear H.
      exists c3, (NYT (HuffmanCoder.tr c1)).
      cbn [HuffmanCoder.with_tree HuffmanCoder.tr HuffmanCoder.leaf_nodes].
      subst c2. cbn [HuffmanCoder.tr HuffmanCoder.leaf_nodes] in T3, L3.
      unfold labelled. rewrite T3, L3.
      split; [exact Hl'|]. split; [|split; [rewrite T3 in Eu; exact Eu|reflexivity]].
      split; [rewrite store_length; congruence|].
      intros s p Hs. rewrite nth_error_store in Hs.
      rewrite T1 in *. rewrite L1 in *.
      destruct ((Z.to_nat b =? s)%nat && (s <? length (HuffmanCoder.leaf_nodes c))%nat)
        eqn:Es.
      + inversion Hs; subst p. apply andb_true_iff in Es. destruct Es as [Es _].
        apply Nat.eqb_eq in Es. subst s.
        rewrite Z2Nat.id by (destruct Hb; lia).
        split; [exact Hvs|]. split; [exact Hls|]. rewrite Hnyt'. lia.
      + destruct (Hlab s p Hs) as [V [L N]].
        pose proof (val_of_inside _ _ _ V) as I.
        split; [rewrite Hv' by exact I; exact V|].
        split; [rewrite Hlo by exact N; exact L|].
        rewrite Hnyt'. unfold inside in I. lia. }
  unfold update_tree in Hu.
  destruct (update_linked _ _ _ _ _ Hl3 Hu) as [Hl' [Hf' Hx']].
  split; [exact Hl'|]. split; [congruence|].
  intros s p Hs. rewrite Hleaf in Hs. destruct (Hlab3 s p Hs) as [V [L N]].
  destruct Hf' as [_ [_ [F3 F4]]].
  split; [rewrite F4; exact V|]. split; [apply Hx'; exact L|congruence].
Qed.

Lemma Encode_loop_linked_aux (input : list Z) :
  forall c c',
    bytes input ->
    linked (HuffmanCoder.tr c) ->
    labelled c ->
    HuffmanCoder.Encode_loop c input = Ret c' ->
    linked (HuffmanCoder.tr c') /\ labelled c'.
Proof.
  induction input as [|b input IH]; intros c c' Hb Hl Hlab H;
    cbn [HuffmanCoder.Encode_loop] in H.
  - inversion H; subst c'. split; assumption.
  - destruct (HuffmanCoder.Encode_step c b) as [c1|] eqn:E; cbn [bind] in H;
      [|discriminate].
    destruct (Encode_step_linked c c1 b (Forall_inv Hb) Hl Hlab E) as [Hl1 Hlab1].
    exact (IH c1 c' (Forall_inv_tail Hb) Hl1 Hlab1 H).
Qed.

(** The coder's [AddSymbol]: the tree gets the two new nodes and the
    table of leaves the new leaf. *)
Lemma coder_AddSymbol_aux (c : HuffmanCoder.coder) (s : Z) :
  is_byte s ->
  linked (HuffmanCoder.tr c) ->
  labelled c ->
  exists c' p,
    HuffmanCoder.AddSymbol c s = Ret (c', NYT (HuffmanCoder.tr c))
    /\ HuffmanCoder.FindSymbol c' s = Ret (Some p)
    /\ val_of (HuffmanCoder.tr c') p = Some s
    /\ left_of (HuffmanCoder.tr c') p = None
    /\ child_of (HuffmanCoder.tr c') (NYT (HuffmanCoder.tr c)) true = Some p
    /\ child_of (HuffmanCoder.tr c') (NYT (HuffmanCoder.tr c)) false
       = Some (NYT (HuffmanCoder.tr c'))
    /\ (forall s', is_byte s' -> s' <> s ->
                   HuffmanCoder.FindSymbol c' s' = HuffmanCoder.FindSymbol c s')
    /\ linked (HuffmanCoder.tr c')
    /\ labelled c'.
Proof.
  intros Hb Hl [Hlen Hlab]. unfold HuffmanCoder.AddSymbol.
  destruct (AddSymbol_linked (HuffmanCoder.tr c) s Hl)
    as [t' [Ea [Hl' [Hn' [Hr' [Hnyt' [Hv' [Hvs [Hls [Hlo [Hc1 Hc0]]]]]]]]]]].
  rewrite Ea. cbn [bind].
  eexists. exists (length (nodes (HuffmanCoder.tr c))).
  split; [reflexivity|].
  cbn [HuffmanCoder.tr HuffmanCoder.leaf_nodes].
  assert (Z.to_nat s < length (HuffmanCoder.leaf_nodes c))%nat as Hs
      by (destruct Hb; lia).
  split.
  { unfold HuffmanCoder.FindSymbol. cbn [HuffmanCoder.leaf_nodes].
    rewrite nth_error_store, Nat.eqb_refl.
    replace (Z.to_nat s <? length (HuffmanCoder.leaf_nodes c))%nat with true
      by (symmetry; apply Nat.ltb_lt; exact Hs).
    reflexivity. }
  split; [exact Hvs|]. split; [exact Hls|]. split; [exact Hc1|].
  split; [rewrite Hnyt'; exact Hc0|].
  split.
  { intros s' Hb' Hne. unfold HuffmanCoder.FindSymbol.
    cbn [HuffmanCoder.leaf_nodes]. rewrite nth_error_store.
    replace (Z.to_nat s =? Z.to_nat s')%nat with false; [reflexivity|].
    symmetry. apply Nat.eqb_neq. destruct Hb, Hb'. lia. }
  split; [exact Hl'|].
  split; [cbn [HuffmanCoder.leaf_nodes]; rewrite store_length; exact Hlen|].
  cbn [HuffmanCoder.tr HuffmanCoder.leaf_nodes].
  intros x p Hx. rewrite nth_error_store in Hx.
  destruct ((Z.to_nat s =? x)%nat && (x <? length (HuffmanCoder.leaf_nodes c))%nat)
    eqn:Es.
  - inversion Hx; subst p. apply andb_true_iff in Es. destruct Es as [Es _].
    apply Nat.eqb_eq in Es. subst x.
    rewrite Z2Nat.id by (destruct Hb; lia).
    split; [exact Hvs|]. split; [exact Hls|]. rewrite Hnyt'. lia.
  - destruct (Hlab x p Hx) as [V [L N]].
    pose proof (val_of_inside _ _ _ V) as I.
    split; [rewrite Hv' by exact I; exact V|].
    split; [rewrite Hlo by exact N; exact L|].
    rewrite Hnyt'. unfold inside in I. lia.
Qed.

(** X19: [SwapNodes] on two different nodes of a linked tree that both
    have a parent returns, and exchanges them: the left and right
    pointers of every node and the parent pointers are those of the old
    tree up to the exchange of the two nodes.  The tree stays linked,
    and the arena, the root, the NYT pointer and the symbols are
    kept. *)
Theorem SwapNodes_exchanges (ty : Z -> Z) (t : tree) (node1 node2 p1 p2 : nat) :
  linked t ->
  node1 <> node2 ->
  parent_of t node1 = Some p1 ->
  parent_of t node2 = Some p2 ->
  exists t',
    SwapNodes ty t node1 node2 = Ret t'
    /\ linked t'
    /\ frame t t'
    /\ (forall x, left_of t' x = option_map (exchange node1 node2) (left_of t x))
    /\ (forall x, right_of t' x = option_map (exchange node1 node2) (right_of t x))
    /\ (forall x, parent_of t' x = parent_of t (exchange node1 node2 x)).
Proof.
  intros Hl Hne P1 P2.
  destruct (parent_child t Hl node1 p1 P1) as [Ip1 _].
  destruct (parent_child t Hl node2 p2 P2) as [Ip2 _].
  destruct (SwapNodes_returns ty t node1 node2 p1 p2 Ip1 Ip2 P1 P2) as [t' H].
  exists t'. split; [exact H|].
  destruct (SwapNodes_exchange ty t node1 node2 t' Hl Hne H)
    as [Hf [I1 [I2 [Q1 [Q2 [HL [HR HP]]]]]]].
  split; [exact (linked_exchange t t' node1 node2 Hl Hf I1 I2 Q1 Q2 HL HR HP)|].
  split; [exact Hf|]. split; [exact HL|]. split; [exact HR|exact HP].
Qed.

Lemma SwapNodes_exchanges_witness :
  exists t1 t2 t',
    AddSymbol InitTree 5 = Ret (t1, 1%nat, O)
    /\ AddSymbol t1 6 = Ret (t2, 3%nat, 2%nat)
    /\ SwapNodes u16 t2 1 3 = Ret t'
    /\ linked t'
    /\ right_of t' 0 = Some 3%nat
    /\ right_of t' 2 = Some 1%nat.
Proof.
  destruct (AddSymbol_linked InitTree 5 InitTree_linked) as [t1 [E1 [L1 _]]].
  destruct (AddSymbol_linked t1 6 L1) as [t2 [E2 [L2 _]]].
  assert (length (nodes t1) = 3%nat /\ NYT t1 = 2%nat) as [N1 N2].
  { vm_compute in E1. inversion E1; subst t1. split; reflexivity. }
  rewrite N1, N2 in E2.
  assert (parent_of t2 1 = Some O /\ parent_of t2 3 = Some 2%nat
          /\ right_of t2 0 = Some 1%nat /\ right_of t2 2 = Some 3%nat)
    as [P1 [P2 [R0 R2]]].
  { vm_compute in E1. inversion E1; subst t1.
    vm_compute in E2. inversion E2; subst t2. repeat split. }
  destruct (SwapNodes_exchanges u16 t2 1 3 0 2 L2 ltac:(lia) P1 P2)
    as [t' [H [Hl' [_ [_ [HR _]]]]]].
  exists t1, t2, t'. split; [exact E1|]. split; [exact E2|].
  split; [exact H|]. split; [exact Hl'|].
  rewrite !HR, R0, R2. split; reflexivity.
Defined.

(** X20: the coder's [AddSymbol] for a byte, on a linked tree with a
    labelled table of leaves, returns the old NYT node, which gets the
    new leaf as right child and the new NYT node as left child.
    [FindSymbol] then returns the new leaf for the symbol, which carries
    the symbol, and what it returned before for every other byte. *)
Theorem AddSymbol_FindSymbol (c : HuffmanCoder.coder) (s : Z) :
  is_byte s ->
  linked (HuffmanCoder.tr c) ->
  labelled c ->
  exists c' p,
    HuffmanCoder.AddSymbol c s = Ret (c', NYT (HuffmanCoder.tr c))
    /\ HuffmanCoder.FindSymbol c' s = Ret (Some p)
    /\ val_of (HuffmanCoder.tr c') p = Some s
    /\ left_of (HuffmanCoder.tr c') p = None
    /\ child_of (HuffmanCoder.tr c') (NYT (HuffmanCoder.tr c)) true = Some p
    /\ child_of (HuffmanCoder.tr c') (NYT (HuffmanCoder.tr c)) false
       = Some (NYT (HuffmanCoder.tr c'))
    /\ (forall s', is_byte s' -> s' <> s ->
                   HuffmanCoder.FindSymbol c' s' = HuffmanCoder.FindSymbol c s')
    /\ linked (HuffmanCoder.tr c')
    /\ labelled c'.
Proof. exact (coder_AddSymbol_aux c s). Qed.

Lemma AddSymbol_FindSymbol_witness :
  exists c' p,
    HuffmanCoder.AddSymbol HuffmanCoder.init 65 = Ret (c', O)
    /\ HuffmanCoder.FindSymbol c' 65 = Ret (Some p)
    /\ val_of (HuffmanCoder.tr c') p = Some 65.
Proof.
  destruct (AddSymbol_FindSymbol HuffmanCoder.init 65)
    as [c' [p [H1 [H2 [H3 _]]]]].
  - unfold is_byte. lia.
  - apply init_labelled.
  - apply init_labelled.
  - exists c', p. split; [exact H1|]. split; [exact H2|exact H3].
Defined.

Lemma Encode_linked_aux (input : list Z) (c : HuffmanCoder.coder) (settings : Z) :
  bytes input ->
  HuffmanCoder.Encode input = Ret (c, settings) ->
  linked (HuffmanCoder.tr c) /\ labelled c.
Proof.
  intros Hb H. unfold HuffmanCoder.Encode in H.
  destruct (HuffmanCoder.Encode_loop HuffmanCoder.init input) as [c0|] eqn:E;
    cbn [bind] in H; [|discriminate].
  destruct (Encode_loop_linked_aux input HuffmanCoder.init c0 Hb
              (proj1 init_labelled) (proj2 init_labelled) E) as [Hl Hlab].
  unfold HuffmanCoder.CompareWithRLE in H.
  destruct (Z.of_nat (length input) <? HuffmanCoder.GetSize c0);
    inversion H; subst; split; assumption.
Qed.

(** X21: after [Encode] of a buffer of bytes the tree of the coder is
    linked: the root is the only node without a parent, the NYT node has
    no children, every node has both children or none, and a node is a
    child of [p] exactly when its parent pointer is [p].  The table of
    leaves is labelled: the entry of a symbol is null or a leaf that
    carries the symbol. *)
Theorem Encode_tree_linked (input : list Z) (c : HuffmanCoder.coder)
        (settings : Z) :
  bytes input ->
  HuffmanCoder.Encode input = Ret (c, settings) ->
  linked (HuffmanCoder.tr c) /\ labelled c.
Proof. exact (Encode_linked_aux input c settings). Qed.

Lemma Encode_tree_linked_witness :
  exists c settings,
    HuffmanCoder.Encode [5; 6; 5; 5; 7; 6; 5; 5] = Ret (c, settings)
    /\ linked (HuffmanCoder.tr c) /\ labelled c.
Proof.
  destruct (HuffmanCoder.Encode [5; 6; 5; 5; 7; 6; 5; 5]) as [[c settings]|] eqn:E;
    [|vm_compute in E; discriminate].
  exists c, settings. split; [reflexivity|].
  apply (Encode_tree_linked [5; 6; 5; 5; 7; 6; 5; 5] c settings); [|exact E].
  repeat constructor; unfold is_byte; lia.
Defined.

End TreePointers.

(** ** Code words: the path to the root and the walk from the root *)

Section CodeWords.
Import Huffman Codes.

Lemma walk_app (t : tree) (u v : list bool) :
  forall n,
    walk t n (u ++ v)
    = match walk t n u with Some m => walk t m v | None => None end.
Proof.
  induction u as [|b u IH]; intros n; cbn [walk app]; [reflexivity|].
  destruct (child_of t n b); [apply IH|reflexivity].
Qed.

Lemma walk_snoc (t : tree) (u : list bool) (b : bool) (n m : nat) :
  walk t n (u ++ [b]) = Some m <->
  exists p, walk t n u = Some p /\ child_of t p b = Some m.
Proof.
  rewrite walk_app. destruct (walk t n u) as [p|]; cbn [walk].
  - split.
    + intros H. exists p. split; [reflexivity|].
      destruct (child_of t p b); [exact H|discriminate].
    + intros [q [Hq Hc]]. inversion Hq; subst q. rewrite Hc. reflexivity.
  - split; [discriminate|]. intros [q [Hq _]]. discriminate.
Qed.

Lemma child_inside (t : tree) (p c : nat) (b : bool) :
  linked t -> child_of t p b = Some c ->
  inside t p /\ inside t c /\ parent_of t c = Some p.
Proof.
  intros Hl H.
  assert (left_of t p = Some c \/ right_of t p = Some c) as Hc
      by (unfold child_of in H; destruct b; [right|left]; exact H).
  destruct (child_parent t Hl p c Hc) as [I P].
  split; [|split; [exact I|exact P]].
  apply (parent_child t Hl c p P).
Qed.

Lemma walk_inside (t : tree) (w : list bool) :
  linked t -> forall n, walk t (root t) w = Some n -> inside t n.
Proof.
  intros Hl. induction w as [|b w IH] using rev_ind; intros n H.
  - cbn [walk] in H. inversion H. apply (root_inside t Hl).
  - apply walk_snoc in H. destruct H as [p [_ Hc]].
    apply (child_inside t p n b Hl Hc).
Qed.

(** The bit that [FindPathToRoot] pushes for a child. *)
Lemma path_bit (t : tree) (p c : nat) (b : bool) :
  linked t -> child_of t p b = Some c ->
  (if eqb_ptr (right_of t p) (Some c) then 1 else 0) = bit_of b.
Proof.
  intros Hl H. unfold child_of in H. destruct b; cbn [bit_of].
  - rewrite H. cbn [eqb_ptr]. rewrite Nat.eqb_refl. reflexivity.
  - destruct (eqb_ptr (right_of t p) (Some c)) eqn:E; [|reflexivity].
    apply eqb_ptr_Some in E. destruct (sides_differ t Hl p c H E).
Qed.

(** From a node that a walk reaches, [FindPathToRoot] returns the bits
    of the walk, the last one first. *)
Lemma path_of_walk (t : tree) (w : list bool) :
  linked t ->
  forall n fuel,
    walk t (root t) w = Some n ->
    (length w < fuel)%nat ->
    FindPathToRoot fuel t n = Ret (rev (map bit_of w)).
Proof.
  intros Hl. induction w as [|b w IH] using rev_ind; intros n fuel H Hf.
  - cbn [walk] in H. inversion H; subst n.
    destruct fuel as [|f]; [cbn [length] in Hf; lia|]. cbn [FindPathToRoot].
    destruct (inside_deref t (root t) (root_inside t Hl)) as [n0 Hd].
    rewrite Hd. cbn [bind].
    destruct (deref_fields t _ _ Hd) as [_ [_ [P _]]].
    rewrite <- P, (proj2 (root_top t Hl (root t) (root_inside t Hl)) eq_refl).
    reflexivity.
  - rewrite length_app in Hf. cbn [length] in Hf.
    apply walk_snoc in H. destruct H as [p [Hp Hc]].
    destruct (child_inside t p n b Hl Hc) as [Ip [In_ Pn]].
    destruct fuel as [|f]; [lia|]. cbn [FindPathToRoot].
    destruct (inside_deref t n In_) as [cn Hd]. rewrite Hd. cbn [bind].
    destruct (deref_fields t _ _ Hd) as [_ [_ [P _]]]. rewrite <- P, Pn.
    destruct (inside_deref t p Ip) as [pn Hdp]. rewrite Hdp. cbn [bind].
    rewrite (IH p f Hp ltac:(lia)). cbn [bind].
    destruct (deref_fields t _ _ Hdp) as [_ [R _]]. rewrite <- R.
    rewrite (path_bit t p n b Hl Hc).
    rewrite map_app, rev_app_distr. reflexivity.
Qed.

(** What [FindPathToRoot] returns is the walk to the node, the last bit
    first. *)
Lemma walk_of_path (t : tree) (fuel : nat) :
  linked t ->
  forall n path,
    FindPathToRoot fuel t n = Ret path ->
    exists w, path = rev (map bit_of w) /\ walk t (root t) w = Some n.
Proof.
  intros Hl. induction fuel as [|f IH]; intros n path H; [discriminate|].
  cbn [FindPathToRoot] in H.
  destruct (deref t n) as [cn|] eqn:Hd; cbn [bind] in H; [|discriminate].
  destruct (deref_fields t _ _ Hd) as [_ [_ [P _]]].
  destruct (parent cn) as [p|].
  - destruct (deref t p) as [pn|] eqn:Hdp; cbn [bind] in H; [|discriminate].
    destruct (FindPathToRoot f t p) as [rest|] eqn:Er; cbn [bind] in H;
      [|discriminate].
    inversion H; subst path; clear H.
    destruct (IH p rest Er) as [w [Hw Hp]].
    destruct (deref_fields t _ _ Hdp) as [_ [R _]]. rewrite <- R.
    destruct (parent_child t Hl n p P) as [_ Hs].
    assert (exists b, child_of t p b = Some n) as [b Hc].
    { destruct Hs as [Hs|Hs]; [exists false|exists true]; exact Hs. }
    exists (w ++ [b]). split.
    + rewrite (path_bit t p n b Hl Hc), map_app, rev_app_distr, Hw. reflexivity.
    + apply walk_snoc. exists p. split; assumption.
  - inversion H; subst path. exists []. split; [reflexivity|].
    cbn [walk]. f_equal. symmetry.
    apply (root_top t Hl n (deref_inside _ _ _ Hd)). exact P.
Qed.

Lemma bit_of_injective (u v : list bool) :
  map bit_of u = map bit_of v -> u = v.
Proof.
  revert v. induction u as [|a u IH]; intros [|b v] H; cbn [map] in H;
    try discriminate; [reflexivity|].
  inversion H as [[H1 H2]]. f_equal; [|apply IH; exact H2].
  destruct a, b; cbn [bit_of] in H1; congruence.
Qed.

(** Two walks from the root to the same node are the same walk. *)
Lemma walk_unique_aux (t : tree) (u v : list bool) (n : nat) :
  linked t ->
  walk t (root t) u = Some n -> walk t (root t) v = Some n -> u = v.
Proof.
  intros Hl Hu Hv.
  pose proof (path_of_walk t u Hl n (S (length u + length v)) Hu ltac:(lia)) as Pu.
  pose proof (path_of_walk t v Hl n (S (length u + length v)) Hv ltac:(lia)) as Pv.
  rewrite Pu in Pv. inversion Pv as [H].
  apply (f_equal (@rev Z)) in H. rewrite !rev_involutive in H.
  apply bit_of_injective. exact H.
Qed.

(** A walk from the root is shorter than the arena. *)
Lemma walk_short (t : tree) (w : list bool) (n : nat) :
  linked t -> walk t (root t) w = Some n -> (length w < length (nodes t))%nat.
Proof.
  intros Hl Hw.
  set (at_ := fun i => walk t (root t) (firstn i w)).
  assert (forall i, (i <= length w)%nat -> exists m, at_ i = Some m) as Hdef.
  { intros i Hi. unfold at_.
    rewrite <- (firstn_skipn i w) in Hw. rewrite walk_app in Hw.
    destruct (walk t (root t) (firstn i w)) as [m|]; [|discriminate].
    exists m. reflexivity. }
  assert (NoDup (map at_ (seq 0 (S (length w))))) as Hnd.
  { apply NoDup_map_NoDup_ForallPairs; [|apply seq_NoDup].
    intros i j Hi Hj Heq. apply in_seq in Hi. apply in_seq in Hj.
    destruct (Hdef i ltac:(lia)) as [m Hm]. rewrite Hm in Heq. symmetry in Heq.
    pose proof (walk_unique_aux t _ _ m Hl Hm Heq) as Hf.
    apply (f_equal (@length bool)) in Hf. rewrite !length_firstn in Hf. lia. }
  assert (incl (map at_ (seq 0 (S (length w))))
               (map (@Some nat) (seq 0 (length (nodes t))))) as Hincl.
  { intros x Hx. apply in_map_iff in Hx. destruct Hx as [i [Hi Hs]].
    apply in_seq in Hs. destruct (Hdef i ltac:(lia)) as [m Hm].
    rewrite Hm in Hi. subst x. apply in_map. apply in_seq.
    pose proof (walk_inside t _ Hl m Hm) as I. unfold inside in I. lia. }
  pose proof (NoDup_incl_length Hnd Hincl) as Hlen.
  rewrite !length_map, !length_seq in Hlen. lia.
Qed.

Lemma path_to_root_walk_aux (c : HuffmanCoder.coder) (n : nat) (path : list Z) :
  linked (HuffmanCoder.tr c) ->
  HuffmanCoder.path_to_root c n = Ret path <->
  exists w, path = rev (map bit_of w)
            /\ walk (HuffmanCoder.tr c) (root (HuffmanCoder.tr c)) w = Some n.
Proof.
  intros Hl. unfold HuffmanCoder.path_to_root. split.
  - apply walk_of_path. exact Hl.
  - intros [w [-> Hw]]. apply path_of_walk; [exact Hl|exact Hw|].
    apply (walk_short _ w n Hl Hw).
Qed.

Lemma advance_reader (d : HuffmanDecoder.decoder) (k : Z) :
  Bits.reader_of (advance d k) = Bits.reader_of d + k
  /\ 0 <= HuffmanDecoder.read_bit_index (advance d k) < 8.
Proof.
  unfold advance, Bits.reader_of at 1, Bits.position.
  cbn [HuffmanDecoder.read_byte_index HuffmanDecoder.read_bit_index].
  pose proof (Z.div_mod (Bits.reader_of d + k) 8 ltac:(lia)).
  pose proof (Z.mod_pos_bound (Bits.reader_of d + k) 8 ltac:(lia)).
  split; lia.
Qed.

Lemma advance_zero (d : HuffmanDecoder.decoder) :
  0 <= HuffmanDecoder.read_bit_index d < 8 -> advance d 0 = d.
Proof.
  intros H. destruct d as [t b w rb ri]. unfold advance, Bits.reader_of, Bits.position.
  cbn [HuffmanDecoder.read_byte_index HuffmanDecoder.read_bit_index
       HuffmanDecoder.tr HuffmanDecoder.buffer HuffmanDecoder.write_byte_index] in *.
  rewrite Z.add_0_r. f_equal.
  - symmetry. apply (Z.div_unique _ _ _ ri); lia.
  - symmetry. apply (Z.mod_unique _ _ rb); lia.
Qed.

Lemma advance_advance (d : HuffmanDecoder.decoder) (a b : Z) :
  advance (advance d a) b = advance d (a + b).
Proof.
  destruct (advance_reader d a) as [H _].
  unfold advance at 1. rewrite H. unfold advance.
  cbn [HuffmanDecoder.tr HuffmanDecoder.buffer HuffmanDecoder.write_byte_index].
  rewrite Z.add_assoc. reflexivity.
Qed.

(** [NextBit] inside the input. *)
Lemma NextBit_advance (d : HuffmanDecoder.decoder) (input : list Z) (size : Z) :
  0 <= HuffmanDecoder.read_bit_index d < 8 ->
  0 <= HuffmanDecoder.read_byte_index d < size ->
  size <= Z.of_nat (length input) ->
  size < 2 ^ 60 ->
  HuffmanDecoder.NextBit d input size
  = Ret (Some (Bits.bit_at input (Bits.reader_of d)), advance d 1).
Proof.
  intros Hbi Hby Hsize Hmax. change (2 ^ 60) with 1152921504606846976 in Hmax.
  destruct (NextBit_bit d input size Hbi Hby Hsize
                        ltac:(change (2 ^ 60) with 1152921504606846976; exact Hmax))
    as [d' [Hn [Hr [Hbi' [Hby' [Ht [Hb Hw]]]]]]].
  rewrite Hn. do 2 f_equal.
  destruct d' as [t' b' w' rb' ri'].
  unfold advance.
  cbn [HuffmanDecoder.read_byte_index HuffmanDecoder.read_bit_index
       HuffmanDecoder.tr HuffmanDecoder.buffer HuffmanDecoder.write_byte_index] in *.
  rewrite <- Hr. unfold Bits.reader_of, Bits.position.
  cbn [HuffmanDecoder.read_byte_index HuffmanDecoder.read_bit_index].
  subst t' b' w'. f_equal.
  - apply (Z.div_unique _ _ _ ri'); lia.
  - apply (Z.mod_unique _ _ rb'); lia.
Qed.

(** The loop of [Decode] follows a walk through internal nodes. *)
Lemma Decode_loop_walk_aux (input : list Z) (size padding_bits : Z)
      (w : list bool) :
  forall d node node' fuel,
    0 <= HuffmanDecoder.read_bit_index d < 8 ->
    0 <= HuffmanDecoder.read_byte_index d ->
    size <= Z.of_nat (length input) ->
    size < 2 ^ 60 ->
    Bits.reader_of d + Z.of_nat (length w) <= 8 * size ->
    (forall j, (j < length w)%nat ->
               HuffmanDecoder.IsEnd (advance d (Z.of_nat j)) size padding_bits
               = false) ->
    (forall j, (j < length w)%nat ->
               Bits.bit_at input (Bits.reader_of d + Z.of_nat j) = nth j w false) ->
    walk (HuffmanDecoder.tr d) node w = Some node' ->
    HuffmanDecoder.Decode_loop (length w + fuel) d input size padding_bits node
    = HuffmanDecoder.Decode_loop fuel (advance d (Z.of_nat (length w)))
                                 input size padding_bits node'.
Proof.
  induction w as [|b w IH]; intros d node node' fuel Hbi Hby Hsize Hmax Hfit
                                   Hend Hbits Hw.
  - cbn [walk] in Hw. inversion Hw; subst node'.
    cbn [length Nat.add Z.of_nat]. rewrite advance_zero by exact Hbi. reflexivity.
  - cbn [walk] in Hw.
    destruct (child_of (HuffmanDecoder.tr d) node b) as [c|] eqn:Ec;
      [|discriminate].
    cbn [length] in *. rewrite Nat2Z.inj_succ in Hfit.
    cbn [Nat.add HuffmanDecoder.Decode_loop].
    pose proof (Hend O ltac:(lia)) as H0. cbn [Z.of_nat] in H0.
    rewrite advance_zero in H0 by exact Hbi. rewrite H0.
    assert (exists n, deref (HuffmanDecoder.tr d) node = Ret n
                      /\ (if b then right n else left n) = Some c) as [n [Hd Hc]].
    { unfold child_of, left_of, right_of in Ec. unfold deref.
      destruct (nth_error (nodes (HuffmanDecoder.tr d)) node) as [n|];
        [exists n; split; [reflexivity|exact Ec]|].
      destruct b; discriminate. }
    rewrite Hd. cbn [bind].
    replace (IsExternalNode n) with false
      by (unfold IsExternalNode; destruct b, (left n), (right n);
          try reflexivity; discriminate).
    cbn [negb].
    assert (HuffmanDecoder.read_byte_index d < size) as Hin
        by (unfold Bits.reader_of, Bits.position in Hfit; lia).
    rewrite (NextBit_advance d input size Hbi ltac:(lia) Hsize Hmax).
    cbn [bind].
    pose proof (Hbits O ltac:(lia)) as Hb0. cbn [Z.of_nat nth] in Hb0.
    rewrite Z.add_0_r in Hb0. rewrite Hb0, Hc.
    destruct (advance_reader d 1) as [Hr1 Hbi1].
    rewrite (IH (advance d 1) c node' fuel Hbi1).
    + rewrite advance_advance. do 2 f_equal. lia.
    + unfold advance. cbn [HuffmanDecoder.read_byte_index].
      apply Z.div_pos; [unfold Bits.reader_of, Bits.position; lia|lia].
    + exact Hsize.
    + exact Hmax.
    + rewrite Hr1. lia.
    + intros j Hj. rewrite advance_advance.
      replace (1 + Z.of_nat j) with (Z.of_nat (S j)) by lia.
      apply Hend. lia.
    + intros j Hj. rewrite Hr1.
      replace (Bits.reader_of d + 1 + Z.of_nat j)
        with (Bits.reader_of d + Z.of_nat (S j)) by lia.
      rewrite (Hbits (S j) ltac:(lia)). reflexivity.
    + exact Hw.
Qed.

(** The bit reader does not touch the tree. *)
Lemma NextBit_tree (d d' : HuffmanDecoder.decoder) (input : list Z) (size : Z)
      (bit : option bool) :
  HuffmanDecoder.NextBit d input size = Ret (bit, d') ->
  HuffmanDecoder.tr d' = HuffmanDecoder.tr d.
Proof.
  unfold HuffmanDecoder.NextBit.
  destruct (HuffmanDecoder.read_byte_index d =? size).
  - intros H. inversion H. reflexivity.
  - destruct (read input (Z.to_nat (HuffmanDecoder.read_byte_index d)));
      cbn [bind]; [|discriminate].
    intros H. inversion H.
    destruct (BITS_IN_BYTE <=? u8 (HuffmanDecoder.read_bit_index d + 1));
      reflexivity.
Qed.

Lemma ReadSymbol_loop_tree (input : list Z) (size : Z) (ixs : list Z) :
  forall d acc r d',
    HuffmanDecoder.ReadSymbol_loop ixs d input size acc = Ret (r, d') ->
    HuffmanDecoder.tr d' = HuffmanDecoder.tr d.
Proof.
  induction ixs as [|i ixs IH]; intros d acc r d' H;
    cbn [HuffmanDecoder.ReadSymbol_loop] in H.
  - inversion H. reflexivity.
  - destruct (HuffmanDecoder.NextBit d input size) as [[bit d1]|] eqn:E;
      cbn [bind] in H; [|discriminate].
    pose proof (NextBit_tree _ _ _ _ _ E) as T1.
    destruct bit as [b|].
    + rewrite <- T1. exact (IH _ _ _ _ H).
    + inversion H; subst. exact T1.
Qed.

Lemma AddSymbolToBuffer_tree (d : HuffmanDecoder.decoder) (symbol : Z) :
  HuffmanDecoder.tr (HuffmanDecoder.AddSymbolToBuffer d symbol)
  = HuffmanDecoder.tr d.
Proof.
  unfold HuffmanDecoder.AddSymbolToBuffer, HuffmanDecoder.ReallocateBuffer.
  destruct (HuffmanDecoder.alloc d <=? HuffmanDecoder.write_byte_index d + 20);
    reflexivity.
Qed.

(** The loop of [Decode] keeps the tree linked. *)
Lemma Decode_loop_linked (input : list Z) (size padding_bits : Z) (fuel : nat) :
  forall d node b d',
    linked (HuffmanDecoder.tr d) ->
    HuffmanDecoder.Decode_loop fuel d input size padding_bits node = Ret (b, d') ->
    linked (HuffmanDecoder.tr d').
Proof.
  induction fuel as [|f IH]; intros d node b d' Hl H; [discriminate|].
  cbn [HuffmanDecoder.Decode_loop] in H.
  destruct (HuffmanDecoder.IsEnd d size padding_bits).
  { inversion H; subst. exact Hl. }
  destruct (deref (HuffmanDecoder.tr d) node) as [n|]; cbn [bind] in H;
    [|discriminate].
  destruct (negb (IsExternalNode n)).
  - destruct (HuffmanDecoder.NextBit d input size) as [[bit d1]|] eqn:E;
      cbn [bind] in H; [|discriminate].
    pose proof (NextBit_tree _ _ _ _ _ E) as T1.
    destruct bit as [mr|].
    + destruct (if mr then right n else left n) as [c|].
      * apply (IH d1 c b d'); [rewrite T1; exact Hl|exact H].
      * inversion H; subst. rewrite T1. exact Hl.
    + inversion H; subst. rewrite T1. exact Hl.
  - match type of H with
    | (bind ?m _) = _ => destruct m as [[o d1]|] eqn:Er
    end; cbn [bind] in H; [|discriminate].
    assert (linked (HuffmanDecoder.tr d1)) as Hl1.
    { destruct (node =? NYT (HuffmanDecoder.tr d))%nat.
      - destruct (HuffmanDecoder.ReadSymbol d input size) as [[s d0]|] eqn:Es;
          cbn [bind] in Er; [|discriminate].
        pose proof (ReadSymbol_loop_tree _ _ _ _ _ _ _ Es) as T0.
        destruct s as [symbol|].
        + unfold HuffmanDecoder.AddSymbol in Er.
          destruct (AddSymbol_linked
                      (HuffmanDecoder.tr (HuffmanDecoder.AddSymbolToBuffer d0 symbol))
                      symbol
                      ltac:(rewrite AddSymbolToBuffer_tree, T0; exact Hl))
            as [t' [Ea [Hl' _]]].
          rewrite Ea in Er. cbn [bind] in Er. inversion Er; subst.
          exact Hl'.
        + inversion Er; subst. rewrite T0. exact Hl.
      - inversion Er; subst. rewrite AddSymbolToBuffer_tree. exact Hl. }
    destruct o as [node1|].
    + destruct (update_tree u16 (HuffmanDecoder.tr d1) node1) as [t|] eqn:Eu;
        cbn [bind] in H; [|discriminate].
      unfold update_tree in Eu.
      destruct (update_linked _ _ _ _ _ Hl1 Eu) as [Hl' _].
      apply (IH (HuffmanDecoder.with_tree d1 t) (root t) b d' Hl' H).
    + inversion H; subst. exact Hl1.
Qed.

Lemma Decode_linked_aux (input : list Z) (size : Z) (b : bool)
      (d : HuffmanDecoder.decoder) :
  HuffmanDecoder.Decode input size = Ret (b, d) ->
  linked (HuffmanDecoder.tr d).
Proof.
  unfold HuffmanDecoder.Decode.
  destruct (if 1 <? size then read input 0 else Ret 0) as [settings|];
    cbn [bind]; [|discriminate].
  destruct ((1 <? size) && negb (Z.land settings SETTINGS_BIT_CHECK =? 0)).
  - apply Decode_loop_linked. exact InitTree_linked.
  - destruct (Z.to_nat (u64 (size - 1)) <=? length input - 1)%nat;
      [|discriminate].
    intros H. inversion H. exact InitTree_linked.
Qed.

Lemma nth_bit_of (w : list bool) :
  forall j, (j < length w)%nat ->
            (nth j (map bit_of w) 0 =? 1) = nth j w false.
Proof.
  induction w as [|b w IH]; intros j Hj; cbn [length] in Hj; [lia|].
  destruct j as [|j]; cbn [map nth]; [destruct b; reflexivity|].
  apply IH. lia.
Qed.

Lemma code_word_decoded_aux (c : HuffmanCoder.coder) (d : HuffmanDecoder.decoder)
      (p : nat) (path : list Z) (s0 : Z) :
  Bits.writable c ->
  linked (HuffmanCoder.tr c) ->
  (length path <= 160)%nat ->
  HuffmanCoder.byte_index c + 160 < 2 ^ 60 ->
  HuffmanCoder.path_to_root c p = Ret path ->
  HuffmanDecoder.tr d = HuffmanCoder.tr c ->
  0 <= HuffmanDecoder.read_bit_index d < 8 ->
  0 <= HuffmanDecoder.read_byte_index d ->
  Bits.reader_of d = Bits.cursor_of c + 8 ->
  exists c',
    HuffmanCoder.AddBits c path = Ret c'
    /\ Bits.writable c'
    /\ Bits.cursor_of c' = Bits.cursor_of c + Z.of_nat (length path)
    /\ forall padding_bits fuel,
        let file := s0 :: HuffmanCoder.output c' in
        let size := Z.of_nat (length file) in
        (forall j, (j < length path)%nat ->
                   HuffmanDecoder.IsEnd (advance d (Z.of_nat j)) size padding_bits
                   = false) ->
        HuffmanDecoder.Decode_loop (length path + fuel) d file size padding_bits
                                   (root (HuffmanDecoder.tr d))
        = HuffmanDecoder.Decode_loop fuel (advance d (Z.of_nat (length path)))
                                     file size padding_bits p.
Proof.
  intros Hw Hl Hlen Hmax Hp Ht Hri Hrb Hrd.
  apply (path_to_root_walk_aux c p path Hl) in Hp. destruct Hp as [w [Hpath Hwalk]].
  destruct (AddBits_bits c path Hw Hlen Hmax)
    as [c' [H1 [H2 [H3 [_ [_ [H6 [_ H8]]]]]]]].
  exists c'. split; [exact H1|]. split; [exact H2|]. split; [exact H3|].
  intros padding_bits fuel file size Hend.
  assert (length path = length w) as Hlw
      by (rewrite Hpath, length_rev, length_map; reflexivity).
  pose proof Hw as [Hbi [Hby _]]. pose proof H2 as [Hbi' [Hby' _]].
  change (2 ^ 60) with 1152921504606846976 in *.
  assert (0 <= Bits.cursor_of c) as Hc0
      by (unfold Bits.cursor_of, Bits.position; lia).
  assert (HuffmanCoder.byte_index c' + 1 = HuffmanCoder.GetSize c'
          \/ (HuffmanCoder.bit_index c' = 0
              /\ HuffmanCoder.GetSize c' = HuffmanCoder.byte_index c')) as Hg.
  { unfold HuffmanCoder.GetSize. destruct (HuffmanCoder.bit_index c' =? 0) eqn:E.
    - right. apply Z.eqb_eq in E. split; [exact E|reflexivity].
    - left. unfold Bits.cursor_of, Bits.position in H3.
      rewrite u64_small by lia. lia. }
  assert (0 <= HuffmanCoder.GetSize c' <= HuffmanCoder.alloc c'
          /\ Bits.cursor_of c' <= 8 * HuffmanCoder.GetSize c') as [Hg1 Hg2].
  { unfold Bits.cursor_of, Bits.position.
    destruct Hg as [Hg|[Hg0 Hg]]; [lia|rewrite Hg, Hg0; lia]. }
  assert (length (HuffmanCoder.output c') = Z.to_nat (HuffmanCoder.GetSize c'))
    as Hout.
  { unfold HuffmanCoder.output, HuffmanCoder.alloc in *.
    rewrite length_firstn. lia. }
  assert (size = HuffmanCoder.GetSize c' + 1) as Hsize.
  { unfold size, file. cbn [length]. rewrite Hout. lia. }
  rewrite Hlw in *.
  apply (Decode_loop_walk_aux file size padding_bits w d
                              (root (HuffmanDecoder.tr d)) p fuel Hri Hrb).
  - unfold size. lia.
  - rewrite Hsize. change (2 ^ 60) with 1152921504606846976.
    unfold Bits.cursor_of, Bits.position in H3.
    destruct Hg as [Hg|[_ Hg]]; lia.
  - rewrite Hsize, Hrd. lia.
  - exact Hend.
  - intros j Hj. rewrite Hrd. unfold file.
    replace (Bits.cursor_of c + 8 + Z.of_nat j)
      with (Bits.cursor_of c + Z.of_nat j + 8) by lia.
    rewrite bit_at_cons by lia.
    unfold HuffmanCoder.output. rewrite bit_at_firstn.
    + rewrite H6 by lia. rewrite Hpath, rev_involutive.
      apply nth_bit_of. exact Hj.
    + assert ((Bits.cursor_of c + Z.of_nat j) / 8 < HuffmanCoder.GetSize c') as Hd.
      { apply Z.div_lt_upper_bound; lia. }
      pose proof (Z.div_pos (Bits.cursor_of c + Z.of_nat j) 8 ltac:(lia) ltac:(lia)).
      lia.
  - rewrite Ht. exact Hwalk.
Qed.

(** X22: after [Decode], whatever it returns, the tree of the decoder
    is linked: the root is the only node without a parent, the NYT node
    has no children, every node has both children or none, and a node is
    a child of [p] exactly when its parent pointer is [p]. *)
Theorem Decode_tree_linked (input : list Z) (size : Z) (b : bool)
        (d : HuffmanDecoder.decoder) :
  HuffmanDecoder.Decode input size = Ret (b, d) ->
  linked (HuffmanDecoder.tr d).
Proof. exact (Decode_linked_aux input size b d). Qed.

Lemma Decode_tree_linked_witness :
  exists d,
    HuffmanDecoder.Decode [15; 160; 192; 0; 28; 0] 6 = Ret (true, d)
    /\ linked (HuffmanDecoder.tr d).
Proof.
  destruct (HuffmanDecoder.Decode [15; 160; 192; 0; 28; 0] 6) as [[b d]|] eqn:E;
    [|vm_compute in E; discriminate].
  assert (b = true) as -> by (vm_compute in E; inversion E; reflexivity).
  exists d. split; [reflexivity|].
  exact (Decode_tree_linked [15; 160; 192; 0; 28; 0] 6 true d E).
Defined.

(** X23: in a linked tree [FindPathToRoot] from a node returns exactly
    when a walk from the root (left for 0, right for 1) reaches the
    node, and what it returns are the bits of that walk, the last one
    first.  The fuel of the model, the number of nodes, is enough. *)
Theorem path_to_root_walk (c : HuffmanCoder.coder) (n : nat) (path : list Z) :
  linked (HuffmanCoder.tr c) ->
  HuffmanCoder.path_to_root c n = Ret path <->
  exists w, path = rev (map bit_of w)
            /\ walk (HuffmanCoder.tr c) (root (HuffmanCoder.tr c)) w = Some n.
Proof. exact (path_to_root_walk_aux c n path). Qed.

Lemma path_to_root_walk_witness :
  exists c,
    HuffmanCoder.Encode_loop HuffmanCoder.init [5; 6; 5] = Ret c
    /\ HuffmanCoder.path_to_root c 3 = Ret [1; 1].
Proof.
  destruct (HuffmanCoder.Encode_loop HuffmanCoder.init [5; 6; 5]) as [c|] eqn:E;
    [|vm_compute in E; discriminate].
  exists c. split; [reflexivity|].
  assert (linked (HuffmanCoder.tr c)) as Hl.
  { apply (Encode_loop_linked_aux [5; 6; 5] HuffmanCoder.init c);
      [repeat constructor; unfold is_byte; lia
      |apply init_labelled|apply init_labelled|exact E]. }
  apply (proj2 (path_to_root_walk c 3 [1; 1] Hl)).
  exists [true; true]. split; [reflexivity|].
  vm_compute in E. inversion E. reflexivity.
Defined.

(** X24: in a linked tree two walks from the root that reach the same
    node are the same walk, and a walk from the root has fewer steps
    than the tree has nodes: no node has two code words. *)
Theorem walk_unique (t : tree) (u v : list bool) (n : nat) :
  linked t ->
  walk t (root t) u = Some n ->
  walk t (root t) v = Some n ->
  u = v /\ (length u < length (nodes t))%nat.
Proof.
  intros Hl Hu Hv. split; [exact (walk_unique_aux t u v n Hl Hu Hv)|].
  exact (walk_short t u n Hl Hu).
Qed.

Lemma walk_unique_witness :
  exists t1 t2,
    AddSymbol InitTree 5 = Ret (t1, 1%nat, O)
    /\ AddSymbol t1 6 = Ret (t2, 3%nat, 2%nat)
    /\ walk t2 (root t2) [false; true] = Some 3%nat
    /\ (length [false; true] < length (nodes t2))%nat.
Proof.
  destruct (AddSymbol_linked InitTree 5 InitTree_linked) as [t1 [E1 [L1 _]]].
  destruct (AddSymbol_linked t1 6 L1) as [t2 [E2 [L2 _]]].
  assert (length (nodes t1) = 3%nat /\ NYT t1 = 2%nat) as [N1 N2].
  { vm_compute in E1. inversion E1; subst t1. split; reflexivity. }
  rewrite N1, N2 in E2.
  assert (walk t2 (root t2) [false; true] = Some 3%nat) as Hw.
  { vm_compute in E1. inversion E1; subst t1.
    vm_compute in E2. inversion E2; subst t2. reflexivity. }
  exists t1, t2. split; [exact E1|]. split; [exact E2|]. split; [exact Hw|].
  exact (proj2 (walk_unique t2 [false; true] [false; true] 3 L2 Hw Hw)).
Defined.

(** X25: the loop of [Decode], at a node from which the next bits of
    the input are a walk to [node'], and as long as [IsEnd] does not
    hold on the way, uses one turn per bit and goes on at [node'] with
    the cursor that many bits further; nothing else of the decoder
    changes. *)
Theorem Decode_loop_walk (input : list Z) (size padding_bits : Z)
        (w : list bool) (d : HuffmanDecoder.decoder) (node node' : nat)
        (fuel : nat) :
  0 <= HuffmanDecoder.read_bit_index d < 8 ->
  0 <= HuffmanDecoder.read_byte_index d ->
  size <= Z.of_nat (length input) ->
  size < 2 ^ 60 ->
  Bits.reader_of d + Z.of_nat (length w) <= 8 * size ->
  (forall j, (j < length w)%nat ->
             HuffmanDecoder.IsEnd (advance d (Z.of_nat j)) size padding_bits
             = false) ->
  (forall j, (j < length w)%nat ->
             Bits.bit_at input (Bits.reader_of d + Z.of_nat j) = nth j w false) ->
  walk (HuffmanDecoder.tr d) node w = Some node' ->
  HuffmanDecoder.Decode_loop (length w + fuel) d input size padding_bits node
  = HuffmanDecoder.Decode_loop fuel (advance d (Z.of_nat (length w)))
                               input size padding_bits node'.
Proof. exact (Decode_loop_walk_aux input size padding_bits w d node node' fuel). Qed.

Lemma Decode_loop_walk_witness :
  exists t1 t2,
    AddSymbol InitTree 5 = Ret (t1, 1%nat, O)
    /\ AddSymbol t1 6 = Ret (t2, 3%nat, 2%nat)
    /\ let d := {| HuffmanDecoder.tr := t2; HuffmanDecoder.buffer := [];
                   HuffmanDecoder.write_byte_index := 0;
                   HuffmanDecoder.read_byte_index := 1;
                   HuffmanDecoder.read_bit_index := 0 |} in
       HuffmanDecoder.Decode_loop (2 + 3) d [0; 2; 0; 0] 4 0 O
       = HuffmanDecoder.Decode_loop 3 (advance d 2) [0; 2; 0; 0] 4 0 3.
Proof.
  destruct (AddSymbol_linked InitTree 5 InitTree_linked) as [t1 [E1 [L1 _]]].
  destruct (AddSymbol_linked t1 6 L1) as [t2 [E2 [L2 _]]].
  assert (length (nodes t1) = 3%nat /\ NYT t1 = 2%nat) as [N1 N2].
  { vm_compute in E1. inversion E1; subst t1. split; reflexivity. }
  rewrite N1, N2 in E2.
  assert (walk t2 O [false; true] = Some 3%nat) as Hw.
  { vm_compute in E1. inversion E1; subst t1.
    vm_compute in E2. inversion E2; subst t2. reflexivity. }
  exists t1, t2. split; [exact E1|]. split; [exact E2|].
  intros d.
  apply (Decode_loop_walk [0; 2; 0; 0] 4 0 [false; true] d O 3 3).
  - simpl. lia.
  - simpl. lia.
  - simpl. lia.
  - reflexivity.
  - vm_compute. congruence.
  - intros j Hj. destruct j as [|[|j]]; [reflexivity|reflexivity|simpl in Hj; lia].
  - intros j Hj. destruct j as [|[|j]]; [reflexivity|reflexivity|simpl in Hj; lia].
  - exact Hw.
Defined.

(** X26: the bits that the coder writes for a node lead the decoder to
    that node: when [FindPathToRoot] returns a path of at most 160 bits
    for the node [p], [AddBits] writes it without a fault, and on the
    output file (a settings byte, then the buffer of the coder) a
    decoder with the same tree and its cursor at the same place goes
    from the root to [p] in one turn of the loop of [Decode] per bit,
    unless [IsEnd] holds on the way. *)
Theorem code_word_decoded (c : HuffmanCoder.coder) (d : HuffmanDecoder.decoder)
        (p : nat) (path : list Z) (s0 : Z) :
  Bits.writable c ->
  linked (HuffmanCoder.tr c) ->
  (length path <= 160)%nat ->
  HuffmanCoder.byte_index c + 160 < 2 ^ 60 ->
  HuffmanCoder.path_to_root c p = Ret path ->
  HuffmanDecoder.tr d = HuffmanCoder.tr c ->
  0 <= HuffmanDecoder.read_bit_index d < 8 ->
  0 <= HuffmanDecoder.read_byte_index d ->
  Bits.reader_of d = Bits.cursor_of c + 8 ->
  exists c',
    HuffmanCoder.AddBits c path = Ret c'
    /\ Bits.writable c'
    /\ Bits.cursor_of c' = Bits.cursor_of c + Z.of_nat (length path)
    /\ forall padding_bits fuel,
        let file := s0 :: HuffmanCoder.output c' in
        let size := Z.of_nat (length file) in
        (forall j, (j < length path)%nat ->
                   HuffmanDecoder.IsEnd (advance d (Z.of_nat j)) size padding_bits
                   = false) ->
        HuffmanDecoder.Decode_loop (length path + fuel) d file size padding_bits
                                   (root (HuffmanDecoder.tr d))
        = HuffmanDecoder.Decode_loop fuel (advance d (Z.of_nat (length path)))
                                     file size padding_bits p.
Proof. exact (code_word_decoded_aux c d p path s0). Qed.

Lemma code_word_decoded_witness :
  exists c c',
    HuffmanCoder.Encode_loop HuffmanCoder.init [5; 6; 5] = Ret c
    /\ HuffmanCoder.AddBits c [1; 1] = Ret c'
    /\ Bits.cursor_of c' = 20
    /\ let d := {| HuffmanDecoder.tr := HuffmanCoder.tr c;
                   HuffmanDecoder.buffer := [];
                   HuffmanDecoder.write_byte_index := 0;
                   HuffmanDecoder.read_byte_index := 3;
                   HuffmanDecoder.read_bit_index := 2 |} in
       let file := 15 :: HuffmanCoder.output c' in
       HuffmanDecoder.Decode_loop (2 + 1) d file (Z.of_nat (length file)) 4 O
       = HuffmanDecoder.Decode_loop 1 (advance d 2) file
                                    (Z.of_nat (length file)) 4 3.
Proof.
  destruct (HuffmanCoder.Encode_loop HuffmanCoder.init [5; 6; 5]) as [c|] eqn:E;
    [|vm_compute in E; discriminate].
  assert (linked (HuffmanCoder.tr c)) as Hl.
  { apply (Encode_loop_linked_aux [5; 6; 5] HuffmanCoder.init c);
      [repeat constructor; unfold is_byte; lia
      |apply init_labelled|apply init_labelled|exact E]. }
  assert (HuffmanCoder.byte_index c = 2 /\ HuffmanCoder.bit_index c = 2
          /\ HuffmanCoder.buffer c = [160; 192] ++ repeat 0 510
          /\ HuffmanCoder.path_to_root c 3 = Ret [1; 1]
          /\ root (HuffmanCoder.tr c) = O) as [B1 [B2 [B3 [Hp Hroot]]]].
  { vm_compute in E. inversion E. repeat split. }
  assert (Bits.writable c) as Hw.
  { unfold Bits.writable, Bits.cursor_of, Bits.position, HuffmanCoder.alloc.
    rewrite B1, B2, B3. split; [lia|]. split; [simpl; lia|].
    split; [reflexivity|].
    intros q Hq. apply bit_at_zero. rewrite app_nth2.
    - apply nth_repeat.
    - cbn [length]. pose proof (Z.div_le_lower_bound q 8 2 ltac:(lia) ltac:(lia)).
      lia. }
  set (d := {| HuffmanDecoder.tr := HuffmanCoder.tr c;
               HuffmanDecoder.buffer := [];
               HuffmanDecoder.write_byte_index := 0;
               HuffmanDecoder.read_byte_index := 3;
               HuffmanDecoder.read_bit_index := 2 |}).
  destruct (code_word_decoded c d 3 [1; 1] 15 Hw Hl) as [c' [H1 [_ [H3 H4]]]].
  - simpl. lia.
  - rewrite B1. reflexivity.
  - exact Hp.
  - reflexivity.
  - simpl. lia.
  - simpl. lia.
  - unfold Bits.reader_of, Bits.cursor_of, Bits.position. rewrite B1, B2.
    reflexivity.
  - exists c, c'. split; [reflexivity|]. split; [exact H1|].
    split.
    { rewrite H3. unfold Bits.cursor_of, Bits.position. rewrite B1, B2.
      reflexivity. }
    intros d0 file. specialize (H4 4 1%nat). cbv zeta in H4.
    change (root (HuffmanDecoder.tr d)) with (root (HuffmanCoder.tr c)) in H4.
    rewrite Hroot in H4. apply H4.
    intros j Hj. destruct j as [|[|j]]; [reflexivity|reflexivity|simpl in Hj; lia].
Defined.

End CodeWords.

(** ** The Huffman stage, symbol by symbol *)

Section HuffmanRoundTrip.
Import Huffman Codes Sync.

Lemma u16_small (x : Z) : 0 <= x < 65536 -> u16 x = x.
Proof. intros H. unfold u16. apply Z.mod_small. exact H. Qed.

Lemma Forall_store {A : Type} (P : A -> Prop) (l : list A) :
  forall i v, Forall P l -> P v -> Forall P (store l i v).
Proof.
  induction l as [|x l IH]; intros i v Hl Hv; [constructor|].
  destruct i; cbn [store].
  - constructor; [exact Hv|exact (Forall_inv_tail Hl)].
  - constructor; [exact (Forall_inv Hl)|].
    apply IH; [exact (Forall_inv_tail Hl)|exact Hv].
Qed.

Lemma indexed_deref (t : tree) (p : nat) (n : Node) :
  indexed t -> deref t p = Ret n ->
  514 - Z.of_nat (length (nodes t)) <= index n <= 513.
Proof.
  intros Hi Hd. apply deref_Ret in Hd. apply nth_error_In in Hd.
  unfold indexed in Hi. rewrite Forall_forall in Hi. exact (Hi n Hd).
Qed.

Lemma indexed_assign (t : tree) (p : nat) (n' : Node) :
  indexed t ->
  514 - Z.of_nat (length (nodes t)) <= index n' <= 513 ->
  indexed (assign t p n').
Proof.
  intros Hi Hn. unfold indexed, assign. cbn [nodes]. rewrite store_length.
  apply Forall_store; assumption.
Qed.

Lemma assign_length (t : tree) (p : nat) (n : Node) :
  length (nodes (assign t p n)) = length (nodes t).
Proof. unfold assign. cbn [nodes]. apply store_length. Qed.

Lemma set_child_indexed (t : tree) (p : nat) (side : bool) (c : nat) (t' : tree) :
  indexed t -> set_child t p side c = Ret t' ->
  indexed t' /\ length (nodes t') = length (nodes t).
Proof.
  intros Hi H. unfold set_child in H.
  destruct (deref t p) as [n|] eqn:E; cbn [bind] in H; [|discriminate].
  inversion H; subst t'. split; [|apply assign_length].
  apply indexed_assign; [exact Hi|].
  pose proof (indexed_deref t p n Hi E). destruct side; exact H0.
Qed.

(** [SwapNodes] keeps the indices in their range, with either type of
    temporary. *)
Lemma SwapNodes_indexed (ty : Z -> Z) (t : tree) (node1 node2 : nat) (t' : tree) :
  (forall x, 0 <= x < 65536 -> ty x = x) ->
  (length (nodes t) <= 514)%nat ->
  indexed t ->
  SwapNodes ty t node1 node2 = Ret t' ->
  indexed t' /\ length (nodes t') = length (nodes t).
Proof.
  intros Hty Hlen Hi H. unfold SwapNodes in H.
  destruct (deref t node1) as [n1|] eqn:E1; cbn [bind] in H; [|discriminate].
  destruct (deref t node2) as [n2|] eqn:E2; cbn [bind] in H; [|discriminate].
  cbv zeta in H.
  pose proof (indexed_deref t _ _ Hi E1) as R1.
  pose proof (indexed_deref t _ _ Hi E2) as R2.
  assert (indexed (assign t node1 (with_index n1 (index n2)))) as Hi1
      by (apply indexed_assign; [exact Hi|exact R2]).
  set (t1 := assign t node1 (with_index n1 (index n2))) in *.
  assert (length (nodes t1) = length (nodes t)) as L1 by apply assign_length.
  destruct (deref t1 node2) as [n2'|] eqn:E2'; cbn [bind] in H; [|discriminate].
  assert (indexed (assign t1 node2 (with_index n2' (ty (index n1))))) as Hi2.
  { apply indexed_assign; [exact Hi1|]. cbn [with_index index].
    rewrite Hty by lia. rewrite L1. exact R1. }
  set (t2 := assign t1 node2 (with_index n2' (ty (index n1)))) in *.
  assert (length (nodes t2) = length (nodes t)) as L2
      by (unfold t2; rewrite assign_length; exact L1).
  destruct (parent n1) as [p1|]; [|discriminate].
  destruct (parent n2) as [p2|]; [|discriminate].
  destruct (deref t2 p1) as [pn1|] eqn:Ep1; cbn [bind] in H; [|discriminate].
  destruct (deref t2 p2) as [pn2|] eqn:Ep2; cbn [bind] in H; [|discriminate].
  destruct (set_child t2 p1 (negb (eqb_ptr (left pn1) (Some node1))) node2)
    as [t3|] eqn:S3; cbn [bind] in H; [|discriminate].
  destruct (set_child_indexed _ _ _ _ _ Hi2 S3) as [Hi3 L3].
  destruct (set_child t3 p2 (negb (eqb_ptr (left pn2) (Some node2))) node1)
    as [t4|] eqn:S4; cbn [bind] in H; [|discriminate].
  destruct (set_child_indexed _ _ _ _ _ Hi3 S4) as [Hi4 L4].
  destruct (deref t4 node1) as [m1|] eqn:M1; cbn [bind] in H; [|discriminate].
  assert (indexed (assign t4 node1 (with_parent m1 (Some p2)))) as Hi5
      by (apply indexed_assign; [exact Hi4|exact (indexed_deref _ _ _ Hi4 M1)]).
  set (t5 := assign t4 node1 (with_parent m1 (Some p2))) in *.
  assert (length (nodes t5) = length (nodes t4)) as L5 by apply assign_length.
  destruct (deref t5 node2) as [m2|] eqn:M2; cbn [bind] in H; [|discriminate].
  inversion H; subst t'. split.
  - apply indexed_assign; [exact Hi5|exact (indexed_deref _ _ _ Hi5 M2)].
  - rewrite assign_length. congruence.
Qed.

(** With indices in their range the temporary of [SwapNodes] may have
    either type. *)
Lemma SwapNodes_u16 (t : tree) (node1 node2 : nat) :
  (length (nodes t) <= 514)%nat ->
  indexed t ->
  SwapNodes u16 t node1 node2 = SwapNodes (fun i => i) t node1 node2.
Proof.
  intros Hlen Hi. unfold SwapNodes.
  destruct (deref t node1) as [n1|] eqn:E1; cbn [bind]; [|reflexivity].
  pose proof (indexed_deref t _ _ Hi E1) as R1.
  rewrite (u16_small (index n1)) by lia. reflexivity.
Qed.

Lemma update_indexed (ty : Z -> Z) (fuel : nat) :
  (forall x, 0 <= x < 65536 -> ty x = x) ->
  forall t node t',
    (length (nodes t) <= 514)%nat ->
    indexed t ->
    update fuel ty t node = Ret t' ->
    indexed t'.
Proof.
  intros Hty. induction fuel as [|f IH]; intros t node t' Hlen Hi H; [discriminate|].
  cbn [update] in H.
  destruct (FindHighestBlockNode t node) as [h|]; cbn [bind] in H; [|discriminate].
  destruct (deref t node) as [n|]; cbn [bind] in H; [|discriminate].
  assert (exists t1, (if negb (h =? node)%nat
                         && negb (eqb_ptr (Some h) (parent n))
                      then SwapNodes ty t h node else Ret t) = Ret t1
                     /\ indexed t1 /\ length (nodes t1) = length (nodes t))
    as [t1 [E1 [Hi1 L1]]].
  { destruct (negb (h =? node)%nat && negb (eqb_ptr (Some h) (parent n))).
    - destruct (SwapNodes ty t h node) as [t1|] eqn:Es; cbn [bind] in H;
        [|discriminate].
      exists t1. split; [reflexivity|].
      exact (SwapNodes_indexed ty t h node t1 Hty Hlen Hi Es).
    - exists t. split; [reflexivity|]. split; [exact Hi|reflexivity]. }
  rewrite E1 in H. cbn [bind] in H.
  destruct (deref t1 node) as [n1|] eqn:En1; cbn [bind] in H; [|discriminate].
  cbv zeta in H.
  assert (indexed (assign t1 node (with_weight n1 (u64 (weight n1 + 1))))) as Hi2
      by (apply indexed_assign; [exact Hi1|exact (indexed_deref _ _ _ Hi1 En1)]).
  set (t2 := assign t1 node (with_weight n1 (u64 (weight n1 + 1)))) in *.
  assert (length (nodes t2) = length (nodes t)) as L2
      by (unfold t2; rewrite assign_length; exact L1).
  destruct (root t2 =? node)%nat.
  - inversion H; subst t'. exact Hi2.
  - destruct (parent n1) as [p|]; [|discriminate].
    apply (IH t2 p t'); [lia|exact Hi2|exact H].
Qed.

(** With indices in their range the loop of the decoder is the loop of
    the coder. *)
Lemma update_u16 (fuel : nat) :
  forall t node,
    (length (nodes t) <= 514)%nat ->
    indexed t ->
    update fuel u16 t node = update fuel (fun i => i) t node.
Proof.
  induction fuel as [|f IH]; intros t node Hlen Hi; [reflexivity|].
  cbn [update].
  destruct (FindHighestBlockNode t node) as [h|]; cbn [bind]; [|reflexivity].
  destruct (deref t node) as [n|]; cbn [bind]; [|reflexivity].
  assert ((if negb (h =? node)%nat && negb (eqb_ptr (Some h) (parent n))
           then SwapNodes u16 t h node else Ret t)
          = (if negb (h =? node)%nat && negb (eqb_ptr (Some h) (parent n))
             then SwapNodes (fun i => i) t h node else Ret t)) as Es.
  { destruct (negb (h =? node)%nat && negb (eqb_ptr (Some h) (parent n)));
      [apply SwapNodes_u16; assumption|reflexivity]. }
  rewrite Es.
  destruct (if negb (h =? node)%nat && negb (eqb_ptr (Some h) (parent n))
            then SwapNodes (fun i => i) t h node else Ret t) as [t1|] eqn:E1;
    cbn [bind]; [|reflexivity].
  assert (indexed t1 /\ length (nodes t1) = length (nodes t)) as [Hi1 L1].
  { destruct (negb (h =? node)%nat && negb (eqb_ptr (Some h) (parent n))).
    - apply (SwapNodes_indexed (fun i => i) t h node t1);
        [reflexivity|exact Hlen|exact Hi|exact E1].
    - inversion E1; subst t1. split; [exact Hi|reflexivity]. }
  destruct (deref t1 node) as [n1|] eqn:En1; cbn [bind]; [|reflexivity].
  cbv zeta.
  assert (indexed (assign t1 node (with_weight n1 (u64 (weight n1 + 1))))) as Hi2
      by (apply indexed_assign; [exact Hi1|exact (indexed_deref _ _ _ Hi1 En1)]).
  set (t2 := assign t1 node (with_weight n1 (u64 (weight n1 + 1)))) in *.
  assert (length (nodes t2) = length (nodes t)) as L2
      by (unfold t2; rewrite assign_length; exact L1).
  destruct (root t2 =? node)%nat; [reflexivity|].
  destruct (parent n1) as [p|]; [|reflexivity].
  apply IH; [lia|exact Hi2].
Qed.

(** The two courses of one turn of the loop of [Encode]. *)
Lemma Encode_step_cases (c c' : HuffmanCoder.coder) (b : Z) :
  HuffmanCoder.Encode_step c b = Ret c' ->
  (exists p path c1 t,
      HuffmanCoder.FindSymbol c b = Ret (Some p)
      /\ HuffmanCoder.path_to_root c p = Ret path
      /\ HuffmanCoder.AddBits c path = Ret c1
      /\ update_tree (fun i => i) (HuffmanCoder.tr c1) p = Ret t
      /\ c' = HuffmanCoder.with_tree c1 t)
  \/ (exists path c1 c2 old c3 t,
         HuffmanCoder.FindSymbol c b = Ret None
         /\ HuffmanCoder.path_to_root c (NYT (HuffmanCoder.tr c)) = Ret path
         /\ HuffmanCoder.AddBits c path = Ret c1
         /\ HuffmanCoder.AddSymbol c1 b = Ret (c2, old)
         /\ HuffmanCoder.AddByte c2 b = Ret c3
         /\ update_tree (fun i => i) (HuffmanCoder.tr c3) old = Ret t
         /\ c' = HuffmanCoder.with_tree c3 t).
Proof.
  intros H. unfold HuffmanCoder.Encode_step in H.
  destruct (HuffmanCoder.FindSymbol c b) as [[p|]|] eqn:Ef; cbn [bind] in H;
    [| |discriminate].
  - left.
    destruct (HuffmanCoder.path_to_root c p) as [path|] eqn:Ep; cbn [bind] in H;
      [|discriminate].
    destruct (HuffmanCoder.AddBits c path) as [c1|] eqn:E1; cbn [bind] in H;
      [|discriminate].
    destruct (update_tree (fun i => i) (HuffmanCoder.tr c1) p) as [t|] eqn:Eu;
      cbn [bind] in H; [|discriminate].
    inversion H. exists p, path, c1, t.
    repeat split; first [reflexivity|assumption].
  - right.
    destruct (HuffmanCoder.path_to_root c (NYT (HuffmanCoder.tr c))) as [path|]
      eqn:Ep; cbn [bind] in H; [|discriminate].
    destruct (HuffmanCoder.AddBits c path) as [c1|] eqn:E1; cbn [bind] in H;
      [|discriminate].
    destruct (HuffmanCoder.AddSymbol c1 b) as [[c2 old]|] eqn:E2; cbn [bind] in H;
      [|discriminate].
    destruct (HuffmanCoder.AddByte c2 b) as [c3|] eqn:E3; cbn [bind] in H;
      [|discriminate].
    destruct (update_tree (fun i => i) (HuffmanCoder.tr c3) old) as [t|] eqn:Eu;
      cbn [bind] in H; [|discriminate].
    inversion H. exists path, c1, c2, old, c3, t.
    repeat split; first [reflexivity|assumption].
Qed.

Lemma AddSymbol_indexed (t t' : tree) (symbol : Z) (r old : nat) :
  indexed t ->
  AddSymbol t symbol = Ret (t', r, old) ->
  indexed t'.
Proof.
  intros Hi H. unfold AddSymbol in H.
  destruct (deref t (NYT t)) as [nyt|] eqn:Hd; cbn [bind] in H; [|discriminate].
  inversion H; subst t' r old; clear H.
  pose proof (indexed_deref t _ _ Hi Hd) as R.
  unfold indexed in *. cbn [nodes].
  rewrite length_app, store_length. cbn [length].
  apply Forall_app. split.
  - apply Forall_store.
    + eapply Forall_impl; [|exact Hi]. cbn beta. intros n Hn. lia.
    + cbn [index]. lia.
  - repeat constructor; cbn [index]; lia.
Qed.

Lemma writable_same (c c' : HuffmanCoder.coder) :
  HuffmanCoder.buffer c' = HuffmanCoder.buffer c ->
  HuffmanCoder.byte_index c' = HuffmanCoder.byte_index c ->
  HuffmanCoder.bit_index c' = HuffmanCoder.bit_index c ->
  Bits.writable c -> Bits.writable c'.
Proof.
  intros H1 H2 H3. unfold Bits.writable, Bits.cursor_of, HuffmanCoder.alloc.
  rewrite H1, H2, H3. tauto.
Qed.

Lemma byte_bits_nth (b : Z) (j : nat) :
  (j < 8)%nat -> nth j (byte_bits b) false = Z.testbit b (7 - Z.of_nat j).
Proof.
  intros Hj. unfold byte_bits.
  do 8 (destruct j as [|j]; [reflexivity|]). lia.
Qed.

(** [AddByte] on a writable coder. *)
Lemma AddByte_bits (c c' : HuffmanCoder.coder) (b : Z) :
  Bits.writable c ->
  HuffmanCoder.byte_index c + 160 < 2 ^ 60 ->
  HuffmanCoder.AddByte c b = Ret c' ->
  Bits.writable c'
  /\ Bits.cursor_of c' = Bits.cursor_of c + 8
  /\ HuffmanCoder.tr c' = HuffmanCoder.tr c
  /\ HuffmanCoder.leaf_nodes c' = HuffmanCoder.leaf_nodes c
  /\ (forall j, (j < 8)%nat ->
                Bits.bit_at (HuffmanCoder.buffer c') (Bits.cursor_of c + Z.of_nat j)
                = nth j (byte_bits b) false)
  /\ (forall q, 0 <= q < Bits.cursor_of c ->
                Bits.bit_at (HuffmanCoder.buffer c') q
                = Bits.bit_at (HuffmanCoder.buffer c) q).
Proof.
  intros Hw Hmax H. unfold HuffmanCoder.AddByte in H.
  set (bits := map (fun i => if negb (Z.land b (Z.shiftl 1 i) =? 0)
                             then 1 else 0) [0; 1; 2; 3; 4; 5; 6; 7]) in *.
  destruct (AddBits_bits c bits Hw ltac:(simpl; lia) Hmax)
    as [c0 [H1 [H2 [H3 [H4 [H5 [H6 [H7 _]]]]]]]].
  rewrite H in H1. inversion H1; subst c0.
  split; [exact H2|]. split; [exact H3|]. split; [exact H4|]. split; [exact H5|].
  split; [|exact H7].
  intros j Hj. rewrite (H6 j) by (simpl; lia).
  unfold bits. rewrite AddByte_bit by exact Hj.
  symmetry. apply byte_bits_nth. exact Hj.
Qed.

Lemma update_tree_ok (ty : Z -> Z) (t t' : tree) (node : nat) :
  (forall x, 0 <= x < 65536 -> ty x = x) ->
  linked t ->
  indexed t ->
  (length (nodes t) <= 514)%nat ->
  ((1 < length (nodes t))%nat -> left_of t (root t) <> None) ->
  update_tree ty t node = Ret t' ->
  linked t' /\ indexed t' /\ frame t t'
  /\ ((1 < length (nodes t'))%nat -> left_of t' (root t') <> None)
  /\ forall x, left_of t' x = None <-> left_of t x = None.
Proof.
  intros Hty Hl Hi Hlen Hroot H. unfold update_tree in H.
  destruct (update_linked _ _ _ _ _ Hl H) as [Hl' [Hf Hx]].
  split; [exact Hl'|].
  split; [exact (update_indexed ty _ Hty _ _ _ Hlen Hi H)|].
  split; [exact Hf|]. split; [|exact Hx].
  destruct Hf as [F1 [F2 _]]. rewrite F1, F2. intros Hn Hnone.
  apply (Hroot Hn). apply Hx. exact Hnone.
Qed.

(** One turn of the loop of [Encode]: what it keeps, and the bits it
    writes: the walk to the leaf of the symbol or, for a new symbol, the
    walk to the NYT node and the bits of the symbol. *)
Lemma Encode_step_ok (c c' : HuffmanCoder.coder) (b : Z) :
  coder_ok c ->
  is_byte b ->
  (length (nodes (HuffmanCoder.tr c')) <= 159)%nat ->
  HuffmanCoder.byte_index c + 200 < 2 ^ 60 ->
  HuffmanCoder.Encode_step c b = Ret c' ->
  coder_ok c'
  /\ (length (nodes (HuffmanCoder.tr c))
      <= length (nodes (HuffmanCoder.tr c')))%nat
  /\ (1 < length (nodes (HuffmanCoder.tr c')))%nat
  /\ HuffmanCoder.byte_index c' <= HuffmanCoder.byte_index c + 21
  /\ exists (w extra : list bool) (node : nat) (t0 : tree),
      walk (HuffmanCoder.tr c) (root (HuffmanCoder.tr c)) w = Some node
      /\ left_of (HuffmanCoder.tr c) node = None
      /\ ((node <> NYT (HuffmanCoder.tr c)
           /\ val_of (HuffmanCoder.tr c) node = Some b
           /\ extra = [] /\ t0 = HuffmanCoder.tr c)
          \/ (node = NYT (HuffmanCoder.tr c)
              /\ extra = byte_bits b
              /\ AddSymbol (HuffmanCoder.tr c) b
                 = Ret (t0, length (nodes (HuffmanCoder.tr c)),
                        NYT (HuffmanCoder.tr c))))
      /\ update_tree (fun i => i) t0 node = Ret (HuffmanCoder.tr c')
      /\ (1 <= length (w ++ extra))%nat
      /\ Bits.cursor_of c'
         = Bits.cursor_of c + Z.of_nat (length (w ++ extra))
      /\ (forall j, (j < length (w ++ extra))%nat ->
                    Bits.bit_at (HuffmanCoder.buffer c')
                                (Bits.cursor_of c + Z.of_nat j)
                    = nth j (w ++ extra) false)
      /\ (forall q, 0 <= q < Bits.cursor_of c ->
                    Bits.bit_at (HuffmanCoder.buffer c') q
                    = Bits.bit_at (HuffmanCoder.buffer c) q).
Proof.
  intros [Hw [Hl [Hlab [Hi Hroot]]]] Hb Hn Hmax H.
  destruct (Encode_step_linked c c' b Hb Hl Hlab H) as [Hl' Hlab'].
  pose proof Hw as [Hbi [Hby _]].
  change (2 ^ 60) with 1152921504606846976 in *.
  assert (0 <= Bits.cursor_of c) as Hc0
      by (unfold Bits.cursor_of, Bits.position; lia).
  destruct (Encode_step_cases c c' b H)
    as [[p [path [c1 [t [Ef [Ep [E1 [Eu ->]]]]]]]]
       |[path [c1 [c2 [old [c3 [t [Ef [Ep [E1 [E2 [E3 [Eu ->]]]]]]]]]]]]].
  - (* a symbol that has its leaf *)
    change (Bits.cursor_of (HuffmanCoder.with_tree c1 t))
      with (Bits.cursor_of c1).
    cbn [HuffmanCoder.with_tree HuffmanCoder.tr HuffmanCoder.buffer
         HuffmanCoder.byte_index] in *.
    destruct (AddBits_tree _ _ _ E1) as [T1 L1]. rewrite T1 in Eu.
    assert (length (nodes (HuffmanCoder.tr c)) <= 514)%nat as Hlen.
    { unfold update_tree in Eu.
      destruct (update_linked _ _ _ _ _ Hl Eu) as [_ [[F _] _]]. lia. }
    destruct (update_tree_ok (fun i => i) _ _ _ ltac:(reflexivity) Hl Hi Hlen Hroot Eu)
      as [_ [Hi' [Hf [Hroot' Hx]]]].
    pose proof Hf as [F1 [F2 _]].
    apply (path_to_root_walk_aux c p path Hl) in Ep.
    destruct Ep as [w [Hpath Hwalk]].
    pose proof (walk_short _ w p Hl Hwalk) as Hshort.
    assert (length path = length w) as Hlw
        by (rewrite Hpath, length_rev, length_map; reflexivity).
    destruct (AddBits_bits c path Hw ltac:(lia) ltac:(lia))
      as [c0 [H1 [H2 [H3 [_ [_ [H6 [H7 _]]]]]]]].
    rewrite E1 in H1. inversion H1; subst c0; clear H1.
    unfold HuffmanCoder.FindSymbol in Ef.
    destruct (nth_error (HuffmanCoder.leaf_nodes c) (Z.to_nat b)) as [o|] eqn:En;
      [|discriminate].
    inversion Ef; subst o; clear Ef.
    destruct Hlab as [Hlen256 Hlab].
    destruct (Hlab _ _ En) as [V [L N]].
    rewrite Z2Nat.id in V by (destruct Hb; lia).
    assert (1 <= length w)%nat as Hw1.
    { destruct w as [|b0 w]; [|cbn [length]; lia].
      cbn [walk] in Hwalk. inversion Hwalk; subst p.
      pose proof (val_of_inside _ _ _ V) as I1.
      pose proof (nyt_inside _ Hl) as I2. unfold inside in *.
      exfalso. apply Hroot; [|exact L].
      destruct (length (nodes (HuffmanCoder.tr c))) as [|[|k]]; lia. }
    split.
    { split; [|split; [exact Hl'|split; [exact Hlab'|split; [exact Hi'|exact Hroot']]]].
      apply (writable_same c1); [reflexivity|reflexivity|reflexivity|exact H2]. }
    split; [lia|].
    split.
    { pose proof (val_of_inside _ _ _ V) as I1.
      pose proof (nyt_inside _ Hl) as I2. unfold inside in *. lia. }
    split.
    { unfold Bits.cursor_of, Bits.position in H3.
      destruct H2 as [Hbi1 _]. lia. }
    exists w, [], p, (HuffmanCoder.tr c).
    rewrite app_nil_r.
    split; [exact Hwalk|]. split; [exact L|].
    split; [left; repeat split; assumption|].
    split; [exact Eu|]. split; [exact Hw1|].
    split; [rewrite H3, Hlw; reflexivity|].
    split; [|exact H7].
    intros j Hj. rewrite H6 by lia. rewrite Hpath, rev_involutive.
    apply nth_bit_of. exact Hj.
  - (* a new symbol *)
    change (Bits.cursor_of (HuffmanCoder.with_tree c3 t))
      with (Bits.cursor_of c3).
    cbn [HuffmanCoder.with_tree HuffmanCoder.tr HuffmanCoder.buffer
         HuffmanCoder.byte_index] in *.
    destruct (AddBits_tree _ _ _ E1) as [T1 L1].
    unfold HuffmanCoder.AddSymbol in E2. rewrite T1 in E2.
    destruct (AddSymbol_linked (HuffmanCoder.tr c) b Hl)
      as [t0 [Ea [Hl0 [Hn0 [Hr0 [Hnyt0 [_ [_ [_ [Hlo [_ Hc0']]]]]]]]]]].
    rewrite Ea in E2. cbn [bind] in E2. inversion E2; subst c2 old; clear E2.
    destruct (AddBits_tree _ _ _ E3) as [T3 L3].
    cbn [HuffmanCoder.tr] in T3. rewrite T3 in Eu.
    pose proof (AddSymbol_indexed _ _ _ _ _ Hi Ea) as Hi0.
    assert (length (nodes t0) <= 514)%nat as Hlen0.
    { unfold update_tree in Eu.
      destruct (update_linked _ _ _ _ _ Hl0 Eu) as [_ [[F _] _]]. lia. }
    assert ((1 < length (nodes t0))%nat -> left_of t0 (root t0) <> None) as Hroot0.
    { intros _. rewrite Hr0.
      destruct (Nat.eq_dec (root (HuffmanCoder.tr c)) (NYT (HuffmanCoder.tr c)))
        as [Heq|Hne].
      - rewrite Heq. unfold child_of in Hc0'. rewrite Hc0'. discriminate.
      - rewrite Hlo by exact Hne. apply Hroot.
        pose proof (root_inside _ Hl) as I1.
        pose proof (nyt_inside _ Hl) as I2. unfold inside in *.
        destruct (length (nodes (HuffmanCoder.tr c))) as [|[|k]]; lia. }
    destruct (update_tree_ok (fun i => i) _ _ _ ltac:(reflexivity)
                             Hl0 Hi0 Hlen0 Hroot0 Eu)
      as [_ [Hi' [Hf [Hroot' Hx]]]].
    pose proof Hf as [F1 [F2 _]].
    apply (path_to_root_walk_aux c _ path Hl) in Ep.
    destruct Ep as [w [Hpath Hwalk]].
    pose proof (walk_short _ w _ Hl Hwalk) as Hshort.
    assert (length path = length w) as Hlw
        by (rewrite Hpath, length_rev, length_map; reflexivity).
    destruct (AddBits_bits c path Hw ltac:(lia) ltac:(lia))
      as [c0 [H1 [H2 [H3 [_ [_ [H6 [H7 _]]]]]]]].
    rewrite E1 in H1. inversion H1; subst c0; clear H1.
    assert (HuffmanCoder.byte_index c1 <= HuffmanCoder.byte_index c + 20) as Hby1.
    { unfold Bits.cursor_of, Bits.position in H3.
      destruct H2 as [Hbi1 _]. lia. }
    match type of E3 with
    | HuffmanCoder.AddByte ?x b = _ => set (c2 := x) in *
    end.
    assert (Bits.writable c2) as Hw2
        by (apply (writable_same c1); [reflexivity|reflexivity|reflexivity|exact H2]).
    assert (Bits.cursor_of c2 = Bits.cursor_of c1) as Hc2 by reflexivity.
    destruct (AddByte_bits c2 c3 b Hw2
                ltac:(change (2 ^ 60) with 1152921504606846976;
                      change (HuffmanCoder.byte_index c2)
                        with (HuffmanCoder.byte_index c1); lia) E3)
      as [Hw3 [Hc3 [_ [_ [Hb3 Hq3]]]]].
    change (HuffmanCoder.buffer c2) with (HuffmanCoder.buffer c1) in Hq3.
    rewrite Hc2 in *.
    split.
    { split; [|split; [exact Hl'|split; [exact Hlab'|split; [exact Hi'|exact Hroot']]]].
      apply (writable_same c3); [reflexivity|reflexivity|reflexivity|exact Hw3]. }
    split; [lia|].
    split; [lia|].
    split.
    { unfold Bits.cursor_of, Bits.position in H3, Hc3.
      destruct Hw3 as [Hbi3 _]. destruct H2 as [Hbi1 _]. lia. }
    exists w, (byte_bits b), (NYT (HuffmanCoder.tr c)), t0.
    split; [exact Hwalk|]. split; [exact (nyt_leaf _ Hl)|].
    split; [right; repeat split; exact Ea|].
    split; [exact Eu|].
    rewrite length_app. change (length (byte_bits b)) with 8%nat.
    split; [lia|].
    split; [rewrite Hc3, H3, Hlw; lia|].
    split.
    + intros j Hj.
      destruct (Nat.lt_ge_cases j (length w)) as [Hjw|Hjw].
      * rewrite app_nth1 by exact Hjw.
        rewrite Hq3 by lia. rewrite H6 by lia.
        rewrite Hpath, rev_involutive. apply nth_bit_of. exact Hjw.
      * rewrite app_nth2 by exact Hjw.
        replace (Bits.cursor_of c + Z.of_nat j)
          with (Bits.cursor_of c1 + Z.of_nat (j - length w)) by lia.
        apply Hb3. lia.
    + intros q Hq. rewrite Hq3 by lia. apply H7. exact Hq.
Qed.

(** The tree of the coder does not lose nodes. *)
Lemma Encode_step_nodes (c c' : HuffmanCoder.coder) (b : Z) :
  linked (HuffmanCoder.tr c) ->
  HuffmanCoder.Encode_step c b = Ret c' ->
  (length (nodes (HuffmanCoder.tr c))
   <= length (nodes (HuffmanCoder.tr c')))%nat.
Proof.
  intros Hl H.
  destruct (Encode_step_cases c c' b H)
    as [[p [path [c1 [t [Ef [Ep [E1 [Eu ->]]]]]]]]
       |[path [c1 [c2 [old [c3 [t [Ef [Ep [E1 [E2 [E3 [Eu ->]]]]]]]]]]]]];
    cbn [HuffmanCoder.with_tree HuffmanCoder.tr];
    destruct (AddBits_tree _ _ _ E1) as [T1 L1].
  - rewrite T1 in Eu. unfold update_tree in Eu.
    destruct (update_linked _ _ _ _ _ Hl Eu) as [_ [[F _] _]]. lia.
  - unfold HuffmanCoder.AddSymbol in E2. rewrite T1 in E2.
    destruct (AddSymbol_linked (HuffmanCoder.tr c) b Hl)
      as [t0 [Ea [Hl0 [Hn0 _]]]].
    rewrite Ea in E2. cbn [bind] in E2. inversion E2; subst c2 old; clear E2.
    destruct (AddBits_tree _ _ _ E3) as [T3 L3].
    cbn [HuffmanCoder.tr] in T3. rewrite T3 in Eu. unfold update_tree in Eu.
    destruct (update_linked _ _ _ _ _ Hl0 Eu) as [_ [[F _] _]]. lia.
Qed.

Lemma Encode_loop_nodes (rest : list Z) :
  forall c c',
    bytes rest ->
    linked (HuffmanCoder.tr c) ->
    labelled c ->
    HuffmanCoder.Encode_loop c rest = Ret c' ->
    (length (nodes (HuffmanCoder.tr c))
     <= length (nodes (HuffmanCoder.tr c')))%nat.
Proof.
  induction rest as [|b rest IH]; intros c c' Hb Hl Hlab H;
    cbn [HuffmanCoder.Encode_loop] in H.
  - inversion H. lia.
  - destruct (HuffmanCoder.Encode_step c b) as [c1|] eqn:E; cbn [bind] in H;
      [|discriminate].
    destruct (Encode_step_linked c c1 b (Forall_inv Hb) Hl Hlab E) as [Hl1 Hlab1].
    pose proof (Encode_step_nodes c c1 b Hl E).
    pose proof (IH c1 c' (Forall_inv_tail Hb) Hl1 Hlab1 H). lia.
Qed.

(** The loop of [Encode] keeps what the coder relies on, and does not
    touch the bits it has written. *)
Lemma Encode_loop_ok (rest : list Z) :
  forall c c',
    coder_ok c ->
    bytes rest ->
    (length (nodes (HuffmanCoder.tr c')) <= 159)%nat ->
    HuffmanCoder.byte_index c + 21 * Z.of_nat (length rest) + 200 < 2 ^ 60 ->
    HuffmanCoder.Encode_loop c rest = Ret c' ->
    coder_ok c'
    /\ Bits.cursor_of c + Z.of_nat (length rest) <= Bits.cursor_of c'
    /\ (rest <> [] -> (1 < length (nodes (HuffmanCoder.tr c')))%nat)
    /\ HuffmanCoder.byte_index c'
       <= HuffmanCoder.byte_index c + 21 * Z.of_nat (length rest)
    /\ (forall q, 0 <= q < Bits.cursor_of c ->
                  Bits.bit_at (HuffmanCoder.buffer c') q
                  = Bits.bit_at (HuffmanCoder.buffer c) q).
Proof.
  induction rest as [|b rest IH]; intros c c' Hok Hb Hn Hmax H;
    cbn [HuffmanCoder.Encode_loop] in H.
  - inversion H; subst c'. cbn [length]. split; [exact Hok|].
    split; [lia|]. split; [intros Hne; contradiction|].
    split; [lia|]. intros q _. reflexivity.
  - destruct (HuffmanCoder.Encode_step c b) as [c1|] eqn:E; cbn [bind] in H;
      [|discriminate].
    cbn [length] in Hmax. rewrite Nat2Z.inj_succ in Hmax.
    pose proof Hok as [_ [Hl [Hlab _]]].
    destruct (Encode_step_linked c c1 b (Forall_inv Hb) Hl Hlab E) as [Hl1 Hlab1].
    pose proof (Encode_loop_nodes rest c1 c' (Forall_inv_tail Hb) Hl1 Hlab1 H)
      as Hn1.
    destruct (Encode_step_ok c c1 b Hok (Forall_inv Hb) ltac:(lia) ltac:(lia) E)
      as [Hok1 [_ [Hn2 [Hby1 [w [extra [node [t0 [_ [_ [_ [_ [Hw1 [Hc1 [_ Hq1]]]]]]]]]]]]]]].
    destruct (IH c1 c' Hok1 (Forall_inv_tail Hb) Hn ltac:(lia) H)
      as [Hok' [Hc' [_ [Hby' Hq']]]].
    pose proof Hok as [[Hbi [Hby _]] _].
    assert (0 <= Bits.cursor_of c) as Hc0
        by (unfold Bits.cursor_of, Bits.position; lia).
    split; [exact Hok'|]. cbn [length]. rewrite Nat2Z.inj_succ.
    split; [lia|]. split; [intros _; lia|]. split; [lia|].
    intros q Hq. rewrite Hq' by lia. apply Hq1. exact Hq.
Qed.

Lemma firstn_store {A : Type} (l : list A) :
  forall i v, (i < length l)%nat ->
              firstn (S i) (store l i v) = firstn i l ++ [v].
Proof.
  induction l as [|x l IH]; intros i v Hi; cbn [length] in Hi; [lia|].
  destruct i as [|i]; [reflexivity|].
  cbn [store]. rewrite !firstn_cons. cbn [app]. f_equal. apply IH. lia.
Qed.

(** [AddSymbolToBuffer] appends the symbol to what the decoder has
    written. *)
Lemma AddSymbolToBuffer_out (d : HuffmanDecoder.decoder) (s : Z) (out : list Z) :
  HuffmanDecoder.write_byte_index d = Z.of_nat (length out) ->
  (length out <= length (HuffmanDecoder.buffer d))%nat ->
  firstn (length out) (HuffmanDecoder.buffer d) = out ->
  Z.of_nat (length out) + 1 < 2 ^ 64 ->
  let d' := HuffmanDecoder.AddSymbolToBuffer d s in
  HuffmanDecoder.write_byte_index d' = Z.of_nat (length (out ++ [s]))
  /\ (length (out ++ [s]) <= length (HuffmanDecoder.buffer d'))%nat
  /\ firstn (length (out ++ [s])) (HuffmanDecoder.buffer d') = out ++ [s]
  /\ HuffmanDecoder.tr d' = HuffmanDecoder.tr d
  /\ HuffmanDecoder.read_byte_index d' = HuffmanDecoder.read_byte_index d
  /\ HuffmanDecoder.read_bit_index d' = HuffmanDecoder.read_bit_index d.
Proof.
  intros Hw Hlen Hout Hmax d'.
  change (2 ^ 64) with 18446744073709551616 in Hmax.
  assert (exists buf,
             HuffmanDecoder.buffer (HuffmanDecoder.ReallocateBuffer d) = buf
             /\ (length out < length buf)%nat
             /\ firstn (length out) buf = out
             /\ HuffmanDecoder.write_byte_index (HuffmanDecoder.ReallocateBuffer d)
                = HuffmanDecoder.write_byte_index d
             /\ HuffmanDecoder.tr (HuffmanDecoder.ReallocateBuffer d)
                = HuffmanDecoder.tr d
             /\ HuffmanDecoder.read_byte_index (HuffmanDecoder.ReallocateBuffer d)
                = HuffmanDecoder.read_byte_index d
             /\ HuffmanDecoder.read_bit_index (HuffmanDecoder.ReallocateBuffer d)
                = HuffmanDecoder.read_bit_index d)
    as [buf [Hbuf [Hl1 [Hf1 [Hw1 [Ht1 [Hr1 Hr2]]]]]]].
  { unfold HuffmanDecoder.ReallocateBuffer, HuffmanDecoder.alloc.
    destruct (Z.of_nat (length (HuffmanDecoder.buffer d))
              <=? HuffmanDecoder.write_byte_index d + 20) eqn:E.
    - cbv zeta.
      cbn [HuffmanDecoder.buffer HuffmanDecoder.write_byte_index HuffmanDecoder.tr
           HuffmanDecoder.read_byte_index HuffmanDecoder.read_bit_index].
      eexists. split; [reflexivity|].
      rewrite Hw, Nat2Z.id, Hout. unfold ALLOC_SIZE.
      rewrite length_app, repeat_length.
      split; [lia|]. split; [|repeat split].
      rewrite firstn_app, Nat.sub_diag, firstn_all. cbn [firstn].
      apply app_nil_r.
    - apply Z.leb_gt in E. exists (HuffmanDecoder.buffer d).
      split; [reflexivity|]. split; [lia|]. split; [exact Hout|repeat split]. }
  unfold d', HuffmanDecoder.AddSymbolToBuffer.
  cbn [HuffmanDecoder.write_byte_index HuffmanDecoder.buffer HuffmanDecoder.tr
       HuffmanDecoder.read_byte_index HuffmanDecoder.read_bit_index].
  rewrite Hbuf, Hw1, Hw, Nat2Z.id, length_app. cbn [length].
  rewrite store_length. rewrite u64_small by lia.
  split; [lia|]. split; [lia|].
  split; [|split; [exact Ht1|split; [exact Hr1|exact Hr2]]].
  replace (length out + 1)%nat with (S (length out)) by lia.
  rewrite firstn_store by exact Hl1. rewrite Hf1. reflexivity.
Qed.

(** The turn of the loop of [Decode] at a leaf. *)
Lemma Decode_leaf_known (F : list Z) (size pad : Z) (d : HuffmanDecoder.decoder)
      (node : nat) (b : Z) (t' : tree) (fuel : nat) :
  linked (HuffmanDecoder.tr d) ->
  indexed (HuffmanDecoder.tr d) ->
  (length (nodes (HuffmanDecoder.tr d)) <= 514)%nat ->
  HuffmanDecoder.IsEnd d size pad = false ->
  left_of (HuffmanDecoder.tr d) node = None ->
  node <> NYT (HuffmanDecoder.tr d) ->
  val_of (HuffmanDecoder.tr d) node = Some b ->
  update_tree (fun i => i) (HuffmanDecoder.tr d) node = Ret t' ->
  HuffmanDecoder.Decode_loop (S fuel) d F size pad node
  = HuffmanDecoder.Decode_loop
      fuel (HuffmanDecoder.with_tree (HuffmanDecoder.AddSymbolToBuffer d b) t')
      F size pad (root t').
Proof.
  intros Hl Hi Hlen Hend Hleft Hne Hval Hupd.
  cbn [HuffmanDecoder.Decode_loop]. rewrite Hend.
  destruct (inside_deref _ _ (val_of_inside _ _ _ Hval)) as [n Hd].
  rewrite Hd. cbn [bind].
  destruct (deref_fields _ _ _ Hd) as [FL [FR [_ FV]]].
  assert (IsExternalNode n = true) as Hext.
  { unfold IsExternalNode. rewrite <- FL, <- FR, Hleft.
    rewrite (proj1 (both_or_none _ Hl node) Hleft). reflexivity. }
  rewrite Hext. cbn [negb].
  replace (node =? NYT (HuffmanDecoder.tr d))%nat with false
    by (symmetry; apply Nat.eqb_neq; exact Hne).
  cbn [bind].
  assert (val n = b) as -> by congruence.
  rewrite AddSymbolToBuffer_tree.
  unfold update_tree in *. rewrite update_u16 by assumption.
  rewrite Hupd. cbn [bind]. reflexivity.
Qed.

Lemma ReadSymbol_byte (F : list Z) (size : Z) (d : HuffmanDecoder.decoder)
      (b : Z) :
  is_byte b ->
  0 <= HuffmanDecoder.read_bit_index d < 8 ->
  0 <= HuffmanDecoder.read_byte_index d ->
  Bits.reader_of d + 8 <= 8 * size ->
  size <= Z.of_nat (length F) ->
  size < 2 ^ 60 ->
  (forall j, 0 <= j < 8 ->
             Bits.bit_at F (Bits.reader_of d + j) = Z.testbit b (7 - j)) ->
  exists d2,
    HuffmanDecoder.ReadSymbol d F size = Ret (Some b, d2)
    /\ Bits.reader_of d2 = Bits.reader_of d + 8
    /\ 0 <= HuffmanDecoder.read_bit_index d2 < 8
    /\ 0 <= HuffmanDecoder.read_byte_index d2
    /\ HuffmanDecoder.tr d2 = HuffmanDecoder.tr d
    /\ HuffmanDecoder.buffer d2 = HuffmanDecoder.buffer d
    /\ HuffmanDecoder.write_byte_index d2 = HuffmanDecoder.write_byte_index d.
Proof.
  intros Hb Hri Hrb Hfit Hsize Hmax Hbits.
  destruct (ReadSymbol_loop_bits F size [0; 1; 2; 3; 4; 5; 6; 7] d 0
                                 Hri Hrb Hfit Hsize Hmax)
    as [d2 [Hr H2]].
  assert (Bits.read_bits (Bits.bit_at F) [0; 1; 2; 3; 4; 5; 6; 7]
                         (Bits.reader_of d) 0 = b) as Hsym.
  { rewrite read_bits_shift.
    rewrite (read_bits_ext _ (fun j => Z.testbit b (7 - j))).
    - apply read_bits_byte. exact Hb.
    - intros j Hj. cbn [length] in Hj. apply Hbits. lia. }
  rewrite Hsym in Hr. exists d2. split; [exact Hr|exact H2].
Qed.

Lemma Decode_leaf_new (F : list Z) (size pad : Z) (d d2 : HuffmanDecoder.decoder)
      (b : Z) (t0 t' : tree) (fuel : nat) :
  linked (HuffmanDecoder.tr d) ->
  indexed t0 ->
  (length (nodes t0) <= 514)%nat ->
  HuffmanDecoder.IsEnd d size pad = false ->
  HuffmanDecoder.ReadSymbol d F size = Ret (Some b, d2) ->
  HuffmanDecoder.tr d2 = HuffmanDecoder.tr d ->
  AddSymbol (HuffmanDecoder.tr d) b
  = Ret (t0, length (nodes (HuffmanDecoder.tr d)), NYT (HuffmanDecoder.tr d)) ->
  update_tree (fun i => i) t0 (NYT (HuffmanDecoder.tr d)) = Ret t' ->
  HuffmanDecoder.Decode_loop (S fuel) d F size pad (NYT (HuffmanDecoder.tr d))
  = HuffmanDecoder.Decode_loop
      fuel (HuffmanDecoder.with_tree
              (HuffmanDecoder.with_tree (HuffmanDecoder.AddSymbolToBuffer d2 b) t0)
              t')
      F size pad (root t').
Proof.
  intros Hl Hi0 Hlen0 Hend Hr Ht2 Ha Hupd.
  cbn [HuffmanDecoder.Decode_loop]. rewrite Hend.
  destruct (inside_deref _ _ (nyt_inside _ Hl)) as [n Hd].
  rewrite Hd. cbn [bind].
  destruct (deref_fields _ _ _ Hd) as [FL [FR _]].
  assert (IsExternalNode n = true) as Hext.
  { unfold IsExternalNode. rewrite <- FL, <- FR, (nyt_leaf _ Hl).
    rewrite (proj1 (both_or_none _ Hl _) (nyt_leaf _ Hl)). reflexivity. }
  rewrite Hext. cbn [negb]. rewrite Nat.eqb_refl.
  rewrite Hr. cbn [bind].
  unfold HuffmanDecoder.AddSymbol. cbv zeta.
  rewrite AddSymbolToBuffer_tree, Ht2, Ha. cbn [bind].
  cbn [HuffmanDecoder.with_tree HuffmanDecoder.tr].
  unfold update_tree in *. rewrite update_u16 by assumption.
  rewrite Hupd. cbn [bind]. reflexivity.
Qed.

Lemma advance_fields (d : HuffmanDecoder.decoder) (k : Z) :
  0 <= HuffmanDecoder.read_byte_index d ->
  0 <= HuffmanDecoder.read_bit_index d < 8 ->
  0 <= k ->
  HuffmanDecoder.tr (advance d k) = HuffmanDecoder.tr d
  /\ HuffmanDecoder.buffer (advance d k) = HuffmanDecoder.buffer d
  /\ HuffmanDecoder.write_byte_index (advance d k)
     = HuffmanDecoder.write_byte_index d
  /\ 0 <= HuffmanDecoder.read_byte_index (advance d k).
Proof.
  intros Hrb Hri Hk. repeat split.
  unfold advance. cbn [HuffmanDecoder.read_byte_index].
  apply Z.div_pos; [unfold Bits.reader_of, Bits.position; lia|lia].
Qed.

(** The decoder follows the coder through one symbol. *)
Lemma Decode_step_ok (F : list Z) (size pad : Z) (c c' : HuffmanCoder.coder)
      (d : HuffmanDecoder.decoder) (out : list Z) (b : Z) :
  coder_ok c ->
  synced c d out ->
  is_byte b ->
  (length (nodes (HuffmanCoder.tr c')) <= 159)%nat ->
  HuffmanCoder.byte_index c + 200 < 2 ^ 60 ->
  HuffmanCoder.Encode_step c b = Ret c' ->
  size <= Z.of_nat (length F) ->
  size < 2 ^ 60 ->
  Bits.cursor_of c' + 8 <= 8 * size ->
  (forall q, Bits.cursor_of c <= q < Bits.cursor_of c' ->
             Bits.bit_at F (q + 8) = Bits.bit_at (HuffmanCoder.buffer c') q) ->
  (forall k, 0 <= k -> Bits.reader_of d + k <= Bits.cursor_of c' + 8 ->
             HuffmanDecoder.IsEnd (advance d k) size pad = false) ->
  Z.of_nat (length out) + 1 < 2 ^ 64 ->
  exists d' turns,
    Z.of_nat turns <= 2 * (Bits.cursor_of c' - Bits.cursor_of c)
    /\ synced c' d' (out ++ [b])
    /\ forall fuel,
        HuffmanDecoder.Decode_loop (turns + fuel) d F size pad
                                   (root (HuffmanDecoder.tr d))
        = HuffmanDecoder.Decode_loop fuel d' F size pad
                                     (root (HuffmanDecoder.tr d')).
Proof.
  intros Hok [St [Sr [Sri [Srb [Sw [Sl So]]]]]] Hb Hn Hmax He Hsize Hsmax Hfit
         HF Hend Hout.
  destruct (Encode_step_ok c c' b Hok Hb Hn Hmax He)
    as [Hok' [Hnodes [_ [_ [w [extra [node [t0 [Hwalk [Hleft [Hcase [Hupd
       [Hlen1 [Hcur [Hbits Hkeep]]]]]]]]]]]]]]].
  pose proof Hok as [Hw [Hl [Hlab [Hi Hroot]]]].
  pose proof Hw as [Hbi [Hby _]].
  assert (0 <= Bits.cursor_of c) as Hc0
      by (unfold Bits.cursor_of, Bits.position; lia).
  rewrite length_app in *.
  set (d1 := advance d (Z.of_nat (length w))).
  destruct (advance_reader d (Z.of_nat (length w))) as [Hr1 Hri1].
  destruct (advance_fields d (Z.of_nat (length w)) Srb Sri ltac:(lia))
    as [Ht1 [Hb1 [Hw1 Hrb1]]].
  fold d1 in Hr1, Hri1, Ht1, Hb1, Hw1, Hrb1.
  assert (forall j, (j < length w + length extra)%nat ->
                    Bits.bit_at F (Bits.reader_of d + Z.of_nat j)
                    = nth j (w ++ extra) false) as HbitsF.
  { intros j Hj. rewrite Sr.
    replace (Bits.cursor_of c + 8 + Z.of_nat j)
      with (Bits.cursor_of c + Z.of_nat j + 8) by lia.
    rewrite HF by lia. apply Hbits. exact Hj. }
  assert (forall fuel,
             HuffmanDecoder.Decode_loop (length w + S fuel) d F size pad
                                        (root (HuffmanDecoder.tr d))
             = HuffmanDecoder.Decode_loop (S fuel) d1 F size pad node) as Hphase1.
  { intros fuel.
    apply (Decode_loop_walk_aux F size pad w d (root (HuffmanDecoder.tr d)) node
                                (S fuel) Sri Srb Hsize Hsmax).
    - lia.
    - intros j Hj. apply Hend; lia.
    - intros j Hj. rewrite HbitsF by lia. apply app_nth1. exact Hj.
    - rewrite St. exact Hwalk. }
  assert (HuffmanDecoder.IsEnd d1 size pad = false) as Hend1
      by (apply Hend; lia).
  assert (length (nodes (HuffmanCoder.tr c)) <= 514)%nat as Hlen by lia.
  destruct Hcase as [[Hne [Hval [-> ->]]]|[-> [-> Ha]]].
  - (* a symbol that has its leaf *)
    cbn [length] in *. rewrite Nat.add_0_r in *.
    pose proof (AddSymbolToBuffer_out d1 b out ltac:(congruence)
                  ltac:(rewrite Hb1; exact Sl) ltac:(rewrite Hb1; exact So) Hout)
      as Hadd.
    cbv zeta in Hadd. destruct Hadd as [A1 [A2 [A3 [A4 [A5 A6]]]]].
    exists (HuffmanDecoder.with_tree (HuffmanDecoder.AddSymbolToBuffer d1 b)
                                     (HuffmanCoder.tr c')),
      (length w + 1)%nat.
    split; [lia|]. split.
    + unfold synced.
      cbn [HuffmanDecoder.with_tree HuffmanDecoder.tr HuffmanDecoder.buffer
           HuffmanDecoder.write_byte_index HuffmanDecoder.read_byte_index
           HuffmanDecoder.read_bit_index].
      unfold Bits.reader_of in *.
      cbn [HuffmanDecoder.with_tree HuffmanDecoder.read_byte_index
           HuffmanDecoder.read_bit_index].
      rewrite A5, A6.
      split; [reflexivity|]. split; [lia|]. split; [exact Hri1|].
      split; [exact Hrb1|]. split; [exact A1|]. split; [exact A2|exact A3].
    + intros fuel.
      replace (length w + 1 + fuel)%nat with (length w + S fuel)%nat by lia.
      rewrite Hphase1.
      apply (Decode_leaf_known F size pad d1 node b (HuffmanCoder.tr c') fuel);
        rewrite ?Ht1, ?St; assumption.
  - (* a new symbol *)
    change (length (byte_bits b)) with 8%nat in *.
    assert (indexed t0) as Hi0 by (exact (AddSymbol_indexed _ _ _ _ _ Hi Ha)).
    assert (length (nodes t0) <= 514)%nat as Hlen0.
    { unfold update_tree in Hupd.
      destruct (AddSymbol_linked (HuffmanCoder.tr c) b Hl)
        as [t0' [Ea [Hl0 _]]].
      rewrite Ea in Ha. inversion Ha; subst t0'.
      destruct (update_linked _ _ _ _ _ Hl0 Hupd) as [_ [[Fr _] _]]. lia. }
    destruct (ReadSymbol_byte F size d1 b Hb Hri1 Hrb1 ltac:(lia) Hsize Hsmax)
      as [d2 [Hrs [Hr2 [Hri2 [Hrb2 [Ht2 [Hb2 Hw2]]]]]]].
    { intros j Hj. rewrite Hr1.
      replace (Bits.reader_of d + Z.of_nat (length w) + j)
        with (Bits.reader_of d + Z.of_nat (length w + Z.to_nat j)) by lia.
      rewrite HbitsF by lia. rewrite app_nth2 by lia.
      replace (length w + Z.to_nat j - length w)%nat with (Z.to_nat j) by lia.
      rewrite byte_bits_nth by lia. f_equal. lia. }
    pose proof (AddSymbolToBuffer_out d2 b out ltac:(congruence)
                  ltac:(rewrite Hb2, Hb1; exact Sl)
                  ltac:(rewrite Hb2, Hb1; exact So) Hout)
      as Hadd.
    cbv zeta in Hadd. destruct Hadd as [A1 [A2 [A3 [A4 [A5 A6]]]]].
    exists (HuffmanDecoder.with_tree
              (HuffmanDecoder.with_tree (HuffmanDecoder.AddSymbolToBuffer d2 b) t0)
              (HuffmanCoder.tr c')),
      (length w + 1)%nat.
    split; [lia|]. split.
    + unfold synced.
      cbn [HuffmanDecoder.with_tree HuffmanDecoder.tr HuffmanDecoder.buffer
           HuffmanDecoder.write_byte_index HuffmanDecoder.read_byte_index
           HuffmanDecoder.read_bit_index].
      unfold Bits.reader_of in *.
      cbn [HuffmanDecoder.with_tree HuffmanDecoder.read_byte_index
           HuffmanDecoder.read_bit_index].
      rewrite A5, A6.
      split; [reflexivity|]. split; [lia|]. split; [exact Hri2|].
      split; [exact Hrb2|]. split; [exact A1|]. split; [exact A2|exact A3].
    + intros fuel.
      replace (length w + 1 + fuel)%nat with (length w + S fuel)%nat by lia.
      rewrite Hphase1.
      pose proof (Decode_leaf_new F size pad d1 d2 b t0 (HuffmanCoder.tr c') fuel)
        as Hrun.
      rewrite Ht1, St in Hrun. rewrite Ht1, St in Ht2.
      apply Hrun; assumption.
Qed.


Lemma IsEnd_advance (d : HuffmanDecoder.decoder) (size pad k : Z) :
  HuffmanDecoder.IsEnd (advance d k) size pad
  = end_at size pad (Bits.reader_of d + k).
Proof. reflexivity. Qed.

(** The decoder follows the coder through the rest of the input. *)
Lemma Decode_follows (F : list Z) (size pad : Z) (rest : list Z) :
  forall c c' d out,
    coder_ok c ->
    synced c d out ->
    bytes rest ->
    (length (nodes (HuffmanCoder.tr c')) <= 159)%nat ->
    HuffmanCoder.byte_index c + 21 * Z.of_nat (length rest) + 200 < 2 ^ 60 ->
    HuffmanCoder.Encode_loop c rest = Ret c' ->
    size <= Z.of_nat (length F) ->
    size < 2 ^ 60 ->
    Bits.cursor_of c' + 8 <= 8 * size ->
    (forall q, Bits.cursor_of c <= q < Bits.cursor_of c' ->
               Bits.bit_at F (q + 8) = Bits.bit_at (HuffmanCoder.buffer c') q) ->
    (forall q, Bits.cursor_of c + 8 <= q <= Bits.cursor_of c' + 8 ->
               end_at size pad q = false) ->
    Z.of_nat (length out) + Z.of_nat (length rest) < 2 ^ 64 ->
    exists d' turns,
      Z.of_nat turns <= 2 * (Bits.cursor_of c' - Bits.cursor_of c)
      /\ synced c' d' (out ++ rest)
      /\ forall fuel,
          HuffmanDecoder.Decode_loop (turns + fuel) d F size pad
                                     (root (HuffmanDecoder.tr d))
          = HuffmanDecoder.Decode_loop fuel d' F size pad
                                       (root (HuffmanDecoder.tr d')).
Proof.
  induction rest as [|b rest IH];
    intros c c' d out Hok Hs Hb Hn Hmax H Hsize Hsmax Hfit HF Hend Hout;
    cbn [HuffmanCoder.Encode_loop] in H.
  - inversion H; subst c'. exists d, O. rewrite app_nil_r.
    split; [lia|]. split; [exact Hs|]. intros fuel. reflexivity.
  - destruct (HuffmanCoder.Encode_step c b) as [c1|] eqn:E; cbn [bind] in H;
      [|discriminate].
    cbn [length] in Hmax, Hout. rewrite Nat2Z.inj_succ in Hmax, Hout.
    pose proof Hok as [[Hbi [Hby _]] [Hl [Hlab _]]].
    assert (0 <= Bits.cursor_of c) as Hc0
        by (unfold Bits.cursor_of, Bits.position; lia).
    destruct (Encode_step_linked c c1 b (Forall_inv Hb) Hl Hlab E) as [Hl1 Hlab1].
    pose proof (Encode_loop_nodes rest c1 c' (Forall_inv_tail Hb) Hl1 Hlab1 H)
      as Hn1.
    destruct (Encode_step_ok c c1 b Hok (Forall_inv Hb) ltac:(lia) ltac:(lia) E)
      as [Hok1 [_ [_ [Hby1 [w [extra [node [t0 [_ [_ [_ [_ [Hw1 [Hc1 _]]]]]]]]]]]]]].
    destruct (Encode_loop_ok rest c1 c' Hok1 (Forall_inv_tail Hb) Hn ltac:(lia) H)
      as [_ [Hc' [_ [_ Hq']]]].
    pose proof Hs as [_ [Sr _]].
    destruct (Decode_step_ok F size pad c c1 d out b Hok Hs (Forall_inv Hb)
                             ltac:(lia) ltac:(lia) E Hsize Hsmax ltac:(lia))
      as [d1 [turns1 [Ht1 [Hs1 Hrun1]]]].
    + intros q Hq. rewrite HF by lia. apply Hq'. lia.
    + intros k Hk Hk2. rewrite IsEnd_advance. apply Hend. lia.
    + change (2 ^ 64) with 18446744073709551616 in *. lia.
    + destruct (IH c1 c' d1 (out ++ [b]) Hok1 Hs1 (Forall_inv_tail Hb) Hn
                   ltac:(lia) H Hsize Hsmax Hfit)
        as [d' [turns2 [Ht2 [Hs2 Hrun2]]]].
      * intros q Hq. apply HF. lia.
      * intros q Hq. apply Hend. lia.
      * rewrite length_app. cbn [length]. lia.
      * exists d', (turns1 + turns2)%nat.
        split; [lia|]. split.
        -- rewrite <- app_assoc in Hs2. exact Hs2.
        -- intros fuel. rewrite <- Nat.add_assoc, Hrun1. apply Hrun2.
Qed.

(** The last turns of the loop of [Decode], at the end of what the
    coder wrote, when the padding is not one bit. *)
Lemma Decode_end (F : list Z) (size pad : Z) (c : HuffmanCoder.coder)
      (d : HuffmanDecoder.decoder) (out : list Z) (fuel : nat) :
  coder_ok c ->
  synced c d out ->
  (1 < length (nodes (HuffmanCoder.tr c)))%nat ->
  size = HuffmanCoder.GetSize c + 1 ->
  size <= Z.of_nat (length F) ->
  size < 2 ^ 60 ->
  pad = (if HuffmanCoder.bit_index c =? 0 then 0
         else 8 - HuffmanCoder.bit_index c) ->
  pad <> 1 ->
  Bits.bit_at F (Bits.cursor_of c + 8) = false ->
  exists d',
    HuffmanDecoder.Decode_loop (2 + fuel) d F size pad
                               (root (HuffmanDecoder.tr d))
    = Ret (true, d')
    /\ HuffmanDecoder.buffer d' = HuffmanDecoder.buffer d
    /\ HuffmanDecoder.write_byte_index d' = HuffmanDecoder.write_byte_index d.
Proof.
  intros [Hw [Hl [_ [_ Hroot]]]] [St [Sr [Sri [Srb _]]]] Hn Hsize HsF Hsmax
         Hpad Hp1 Hbit.
  pose proof Hw as [Hbi [Hby [Hbmax _]]].
  change (2 ^ 60) with 1152921504606846976 in *.
  pose proof Sr as Hrd.
  unfold Bits.reader_of, Bits.cursor_of, Bits.position in Sr.
  assert (HuffmanDecoder.read_byte_index d = HuffmanCoder.byte_index c + 1
          /\ HuffmanDecoder.read_bit_index d = HuffmanCoder.bit_index c)
    as [Rb Ri] by lia.
  specialize (Hroot Hn).
  destruct (inside_deref _ _ (root_inside _ Hl)) as [n Hd].
  destruct (deref_fields _ _ _ Hd) as [FL _].
  assert (IsExternalNode n = false) as Hint.
  { unfold IsExternalNode. rewrite <- FL.
    destruct (left_of (HuffmanCoder.tr c) (root (HuffmanCoder.tr c)));
      [reflexivity|contradiction]. }
  unfold HuffmanCoder.GetSize in Hsize.
  change (2 + fuel)%nat with (S (S fuel)).
  cbn [HuffmanDecoder.Decode_loop]. rewrite St, Hd. cbn [bind].
  rewrite Hint. cbn [negb].
  destruct (HuffmanCoder.bit_index c =? 0) eqn:Eb.
  - (* the coder ended on a byte boundary *)
    apply Z.eqb_eq in Eb.
    assert (HuffmanDecoder.IsEnd d size pad = false) as Hend.
    { unfold HuffmanDecoder.IsEnd. rewrite Ri, Eb, Hpad. reflexivity. }
    rewrite Hend.
    unfold HuffmanDecoder.NextBit.
    replace (HuffmanDecoder.read_byte_index d =? size) with true
      by (symmetry; apply Z.eqb_eq; lia).
    cbn [bind]. exists d. repeat split.
  - apply Z.eqb_neq in Eb.
    rewrite u64_small in Hsize by lia.
    assert (HuffmanDecoder.IsEnd d size pad = false) as Hend.
    { unfold HuffmanDecoder.IsEnd. rewrite Ri, Hpad.
      replace (HuffmanCoder.bit_index c + (8 - HuffmanCoder.bit_index c) =? 9)
        with false by (symmetry; apply Z.eqb_neq; lia).
      reflexivity. }
    rewrite Hend.
    rewrite (NextBit_advance d F size Sri ltac:(lia) HsF
                             ltac:(change (2 ^ 60) with 1152921504606846976; lia)).
    cbn [bind].
    rewrite Hrd, Hbit.
    rewrite <- FL.
    destruct (left_of (HuffmanCoder.tr c) (root (HuffmanCoder.tr c))) as [c0|];
      [|contradiction].
    assert (HuffmanDecoder.IsEnd (advance d 1) size pad = true) as Hend1.
    { rewrite IsEnd_advance. unfold end_at, Bits.reader_of, Bits.position.
      rewrite Rb, Ri.
      replace ((8 * (HuffmanCoder.byte_index c + 1) + HuffmanCoder.bit_index c + 1)
               mod 8) with (HuffmanCoder.bit_index c + 1)
        by (apply (Z.mod_unique _ _ (HuffmanCoder.byte_index c + 1)); lia).
      replace ((8 * (HuffmanCoder.byte_index c + 1) + HuffmanCoder.bit_index c + 1)
               / 8) with (HuffmanCoder.byte_index c + 1)
        by (apply (Z.div_unique _ _ _ (HuffmanCoder.bit_index c + 1)); lia).
      apply andb_true_iff. split; apply Z.eqb_eq; lia. }
    rewrite Hend1. exists (advance d 1). repeat split.
Qed.

Lemma init_coder_ok : coder_ok HuffmanCoder.init.
Proof.
  split; [exact init_writable|]. split; [apply init_labelled|].
  split; [apply init_labelled|]. split.
  - unfold indexed. change (nodes (HuffmanCoder.tr HuffmanCoder.init))
      with [with_index GenNode (N_VALUES * 2 + 1)].
    repeat constructor; vm_compute; congruence.
  - change (length (nodes (HuffmanCoder.tr HuffmanCoder.init))) with 1%nat. lia.
Qed.

Lemma settings_fields (bi : Z) :
  0 <= bi < 8 ->
  let pad := if bi =? 0 then 0 else 8 - bi in
  let settings := u8 (Z.lor (u8 pad) SETTINGS_BIT_CHECK) in
  Z.land settings PADDING_BITS_MASK = pad
  /\ Z.land settings SETTINGS_BIT_CHECK <> 0.
Proof.
  intros H.
  assert (bi = 0 \/ bi = 1 \/ bi = 2 \/ bi = 3 \/ bi = 4 \/ bi = 5 \/ bi = 6
          \/ bi = 7) as Hc by lia.
  destruct Hc as [->|[->|[->|[->|[->|[->|[->| ->]]]]]]];
    vm_compute; split; congruence.
Qed.

Lemma end_at_before (size pad by_ bi q : Z) :
  0 <= bi < 8 -> 0 <= by_ ->
  pad = (if bi =? 0 then 0 else 8 - bi) ->
  size = (if bi =? 0 then by_ else by_ + 1) + 1 ->
  0 <= q <= 8 * by_ + bi + 8 ->
  end_at size pad q = false.
Proof.
  intros Hbi Hby Hpad Hsize Hq. unfold end_at.
  pose proof (Z.mod_pos_bound q 8 ltac:(lia)) as Hm.
  pose proof (Z.div_mod q 8 ltac:(lia)) as Hdm.
  destruct (bi =? 0) eqn:Eb.
  - subst pad. replace (q mod 8 + 0 =? 9) with false
      by (symmetry; apply Z.eqb_neq; lia).
    reflexivity.
  - apply Z.eqb_neq in Eb. subst pad size.
    destruct (q mod 8 + (8 - bi) =? 9) eqn:E1; [|reflexivity].
    apply Z.eqb_eq in E1. cbn [andb]. apply Z.eqb_neq. lia.
Qed.

Lemma Encode_Decode_aux (input : list Z) (c : HuffmanCoder.coder) (settings : Z) :
  bytes input ->
  input <> [] ->
  Z.of_nat (length input) < 2 ^ 50 ->
  HuffmanCoder.Encode input = Ret (c, settings) ->
  Z.land settings SETTINGS_BIT_CHECK <> 0 ->
  Z.land settings PADDING_BITS_MASK <> 1 ->
  (length (nodes (HuffmanCoder.tr c)) <= 159)%nat ->
  exists d,
    HuffmanDecoder.Decode (settings :: HuffmanCoder.output c)
                          (Z.of_nat (length (settings :: HuffmanCoder.output c)))
    = Ret (true, d)
    /\ HuffmanDecoder.GetSize d = Z.of_nat (length input)
    /\ firstn (length input) (HuffmanDecoder.buffer d) = input.
Proof.
  intros Hb Hne Hmax H Hflag Hpad1 Hn.
  change (2 ^ 50) with 1125899906842624 in Hmax.
  unfold HuffmanCoder.Encode in H.
  destruct (HuffmanCoder.Encode_loop HuffmanCoder.init input) as [c0|] eqn:E;
    cbn [bind] in H; [|discriminate].
  unfold HuffmanCoder.CompareWithRLE in H.
  destruct (Z.of_nat (length input) <? HuffmanCoder.GetSize c0) eqn:Ec.
  { inversion H; subst settings. exfalso. apply Hflag. reflexivity. }
  apply Z.ltb_ge in Ec. cbv zeta in H.
  assert (c0 = c) as -> by congruence.
  assert (u8 (Z.lor (u8 (if HuffmanCoder.bit_index c =? 0 then 0
                         else 8 - HuffmanCoder.bit_index c))
                    SETTINGS_BIT_CHECK) = settings) as Hset by congruence.
  clear H.
  destruct (Encode_loop_ok input HuffmanCoder.init c init_coder_ok Hb Hn
              ltac:(change (HuffmanCoder.byte_index HuffmanCoder.init) with 0;
                    change (2 ^ 60) with 1152921504606846976; lia) E)
    as [Hok [Hcur [Hnodes [Hby _]]]].
  change (Bits.cursor_of HuffmanCoder.init) with 0 in Hcur.
  change (HuffmanCoder.byte_index HuffmanCoder.init) with 0 in Hby.
  specialize (Hnodes Hne).
  pose proof Hok as [Hw _]. pose proof Hw as [Hbi [Hbyr [_ Hclean]]].
  assert (1 <= Z.of_nat (length input)) as Hlen1
      by (destruct input; [contradiction|cbn [length]; lia]).
  destruct (settings_fields (HuffmanCoder.bit_index c) Hbi) as [Hp Hf].
  cbv zeta in Hp, Hf. rewrite Hset in Hp, Hf.
  set (pad := if HuffmanCoder.bit_index c =? 0 then 0
              else 8 - HuffmanCoder.bit_index c) in *.
  assert (HuffmanCoder.GetSize c
          = if HuffmanCoder.bit_index c =? 0 then HuffmanCoder.byte_index c
            else HuffmanCoder.byte_index c + 1) as Hg.
  { unfold HuffmanCoder.GetSize.
    destruct (HuffmanCoder.bit_index c =? 0); [reflexivity|].
    apply u64_small. lia. }
  assert (1 <= HuffmanCoder.GetSize c <= HuffmanCoder.alloc c
          /\ Bits.cursor_of c <= 8 * HuffmanCoder.GetSize c) as [Hg1 Hg2].
  { rewrite Hg. unfold Bits.cursor_of, Bits.position in *.
    destruct (HuffmanCoder.bit_index c =? 0) eqn:Eb;
      [apply Z.eqb_eq in Eb|apply Z.eqb_neq in Eb]; lia. }
  assert (length (HuffmanCoder.output c) = Z.to_nat (HuffmanCoder.GetSize c))
    as Hout.
  { unfold HuffmanCoder.output, HuffmanCoder.alloc in *.
    rewrite length_firstn. lia. }
  set (F := settings :: HuffmanCoder.output c).
  set (size := Z.of_nat (length F)).
  assert (size = HuffmanCoder.GetSize c + 1) as Hsize.
  { unfold size, F. cbn [length]. rewrite Hout. lia. }
  assert (forall q, 0 <= q ->
                    Bits.bit_at F (q + 8)
                    = if q / 8 <? HuffmanCoder.GetSize c
                      then Bits.bit_at (HuffmanCoder.buffer c) q else false)
    as HF.
  { intros q Hq. unfold F. rewrite bit_at_cons by exact Hq.
    unfold HuffmanCoder.output, Bits.bit_at. rewrite nth_firstn.
    pose proof (Z.div_pos q 8 Hq ltac:(lia)) as Hd.
    destruct (q / 8 <? HuffmanCoder.GetSize c) eqn:El.
    - apply Z.ltb_lt in El.
      replace (Z.to_nat (q / 8) <? Z.to_nat (HuffmanCoder.GetSize c))%nat
        with true by (symmetry; apply Nat.ltb_lt; lia).
      reflexivity.
    - apply Z.ltb_ge in El.
      replace (Z.to_nat (q / 8) <? Z.to_nat (HuffmanCoder.GetSize c))%nat
        with false by (symmetry; apply Nat.ltb_ge; lia).
      apply Z.bits_0. }
  unfold HuffmanDecoder.Decode.
  replace (1 <? size) with true by (symmetry; apply Z.ltb_lt; lia).
  change (read F 0) with (Ret settings). cbn [bind].
  replace (negb (Z.land settings SETTINGS_BIT_CHECK =? 0)) with true
    by (symmetry; apply negb_true_iff, Z.eqb_neq; exact Hf).
  cbn [andb]. cbv zeta. rewrite Hp.
  set (d0 := {| HuffmanDecoder.tr := HuffmanDecoder.tr HuffmanDecoder.init;
                HuffmanDecoder.buffer := HuffmanDecoder.buffer HuffmanDecoder.init;
                HuffmanDecoder.write_byte_index :=
                  HuffmanDecoder.write_byte_index HuffmanDecoder.init;
                HuffmanDecoder.read_byte_index :=
                  u64 (HuffmanDecoder.read_byte_index HuffmanDecoder.init + 1);
                HuffmanDecoder.read_bit_index :=
                  HuffmanDecoder.read_bit_index HuffmanDecoder.init |}).
  assert (synced HuffmanCoder.init d0 []) as Hs0.
  { unfold synced. repeat split; try reflexivity; try (vm_compute; congruence);
      cbn; lia. }
  change (2 ^ 60) with 1152921504606846976 in *.
  destruct (Decode_follows F size pad input HuffmanCoder.init c d0 []
                           init_coder_ok Hs0 Hb Hn
                           ltac:(change (HuffmanCoder.byte_index HuffmanCoder.init)
                                   with 0;
                                 change (2 ^ 60) with 1152921504606846976; lia)
                           E ltac:(unfold size; lia)
                           ltac:(change (2 ^ 60) with 1152921504606846976; lia)
                           ltac:(lia))
    as [d' [turns [Hturns [Hs' Hrun]]]].
  - intros q Hq. change (Bits.cursor_of HuffmanCoder.init) with 0 in Hq.
    rewrite HF by lia.
    replace (q / 8 <? HuffmanCoder.GetSize c) with true; [reflexivity|].
    symmetry. apply Z.ltb_lt. apply Z.div_lt_upper_bound; lia.
  - intros q Hq. change (Bits.cursor_of HuffmanCoder.init) with 0 in Hq.
    apply (end_at_before size pad (HuffmanCoder.byte_index c)
                         (HuffmanCoder.bit_index c) q Hbi ltac:(lia) eq_refl).
    + rewrite Hsize, Hg. reflexivity.
    + unfold Bits.cursor_of, Bits.position in Hq. lia.
  - cbn [length]. change (2 ^ 64) with 18446744073709551616. lia.
  - change (Bits.cursor_of HuffmanCoder.init) with 0 in Hturns.
    cbn [app] in Hs'.
    replace (S (S (16 * Z.to_nat size)))
      with (turns + (2 + (16 * Z.to_nat size - turns)))%nat by lia.
    rewrite Hrun.
    destruct (Decode_end F size pad c d' input (16 * Z.to_nat size - turns)
                         Hok Hs' Hnodes Hsize ltac:(unfold size; lia)
                         ltac:(change (2 ^ 60) with 1152921504606846976; lia)
                         eq_refl ltac:(rewrite <- Hp; exact Hpad1))
      as [d'' [Hfin [Hbuf Hwr]]].
    + assert (0 <= Bits.cursor_of c) as Hc0 by lia.
      rewrite HF by exact Hc0.
      destruct (Bits.cursor_of c / 8 <? HuffmanCoder.GetSize c); [|reflexivity].
      apply Hclean. lia.
    + exists d''. split; [exact Hfin|].
      destruct Hs' as [_ [_ [_ [_ [Sw [_ So]]]]]].
      unfold HuffmanDecoder.GetSize. rewrite Hwr, Hbuf.
      split; [exact Sw|exact So].
Qed.

(** X28: the Huffman stage is lossless when the padding is not one bit.
    For a non-empty buffer of bytes on which [Encode] returns with the
    Huffman flag set, a padding other than 1 and a tree of at most 159
    nodes (so that no code word is longer than the 20 bytes that
    [ReallocateBuffer] keeps free), [Decode] on the file that [main]
    writes, the settings byte followed by the buffer of the coder,
    returns true, and its output is the input. *)
Theorem Encode_Decode (input : list Z) (c : HuffmanCoder.coder) (settings : Z) :
  bytes input ->
  input <> [] ->
  Z.of_nat (length input) < 2 ^ 50 ->
  HuffmanCoder.Encode input = Ret (c, settings) ->
  Z.land settings SETTINGS_BIT_CHECK <> 0 ->
  Z.land settings PADDING_BITS_MASK <> 1 ->
  (length (nodes (HuffmanCoder.tr c)) <= 159)%nat ->
  exists d,
    HuffmanDecoder.Decode (settings :: HuffmanCoder.output c)
                          (Z.of_nat (length (settings :: HuffmanCoder.output c)))
    = Ret (true, d)
    /\ HuffmanDecoder.GetSize d = Z.of_nat (length input)
    /\ firstn (length input) (HuffmanDecoder.buffer d) = input.
Proof. exact (Encode_Decode_aux input c settings). Qed.

Lemma Encode_Decode_witness :
  exists c d,
    HuffmanCoder.Encode [5; 6; 5; 5; 7; 6; 5; 5] = Ret (c, 15)
    /\ HuffmanDecoder.Decode (15 :: HuffmanCoder.output c)
                             (Z.of_nat (length (15 :: HuffmanCoder.output c)))
       = Ret (true, d)
    /\ firstn 8 (HuffmanDecoder.buffer d) = [5; 6; 5; 5; 7; 6; 5; 5].
Proof.
  destruct (HuffmanCoder.Encode [5; 6; 5; 5; 7; 6; 5; 5]) as [[c s]|] eqn:E;
    [|vm_compute in E; discriminate].
  assert (s = 15 /\ (length (nodes (HuffmanCoder.tr c)) <= 159)%nat) as [-> Hn].
  { vm_compute in E. inversion E. split; [reflexivity|]. cbn. lia. }
  destruct (Encode_Decode [5; 6; 5; 5; 7; 6; 5; 5] c 15) as [d [H1 [_ H3]]].
  - repeat constructor; unfold is_byte; lia.
  - discriminate.
  - reflexivity.
  - exact E.
  - vm_compute. congruence.
  - vm_compute. congruence.
  - exact Hn.
  - exists c, d. split; [reflexivity|]. split; [exact H1|exact H3].
Defined.

End HuffmanRoundTrip.

(** ** The whole program on the Huffman branch *)

Section PipelineHuffman.
Import Rle RleCompressor RleDecompressor Format Trace Notions Huffman.

(** *** The decompressor reads what it is given

    The buffer of the Huffman decoder is longer than the frame it
    holds; the RLE decompressor that does not leave the frame is not
    affected by the bytes behind it. *)

Lemma read_more (buf extra : list Z) (i : nat) (b : Z) :
  read buf i = Ret b -> read (buf ++ extra) i = Ret b.
Proof.
  unfold read. destruct (nth_error buf i) as [v|] eqn:E; [|discriminate].
  intros H. rewrite nth_error_app1 by (apply nth_error_Some; congruence).
  rewrite E. exact H.
Qed.

Lemma GetValCount_bits_more (extra : list Z) (fuel : nat) :
  forall buf r count cb e,
    GetValCount_bits fuel buf r count cb = Ret e ->
    GetValCount_bits fuel (buf ++ extra) r count cb = Ret e.
Proof.
  induction fuel as [|f IH]; intros buf r count cb e H.
  - cbn [GetValCount_bits] in *. destruct (bit_index r <? UINT8_T_SIZE);
      [discriminate|exact H].
  - cbn [GetValCount_bits] in *.
    destruct (bit_index r <? UINT8_T_SIZE); [|exact H].
    destruct (negb _).
    + apply bind_Ret in H. destruct H as [b [Hr Hk]].
      rewrite (read_more _ _ _ _ Hr). cbn [bind]. apply IH. exact Hk.
    + apply bind_Ret in H. destruct H as [b [Hr Hk]].
      rewrite (read_more _ _ _ _ Hr). cbn [bind]. exact Hk.
Qed.

Lemma GetValCount_loop_more (extra : list Z) (size : nat) (fuel : nat) :
  forall buf r count cb o,
    GetValCount_loop fuel buf size r count cb = Ret o ->
    GetValCount_loop fuel (buf ++ extra) size r count cb = Ret o.
Proof.
  induction fuel as [|f IH]; intros buf r count cb o H;
    cbn [GetValCount_loop] in *; [discriminate|].
  destruct (RleDecompressor.index r <? size)%nat; [|exact H].
  apply bind_Ret in H. destruct H as [r1 [Hr1 H]].
  apply bind_Ret in H. destruct H as [e [He H]].
  assert ((if bit_index r =? 0
           then b <- read (buf ++ extra) (RleDecompressor.index r) ;;
                Ret {| RleDecompressor.index := S (RleDecompressor.index r);
                       bit_index := bit_index r; byte := b |}
           else Ret r) = Ret r1) as Hr1'.
  { destruct (bit_index r =? 0); [|exact Hr1].
    apply bind_Ret in Hr1. destruct Hr1 as [b [Hb Hk]].
    rewrite (read_more _ _ _ _ Hb). exact Hk. }
  rewrite Hr1'. cbn [bind].
  rewrite (GetValCount_bits_more extra _ _ _ _ _ _ He). cbn [bind].
  destruct e as [c v r2|c cb2 r2]; [exact H|]. apply IH. exact H.
Qed.

Lemma GetValCount_more (extra buf : list Z) (size : nat) (r : reader)
      (o : option (Z * Z) * reader) :
  GetValCount buf size r = Ret o -> GetValCount (buf ++ extra) size r = Ret o.
Proof. apply GetValCount_loop_more. Qed.

Lemma DecompressHorizontally_loop_more (extra buf : list Z) (size : nat)
      (fuel : nat) :
  forall r im im',
    DecompressHorizontally_loop fuel buf size r im = Ret im' ->
    DecompressHorizontally_loop fuel (buf ++ extra) size r im = Ret im'.
Proof.
  induction fuel as [|f IH]; intros r im im' H;
    cbn [DecompressHorizontally_loop] in *; [discriminate|].
  apply bind_Ret in H. destruct H as [[o r1] [Hg H]].
  rewrite (GetValCount_more extra _ _ _ _ Hg). cbn [bind].
  destruct o as [[count val]|]; [|exact H].
  destruct (_ <? _); [exact H|]. apply IH. exact H.
Qed.

Lemma DecompressVertically_loop_more (extra buf : list Z) (size : nat)
      (width height image_size : Z) (fuel : nat) :
  forall r c im res,
    DecompressVertically_loop fuel buf size width height image_size r c im
    = Ret res ->
    DecompressVertically_loop fuel (buf ++ extra) size width height image_size
                              r c im = Ret res.
Proof.
  induction fuel as [|f IH]; intros r c im res H;
    cbn [DecompressVertically_loop] in *; [discriminate|].
  apply bind_Ret in H. destruct H as [[o r1] [Hg H]].
  rewrite (GetValCount_more extra _ _ _ _ Hg). cbn [bind].
  destruct o as [[count val]|]; [|exact H].
  destruct (DecompressVertically_run _ _ _ _ _ _ _) as [[[go c1] im1]|];
    cbn [bind] in *; [|discriminate].
  destruct go; [|exact H]. apply IH. exact H.
Qed.

Lemma GetSize_loop_more (extra buf : list Z) (limit : nat) (ixs : list nat) :
  forall v res,
    GetSize_loop buf ixs limit v = Ret res ->
    GetSize_loop (buf ++ extra) ixs limit v = Ret res.
Proof.
  induction ixs as [|i ixs IH]; intros v res H; cbn [GetSize_loop] in *;
    [exact H|].
  apply bind_Ret in H. destruct H as [b [Hb H]].
  rewrite (read_more _ _ _ _ Hb). cbn [bind]. apply IH. exact H.
Qed.

Lemma GetSize_more (extra buf : list Z) (size : nat)
      (o : option (Z * Z * nat)) :
  RleDecompressor.GetSize buf size = Ret o ->
  RleDecompressor.GetSize (buf ++ extra) size = Ret o.
Proof.
  unfold RleDecompressor.GetSize. intros H.
  apply bind_Ret in H. destruct H as [s [Hs H]].
  rewrite (read_more _ _ _ _ Hs). cbn [bind].
  destruct (_ <? _); [exact H|].
  apply bind_Ret in H. destruct H as [w [Hw H]].
  rewrite (GetSize_loop_more extra _ _ _ _ _ Hw). cbn [bind].
  apply bind_Ret in H. destruct H as [h [Hh H]].
  rewrite (GetSize_loop_more extra _ _ _ _ _ Hh). cbn [bind]. exact H.
Qed.

Lemma Decompress_more (extra buf : list Z) (size : nat) (r : decompressed) :
  Decompress buf size = Ret r -> Decompress (buf ++ extra) size = Ret r.
Proof.
  unfold Decompress. intros H.
  destruct (size =? 0)%nat; [exact H|].
  apply bind_Ret in H. destruct H as [s [Hs H]].
  rewrite (read_more _ _ _ _ Hs). cbn [bind].
  apply bind_Ret in H. destruct H as [o [Ho H]].
  rewrite (GetSize_more extra _ _ _ Ho). cbn [bind].
  destruct o as [[[w h] i0]|]; [|exact H].
  destruct (negb (Z.land s SCANNING_MASK =? 0)).
  - apply bind_Ret in H. destruct H as [res [Hres H]].
    unfold DecompressHorizontally in *.
    apply bind_Ret in Hres. destruct Hres as [im1 [Him Hres]].
    rewrite (DecompressHorizontally_loop_more extra _ _ _ _ _ _ Him).
    cbn [bind]. injection Hres as <-. exact H.
  - apply bind_Ret in H. destruct H as [res [Hres H]].
    unfold DecompressVertically in *. cbv zeta in *.
    apply bind_Ret in Hres. destruct Hres as [[completed im1] [Him Hres]].
    rewrite (DecompressVertically_loop_more extra _ _ _ _ _ _ _ _ _ _ Him).
    cbn [bind]. rewrite Hres. cbn [bind]. exact H.
Qed.

(** *** The frame is a buffer of bytes *)

Lemma Preprocess_loop_bytes (xs : list Z) :
  forall prev, bytes (DataWorker.Preprocess_loop prev xs).
Proof.
  induction xs as [|x xs IH]; intros prev; cbn [DataWorker.Preprocess_loop];
    constructor; [apply u8_range|apply IH].
Qed.

Lemma Preprocess_bytes (x : list Z) : bytes x -> bytes (DataWorker.Preprocess x).
Proof.
  intros Hx. destruct x as [|p xs]; [constructor|].
  cbn [DataWorker.Preprocess]. constructor;
    [exact (Forall_inv Hx)|apply Preprocess_loop_bytes].
Qed.

Lemma runs_from_values (bs : list Z) :
  forall pixel c,
    is_byte pixel -> bytes bs ->
    Forall (fun nv => is_byte (snd nv)) (runs_from pixel c bs).
Proof.
  induction bs as [|b bs IH]; intros pixel c Hp Hbs; cbn [runs_from].
  - constructor; [exact Hp|constructor].
  - pose proof (Forall_inv Hbs) as Hb. pose proof (Forall_inv_tail Hbs) as Ht.
    destruct (b =? pixel).
    + apply IH; assumption.
    + constructor; [exact Hp|]. apply IH; assumption.
Qed.

Lemma run_bytes_are_bytes (n v : Z) :
  1 <= n -> n - 2 < 2 ^ 56 -> is_byte v ->
  Forall (fun e : Z * bool => is_byte (fst e)) (run_bytes n v).
Proof.
  intros Hn Hmax Hv.
  destruct (run_bytes_fragments n v Hn Hmax) as [digits [Hr [Hd _]]].
  rewrite Hr. apply Forall_app. split.
  - apply Forall_map. exact Hd.
  - constructor; [exact Hv|constructor].
Qed.

Lemma entries_bytes (rs : list (Z * Z)) :
  Forall (fun nv => 1 <= fst nv /\ fst nv - 2 < 2 ^ 56) rs ->
  Forall (fun nv => is_byte (snd nv)) rs ->
  Forall (fun e : Z * bool => is_byte (fst e)) (flat_map run_bytes_of rs).
Proof.
  induction rs as [|[n v] rs IH]; intros Hc Hv; cbn [flat_map]; [constructor|].
  apply Forall_app. split.
  - pose proof (Forall_inv Hc) as [H1 H2]. pose proof (Forall_inv Hv) as H3.
    cbn [fst snd] in *. apply run_bytes_are_bytes; assumption.
  - apply IH; [exact (Forall_inv_tail Hc)|exact (Forall_inv_tail Hv)].
Qed.

Lemma render_bytes (chunk : list (Z * bool)) :
  (length chunk <= 8)%nat ->
  Forall (fun e : Z * bool => is_byte (fst e)) chunk ->
  bytes (render chunk).
Proof.
  intros Hl Hc. unfold render. constructor.
  - pose proof (group_bits_range (map snd chunk)) as Hg.
    rewrite length_map in Hg.
    assert (2 ^ Z.of_nat (length chunk) <= 2 ^ 8)
        by (apply Z.pow_le_mono_r; lia).
    change (2 ^ 8) with 256 in *. unfold is_byte. lia.
  - apply Forall_map. exact Hc.
Qed.

Lemma pack_from_bytes (es : list (Z * bool)) :
  forall pend,
    (length pend < 8)%nat ->
    Forall (fun e : Z * bool => is_byte (fst e)) pend ->
    Forall (fun e : Z * bool => is_byte (fst e)) es ->
    bytes (pack_from pend es).
Proof.
  induction es as [|e es IH]; intros pend Hl Hp He; cbn [pack_from].
  - destruct pend as [|p pend]; [constructor|].
    apply render_bytes; [lia|exact Hp].
  - pose proof (Forall_inv He) as He1. pose proof (Forall_inv_tail He) as He2.
    assert (Forall (fun e0 : Z * bool => is_byte (fst e0)) (pend ++ [e])) as Hpe.
    { apply Forall_app. split; [exact Hp|]. constructor; [exact He1|constructor]. }
    assert (length (pend ++ [e]) = S (length pend)) as Hlen
        by (rewrite length_app; simpl; lia).
    destruct (length (pend ++ [e]) =? 8)%nat eqn:E.
    + apply Forall_app. split.
      * apply render_bytes; [lia|exact Hpe].
      * apply IH; [simpl; lia|constructor|exact He2].
    + apply Nat.eqb_neq in E. apply IH; [lia|exact Hpe|exact He2].
Qed.

Lemma header_bytes_are_bytes (s W H : Z) : bytes (header_bytes s W H).
Proof.
  unfold header_bytes. constructor; [apply u8_range|].
  assert (forall v, 0 <= u32 v < 4294967296) as Hu
      by (intros v; unfold u32; apply Z.mod_pos_bound; lia).
  apply Forall_app. split.
  - exact (proj1 (size_vec_digits (u32 W) (Hu W))).
  - exact (proj1 (size_vec_digits (u32 H) (Hu H))).
Qed.

Lemma stream_bytes (header pixels : list Z) :
  bytes header -> bytes pixels ->
  Z.of_nat (length pixels) < 2 ^ 56 ->
  bytes (header ++ pack (flat_map run_bytes_of (runs pixels))).
Proof.
  intros Hh Hp Hmax. apply Forall_app. split; [exact Hh|].
  unfold pack. apply pack_from_bytes; [simpl; lia|constructor|].
  destruct pixels as [|a bs]; [constructor|].
  cbn [runs length] in *. rewrite Nat2Z.inj_succ in Hmax.
  apply entries_bytes.
  - destruct (runs_from_counts bs a 1 ltac:(lia)) as [_ Hc].
    eapply Forall_impl; [|exact Hc]. cbv beta. intros nv Hnv. lia.
  - apply runs_from_values; [exact (Forall_inv Hp)|exact (Forall_inv_tail Hp)].
Qed.

Lemma column_major_bytes (x : list Z) (W H : Z) :
  bytes x -> bytes (column_major x W H).
Proof.
  intros Hx. unfold column_major. apply Forall_map.
  apply Forall_forall. intros xy _.
  destruct (nth_in_or_default (snd xy * Z.to_nat W + fst xy) x 0) as [Hin|Hz].
  - exact (proj1 (Forall_forall _ _) Hx _ Hin).
  - rewrite Hz. unfold is_byte. lia.
Qed.

Lemma frame_bytes (x : list Z) (W H : Z) (m a : bool) :
  1 <= W -> 1 <= H -> W * H < 4294967296 ->
  Z.of_nat (length x) = W * H ->
  bytes x ->
  bytes (chosen_stream x W H m a).
Proof.
  intros HW HH HWH Hlen Hx.
  assert (bytes (horizontal_stream x W H m)) as Hseq.
  { apply stream_bytes; [apply header_bytes_are_bytes|exact Hx|].
    change (2 ^ 56) with 72057594037927936. lia. }
  unfold chosen_stream. destruct a; [|exact Hseq].
  destruct (_ <=? _)%nat; [|exact Hseq].
  apply stream_bytes;
    [apply header_bytes_are_bytes|apply column_major_bytes; exact Hx|].
  rewrite (column_major_length x W H) by lia.
  change (2 ^ 56) with 72057594037927936. lia.
Qed.

(** *** The round trip *)

Lemma round_trip_huffman_aux (x : list Z) (W H : Z) (m a : bool) :
  bytes x ->
  1 <= W -> 1 <= H ->
  2 <= W * H -> W * H + W * H / 8 + 1 < 4294967296 ->
  Z.of_nat (length x) = W * H ->
  exists frame,
    Main.rle_stage x W m a = Ret frame
    /\ forall (c : HuffmanCoder.coder) (settings : Z),
        HuffmanCoder.Encode frame = Ret (c, settings) ->
        Z.land settings SETTINGS_BIT_CHECK <> 0 ->
        Z.land settings PADDING_BITS_MASK <> 1 ->
        (length (nodes (HuffmanCoder.tr c)) <= 159)%nat ->
        Main.compress x W m a = Ret (settings :: HuffmanCoder.output c)
        /\ Main.decompress (settings :: HuffmanCoder.output c) = Ret (Some x)
        /\ Main.round_trip x W m a = Ret (Some x).
Proof.
  intros Hx HW HH H2 Hmax Hlen.
  assert (0 <= W * H / 8) as Hd8 by (apply Z.div_pos; lia).
  set (pixels := if m then DataWorker.Preprocess x else x).
  set (frame := chosen_stream pixels W H m a).
  pose proof (rle_stage_returns x W H m a HW HH H2 Hmax Hlen) as Hrle.
  fold pixels in Hrle. fold frame in Hrle.
  exists frame. split; [exact Hrle|].
  intros c settings E Hflag Hpad Hn.
  assert (Main.compress x W m a = Ret (settings :: HuffmanCoder.output c)) as Hc.
  { unfold Main.compress. rewrite Hrle. cbn [bind]. rewrite E. reflexivity. }
  assert (Z.of_nat (length pixels) = W * H) as Hpl.
  { unfold pixels. destruct m; [rewrite Preprocess_length|]; exact Hlen. }
  assert (bytes pixels) as Hpb.
  { unfold pixels. destruct m; [apply Preprocess_bytes|]; exact Hx. }
  pose proof (frame_bound pixels W H m a HW HH ltac:(lia) Hpl) as Hfb.
  fold frame in Hfb.
  pose proof (frame_bytes pixels W H m a HW HH ltac:(lia) Hpl Hpb) as Hfy.
  fold frame in Hfy.
  pose proof (frame_decoded pixels W H m a HW HH ltac:(lia) Hpl) as Hfd.
  cbv zeta in Hfd. fold frame in Hfd.
  assert ((W * H + 7) / 8 <= W * H + 7) as Hdiv
      by (apply Z.div_le_upper_bound; lia).
  assert (frame <> []) as Hne.
  { intros Hnil. rewrite Hnil in Hfd. discriminate Hfd. }
  destruct (Encode_Decode_aux frame c settings Hfy Hne
              ltac:(change (2 ^ 50) with 1125899906842624; lia)
              E Hflag Hpad Hn) as [d [Hdec [Hg Hf]]].
  assert (Main.decompress (settings :: HuffmanCoder.output c) = Ret (Some x)) as Hd.
  { unfold Main.decompress. rewrite Hdec. cbn [bind negb].
    rewrite Hg, Nat2Z.id.
    rewrite <- (firstn_skipn (length frame) (HuffmanDecoder.buffer d)), Hf.
    rewrite (Decompress_more _ _ _ _ Hfd).
    cbn [bind ok negb convert_from_model out].
    unfold pixels. destruct m; [|reflexivity].
    f_equal. f_equal. destruct x as [|p xs]; [reflexivity|].
    cbn [DataWorker.Preprocess DataWorker.Depreprocess]. f_equal.
    apply Depreprocess_loop_inverse;
      [exact (Forall_inv Hx)|exact (Forall_inv_tail Hx)]. }
  split; [exact Hc|]. split; [exact Hd|].
  unfold Main.round_trip. rewrite Hc. cbn [bind]. exact Hd.
Qed.

(** X29: the round trip of the whole program on the Huffman branch.
    For an image of two pixels or more whose first block of
    [W * H + W * H / 8 + 1] bytes fits 32 bits, and every choice of the
    options [-m] and [-a], the RLE stage returns a frame; when the
    Huffman coder returns on it with the Huffman flag set, a padding
    other than 1 and a tree of at most 159 nodes, the compressor writes
    the settings byte and the buffer of the coder, and the decompressor
    returns the image from that file. *)
Theorem round_trip_huffman (x : list Z) (W H : Z) (m a : bool) :
  bytes x ->
  1 <= W -> 1 <= H ->
  2 <= W * H -> W * H + W * H / 8 + 1 < 4294967296 ->
  Z.of_nat (length x) = W * H ->
  exists frame,
    Main.rle_stage x W m a = Ret frame
    /\ forall (c : HuffmanCoder.coder) (settings : Z),
        HuffmanCoder.Encode frame = Ret (c, settings) ->
        Z.land settings SETTINGS_BIT_CHECK <> 0 ->
        Z.land settings PADDING_BITS_MASK <> 1 ->
        (length (nodes (HuffmanCoder.tr c)) <= 159)%nat ->
        Main.compress x W m a = Ret (settings :: HuffmanCoder.output c)
        /\ Main.decompress (settings :: HuffmanCoder.output c) = Ret (Some x)
        /\ Main.round_trip x W m a = Ret (Some x).
Proof. exact (round_trip_huffman_aux x W H m a). Qed.

Lemma round_trip_huffman_witness :
  Main.round_trip [1; 2; 1; 2; 1; 2; 1; 2; 1; 2; 1; 2; 1; 2] 14 true true
  = Ret (Some [1; 2; 1; 2; 1; 2; 1; 2; 1; 2; 1; 2; 1; 2]).
Proof.
  destruct (round_trip_huffman [1; 2; 1; 2; 1; 2; 1; 2; 1; 2; 1; 2; 1; 2]
                               14 1 true true) as [frame [Hf Hrt]];
    [repeat constructor; unfold is_byte; lia
    |lia|lia|lia|reflexivity|reflexivity|].
  destruct (HuffmanCoder.Encode frame) as [[c s]|] eqn:E.
  - assert (s = 13 /\ (length (nodes (HuffmanCoder.tr c)) <= 159)%nat) as [-> Hn].
    { vm_compute in Hf. inversion Hf; subst frame.
      vm_compute in E. inversion E. split; [reflexivity|]. cbn. lia. }
    destruct (Hrt c 13 eq_refl) as [_ [_ H]];
      [vm_compute; congruence|vm_compute; congruence|exact Hn|exact H].
  - exfalso. vm_compute in Hf. inversion Hf; subst frame.
    vm_compute in E. discriminate.
Defined.

End PipelineHuffman.

(** ** The size of the tree *)

Section TreeSize.
Import Huffman Codes.

Lemma nodup_length_same (l l' : list Z) :
  (forall x, In x l <-> In x l') ->
  length (nodup Z.eq_dec l) = length (nodup Z.eq_dec l').
Proof.
  intros H. apply Nat.le_antisymm; apply NoDup_incl_length;
    try apply NoDup_nodup; intros x Hx; apply nodup_In; apply nodup_In in Hx;
    apply H; exact Hx.
Qed.

Lemma distinct_bytes (l : list Z) :
  bytes l -> (length (nodup Z.eq_dec l) <= 256)%nat.
Proof.
  intros Hl.
  replace 256%nat with (length (map Z.of_nat (seq 0 256)))
    by (rewrite length_map, length_seq; reflexivity).
  apply NoDup_incl_length; [apply NoDup_nodup|].
  intros x Hx. apply nodup_In in Hx.
  pose proof (proj1 (Forall_forall _ _) Hl x Hx) as Hb. unfold is_byte in Hb.
  apply in_map_iff. exists (Z.to_nat x). split; [lia|].
  apply in_seq. lia.
Qed.

(** A turn of the loop of [Encode] adds two nodes for a byte that the
    table [leaf_nodes] does not know, and none for a byte it knows. *)
Lemma Encode_step_count (c c' : HuffmanCoder.coder) (b : Z) (seen : list Z) :
  is_byte b ->
  linked (HuffmanCoder.tr c) ->
  labelled c ->
  (forall s, is_byte s ->
             (In s seen
              <-> exists p, nth_error (HuffmanCoder.leaf_nodes c) (Z.to_nat s)
                            = Some (Some p))) ->
  length (nodes (HuffmanCoder.tr c)) = S (2 * length (nodup Z.eq_dec seen)) ->
  HuffmanCoder.Encode_step c b = Ret c' ->
  (forall s, is_byte s ->
             (In s (b :: seen)
              <-> exists p, nth_error (HuffmanCoder.leaf_nodes c') (Z.to_nat s)
                            = Some (Some p)))
  /\ length (nodes (HuffmanCoder.tr c'))
     = S (2 * length (nodup Z.eq_dec (b :: seen))).
Proof.
  intros Hb Hl [Hlen Hlab] Hseen Hcount H.
  destruct (Encode_step_cases c c' b H)
    as [[p [path [c1 [t [Ef [Ep [E1 [Eu ->]]]]]]]]
       |[path [c1 [c2 [old [c3 [t [Ef [Ep [E1 [E2 [E3 [Eu ->]]]]]]]]]]]]];
    cbn [HuffmanCoder.with_tree HuffmanCoder.tr HuffmanCoder.leaf_nodes];
    destruct (AddBits_tree _ _ _ E1) as [T1 L1];
    unfold HuffmanCoder.FindSymbol in Ef;
    destruct (nth_error (HuffmanCoder.leaf_nodes c) (Z.to_nat b)) as [e|] eqn:En;
    try discriminate; injection Ef as ->.
  - assert (In b seen) as Hin by (apply (Hseen b Hb); exists p; exact En).
    rewrite T1 in Eu. unfold update_tree in Eu.
    destruct (update_linked _ _ _ _ _ Hl Eu) as [_ [[F _] _]].
    rewrite L1, F. split.
    + intros s Hs. rewrite <- (Hseen s Hs). cbn [In]. split.
      * intros [<-|Hi]; assumption.
      * intros Hi. right. exact Hi.
    + cbn [nodup]. destruct (in_dec Z.eq_dec b seen) as [_|Hno];
        [exact Hcount|contradiction].
  - assert (~ In b seen) as Hnin.
    { intros Hin. apply (Hseen b Hb) in Hin. destruct Hin as [p Hp]. congruence. }
    unfold HuffmanCoder.AddSymbol in E2. rewrite T1 in E2.
    destruct (AddSymbol_linked (HuffmanCoder.tr c) b Hl)
      as [t0 [Ea [Hl0 [Hn0 _]]]].
    rewrite Ea in E2. cbn [bind] in E2. inversion E2; subst c2 old; clear E2.
    destruct (AddBits_tree _ _ _ E3) as [T3 L3].
    cbn [HuffmanCoder.tr HuffmanCoder.leaf_nodes] in T3, L3.
    rewrite T3 in Eu. unfold update_tree in Eu.
    destruct (update_linked _ _ _ _ _ Hl0 Eu) as [_ [[F _] _]].
    rewrite L3, L1, F, Hn0. split.
    + intros s Hs. rewrite nth_error_store. rewrite Hlen.
      unfold is_byte in Hb, Hs.
      replace (Z.to_nat s <? 256)%nat with true
        by (symmetry; apply Nat.ltb_lt; lia).
      rewrite andb_true_r. cbn [In].
      destruct (Z.to_nat b =? Z.to_nat s)%nat eqn:E.
      * apply Nat.eqb_eq in E. assert (b = s) as Hbs by lia. split.
        -- intros _. eexists. reflexivity.
        -- intros _. left. exact Hbs.
      * apply Nat.eqb_neq in E. rewrite <- (Hseen s Hs). split.
        -- intros [Hbs|Hi]; [subst s; contradiction|exact Hi].
        -- intros Hi. right. exact Hi.
    + cbn [nodup]. destruct (in_dec Z.eq_dec b seen) as [Hin|_];
        [contradiction|].
      cbn [length]. rewrite Hcount. lia.
Qed.

Lemma Encode_loop_count (rest : list Z) :
  forall (c c' : HuffmanCoder.coder) (seen : list Z),
    bytes rest ->
    linked (HuffmanCoder.tr c) ->
    labelled c ->
    (forall s, is_byte s ->
               (In s seen
                <-> exists p, nth_error (HuffmanCoder.leaf_nodes c) (Z.to_nat s)
                              = Some (Some p))) ->
    length (nodes (HuffmanCoder.tr c)) = S (2 * length (nodup Z.eq_dec seen)) ->
    HuffmanCoder.Encode_loop c rest = Ret c' ->
    length (nodes (HuffmanCoder.tr c'))
    = S (2 * length (nodup Z.eq_dec (rev rest ++ seen))).
Proof.
  induction rest as [|b rest IH]; intros c c' seen Hb Hl Hlab Hseen Hcount H;
    cbn [HuffmanCoder.Encode_loop] in H.
  - inversion H; subst c'. exact Hcount.
  - destruct (HuffmanCoder.Encode_step c b) as [c1|] eqn:E; cbn [bind] in H;
      [|discriminate].
    destruct (Encode_step_linked c c1 b (Forall_inv Hb) Hl Hlab E) as [Hl1 Hlab1].
    destruct (Encode_step_count c c1 b seen (Forall_inv Hb) Hl Hlab Hseen Hcount E)
      as [Hseen1 Hcount1].
    cbn [rev]. rewrite <- app_assoc. cbn [app].
    exact (IH c1 c' (b :: seen) (Forall_inv_tail Hb) Hl1 Hlab1 Hseen1 Hcount1 H).
Qed.

Lemma Encode_tree_size_aux (input : list Z) (c : HuffmanCoder.coder)
      (settings : Z) :
  bytes input ->
  HuffmanCoder.Encode input = Ret (c, settings) ->
  length (nodes (HuffmanCoder.tr c)) = S (2 * length (nodup Z.eq_dec input))
  /\ (length (nodes (HuffmanCoder.tr c)) <= 513)%nat.
Proof.
  intros Hb H. unfold HuffmanCoder.Encode in H.
  destruct (HuffmanCoder.Encode_loop HuffmanCoder.init input) as [c0|] eqn:E;
    cbn [bind] in H; [|discriminate].
  assert (HuffmanCoder.tr c = HuffmanCoder.tr c0) as Htr.
  { unfold HuffmanCoder.CompareWithRLE in H.
    destruct (_ <? _); inversion H; reflexivity. }
  destruct init_labelled as [Hl Hlab].
  assert (length (nodes (HuffmanCoder.tr c0))
          = S (2 * length (nodup Z.eq_dec (rev input ++ [])))) as Hc.
  { apply (Encode_loop_count input HuffmanCoder.init c0 [] Hb Hl Hlab);
      [|reflexivity|exact E].
    intros s Hs. split; [intros []|].
    intros [p Hp]. apply nth_error_In in Hp.
    change (HuffmanCoder.leaf_nodes HuffmanCoder.init)
      with (repeat (@None nat) 256) in Hp.
    apply repeat_spec in Hp. discriminate. }
  rewrite app_nil_r in Hc.
  rewrite (nodup_length_same (rev input) input) in Hc
    by (intros x; symmetry; apply in_rev).
  rewrite Htr. split; [exact Hc|].
  pose proof (distinct_bytes input Hb). lia.
Qed.

(** X30: the size of the tree.  When [Encode] returns on a buffer of
    bytes, the tree of the coder has [2 * k + 1] nodes, where [k] is the
    number of distinct byte values of the buffer: the first NYT node and
    the two nodes that [AddSymbol] makes for every new value; so it
    never has more than [N_VALUES * 2 + 1 = 513] nodes. *)
Theorem Encode_tree_size (input : list Z) (c : HuffmanCoder.coder)
        (settings : Z) :
  bytes input ->
  HuffmanCoder.Encode input = Ret (c, settings) ->
  length (nodes (HuffmanCoder.tr c)) = S (2 * length (nodup Z.eq_dec input))
  /\ (length (nodes (HuffmanCoder.tr c)) <= 513)%nat.
Proof. exact (Encode_tree_size_aux input c settings). Qed.

Lemma Encode_tree_size_witness :
  exists c settings,
    HuffmanCoder.Encode [5; 6; 5; 5; 7; 6; 5; 5] = Ret (c, settings)
    /\ length (nodes (HuffmanCoder.tr c)) = 7%nat.
Proof.
  destruct (HuffmanCoder.Encode [5; 6; 5; 5; 7; 6; 5; 5]) as [[c s]|] eqn:E;
    [|vm_compute in E; discriminate].
  exists c, s. split; [reflexivity|].
  destruct (Encode_tree_size [5; 6; 5; 5; 7; 6; 5; 5] c s) as [H _].
  - repeat constructor; unfold is_byte; lia.
  - exact E.
  - rewrite H. reflexivity.
Defined.

End TreeSize.
